(** * assppweb backend: download manager, chunked downloader, sinf injector

    A shallow embedding of the TypeScript sources
      backend/src/services/downloadManager.ts
      backend/src/services/chunkedDownloader.ts
      backend/src/services/sinfInjector.ts
      backend/src/config.ts
    together with the properties of the specification that concern them. *)

From Stdlib Require Import List NArith ZArith Bool String Ascii Lia Arith.
From Stdlib Require Import DecimalString Permutation Sorted.
From Stdlib Require Import Floats.SpecFloat.
Import ListNotations.

Set Implicit Arguments.


(** ** JavaScript strings

    A JavaScript string is a sequence of UTF-16 code units.  Regular
    expressions without the [u] flag, [startsWith], [includes], [split]
    and [replace] all work code unit by code unit, so a string is modelled
    as the list of its code units. *)

Definition char := N.
Definition jstring := list char.

Definition js (s : string) : jstring :=
  map N_of_ascii (list_ascii_of_string s).

Definition jstring_eq_dec : forall a b : jstring, {a = b} + {a <> b} :=
  list_eq_dec N.eq_dec.

Definition streq (a b : jstring) : bool :=
  if jstring_eq_dec a b then true else false.

(** [String(n)] for a number holding an integer. *)
Definition numberToString (z : Z) : jstring :=
  js (NilZero.string_of_int (Z.to_int z)).

(** [!value] on a string: only the empty string is falsy. *)
Definition falsy (s : jstring) : bool :=
  match s with [] => true | _ => false end.

(** [String.prototype.startsWith] *)
Fixpoint startsWith (s p : jstring) {struct p} : bool :=
  match p, s with
  | [], _ => true
  | _ :: _, [] => false
  | c :: p', d :: s' => (c =? d)%N && startsWith s' p'
  end.

(** [String.prototype.endsWith] *)
Definition endsWith (s p : jstring) : bool :=
  startsWith (rev s) (rev p).

(** [String.prototype.includes] *)
Fixpoint includes (s p : jstring) : bool :=
  startsWith s p ||
  match s with
  | [] => false
  | _ :: s' => includes s' p
  end.

(** ** Character classes of the regular expressions *)

Definition isDigit (c : char) : bool := ((48 <=? c) && (c <=? 57))%N.
Definition isUpper (c : char) : bool := ((65 <=? c) && (c <=? 90))%N.
Definition isLower (c : char) : bool := ((97 <=? c) && (c <=? 122))%N.

Definition ch_dot : char := 46%N.
Definition ch_slash : char := 47%N.
Definition ch_dash : char := 45%N.
Definition ch_underscore : char := 95%N.
Definition ch_lbracket : char := 91%N.

Arguments isDigit c : simpl never.
Arguments isUpper c : simpl never.
Arguments isLower c : simpl never.

(** The class [[a-zA-Z0-9._-]] of [SAFE_SEGMENT_RE]. *)
Definition isSafeChar (c : char) : bool :=
  isLower c || isUpper c || isDigit c ||
  (c =? ch_dot)%N || (c =? ch_underscore)%N || (c =? ch_dash)%N.

Arguments isSafeChar c : simpl never.

(** ** Results of code that may throw *)

Inductive result (A : Type) : Type :=
| Ok (a : A)
| Throw (message : jstring).
Arguments Ok {A} a.
Arguments Throw {A} message.

(** ** downloadManager.ts: path segment validation *)

(** [SAFE_SEGMENT_RE = /^[a-zA-Z0-9._-]+$/], method [test]. *)
Definition SAFE_SEGMENT_RE_test (value : jstring) : bool :=
  negb (falsy value) && forallb isSafeChar value.

(** [value.replace(/[^a-zA-Z0-9._-]/g, "_")] *)
Definition replaceUnsafe (value : jstring) : jstring :=
  map (fun c => if isSafeChar c then c else ch_underscore) value.

(** The three values the sanitizer refuses. *)
Definition refused (s : jstring) : Prop :=
  s = [] \/ s = js "." \/ s = js "..".

Definition safePathSegment (value label : jstring) : result jstring :=
  if falsy value || streq value (js ".") || streq value (js "..") then
    Throw (js "Invalid " ++ label)
  else if SAFE_SEGMENT_RE_test value then Ok value
  else
    let cleaned := replaceUnsafe value in
    if falsy cleaned || streq cleaned (js ".") || streq cleaned (js "..") then
      Throw (js "Invalid " ++ label)
    else Ok cleaned.

(** ** downloadManager.ts: download URL allowlist *)

(** The two fields of a WHATWG [URL] object that the validator reads. *)
Record URL := { protocol : jstring; hostname : jstring }.

(** [new URL(url)] is the platform's URL parser; [None] stands for the
    [TypeError] it throws on a string that does not parse. *)
Class UrlParser := { new_URL : jstring -> option URL }.

(** Case folding of a regular expression with the [i] flag and without the
    [u] flag: [Canonicalize] upper-cases one code unit, and never maps a
    code unit above 127 to one below 128, so against a pattern of ASCII
    characters only the ASCII letters fold. *)
Definition canonicalize (c : char) : char :=
  if isLower c then (c - 32)%N else c.

(** [startsWith] with every code unit compared after case folding. *)
Fixpoint startsWith_i (s p : jstring) {struct p} : bool :=
  match p, s with
  | [], _ => true
  | _ :: _, [] => false
  | c :: p', d :: s' => (canonicalize c =? canonicalize d)%N && startsWith_i s' p'
  end.

(** [ALLOWED_DOWNLOAD_HOSTS_RE = /\.apple\.com$/i], method [test]: the
    pattern has to match right before the end of the input. *)
Definition ALLOWED_DOWNLOAD_HOSTS_RE_test (host : jstring) : bool :=
  startsWith_i (rev host) (rev (js ".apple.com")).

(** One [\d+] of the address pattern: at least one digit, then the rest.
    The pattern continues with a dot or the end of the input, which no digit
    matches, so the greedy match is the only one. *)
Fixpoint skipDigits (s : jstring) : jstring :=
  match s with
  | c :: s' => if isDigit c then skipDigits s' else s
  | [] => []
  end.

(** Where a run of digits stops: at the end or at a code unit that is no
    digit. *)
Definition stops (r : jstring) : Prop :=
  match r with
  | [] => True
  | c :: _ => isDigit c = false
  end.

Definition digits1 (s : jstring) : option jstring :=
  match s with
  | c :: s' => if isDigit c then Some (skipDigits s') else None
  | [] => None
  end.

Definition dotThen (k : jstring -> bool) (s : option jstring) : bool :=
  match s with
  | Some (c :: rest) => (c =? ch_dot)%N && k rest
  | _ => false
  end.

(** [/^\d+\.\d+\.\d+\.\d+$/], method [test]. *)
Definition IPV4_RE_test (host : jstring) : bool :=
  dotThen (fun r1 =>
    dotThen (fun r2 =>
      dotThen (fun r3 =>
        match digits1 r3 with Some [] => true | _ => false end)
      (digits1 r2))
    (digits1 r1))
  (digits1 host).

(** What the specification says of a host name: it ends with [.apple.com]
    when ASCII case is ignored, and it is a dotted-decimal IPv4 literal. *)
Definition toLowerASCII (c : char) : char :=
  if isUpper c then (c + 32)%N else c.

Definition endsWithIgnoringCase (s suffix : jstring) : Prop :=
  exists before ending,
    s = before ++ ending
    /\ map toLowerASCII ending = map toLowerASCII suffix.

Definition decimal (s : jstring) : Prop :=
  s <> [] /\ forallb isDigit s = true.

Definition dottedDecimal (host : jstring) : Prop :=
  exists a b c d,
    decimal a /\ decimal b /\ decimal c /\ decimal d
    /\ host = a ++ ch_dot :: b ++ ch_dot :: c ++ ch_dot :: d.

Definition validateDownloadURL `{parser : UrlParser} (url : jstring) : result unit :=
  match new_URL url with
  | None => Throw (js "Invalid download URL")
  | Some parsed =>
      if negb (streq (protocol parsed) (js "https:")) then
        Throw (js "Download URL must use HTTPS")
      else if negb (ALLOWED_DOWNLOAD_HOSTS_RE_test (hostname parsed)) then
        Throw (js "Download URL must be from an Apple domain (*.apple.com)")
      else if IPV4_RE_test (hostname parsed)
              || startsWith (hostname parsed) (js "[") then
        Throw (js "Download URL must not use IP addresses")
      else Ok tt
  end.

(** ** chunkedDownloader.ts: chunk ranges

    Sizes are JavaScript numbers holding integers.  [download] refuses a
    content length above [MAX_DOWNLOAD_SIZE] = 2^33 before it calls
    [splitChunks], and below 2^53 the quotient [totalSize / threads] in
    double precision has the ceiling of the exact quotient, so the numbers
    are modelled as integers. *)

Record ChunkRange := { index : Z; start : Z; end_ : Z }.

(** [Math.ceil(a / b)] for [b > 0]. *)
Definition ceilDiv (a b : Z) : Z := (- ((- a) / b))%Z.

(** The [for] loop of [splitChunks], from the value [i] of its counter.
    [fuel] bounds the iterations; [splitChunks] passes the thread count,
    which the loop never exceeds. *)
Fixpoint splitChunks_loop (fuel : nat) (threads totalSize chunkSize i : Z)
  : list ChunkRange :=
  match fuel with
  | O => []
  | S fuel' =>
      if (i <? threads)%Z then
        let start := (i * chunkSize)%Z in
        let end_ := Z.min (start + chunkSize - 1) (totalSize - 1) in
        if (start >? totalSize - 1)%Z then []
        else {| index := i; start := start; end_ := end_ |}
               :: splitChunks_loop fuel' threads totalSize chunkSize (i + 1)
      else []
  end.

Definition splitChunks (threads totalSize : Z) : list ChunkRange :=
  let chunkSize := ceilDiv totalSize threads in
  splitChunks_loop (Z.to_nat threads) threads totalSize chunkSize 0.

(** Chunk [i] as the specification gives it, and the bytes a chunk covers
    (both ends included, as in the [Range] header). *)
Definition chunkOf (totalSize chunkSize i : Z) : ChunkRange :=
  {| index := i;
     start := (i * chunkSize)%Z;
     end_ := Z.min ((i + 1) * chunkSize - 1) (totalSize - 1) |}.

Definition covers (c : ChunkRange) (byte : Z) : Prop :=
  (start c <= byte <= end_ c)%Z.

(** ** config.ts: chunked download settings *)

Definition CHUNK_RETRY_COUNT : nat := 3.
Definition CHUNK_RETRY_DELAY_MS : Z := 2000.
Definition MAX_DOWNLOAD_SIZE : Z := 8 * 1024 * 1024 * 1024.
Definition DOWNLOAD_TIMEOUT_MS : Z := 8 * 60 * 60 * 1000.

(** ** chunkedDownloader.ts: one chunk with retries *)

(** A thrown value: whether it is an [Error] instance, its [name] and its
    message (for a value that is no [Error], [String(value)]). *)
Record Thrown := { instanceofError : bool; name : jstring; message : jstring }.

Definition newError (msg : jstring) : Thrown :=
  {| instanceofError := true; name := js "Error"; message := msg |}.

(** What [fetch] and the streams reject with once their signal aborts. *)
Definition abortError : Thrown :=
  {| instanceofError := true; name := js "AbortError";
     message := js "This operation was aborted" |}.

(** [err instanceof Error ? err : new Error(String(err))] *)
Definition toError (err : Thrown) : Thrown :=
  if instanceofError err then err else newError (message err).

(** The moments at which the surroundings can abort: before the first
    attempt, while the request of an attempt is in flight, and during the
    delay that follows a failed attempt. *)
Inductive Moment :=
| BeforeAttempts
| DuringFetch (attempt : nat)
| DuringDelay (attempt : nat).

Definition rank (m : Moment) : nat :=
  match m with
  | BeforeAttempts => 0
  | DuringFetch k => 3 * k + 2
  | DuringDelay k => 3 * k + 3
  end.

(** The instant at which attempt [k] starts: the test of [this.aborted],
    the new controller and its listener on [signal], and the call of
    [fetch] run there without interruption. *)
Definition attemptStart (k : nat) : nat := 3 * k + 1.

(** The surroundings of one [downloadChunk] call: when the caller's signal
    aborts (pause, delete or the global timeout call [controller.abort()]),
    when [ChunkedDownloader.abort()] sets [this.aborted] and aborts the
    registered controllers, and how the request and the streaming of each
    attempt end when nothing aborts them ([None]: the part file is written). *)
Record Surroundings := {
  signalAborts : option Moment;
  downloaderAborts : option Moment;
  network : nat -> option Thrown
}.

Definition happensAt (a : option Moment) (m : Moment) : bool :=
  match a with
  | Some m' => rank m' =? rank m
  | None => false
  end.

Definition happenedBefore (a : option Moment) (instant : nat) : bool :=
  match a with
  | Some m' => rank m' <? instant
  | None => false
  end.

(** The [try] block of attempt [k].  The attempt's controller [ac] aborts
    when the listener registered on [signal] at the start of the attempt
    fires, or when [abort()] of the downloader finds [ac] in
    [this.abortControllers]; both only happen while the attempt is in
    flight.  A signal that aborted earlier dispatches no further event, so
    the listener of a later attempt is never called. *)
Definition tryAttempt (w : Surroundings) (k : nat) : option Thrown :=
  if happensAt (signalAborts w) (DuringFetch k)
     || happensAt (downloaderAborts w) (DuringFetch k)
  then Some abortError
  else network w k.

(** [this.aborted] as read at the instant attempt [k] starts, and as read in
    the [catch] block of attempt [k]. *)
Definition abortedAtStart (w : Surroundings) (k : nat) : bool :=
  happenedBefore (downloaderAborts w) (attemptStart k).

Definition abortedAtCatch (w : Surroundings) (k : nat) : bool :=
  happenedBefore (downloaderAborts w) (rank (DuringDelay k)).

(** What a run of [downloadChunk] does that the outside can see. *)
Inductive Event :=
| EvFetch (attempt : nat) (rangeStart rangeEnd : Z)
| EvDelay (ms : Z).

Inductive Outcome :=
| Returned
| Threw (err : Thrown).

(** [lastErr ?? new Error(`Chunk ${chunk.index} failed after retries`)] *)
Definition lastErrOr (chunk : ChunkRange) (lastErr : option Thrown) : Thrown :=
  match lastErr with
  | Some e => e
  | None => newError (js "Chunk " ++ numberToString (index chunk)
                        ++ js " failed after retries")
  end.

(** The [for] loop of [downloadChunk] from the value [attempt] of its
    counter.  [fuel] bounds the iterations; [downloadChunk] passes one more
    than [CHUNK_RETRY_COUNT], so the loop always ends by its own test. *)
Fixpoint downloadChunk_loop (w : Surroundings) (chunk : ChunkRange)
    (fuel attempt : nat) (lastErr : option Thrown) : list Event * Outcome :=
  match fuel with
  | O => ([], Threw (lastErrOr chunk lastErr))
  | S fuel' =>
      if attempt <? CHUNK_RETRY_COUNT then
        if abortedAtStart w attempt then ([], Threw (newError (js "Aborted")))
        else
          let fetched := EvFetch attempt (start chunk) (end_ chunk) in
          match tryAttempt w attempt with
          | None => ([fetched], Returned)
          | Some err =>
              let lastErr := toError err in
              if streq (name lastErr) (js "AbortError")
                 || abortedAtCatch w attempt
              then ([fetched], Threw lastErr)
              else
                let delay :=
                  if attempt <? CHUNK_RETRY_COUNT - 1
                  then [EvDelay CHUNK_RETRY_DELAY_MS] else [] in
                let (events, out) :=
                  downloadChunk_loop w chunk fuel' (S attempt) (Some lastErr) in
                (fetched :: delay ++ events, out)
          end
      else ([], Threw (lastErrOr chunk lastErr))
  end.

Definition downloadChunk (w : Surroundings) (chunk : ChunkRange)
  : list Event * Outcome :=
  downloadChunk_loop w chunk (S CHUNK_RETRY_COUNT) 0 None.

(** All a run of [downloadChunk] can do when every attempt fails: three
    requests with a delay of [CHUNK_RETRY_DELAY_MS] between two of them. *)
Definition allAttempts (chunk : ChunkRange) : list Event :=
  [EvFetch 0 (start chunk) (end_ chunk); EvDelay CHUNK_RETRY_DELAY_MS;
   EvFetch 1 (start chunk) (end_ chunk); EvDelay CHUNK_RETRY_DELAY_MS;
   EvFetch 2 (start chunk) (end_ chunk)].

(** Every request fails with a server error and nothing aborts. *)
Definition alwaysFailing : Surroundings :=
  {| signalAborts := None;
     downloaderAborts := None;
     network := fun k => Some (newError (js "Chunk 0: HTTP 500")) |}.

(** [pauseTask] aborts the downloader during the delay after the first
    failed attempt. *)
Definition pausedDuringDelay : Surroundings :=
  {| signalAborts := Some (DuringDelay 0);
     downloaderAborts := Some (DuringDelay 0);
     network := fun k => Some (newError (js "Chunk 0: HTTP 500")) |}.

Definition isFetch (e : Event) : bool :=
  match e with EvFetch _ _ _ => true | EvDelay _ => false end.

(** The request of attempt [k] or of a later attempt. *)
Definition isFetchFrom (k : nat) (e : Event) : bool :=
  match e with EvFetch k' _ _ => k <=? k' | EvDelay _ => false end.

(** A failure that neither carries the name [AbortError] nor finds
    [this.aborted] set: the kind the loop retries. *)
Definition retried (w : Surroundings) (k : nat) (err : Thrown) : Prop :=
  tryAttempt w k = Some err
  /\ name (toError err) <> js "AbortError"
  /\ abortedAtCatch w k = false.

(** The global timeout fires during the delay after a first attempt that
    failed with a server error; nothing calls [abort()] of the downloader,
    and the second request would succeed. *)
Definition timeoutDuringDelay : Surroundings :=
  {| signalAborts := Some (DuringDelay 0);
     downloaderAborts := None;
     network := fun k =>
       match k with
       | O => Some (newError (js "Chunk 0: HTTP 500"))
       | _ => None
       end |}.

(** ** JavaScript numbers read from strings *)

(** The code units [parseInt] skips at the start of its input: white space
    and line terminators. *)
Definition isWhiteSpace (c : char) : bool :=
  existsb (N.eqb c)
    [9; 10; 11; 12; 13; 32; 160; 5760; 8192; 8193; 8194; 8195; 8196; 8197;
     8198; 8199; 8200; 8201; 8202; 8232; 8233; 8239; 8287; 12288; 65279]%N.

Fixpoint trimStart (s : jstring) : jstring :=
  match s with
  | c :: s' => if isWhiteSpace c then trimStart s' else s
  | [] => []
  end.

(** The value of the decimal digits a string begins with. *)
Fixpoint digitsValue (acc : Z) (s : jstring) : Z :=
  match s with
  | c :: s' =>
      if isDigit c then digitsValue (10 * acc + (Z.of_N c - 48)) s' else acc
  | [] => acc
  end.

(** [parseInt(string, 10)]: [None] stands for [NaN].  The result is the
    integer the digits denote; JavaScript holds the double nearest to it,
    which is the integer itself below 2^53, and the code below only
    compares the result with such numbers. *)
Definition parseInt10 (s : jstring) : option Z :=
  let trimmed := trimStart s in
  let '(sign, digits) :=
    match trimmed with
    | c :: rest =>
        if (c =? 45)%N then ((-1)%Z, rest)
        else if (c =? 43)%N then (1%Z, rest)
        else (1%Z, trimmed)
    | [] => (1%Z, [])
    end in
  match digits with
  | c :: _ => if isDigit c then Some (sign * digitsValue 0 digits)%Z else None
  | [] => None
  end.

(** [value || fallback] on a string that may be absent, and on a number:
    the empty string, [NaN] and zero are falsy. *)
Definition orString (value : option jstring) (fallback : jstring) : jstring :=
  match value with
  | Some s => if falsy s then fallback else s
  | None => fallback
  end.

Definition orNumber (value : option Z) (fallback : Z) : Z :=
  match value with
  | Some z => if (z =? 0)%Z then fallback else z
  | None => fallback
  end.

(** [value > bound], which is false for [NaN]. *)
Definition greaterThan (value : option Z) (bound : Z) : bool :=
  match value with
  | Some z => (z >? bound)%Z
  | None => false
  end.

(** ** config.ts: the number of download threads

    [env] is [process.env.DOWNLOAD_THREADS]. *)
Definition DOWNLOAD_THREADS (env : option jstring) : Z :=
  Z.max 1 (Z.min 32 (orNumber (parseInt10 (orString env (js "8"))) 8)).

(** ** chunkedDownloader.ts: probing and the choice of the mode *)

(** The response to the [HEAD] request, as far as [probe] reads it. *)
Record HeadResponse := {
  head_ok : bool;
  head_status : Z;
  head_acceptRanges : option jstring;
  head_contentLength : option jstring
}.

Record Probe := { supportsRange : bool; contentLength : option Z }.

(** [probe]; [head] is what [fetch] resolves to or rejects with. *)
Definition probe (head : result HeadResponse) : result Probe :=
  match head with
  | Throw e => Throw e
  | Ok res =>
      if negb (head_ok res) then
        Throw (js "HEAD failed: HTTP " ++ numberToString (head_status res))
      else
        let contentLength :=
          parseInt10 (orString (head_contentLength res) (js "0")) in
        let supportsRange :=
          match head_acceptRanges res with
          | Some v => streq v (js "bytes")
          | None => false
          end && greaterThan contentLength 0 in
        Ok {| supportsRange := supportsRange; contentLength := contentLength |}
  end.

(** What [download] goes on to do after probing. *)
Inductive Plan :=
| FileTooLarge
| SingleStream
| Chunked (totalSize : Z) (chunks : list ChunkRange).

(** [download] up to the choice of the mode.  A probe that throws leaves
    [supportsRange] false and [contentLength] zero; [supportsRange] only
    holds with a content length that is a number. *)
Definition downloadPlan (threads : Z) (head : result HeadResponse) : Plan :=
  let probed :=
    match probe head with
    | Ok probeResult => probeResult
    | Throw _ => {| supportsRange := false; contentLength := Some 0%Z |}
    end in
  if greaterThan (contentLength probed) MAX_DOWNLOAD_SIZE then FileTooLarge
  else if negb (supportsRange probed) || (threads <=? 1)%Z then SingleStream
  else
    match contentLength probed with
    | Some totalSize => Chunked totalSize (splitChunks threads totalSize)
    | None => SingleStream
    end.

(** ** chunkedDownloader.ts: the streams that feed the files *)

(** How reading a response body ends. *)
Inductive StreamEnd :=
| Done
| ExceededSize
| ReadFailed (message : jstring).

(** What a [Readable] has done when it ends: the byte lengths of the values
    it pushed to the file, in order, and the count of bytes it kept. *)
Record Streamed := {
  pushed : list N;
  counted : N;
  streamEnd : StreamEnd
}.

Definition sumBytes (values : list N) : N := fold_right N.add 0%N values.

(** The [read] method of the stream of [downloadSingleStream], called until
    the stream ends: [values] are the byte lengths of the values that
    [reader.read()] yields before it reports [done] or rejects
    ([failure]); [downloaded] is the count so far. *)
Fixpoint readSingleStream (values : list N) (failure : option jstring)
    (downloaded : N) : Streamed :=
  match values with
  | [] =>
      {| pushed := []; counted := downloaded;
         streamEnd := match failure with
                      | None => Done
                      | Some message => ReadFailed message
                      end |}
  | byteLength :: rest =>
      let downloaded := (downloaded + byteLength)%N in
      if (Z.of_N downloaded >? MAX_DOWNLOAD_SIZE)%Z then
        {| pushed := []; counted := downloaded; streamEnd := ExceededSize |}
      else
        let streamed := readSingleStream rest failure downloaded in
        {| pushed := byteLength :: pushed streamed;
           counted := counted streamed;
           streamEnd := streamEnd streamed |}
  end.

(** The [read] method of the stream of one attempt of [downloadChunk];
    [chunkDownloaded] is the count so far, and the count kept is what is
    stored in [chunkBytes] for the progress reports. *)
Fixpoint readChunkStream (expectedBytes : Z) (values : list N)
    (failure : option jstring) (chunkDownloaded stored : N) : Streamed :=
  match values with
  | [] =>
      {| pushed := []; counted := stored;
         streamEnd := match failure with
                      | None => Done
                      | Some message => ReadFailed message
                      end |}
  | byteLength :: rest =>
      let chunkDownloaded := (chunkDownloaded + byteLength)%N in
      if (Z.of_N chunkDownloaded >? expectedBytes * 2)%Z then
        {| pushed := []; counted := stored; streamEnd := ExceededSize |}
      else
        let streamed :=
          readChunkStream expectedBytes rest failure chunkDownloaded
            chunkDownloaded in
        {| pushed := byteLength :: pushed streamed;
           counted := counted streamed;
           streamEnd := streamEnd streamed |}
  end.

(** [chunk.end - chunk.start + 1] *)
Definition expectedBytes (chunk : ChunkRange) : Z := end_ chunk - start chunk + 1.

(** ** sinfInjector.ts *)

Definition bytes := list N.

(** [String.prototype.split] on a one-character separator. *)
Fixpoint split (sep : char) (s : jstring) : list jstring :=
  match s with
  | [] => [[]]
  | c :: s' =>
      if (c =? sep)%N then [] :: split sep s'
      else match split sep s' with
           | seg :: segs => (c :: seg) :: segs
           | [] => [[c]]
           end
  end.

(** [component.slice(0, -4)] *)
Definition slice_0_minus4 (s : jstring) : jstring :=
  firstn (List.length s - 4) s.

(** The values a parsed property list is made of, as the parsers hand them
    to JavaScript.  Of a real number the code below can only observe
    whether it is falsy (zero or NaN). *)
#[local] Unset Elimination Schemes.
Inductive PlistValue :=
| PDict (fields : list (jstring * PlistValue))
| PArray (items : list PlistValue)
| PString (s : jstring)
| PInteger (z : Z)
| PReal (zeroOrNaN : bool)
| PBoolean (b : bool)
| PDate
| PData (data : bytes)
| PNull.
#[local] Set Elimination Schemes.

(** [if (v)] *)
Definition truthy (v : PlistValue) : bool :=
  match v with
  | PDict _ | PArray _ | PDate | PData _ => true
  | PString s => negb (falsy s)
  | PInteger z => negb (z =? 0)%Z
  | PReal zeroOrNaN => negb zeroOrNaN
  | PBoolean b => b
  | PNull => false
  end.

(** [typeof v === "object"] *)
Definition typeofObject (v : PlistValue) : bool :=
  match v with
  | PDict _ | PArray _ | PDate | PData _ | PNull => true
  | _ => false
  end.

Fixpoint assoc {A : Type} (key : jstring) (l : list (jstring * A)) : option A :=
  match l with
  | [] => None
  | (k, v) :: l' => if streq k key then Some v else assoc key l'
  end.

(** [v[key]] for one of the two keys read below: only a dictionary has
    such a property, any other value gives [undefined]. *)
Definition getProp (v : PlistValue) (key : jstring) : option PlistValue :=
  match v with
  | PDict fields => assoc key fields
  | _ => None
  end.

(** The libraries the injector calls: the binary property list parser
    ([bplist-parser], which returns the array of the roots it read), the XML
    parser and the binary writer ([plist], [bplist-creator]), the decodings
    of [Buffer], and the string a template literal makes of a value that is
    no string. *)
Class PlistLibs := {
  bplistParser_parseBuffer : bytes -> result (list PlistValue);
  plist_parse : jstring -> result PlistValue;
  bplistCreator : PlistValue -> result bytes;
  toString_utf8 : bytes -> jstring;
  Buffer_from_base64 : jstring -> bytes;
  String_of : PlistValue -> jstring
}.

(** Modelled from the spec: the type [Sinf] of [types/index.ts], "an opaque
    base64-encoded byte string plus an integer index pairing it with a
    manifest entry"; the injector reads the field [sinf] only. *)
Record Sinf := { sinf_id : Z; sinf : jstring }.

(** An entry of the opened archive: its name, and what opening its read
    stream and reading the stream to its end gives, the bytes or the error
    that the zip library or the stream fails with. *)
Record ZipEntry := { filename : jstring; content : result bytes }.

(** An archive that [openZip] has opened: the entries that the iteration
    over it yields, the error that the iteration then throws instead of
    ending, if any (the library refuses an entry with a relative or an
    absolute name, and a file it cannot read on), and the error that
    [zip.close()] throws, if any. *)
Record ZipFile := {
  zip_entries : list ZipEntry;
  zip_iterationError : option jstring;
  zip_closeError : option jstring
}.

Record Manifest := { sinfPaths : list PlistValue }.
Record Info := { bundleExecutable : jstring }.

Record IpaMetadata := {
  bundleName : jstring;
  manifest : option Manifest;
  info : option Info
}.

Section Injector.
Context `{libs : PlistLibs}.

Definition parsePlistBuffer (data : bytes) : option PlistValue :=
  let tryXml :=
    let xml := toString_utf8 data in
    if includes xml (js "<?xml") || includes xml (js "<plist") then
      match plist_parse xml with
      | Ok parsed =>
          if truthy parsed && typeofObject parsed then Some parsed else None
      | Throw _ => None
      end
    else None in
  match bplistParser_parseBuffer data with
  | Ok (first :: _) => Some first
  | Ok [] => tryXml
  | Throw _ => tryXml
  end.

(** The three variables the loop over the entries of [readIpaMetadata]
    fills in. *)
Record Scan := {
  scanBundleName : option jstring;
  manifestData : option bytes;
  infoPlistData : option bytes
}.

(** [!bundleName]: [null] and the empty string are falsy. *)
Definition noBundleName (b : option jstring) : bool :=
  match b with
  | None => true
  | Some n => falsy n
  end.

Definition isNone {A : Type} (o : option A) : bool :=
  match o with None => true | Some _ => false end.

Definition isMainInfoPlist (filename : jstring) : bool :=
  includes filename (js ".app/Info.plist")
  && negb (includes filename (js "/Watch/")).

(** The first [if] of the loop, "Find bundle name from .app directory". *)
Definition nextBundleName (bundle : option jstring) (name : jstring)
  : option jstring :=
  if noBundleName bundle && isMainInfoPlist name then
    match find (fun component => endsWith component (js ".app"))
               (split ch_slash name) with
    | Some component => Some (slice_0_minus4 component)
    | None => bundle
    end
  else bundle.

(** [if (!data && wanted) data = await streamToBuffer(await
    entry.openReadStream())]: the entry is read only when the variable is
    still [null] and the name is the one looked for, and an error of the
    read is thrown on. *)
Definition readOnce (data : option bytes) (wanted : bool) (entry : ZipEntry)
  : result (option bytes) :=
  if isNone data && wanted then
    match content entry with
    | Ok b => Ok (Some b)
    | Throw e => Throw e
    end
  else Ok data.

(** The body of the loop for one entry. *)
Definition scanEntry (acc : Scan) (entry : ZipEntry) : result Scan :=
  let name := filename entry in
  let bundle := nextBundleName (scanBundleName acc) name in
  match readOnce (manifestData acc)
          (endsWith name (js ".app/SC_Info/Manifest.plist")) entry with
  | Throw e => Throw e
  | Ok manifestData' =>
      match readOnce (infoPlistData acc) (isMainInfoPlist name) entry with
      | Throw e => Throw e
      | Ok infoPlistData' =>
          Ok {| scanBundleName := bundle;
                manifestData := manifestData';
                infoPlistData := infoPlistData' |}
      end
  end.

(** The loop over the entries that the iteration yields. *)
Fixpoint scanLoop (entries : list ZipEntry) (acc : Scan) : result Scan :=
  match entries with
  | [] => Ok acc
  | entry :: rest =>
      match scanEntry acc entry with
      | Ok acc' => scanLoop rest acc'
      | Throw e => Throw e
      end
  end.

(** [for await (const entry of zip) ...]: the loop ends with the error of
    its body, or with the error of the iteration. *)
Definition scanEntries (zip : ZipFile) : result Scan :=
  match scanLoop (zip_entries zip)
          {| scanBundleName := None; manifestData := None;
             infoPlistData := None |} with
  | Throw e => Throw e
  | Ok scan =>
      match zip_iterationError zip with
      | Some e => Throw e
      | None => Ok scan
      end
  end.

Definition parseManifest (data : option bytes) : option Manifest :=
  match data with
  | Some d =>
      match parsePlistBuffer d with
      | Some parsed =>
          if truthy parsed then
            match getProp parsed (js "SinfPaths") with
            | Some (PArray items) => Some {| sinfPaths := items |}
            | _ => None
            end
          else None
      | None => None
      end
  | None => None
  end.

Definition parseInfo (data : option bytes) : option Info :=
  match data with
  | Some d =>
      match parsePlistBuffer d with
      | Some parsed =>
          if truthy parsed then
            match getProp parsed (js "CFBundleExecutable") with
            | Some (PString executable) =>
                Some {| bundleExecutable := executable |}
            | _ => None
            end
          else None
      | None => None
      end
  | None => None
  end.

(** [readIpaMetadata]; [archive] is what [openZip(ipaPath)] resolves to or
    rejects with.  An error of [zip.close()], in the [finally] block,
    replaces the outcome of the [try] block. *)
Definition readIpaMetadata (archive : result ZipFile) : result IpaMetadata :=
  match archive with
  | Throw e => Throw e
  | Ok zip =>
      let tried :=
        match scanEntries zip with
        | Throw e => Throw e
        | Ok scan =>
            match scanBundleName scan with
            | Some name =>
                if falsy name then Throw (js "Could not read bundle name")
                else Ok {| bundleName := name;
                           manifest := parseManifest (manifestData scan);
                           info := parseInfo (infoPlistData scan) |}
            | None => Throw (js "Could not read bundle name")
            end
        end in
      match zip_closeError zip with
      | Some e => Throw e
      | None => tried
      end
  end.

(** A file that [inject] stages for the archive. *)
Record InjectFile := { entryPath : jstring; data : bytes }.






(** The error of the zip library that reading an archive ends with, if
    any: the one [openZip] rejects with, the one [zip.close()] throws, the
    one the iteration throws or the one an entry that is read fails
    with. *)
Definition libraryError (archive : result ZipFile) : option jstring :=
  match archive with
  | Throw e => Some e
  | Ok zip =>
      match zip_closeError zip with
      | Some e => Some e
      | None =>
          match scanEntries zip with
          | Throw e => Some e
          | Ok _ => None
          end
      end
  end.

(** What the entries of an archive yield: the first entry whose name ends
    with [.app/SC_Info/Manifest.plist] and the first entry of an
    [Info.plist] outside a watch bundle, each with what [readIpaMetadata]
    parses from its bytes; and whether the names give a bundle name. *)
Definition isManifestPlist (e : ZipEntry) : bool :=
  endsWith (filename e) (js ".app/SC_Info/Manifest.plist").

Definition entryBytes (found : option ZipEntry) : option bytes :=
  match found with
  | Some e =>
      match content e with
      | Ok b => Some b
      | Throw _ => None
      end
  | None => None
  end.

Definition yieldedManifest (entries : list ZipEntry) : option Manifest :=
  parseManifest (entryBytes (find isManifestPlist entries)).

Definition yieldedInfo (entries : list ZipEntry) : option Info :=
  parseInfo
    (entryBytes (find (fun e => isMainInfoPlist (filename e)) entries)).

Definition bundleNameOf (entries : list ZipEntry) : option jstring :=
  fold_left (fun b e => nextBundleName b (filename e)) entries None.



End Injector.

(** ** Node's [path] module (POSIX)

    The backend runs on Linux, where [path.sep] is a slash.  The functions
    follow Node's [lib/path.js]: a path is cut at its slashes, the segments
    are pushed on a stack with [.] and empty segments dropped and [..]
    popping a segment, and the stack is joined again. *)

Definition path_sep : jstring := [ch_slash].

(** [Array.prototype.join("/")] *)
Fixpoint joinSlash (segments : list jstring) : jstring :=
  match segments with
  | [] => []
  | [seg] => seg
  | seg :: rest => seg ++ ch_slash :: joinSlash rest
  end.

(** One segment of [normalizeString]; the stack has its top first. *)
Definition normalizeStep (allowAboveRoot : bool) (stack : list jstring)
    (seg : jstring) : list jstring :=
  if falsy seg || streq seg (js ".") then stack
  else if streq seg (js "..") then
    match stack with
    | top :: below =>
        if streq top (js "..") then
          if allowAboveRoot then seg :: stack else stack
        else below
    | [] => if allowAboveRoot then [seg] else []
    end
  else seg :: stack.

Definition normalizeSegments (allowAboveRoot : bool) (stack : list jstring)
    (segments : list jstring) : list jstring :=
  fold_left (normalizeStep allowAboveRoot) segments stack.

Definition normalizeString (path : jstring) (allowAboveRoot : bool) : jstring :=
  joinSlash (rev (normalizeSegments allowAboveRoot [] (split ch_slash path))).

Definition isAbsolute (path : jstring) : bool :=
  match path with
  | c :: _ => (c =? ch_slash)%N
  | [] => false
  end.

Definition hasTrailingSlash (path : jstring) : bool :=
  match rev path with
  | c :: _ => (c =? ch_slash)%N
  | [] => false
  end.

Definition path_normalize (path : jstring) : jstring :=
  if falsy path then js "."
  else
    let absolute := isAbsolute path in
    let trailing := hasTrailingSlash path in
    let normalized := normalizeString path (negb absolute) in
    if falsy normalized then
      if absolute then js "/" else if trailing then js "./" else js "."
    else
      let normalized := if trailing then normalized ++ js "/" else normalized in
      if absolute then ch_slash :: normalized else normalized.

Definition path_join (args : list jstring) : jstring :=
  match filter (fun arg => negb (falsy arg)) args with
  | [] => js "."
  | parts => path_normalize (joinSlash parts)
  end.

(** [path.resolve(path)] with one argument; [cwd] is [process.cwd()]. *)
Definition path_resolve (cwd path : jstring) : jstring :=
  let '(resolvedPath, resolvedAbsolute) :=
    if falsy path then ([], false) else (path ++ js "/", isAbsolute path) in
  let '(resolvedPath, resolvedAbsolute) :=
    if resolvedAbsolute || falsy cwd then (resolvedPath, resolvedAbsolute)
    else (cwd ++ js "/" ++ resolvedPath, isAbsolute cwd) in
  let resolvedPath := normalizeString resolvedPath (negb resolvedAbsolute) in
  if resolvedAbsolute then ch_slash :: resolvedPath
  else if falsy resolvedPath then js "." else resolvedPath.

(** The path without its trailing slashes, as [dirname] and [basename] scan
    it from the right. *)
Fixpoint dropTrailingSlashes_rev (reversed : jstring) : jstring :=
  match reversed with
  | c :: rest => if (c =? ch_slash)%N then dropTrailingSlashes_rev rest else reversed
  | [] => []
  end.

Fixpoint dropUntilSlash (reversed : jstring) : jstring :=
  match reversed with
  | c :: rest => if (c =? ch_slash)%N then reversed else dropUntilSlash rest
  | [] => []
  end.

Fixpoint takeUntilSlash (reversed : jstring) : jstring :=
  match reversed with
  | c :: rest => if (c =? ch_slash)%N then [] else c :: takeUntilSlash rest
  | [] => []
  end.

(** [path.dirname]: what stands before the last slash that is followed by a
    segment, scanning down to index 1. *)
Definition path_dirname (path : jstring) : jstring :=
  match path with
  | [] => js "."
  | first :: others =>
      let hasRoot := (first =? ch_slash)%N in
      (* the scan of the characters at index 1 and above, from the right *)
      let scanned := dropUntilSlash (dropTrailingSlashes_rev (rev others)) in
      match scanned with
      | [] => if hasRoot then js "/" else js "."
      | _slash :: before =>
          match before with
          | [] => if hasRoot then js "//" else [first]
          | _ => first :: rev before
          end
      end
  end.

(** [path.basename] without a suffix. *)
Definition path_basename (path : jstring) : jstring :=
  rev (takeUntilSlash (dropTrailingSlashes_rev (rev path))).

(** Segments and names in paths: a string without slash, and a segment
    that normalization keeps (neither empty, [.] nor [..]). *)
Definition noSlash (s : jstring) : bool :=
  forallb (fun c => negb (c =? ch_slash)%N) s.

Definition kept (seg : jstring) : Prop :=
  seg <> [] /\ seg <> js "." /\ seg <> js "..".

(** The stack [normalizeString] builds and the path [path.resolve] hands
    to it. *)
Definition resolveInput (cwd path : jstring) : jstring :=
  if falsy path then cwd ++ js "/"
  else if isAbsolute path then path ++ js "/"
  else cwd ++ js "/" ++ path ++ js "/".

Definition resolveStack (cwd path : jstring) : list jstring :=
  normalizeSegments false [] (split ch_slash (resolveInput cwd path)).

(** The stack for the working directory itself. *)
Definition cwdStack (cwd : jstring) : list jstring :=
  normalizeSegments false [] (split ch_slash cwd).

(** A file name that can be appended to a directory: one kept segment. *)
Definition plainName (name : jstring) : Prop :=
  noSlash name = true /\ kept name.

(** What a stack of [normalizeString] holds: segments that are kept, and
    [..] only when the path may climb above its start. *)
Definition stackOK (allowAboveRoot : bool) (stack : list jstring) : Prop :=
  Forall (fun seg => kept seg \/ (allowAboveRoot = true /\ seg = js ".."))
         stack.

(** ** Node's [path.resolve] with several arguments *)

(** The loop of [path.resolve] over its arguments, from the last to the
    first and then the working directory, until the path is absolute. *)
Fixpoint resolveLoop (paths : list jstring) (resolvedPath : jstring)
    (resolvedAbsolute : bool) : jstring * bool :=
  match paths with
  | [] => (resolvedPath, resolvedAbsolute)
  | path :: rest =>
      if resolvedAbsolute then (resolvedPath, resolvedAbsolute)
      else if falsy path then resolveLoop rest resolvedPath resolvedAbsolute
      else resolveLoop rest (path ++ js "/" ++ resolvedPath) (isAbsolute path)
  end.

Definition path_resolve_all (cwd : jstring) (args : list jstring) : jstring :=
  let '(resolvedPath, resolvedAbsolute) :=
    resolveLoop (rev args ++ [cwd]) [] false in
  let resolvedPath := normalizeString resolvedPath (negb resolvedAbsolute) in
  if resolvedAbsolute then ch_slash :: resolvedPath
  else if falsy resolvedPath then js "." else resolvedPath.

(** ** sinfInjector.ts: adding the staged files to the archive *)

(** The calls [addFilesToZip] makes to the file system and to [zip]. *)
Inductive FsCall :=
| Mkdtemp (prefix : jstring)
| Mkdir (path : jstring)
| WriteFile (path : jstring) (data : bytes)
| Zip (cwd : jstring) (args : list jstring)
| Rm (path : jstring).

(** The platform under [addFilesToZip]: the directory of temporary files,
    the working directory, the name [mkdtemp] makes of a prefix, and for
    each further call, after the calls made so far, the error it fails
    with, if any. *)
Class ZipPlatform := {
  os_tmpdir : jstring;
  process_cwd : jstring;
  mkdtemp : jstring -> result jstring;
  failing : list FsCall -> FsCall -> option jstring
}.

Section AddFilesToZip.
Context `{platform : ZipPlatform}.

(** One awaited call: it is made, and it returns or throws. *)
Definition callFs (c : FsCall) (log : list FsCall) : list FsCall * result unit :=
  (log ++ [c],
   match failing log c with
   | Some message => Throw message
   | None => Ok tt
   end).

(** The loop of [addFilesToZip] over the files. *)
Fixpoint stageFiles (tmpDir resolvedTmpDir : jstring)
    (files : list InjectFile) (log : list FsCall)
  : list FsCall * result unit :=
  match files with
  | [] => (log, Ok tt)
  | file :: rest =>
      let fullPath := path_resolve_all process_cwd [tmpDir; entryPath file] in
      if negb (startsWith fullPath (resolvedTmpDir ++ path_sep)) then
        (log, Throw (js "Path traversal detected in entry: " ++ entryPath file))
      else
        match callFs (Mkdir (path_dirname fullPath)) log with
        | (log, Throw e) => (log, Throw e)
        | (log, Ok _) =>
            match callFs (WriteFile fullPath (data file)) log with
            | (log, Throw e) => (log, Throw e)
            | (log, Ok _) => stageFiles tmpDir resolvedTmpDir rest log
            end
        end
  end.

(** [addFilesToZip]: the calls it has made when it settles, and how it
    settles.  An error of the last call, in the [finally] block, replaces
    the outcome of the [try] block. *)
Definition addFilesToZip (ipaPath : jstring) (files : list InjectFile)
  : list FsCall * result unit :=
  let prefix := path_join [os_tmpdir; js "sinf-"] in
  match mkdtemp prefix with
  | Throw e => ([Mkdtemp prefix], Throw e)
  | Ok tmpDir =>
      let resolvedTmpDir := path_resolve process_cwd tmpDir in
      let '(log, tried) :=
        match stageFiles tmpDir resolvedTmpDir files [Mkdtemp prefix] with
        | (log, Throw e) => (log, Throw e)
        | (log, Ok _) =>
            callFs (Zip tmpDir
                    (js "-0" :: ipaPath :: js "--" :: map entryPath files))
                 log
        end in
      match callFs (Rm tmpDir) log with
      | (log, Throw e) => (log, Throw e)
      | (log, Ok _) => (log, tried)
      end
  end.

(** The two calls that stage a file, made after the path of the file has
    passed the test. *)
Definition staging (tmpDir : jstring) (file : InjectFile) (c : FsCall) : Prop :=
  let fullPath := path_resolve_all process_cwd [tmpDir; entryPath file] in
  startsWith fullPath (path_resolve process_cwd tmpDir ++ path_sep) = true
  /\ (c = Mkdir (path_dirname fullPath) \/ c = WriteFile fullPath (data file)).

Definition passes (tmpDir : jstring) (file : InjectFile) : bool :=
  startsWith (path_resolve_all process_cwd [tmpDir; entryPath file])
    (path_resolve process_cwd tmpDir ++ path_sep).

End AddFilesToZip.

(** An entry path that stays where it is put: segments joined by slashes,
    none of them empty, [.] or [..]. *)
Definition plainPath (path : jstring) : Prop :=
  Forall plainName (split ch_slash path).

(** The entries of an archive outside a watch application, and the
    archive without the others. *)
Definition outsideWatch (entry : ZipEntry) : bool :=
  negb (includes (filename entry) (js "/Watch/")).

Definition withoutWatch (zip : ZipFile) : ZipFile :=
  {| zip_entries := filter outsideWatch (zip_entries zip);
     zip_iterationError := zip_iterationError zip;
     zip_closeError := zip_closeError zip |}.

(** ** downloadManager.ts: tasks *)

Inductive Status :=
| Pending | Downloading | Injecting | Paused | Completed | Failed.

Definition Status_eqb (a b : Status) : bool :=
  match a, b with
  | Pending, Pending | Downloading, Downloading | Injecting, Injecting
  | Paused, Paused | Completed, Completed | Failed, Failed => true
  | _, _ => false
  end.

(** Modelled from the spec: the types [Software] and [DownloadTask] of
    [types/index.ts], with the fields the specification lists and the
    manager reads and writes. *)
Record Software := {
  softwareName : jstring;
  bundleID : jstring;
  version : jstring;
  fileSizeBytes : option Z
}.

Record DownloadTask := {
  id : jstring;
  software : Software;
  accountHash : jstring;
  downloadURL : jstring;
  sinfs : list Sinf;
  iTunesMetadata : option jstring;
  status : Status;
  progress : Z;
  speed : jstring;
  filePath : option jstring;
  error : option jstring;
  createdAt : jstring
}.

Definition set_status (v : Status) (t : DownloadTask) : DownloadTask :=
  {| id := id t;
     software := software t;
     accountHash := accountHash t;
     downloadURL := downloadURL t;
     sinfs := sinfs t;
     iTunesMetadata := iTunesMetadata t;
     status := v;
     progress := progress t;
     speed := speed t;
     filePath := filePath t;
     error := error t;
     createdAt := createdAt t |}.

Definition set_progress (v : Z) (t : DownloadTask) : DownloadTask :=
  {| id := id t;
     software := software t;
     accountHash := accountHash t;
     downloadURL := downloadURL t;
     sinfs := sinfs t;
     iTunesMetadata := iTunesMetadata t;
     status := status t;
     progress := v;
     speed := speed t;
     filePath := filePath t;
     error := error t;
     createdAt := createdAt t |}.

Definition set_speed (v : jstring) (t : DownloadTask) : DownloadTask :=
  {| id := id t;
     software := software t;
     accountHash := accountHash t;
     downloadURL := downloadURL t;
     sinfs := sinfs t;
     iTunesMetadata := iTunesMetadata t;
     status := status t;
     progress := progress t;
     speed := v;
     filePath := filePath t;
     error := error t;
     createdAt := createdAt t |}.

Definition set_filePath (v : option jstring) (t : DownloadTask) : DownloadTask :=
  {| id := id t;
     software := software t;
     accountHash := accountHash t;
     downloadURL := downloadURL t;
     sinfs := sinfs t;
     iTunesMetadata := iTunesMetadata t;
     status := status t;
     progress := progress t;
     speed := speed t;
     filePath := v;
     error := error t;
     createdAt := createdAt t |}.

Definition set_error (v : option jstring) (t : DownloadTask) : DownloadTask :=
  {| id := id t;
     software := software t;
     accountHash := accountHash t;
     downloadURL := downloadURL t;
     sinfs := sinfs t;
     iTunesMetadata := iTunesMetadata t;
     status := status t;
     progress := progress t;
     speed := speed t;
     filePath := filePath t;
     error := v;
     createdAt := createdAt t |}.

Definition set_downloadURL (v : jstring) (t : DownloadTask) : DownloadTask :=
  {| id := id t;
     software := software t;
     accountHash := accountHash t;
     downloadURL := v;
     sinfs := sinfs t;
     iTunesMetadata := iTunesMetadata t;
     status := status t;
     progress := progress t;
     speed := speed t;
     filePath := filePath t;
     error := error t;
     createdAt := createdAt t |}.

Definition set_sinfs (v : list Sinf) (t : DownloadTask) : DownloadTask :=
  {| id := id t;
     software := software t;
     accountHash := accountHash t;
     downloadURL := downloadURL t;
     sinfs := v;
     iTunesMetadata := iTunesMetadata t;
     status := status t;
     progress := progress t;
     speed := speed t;
     filePath := filePath t;
     error := error t;
     createdAt := createdAt t |}.

Definition set_iTunesMetadata (v : option jstring) (t : DownloadTask) : DownloadTask :=
  {| id := id t;
     software := software t;
     accountHash := accountHash t;
     downloadURL := downloadURL t;
     sinfs := sinfs t;
     iTunesMetadata := v;
     status := status t;
     progress := progress t;
     speed := speed t;
     filePath := filePath t;
     error := error t;
     createdAt := createdAt t |}.

(** [!!task.filePath]: [undefined] and the empty string are falsy. *)
Definition hasFilePath (t : DownloadTask) : bool :=
  match filePath t with
  | Some p => negb (falsy p)
  | None => false
  end.

(** An element of the JSON array in [tasks.json], as [persistTasks] writes
    it. *)
Record PersistedTask := {
  p_id : jstring;
  p_software : Software;
  p_accountHash : jstring;
  p_downloadURL : jstring;
  p_sinfs : list Sinf;
  p_status : Status;
  p_progress : Z;
  p_speed : jstring;
  p_filePath : option jstring;
  p_createdAt : jstring
}.

(** An element of the array read back from [tasks.json]: of a file that
    anything may have written, the fields the loader tests are optional and
    [status] is any string. *)
Record SnapshotItem := {
  item_id : option jstring;
  item_software : Software;
  item_accountHash : jstring;
  item_status : option jstring;
  item_filePath : option jstring;
  item_createdAt : jstring
}.

(** ** Node's [fs] module

    The file system is the platform's.  The manager only needs the calls
    below; each either returns or throws. *)
Record Stats := { size : Z; mtimeMs : Z }.

Class NodeFs := {
  FS : Type;
  existsSync : FS -> jstring -> bool;
  unlinkSync : FS -> jstring -> result FS;
  rmdirSync : FS -> jstring -> result FS;
  mkdirSync_recursive : FS -> jstring -> result FS;
  readdirSync : FS -> jstring -> result (list jstring);
  statSync : FS -> jstring -> result Stats;
  (** [fs.writeFileSync(file, JSON.stringify(tasks, null, 2))] *)
  writeFileSync_json : FS -> jstring -> list PersistedTask -> result FS;
  (** [JSON.parse(fs.readFileSync(file, "utf-8"))]: [Throw] when reading or
      parsing throws, [Ok None] when the value is no array; an element of
      the array is [None] when it is [null], of which no property can be
      read. *)
  readFileSync_json :
    FS -> jstring -> result (option (list (option SnapshotItem)))
}.

(** The process: its configuration ([config.ts]) and working directory. *)
Class Process := {
  dataDir : jstring;
  autoCleanupDays : Z;
  autoCleanupMaxMB : Z;
  cwd : jstring
}.

(** ** downloadManager.ts: state of the module *)

(** A [ChunkedDownloader] object, as far as the manager is concerned. *)
Record Downloader := {
  dl_url : jstring;
  dl_destPath : jstring;
  dl_aborted : bool
}.

(** A call of [startDownload] suspended at one of its two [await]s, with the
    variables its continuation uses. *)
Inductive Stage := AwaitingDownload | AwaitingInject | Finished.

Record Coroutine := {
  co_task : nat;
  co_timeout : nat;
  co_filePath : jstring;
  co_stage : Stage
}.

Section Manager.
Context `{fs : NodeFs} `{proc : Process} `{parser : UrlParser}.

(** The module's maps and the objects they refer to.  A task is a mutable
    object that the map [tasks] and the running [startDownload] calls
    share, so tasks live in a store ([objs]) and are referred to by their
    index; a [Map] keeps its keys in insertion order.  [delivered] records
    each call of a progress listener with the task as it was at the call,
    [written] each array that [persistTasks] has written to [tasks.json]. *)
Record State := {
  objs : list DownloadTask;
  tasks : list (jstring * nat);
  abortControllers : list (jstring * nat);
  chunkDownloaders : list (jstring * nat);
  progressListeners : list (jstring * list nat);
  controllers : list bool;
  timeouts : list (nat * bool);
  downloaders : list Downloader;
  coroutines : list Coroutine;
  disk : FS;
  delivered : list (nat * DownloadTask);
  written : list (list PersistedTask)
}.

Definition with_objs (v : list DownloadTask) (st : State) : State :=
  {| objs := v;
     tasks := tasks st;
     abortControllers := abortControllers st;
     chunkDownloaders := chunkDownloaders st;
     progressListeners := progressListeners st;
     controllers := controllers st;
     timeouts := timeouts st;
     downloaders := downloaders st;
     coroutines := coroutines st;
     disk := disk st;
     delivered := delivered st;
     written := written st |}.

Definition with_tasks (v : list (jstring * nat)) (st : State) : State :=
  {| objs := objs st;
     tasks := v;
     abortControllers := abortControllers st;
     chunkDownloaders := chunkDownloaders st;
     progressListeners := progressListeners st;
     controllers := controllers st;
     timeouts := timeouts st;
     downloaders := downloaders st;
     coroutines := coroutines st;
     disk := disk st;
     delivered := delivered st;
     written := written st |}.

Definition with_abortControllers (v : list (jstring * nat)) (st : State) : State :=
  {| objs := objs st;
     tasks := tasks st;
     abortControllers := v;
     chunkDownloaders := chunkDownloaders st;
     progressListeners := progressListeners st;
     controllers := controllers st;
     timeouts := timeouts st;
     downloaders := downloaders st;
     coroutines := coroutines st;
     disk := disk st;
     delivered := delivered st;
     written := written st |}.

Definition with_chunkDownloaders (v : list (jstring * nat)) (st : State) : State :=
  {| objs := objs st;
     tasks := tasks st;
     abortControllers := abortControllers st;
     chunkDownloaders := v;
     progressListeners := progressListeners st;
     controllers := controllers st;
     timeouts := timeouts st;
     downloaders := downloaders st;
     coroutines := coroutines st;
     disk := disk st;
     delivered := delivered st;
     written := written st |}.

Definition with_progressListeners (v : list (jstring * list nat)) (st : State) : State :=
  {| objs := objs st;
     tasks := tasks st;
     abortControllers := abortControllers st;
     chunkDownloaders := chunkDownloaders st;
     progressListeners := v;
     controllers := controllers st;
     timeouts := timeouts st;
     downloaders := downloaders st;
     coroutines := coroutines st;
     disk := disk st;
     delivered := delivered st;
     written := written st |}.

Definition with_controllers (v : list bool) (st : State) : State :=
  {| objs := objs st;
     tasks := tasks st;
     abortControllers := abortControllers st;
     chunkDownloaders := chunkDownloaders st;
     progressListeners := progressListeners st;
     controllers := v;
     timeouts := timeouts st;
     downloaders := downloaders st;
     coroutines := coroutines st;
     disk := disk st;
     delivered := delivered st;
     written := written st |}.

Definition with_timeouts (v : list (nat * bool)) (st : State) : State :=
  {| objs := objs st;
     tasks := tasks st;
     abortControllers := abortControllers st;
     chunkDownloaders := chunkDownloaders st;
     progressListeners := progressListeners st;
     controllers := controllers st;
     timeouts := v;
     downloaders := downloaders st;
     coroutines := coroutines st;
     disk := disk st;
     delivered := delivered st;
     written := written st |}.

Definition with_downloaders (v : list Downloader) (st : State) : State :=
  {| objs := objs st;
     tasks := tasks st;
     abortControllers := abortControllers st;
     chunkDownloaders := chunkDownloaders st;
     progressListeners := progressListeners st;
     controllers := controllers st;
     timeouts := timeouts st;
     downloaders := v;
     coroutines := coroutines st;
     disk := disk st;
     delivered := delivered st;
     written := written st |}.

Definition with_coroutines (v : list Coroutine) (st : State) : State :=
  {| objs := objs st;
     tasks := tasks st;
     abortControllers := abortControllers st;
     chunkDownloaders := chunkDownloaders st;
     progressListeners := progressListeners st;
     controllers := controllers st;
     timeouts := timeouts st;
     downloaders := downloaders st;
     coroutines := v;
     disk := disk st;
     delivered := delivered st;
     written := written st |}.

Definition with_disk (v : FS) (st : State) : State :=
  {| objs := objs st;
     tasks := tasks st;
     abortControllers := abortControllers st;
     chunkDownloaders := chunkDownloaders st;
     progressListeners := progressListeners st;
     controllers := controllers st;
     timeouts := timeouts st;
     downloaders := downloaders st;
     coroutines := coroutines st;
     disk := v;
     delivered := delivered st;
     written := written st |}.

Definition with_delivered (v : list (nat * DownloadTask)) (st : State) : State :=
  {| objs := objs st;
     tasks := tasks st;
     abortControllers := abortControllers st;
     chunkDownloaders := chunkDownloaders st;
     progressListeners := progressListeners st;
     controllers := controllers st;
     timeouts := timeouts st;
     downloaders := downloaders st;
     coroutines := coroutines st;
     disk := disk st;
     delivered := v;
     written := written st |}.

Definition with_written (v : list (list PersistedTask)) (st : State) : State :=
  {| objs := objs st;
     tasks := tasks st;
     abortControllers := abortControllers st;
     chunkDownloaders := chunkDownloaders st;
     progressListeners := progressListeners st;
     controllers := controllers st;
     timeouts := timeouts st;
     downloaders := downloaders st;
     coroutines := coroutines st;
     disk := disk st;
     delivered := delivered st;
     written := v |}.

Definition PACKAGES_DIR : jstring := path_join [dataDir; js "packages"].
Definition TASKS_FILE : jstring := path_join [dataDir; js "tasks.json"].

(** *** A [Map] with string keys, in insertion order *)

Fixpoint map_set {A : Type} (key : jstring) (v : A) (m : list (jstring * A))
  : list (jstring * A) :=
  match m with
  | [] => [(key, v)]
  | (k, x) :: m' =>
      if streq k key then (k, v) :: m' else (k, x) :: map_set key v m'
  end.

Definition map_delete {A : Type} (key : jstring) (m : list (jstring * A))
  : list (jstring * A) :=
  filter (fun kv => negb (streq (fst kv) key)) m.

Fixpoint updateNth {A : Type} (n : nat) (f : A -> A) (l : list A) : list A :=
  match l, n with
  | [], _ => []
  | x :: l', O => f x :: l'
  | x :: l', S n' => x :: updateNth n' f l'
  end.

(** *** Computations on the state that may throw *)

Definition M (A : Type) : Type := State -> State * result A.

Definition ret {A : Type} (a : A) : M A := fun st => (st, Ok a).

Definition throw {A : Type} (message : jstring) : M A :=
  fun st => (st, Throw message).

Definition bind {A B : Type} (m : M A) (k : A -> M B) : M B :=
  fun st =>
    match m st with
    | (st', Ok a) => k a st'
    | (st', Throw e) => (st', Throw e)
    end.

(** [try { m } catch (err) { handler(err) }] *)
Definition tryCatch {A : Type} (m : M A) (handler : jstring -> M A) : M A :=
  fun st =>
    match m st with
    | (st', Ok a) => (st', Ok a)
    | (st', Throw e) => handler e st'
    end.

Definition get : M State := fun st => (st, Ok st).

Definition modify (f : State -> State) : M unit := fun st => (f st, Ok tt).

Definition lift {A : Type} (r : result A) : M A := fun st => (st, r).

(** A call of [fs] that changes the disk. *)
Definition onDisk (f : FS -> result FS) : M unit :=
  fun st =>
    match f (disk st) with
    | Ok d => (with_disk d st, Ok tt)
    | Throw e => (st, Throw e)
    end.

(** [for (const x of xs) body(x)] *)
Fixpoint forEach {A : Type} (xs : list A) (body : A -> M unit) : M unit :=
  match xs with
  | [] => ret tt
  | x :: xs' => bind (body x) (fun _ => forEach xs' body)
  end.

End Manager.

Notation "x <- m ;; k" := (bind m (fun x => k))
  (at level 61, m at next level, right associativity).
Notation "m ;;; k" := (bind m (fun _ => k))
  (at level 61, right associativity).

(** *** The [uuid] package: version 4 identifiers from 16 random bytes *)

Definition hexDigit (n : N) : char :=
  nth (N.to_nat n) (js "0123456789abcdef") 48%N.

Definition hexByte (b : N) : jstring :=
  [hexDigit ((b / 16) mod 16); hexDigit (b mod 16)].

Definition hexBytes (bs : list N) : jstring := flat_map hexByte bs.

Definition uuidv4 (rnds : list N) : jstring :=
  let byte i := nth i rnds 0%N in
  hexBytes [byte 0; byte 1; byte 2; byte 3] ++ js "-"
  ++ hexBytes [byte 4; byte 5] ++ js "-"
  ++ hexBytes [N.lor (N.land (byte 6) 15) 64; byte 7] ++ js "-"
  ++ hexBytes [N.lor (N.land (byte 8) 63) 128; byte 9] ++ js "-"
  ++ hexBytes [byte 10; byte 11; byte 12; byte 13; byte 14; byte 15].

(** What the downloader reports through [onProgress]. *)
Record ProgressInfo := {
  downloaded : Z;
  total : Z;
  info_speed : jstring
}.

(** A JavaScript number that holds an integer: the double nearest to it. *)
Definition toDouble (z : Z) : spec_float :=
  binary_normalize 53 1024 z 0 false.

(** [Math.round]: the integer nearest to the double, the upper one of two
    that are equally near.  Not-a-number and the infinities, which counts
    of bytes do not give, are left at [0]. *)
Definition Math_round (x : spec_float) : Z :=
  match x with
  | S754_finite s m e =>
      let v := if s then Z.neg m else Z.pos m in
      if (0 <=? e)%Z then (v * 2 ^ e)%Z
      else ((2 * v + 2 ^ (- e)) / 2 ^ (1 - e))%Z
  | _ => 0%Z
  end.

(** [Math.round((downloaded / total) * 100)], in the arithmetic of
    doubles: 23 bytes of 40 are 57 percent, since [23 / 40 * 100] is
    [57.49999999999999]. *)
Definition roundPercent (downloaded total : Z) : Z :=
  Math_round
    (SFmul 53 1024 (SFdiv 53 1024 (toDouble downloaded) (toDouble total))
       (toDouble 100)).

(** What an awaited promise rejects with, or [None] when it resolves. *)
Definition Settlement := option Thrown.

Section ManagerOperations.
Context `{fs : NodeFs} `{proc : Process} `{parser : UrlParser}.
Open Scope Z_scope.

(** The task object behind a reference.  Every reference the code holds
    is to an object of the store; the other case is only there to make the
    function total. *)
Definition readTask (ref : nat) : M DownloadTask :=
  fun st =>
    match nth_error (objs st) ref with
    | Some t => (st, Ok t)
    | None => (st, Throw (js "no such object"))
    end.

(** Assignments to fields of a task object. *)
Definition updateTask (ref : nat) (f : DownloadTask -> DownloadTask) : M unit :=
  modify (fun st => with_objs (updateNth ref f (objs st)) st).

Definition notifyProgress (ref : nat) : M unit :=
  task <- readTask ref ;;
  modify (fun st =>
    match assoc (id task) (progressListeners st) with
    | Some listeners =>
        with_delivered
          (delivered st ++ map (fun listener => (listener, task)) listeners) st
    | None => st
    end).

Definition addProgressListener (taskId : jstring) (listener : nat) : M unit :=
  modify (fun st =>
    let listeners :=
      match assoc taskId (progressListeners st) with
      | Some ls => ls
      | None => []
      end in
    let listeners :=
      if existsb (Nat.eqb listener) listeners then listeners
      else listeners ++ [listener] in
    with_progressListeners (map_set taskId listeners (progressListeners st)) st).

Definition removeProgressListener (taskId : jstring) (listener : nat) : M unit :=
  modify (fun st =>
    match assoc taskId (progressListeners st) with
    | Some ls =>
        let ls := filter (fun l => negb (Nat.eqb listener l)) ls in
        match ls with
        | [] => with_progressListeners
                  (map_delete taskId (progressListeners st)) st
        | _ => with_progressListeners
                 (map_set taskId ls (progressListeners st)) st
        end
    | None => st
    end).

(** [Array.from(tasks.values())] *)
Definition getAllTasks (st : State) : list DownloadTask :=
  flat_map (fun entry =>
              match nth_error (objs st) (snd entry) with
              | Some t => [t]
              | None => []
              end) (tasks st).

(** [tasks.get(id)]: the task object, with its reference. *)
Definition findTask (st : State) (taskId : jstring)
  : option (nat * DownloadTask) :=
  match assoc taskId (tasks st) with
  | Some ref =>
      match nth_error (objs st) ref with
      | Some t => Some (ref, t)
      | None => None
      end
  | None => None
  end.

Definition getTask (st : State) (taskId : jstring) : option DownloadTask :=
  option_map snd (findTask st taskId).

Definition projection (t : DownloadTask) : PersistedTask :=
  {| p_id := id t;
     p_software := software t;
     p_accountHash := accountHash t;
     p_downloadURL := [];
     p_sinfs := [];
     p_status := status t;
     p_progress := progress t;
     p_speed := speed t;
     p_filePath := filePath t;
     p_createdAt := createdAt t |}.

(** The constant [completed] of [persistTasks]. *)
Definition completedTasks (st : State) : list PersistedTask :=
  map projection
    (filter (fun t => Status_eqb (status t) Completed && hasFilePath t)
            (getAllTasks st)).

Definition persistTasks : M unit :=
  st <- get ;;
  let completed := completedTasks st in
  onDisk (fun d => writeFileSync_json d TASKS_FILE completed) ;;;
  modify (fun st => with_written (written st ++ [completed]) st).

(** [ChunkedDownloader.abort()], as far as the disk goes: the entries of
    the destination's directory whose name begins with
    [<basename>.part] are unlinked, errors ignored. *)
Definition removePartFiles (d : FS) (destPath : jstring) : FS :=
  let dir := path_dirname destPath in
  let base := path_basename destPath in
  if existsSync d dir then
    match readdirSync d dir with
    | Ok entries =>
        fold_left
          (fun d entry =>
             if startsWith entry (base ++ js ".part") then
               match unlinkSync d (path_join [dir; entry]) with
               | Ok d' => d'
               | Throw _ => d
               end
             else d)
          entries d
    | Throw _ => d
    end
  else d.

Definition Downloader_abort (d : nat) : M unit :=
  modify (fun st =>
    match nth_error (downloaders st) d with
    | Some dl =>
        with_disk (removePartFiles (disk st) (dl_destPath dl))
          (with_downloaders
             (updateNth d (fun dl => {| dl_url := dl_url dl;
                                        dl_destPath := dl_destPath dl;
                                        dl_aborted := true |})
                        (downloaders st)) st)
    | None => st
    end).

Definition AbortController_abort (c : nat) : M unit :=
  modify (fun st =>
    with_controllers (updateNth c (fun _ => true) (controllers st)) st).

(** The block "Abort if downloading" that [deleteTask] and [pauseTask]
    both start with. *)
Definition abortIfDownloading (taskId : jstring) : M unit :=
  st <- get ;;
  match assoc taskId (abortControllers st) with
  | Some controller =>
      AbortController_abort controller ;;;
      modify (fun st =>
        with_abortControllers (map_delete taskId (abortControllers st)) st)
  | None => ret tt
  end ;;;
  st <- get ;;
  match assoc taskId (chunkDownloaders st) with
  | Some downloader =>
      Downloader_abort downloader ;;;
      modify (fun st =>
        with_chunkDownloaders (map_delete taskId (chunkDownloaders st)) st)
  | None => ret tt
  end.

(** The loop "Clean up empty parent directories" of [deleteTask].  Every
    round replaces [dir] by its parent, which is shorter, so the length of
    the first [dir] bounds the rounds. *)
Fixpoint removeEmptyParents (fuel : nat) (packagesBase dir : jstring) : M unit :=
  match fuel with
  | O => ret tt
  | S fuel' =>
      if negb (streq dir packagesBase) && startsWith dir packagesBase then
        st <- get ;;
        contents <- lift (readdirSync (disk st) dir) ;;
        match contents with
        | [] =>
            onDisk (fun d => rmdirSync d dir) ;;;
            removeEmptyParents fuel' packagesBase (path_dirname dir)
        | _ => ret tt
        end
      else ret tt
  end.

Definition deleteTask (taskId : jstring) : M bool :=
  st <- get ;;
  match findTask st taskId with
  | None => ret false
  | Some (ref, task) =>
      abortIfDownloading taskId ;;;
      (if hasFilePath task then
         let resolved :=
           path_resolve cwd (match filePath task with Some p => p | None => [] end) in
         let packagesBase := path_resolve cwd PACKAGES_DIR in
         st <- get ;;
         if startsWith resolved (packagesBase ++ path_sep)
            && existsSync (disk st) resolved then
           onDisk (fun d => unlinkSync d resolved) ;;;
           removeEmptyParents (S (List.length resolved)) packagesBase
             (path_dirname resolved)
         else ret tt
       else ret tt) ;;;
      modify (fun st => with_tasks (map_delete taskId (tasks st)) st) ;;;
      modify (fun st =>
        with_progressListeners (map_delete taskId (progressListeners st)) st) ;;;
      persistTasks ;;;
      ret true
  end.

(** The test the two cleanups share: a completed task whose file exists,
    with the [Stats] of the file when [statSync] does not throw. *)
Definition completedFile (st : State) (t : DownloadTask) : option Stats :=
  if Status_eqb (status t) Completed && hasFilePath t then
    match filePath t with
    | Some p =>
        if existsSync (disk st) p then
          match statSync (disk st) p with
          | Ok stat => Some stat
          | Throw _ => None
          end
        else None
    | None => None
    end
  else None.

Definition runTimeCleanup (now : Z) : M unit :=
  if autoCleanupDays <=? 0 then ret tt
  else
    let cutoff := now - autoCleanupDays * 24 * 60 * 60 * 1000 in
    st <- get ;;
    let expiredIds :=
      flat_map (fun t =>
                  match completedFile st t with
                  | Some stat => if mtimeMs stat <? cutoff then [id t] else []
                  | None => []
                  end) (getAllTasks st) in
    forEach expiredIds (fun taskId => deleteTask taskId ;;; ret tt).

(** [fileTasks.sort((a, b) => a.mtimeMs - b.mtimeMs)]; the sort is stable. *)
Fixpoint insertByMtime (x : jstring * Stats) (sorted : list (jstring * Stats))
  : list (jstring * Stats) :=
  match sorted with
  | [] => [x]
  | y :: rest =>
      if mtimeMs (snd x) <=? mtimeMs (snd y) then x :: sorted
      else y :: insertByMtime x rest
  end.

Definition sortByMtime (l : list (jstring * Stats)) : list (jstring * Stats) :=
  fold_right insertByMtime [] l.

(** The loop that deletes the oldest files until the total is within the
    limit. *)
Fixpoint evict (fileTasks : list (jstring * Stats)) (totalBytes maxBytes : Z)
  : M unit :=
  match fileTasks with
  | [] => ret tt
  | ft :: rest =>
      deleteTask (fst ft) ;;;
      let totalBytes := totalBytes - size (snd ft) in
      if totalBytes <=? maxBytes then ret tt
      else evict rest totalBytes maxBytes
  end.

Definition runSpaceCleanup : M unit :=
  if autoCleanupMaxMB <=? 0 then ret tt
  else
    let maxBytes := autoCleanupMaxMB * 1024 * 1024 in
    st <- get ;;
    let fileTasks :=
      flat_map (fun t =>
                  match completedFile st t with
                  | Some stat => [(id t, stat)]
                  | None => []
                  end) (getAllTasks st) in
    let totalBytes := fold_left (fun n ft => n + size (snd ft)) fileTasks 0 in
    if totalBytes <=? maxBytes then ret tt
    else evict (sortByMtime fileTasks) totalBytes maxBytes.

(** *** [initOnStartup]

    The item of [tasks.json] that the loader restores, "Only restore
    completed tasks whose IPA file still exists", and the task it is
    restored as. *)
Definition restorable (d : FS) (item : SnapshotItem) : option DownloadTask :=
  match item_id item, item_status item, item_filePath item with
  | Some itemId, Some itemStatus, Some itemPath =>
      if negb (falsy itemId) && streq itemStatus (js "completed")
         && negb (falsy itemPath) && existsSync d itemPath
      then Some {| id := itemId;
                   software := item_software item;
                   accountHash := item_accountHash item;
                   downloadURL := [];
                   sinfs := [];
                   iTunesMetadata := None;
                   status := Completed;
                   progress := 100;
                   speed := js "0 B/s";
                   filePath := Some itemPath;
                   error := None;
                   createdAt := item_createdAt item |}
      else None
  | _, _, _ => None
  end.

Definition emptyState (d : FS) : State :=
  {| objs := []; tasks := []; abortControllers := []; chunkDownloaders := [];
     progressListeners := []; controllers := []; timeouts := [];
     downloaders := []; coroutines := []; disk := d; delivered := [];
     written := [] |}.

(** [tasks.set(task.id, task)] for a new task object. *)
Definition addTask (task : DownloadTask) : M nat :=
  fun st =>
    let ref := List.length (objs st) in
    (with_tasks (map_set (id task) ref (tasks st))
       (with_objs (objs st ++ [task]) st), Ok ref).

(** The elements the loop of the loader gets to: [item.id] on [null]
    throws, which ends the loop in the [catch] around it with the tasks
    restored so far kept. *)
Fixpoint untilNull {A : Type} (data : list (option A)) : list A :=
  match data with
  | Some item :: rest => item :: untilNull rest
  | _ => []
  end.

(** The items the loader iterates over: none when [tasks.json] does not
    exist, cannot be read or parsed, or holds no array. *)
Definition loadedItems (d : FS) : list SnapshotItem :=
  if existsSync d TASKS_FILE then
    match readFileSync_json d TASKS_FILE with
    | Ok (Some data) => untilNull data
    | _ => []
    end
  else [].

(** The state of the module when the loader of [initOnStartup] has run,
    "Load completed tasks from previous run"; [d] is the disk as the two
    statements before the loader (the legacy file, the packages directory)
    leave it.  The two calls that end the source's [initOnStartup] are
    steps from this state, not part of it: [cleanOrphanedPackages] touches
    nothing but the disk, which is the action [DiskChanges] below, and
    [runTimeCleanup] is the action [CleanupTick]; [startup] below is the
    state when both have run. *)
Definition initOnStartup (d : FS) : State :=
  fold_left
    (fun st item =>
       match restorable d item with
       | Some task => fst (addTask task st)
       | None => st
       end)
    (loadedItems d) (emptyState d).

(** *** [startDownload] *)

Definition newAbortController : M nat :=
  fun st =>
    (with_controllers (controllers st ++ [false]) st,
     Ok (List.length (controllers st))).

(** [setTimeout(() => controller.abort(), DOWNLOAD_TIMEOUT_MS)] *)
Definition setTimeout_abort (controller : nat) : M nat :=
  fun st =>
    (with_timeouts (timeouts st ++ [(controller, true)]) st,
     Ok (List.length (timeouts st))).

Definition clearTimeout (timeout : nat) : M unit :=
  modify (fun st =>
    with_timeouts
      (updateNth timeout (fun t => (fst t, false)) (timeouts st)) st).

Definition newChunkedDownloader (url destPath : jstring) : M nat :=
  fun st =>
    (with_downloaders
       (downloaders st
        ++ [{| dl_url := url; dl_destPath := destPath; dl_aborted := false |}])
       st,
     Ok (List.length (downloaders st))).

(** The call is suspended at an [await]. *)
Definition suspend (co : Coroutine) : M unit :=
  modify (fun st => with_coroutines (coroutines st ++ [co]) st).

Definition isAbortError (err : Thrown) : bool :=
  instanceofError err && streq (name err) (js "AbortError").

(** The [catch] block of [startDownload]. *)
Definition catchBlock (ref timeout : nat) (err : Thrown) : M unit :=
  task <- readTask ref ;;
  modify (fun st =>
    with_chunkDownloaders (map_delete (id task) (chunkDownloaders st)) st) ;;;
  modify (fun st =>
    with_abortControllers (map_delete (id task) (abortControllers st)) st) ;;;
  clearTimeout timeout ;;;
  if isAbortError err then
    task <- readTask ref ;;
    if Status_eqb (status task) Paused then ret tt
    else
      updateTask ref (fun t =>
        set_error (Some (js "Download timed out")) (set_status Failed t)) ;;;
      notifyProgress ref
  else
    updateTask ref (fun t =>
      set_error (Some (js "Download failed")) (set_status Failed t)) ;;;
    notifyProgress ref.

(** The end of the [try] block: the task is completed, its secrets are
    stripped, the snapshot is written.  An error thrown here is caught by
    the [catch] block like any other. *)
Definition complete (ref timeout : nat) : M unit :=
  tryCatch
    (updateTask ref (fun t =>
       set_iTunesMetadata None
         (set_sinfs []
            (set_downloadURL []
               (set_progress 100 (set_status Completed t))))) ;;;
     persistTasks ;;;
     notifyProgress ref)
    (fun message => catchBlock ref timeout (newError message)).

(** [startDownload] up to its first [await]. *)
Definition startDownload (ref : nat) (now : Z) : M unit :=
  runTimeCleanup now ;;;
  runSpaceCleanup ;;;
  controller <- newAbortController ;;
  task <- readTask ref ;;
  modify (fun st =>
    with_abortControllers
      (map_set (id task) controller (abortControllers st)) st) ;;;
  timeout <- setTimeout_abort controller ;;
  updateTask ref (fun t =>
    set_error None
      (set_speed (js "0 B/s") (set_progress 0 (set_status Downloading t)))) ;;;
  notifyProgress ref ;;;
  task <- readTask ref ;;
  safeAccountHash <- lift (safePathSegment (accountHash task) (js "accountHash")) ;;
  safeBundleID <-
    lift (safePathSegment (bundleID (software task)) (js "bundleID")) ;;
  safeVersion <-
    lift (safePathSegment (version (software task)) (js "version")) ;;
  let dir := path_join [PACKAGES_DIR; safeAccountHash; safeBundleID; safeVersion] in
  let resolvedDir := path_resolve cwd dir in
  let packagesBase := path_resolve cwd PACKAGES_DIR in
  if negb (startsWith resolvedDir (packagesBase ++ path_sep)) then
    updateTask ref (fun t =>
      set_error (Some (js "Invalid path")) (set_status Failed t)) ;;;
    clearTimeout timeout ;;;
    notifyProgress ref
  else
    onDisk (fun d => mkdirSync_recursive d dir) ;;;
    let filePath := path_join [dir; id task ++ js ".ipa"] in
    updateTask ref (set_filePath (Some filePath)) ;;;
    tryCatch
      (task <- readTask ref ;;
       lift (validateDownloadURL (downloadURL task)) ;;;
       downloader <- newChunkedDownloader (downloadURL task) filePath ;;
       modify (fun st =>
         with_chunkDownloaders
           (map_set (id task) downloader (chunkDownloaders st)) st) ;;;
       suspend {| co_task := ref; co_timeout := timeout;
                  co_filePath := filePath; co_stage := AwaitingDownload |})
      (fun message => catchBlock ref timeout (newError message)).

Definition setStage (co : nat) (stage : Stage) : M unit :=
  modify (fun st =>
    with_coroutines
      (updateNth co (fun c => {| co_task := co_task c;
                                 co_timeout := co_timeout c;
                                 co_filePath := co_filePath c;
                                 co_stage := stage |}) (coroutines st)) st).

(** [startDownload] from the moment [downloader.download] settles to the
    next [await] or to its end. *)
Definition afterDownload (co : nat) (settled : Settlement) : M unit :=
  st <- get ;;
  match nth_error (coroutines st) co with
  | Some {| co_task := ref; co_timeout := timeout; co_stage := AwaitingDownload |} =>
      match settled with
      | Some err =>
          setStage co Finished ;;; catchBlock ref timeout err
      | None =>
          task <- readTask ref ;;
          modify (fun st =>
            with_chunkDownloaders
              (map_delete (id task) (chunkDownloaders st)) st) ;;;
          modify (fun st =>
            with_abortControllers
              (map_delete (id task) (abortControllers st)) st) ;;;
          clearTimeout timeout ;;;
          if (0 <? List.length (sinfs task))%nat then
            updateTask ref (fun t => set_progress 100 (set_status Injecting t)) ;;;
            notifyProgress ref ;;;
            setStage co AwaitingInject
          else
            setStage co Finished ;;; complete ref timeout
      end
  | _ => ret tt
  end.

(** [startDownload] from the moment [inject] settles to its end. *)
Definition afterInject (co : nat) (settled : Settlement) : M unit :=
  st <- get ;;
  match nth_error (coroutines st) co with
  | Some {| co_task := ref; co_timeout := timeout; co_stage := AwaitingInject |} =>
      setStage co Finished ;;;
      match settled with
      | Some err => catchBlock ref timeout err
      | None => complete ref timeout
      end
  | _ => ret tt
  end.

(** The [onProgress] callback that [startDownload] hands to its
    downloader. *)
Definition onProgress (co : nat) (info : ProgressInfo) : M unit :=
  st <- get ;;
  match nth_error (coroutines st) co with
  | Some {| co_task := ref; co_stage := AwaitingDownload |} =>
      updateTask ref (fun t =>
        let t := set_speed (info_speed info) t in
        if total info >? 0
        then set_progress (roundPercent (downloaded info) (total info)) t
        else t) ;;;
      notifyProgress ref
  | _ => ret tt
  end.

(** [startDownload(task)] called and its promise dropped: what the call
    throws before its first [await] rejects the promise and reaches no
    caller. *)
Definition startDownload_detached (ref : nat) (now : Z) : M unit :=
  tryCatch (startDownload ref now) (fun _ => ret tt).

Definition pauseTask (taskId : jstring) : M bool :=
  st <- get ;;
  match findTask st taskId with
  | None => ret false
  | Some (ref, task) =>
      if negb (Status_eqb (status task) Downloading) then ret false
      else
        abortIfDownloading taskId ;;;
        updateTask ref (set_status Paused) ;;;
        notifyProgress ref ;;;
        ret true
  end.

Definition resumeTask (taskId : jstring) (now : Z) : M bool :=
  st <- get ;;
  match findTask st taskId with
  | None => ret false
  | Some (ref, task) =>
      if negb (Status_eqb (status task) Paused) then ret false
      else startDownload_detached ref now ;;; ret true
  end.

Definition createTask (software : Software)
    (accountHash downloadURL : jstring) (sinfs : list Sinf)
    (iTunesMetadata : option jstring)
    (rnds : list N) (nowISO : jstring) (now : Z) : M nat :=
  lift (validateDownloadURL downloadURL) ;;;
  lift (safePathSegment accountHash (js "accountHash")) ;;;
  lift (safePathSegment (bundleID software) (js "bundleID")) ;;;
  lift (safePathSegment (version software) (js "version")) ;;;
  ref <- addTask {| id := uuidv4 rnds;
                    software := software;
                    accountHash := accountHash;
                    downloadURL := downloadURL;
                    sinfs := sinfs;
                    iTunesMetadata := iTunesMetadata;
                    status := Pending;
                    progress := 0;
                    speed := js "0 B/s";
                    filePath := None;
                    error := None;
                    createdAt := nowISO |} ;;
  startDownload_detached ref now ;;;
  ret ref.

(** The global timeout of a download fires. *)
Definition timeoutFires (timeout : nat) : M unit :=
  st <- get ;;
  match nth_error (timeouts st) timeout with
  | Some (controller, true) =>
      AbortController_abort controller ;;; clearTimeout timeout
  | _ => ret tt
  end.

(** *** The module as a transition system

    JavaScript runs one callback at a time, so between two [await]s nothing
    interleaves.  An action is one such run: a call of an exported function,
    the continuation of a suspended [startDownload], a timer, or a change
    of the disk from outside the module (the downloader and the injector
    write there, and so may anything else). *)
Inductive Action :=
| CreateTask (software : Software) (accountHash downloadURL : jstring)
    (sinfs : list Sinf) (iTunesMetadata : option jstring)
    (rnds : list N) (nowISO : jstring) (now : Z)
| DeleteTask (taskId : jstring)
| PauseTask (taskId : jstring)
| ResumeTask (taskId : jstring) (now : Z)
| DownloadSettles (co : nat) (settled : Settlement)
| InjectSettles (co : nat) (settled : Settlement)
| Progress (co : nat) (info : ProgressInfo)
| TimeoutFires (timeout : nat)
| CleanupTick (now : Z)
| AddProgressListener (taskId : jstring) (listener : nat)
| RemoveProgressListener (taskId : jstring) (listener : nat)
| DiskChanges (d : FS).

Definition perform (a : Action) : M unit :=
  match a with
  | CreateTask software accountHash downloadURL sinfs iTunesMetadata
      rnds nowISO now =>
      createTask software accountHash downloadURL sinfs iTunesMetadata
        rnds nowISO now ;;; ret tt
  | DeleteTask taskId => deleteTask taskId ;;; ret tt
  | PauseTask taskId => pauseTask taskId ;;; ret tt
  | ResumeTask taskId now => resumeTask taskId now ;;; ret tt
  | DownloadSettles co settled => afterDownload co settled
  | InjectSettles co settled => afterInject co settled
  | Progress co info => onProgress co info
  | TimeoutFires timeout => timeoutFires timeout
  | CleanupTick now => runTimeCleanup now
  | AddProgressListener taskId listener => addProgressListener taskId listener
  | RemoveProgressListener taskId listener =>
      removeProgressListener taskId listener
  | DiskChanges d => modify (with_disk d)
  end.

(** The state after an action, whether it returned or threw. *)
Definition after (a : Action) (st : State) : State := fst (perform a st).

Inductive reachableFrom (start : State) : State -> Prop :=
| reachable_start : reachableFrom start start
| reachable_step : forall st a,
    reachableFrom start st -> reachableFrom start (after a st).

(** The states the module can be in: those it reaches from the state that
    the loader of [initOnStartup] builds from some disk; the calls that end
    [initOnStartup] are among the actions. *)
Definition reachable (st : State) : Prop :=
  exists d, reachableFrom (initOnStartup d) st.


(** What [startDownload] checks of its destination: a path whose resolved
    form begins with the resolved packages directory and a separator. *)
Definition beneathPackages (path : jstring) : bool :=
  startsWith (path_resolve cwd path) (path_resolve cwd PACKAGES_DIR ++ path_sep).

(** The destination directory [startDownload] computes for a task. *)
Definition destinationDir (t : DownloadTask) : result jstring :=
  match safePathSegment (accountHash t) (js "accountHash") with
  | Ok safeAccountHash =>
      match safePathSegment (bundleID (software t)) (js "bundleID") with
      | Ok safeBundleID =>
          match safePathSegment (version (software t)) (js "version") with
          | Ok safeVersion =>
              Ok (path_join [PACKAGES_DIR; safeAccountHash; safeBundleID;
                             safeVersion])
          | Throw e => Throw e
          end
      | Throw e => Throw e
      end
  | Throw e => Throw e
  end.

(** A task whose file, if any, lies beneath the packages directory, and
    whose id can serve as a file name. *)
Definition wellPlaced (t : DownloadTask) : Prop :=
  noSlash (id t) = true
  /\ forall p, filePath t = Some p -> beneathPackages p = true.


(** Following the words of the specification: the snapshot holds the
    completed tasks whose file exists on disk. *)
Definition fileExists (st : State) (t : DownloadTask) : bool :=
  match filePath t with
  | Some p => existsSync (disk st) p
  | None => false
  end.

Definition completedTasks_spec (st : State) : list PersistedTask :=
  map projection
    (filter (fun t => Status_eqb (status t) Completed && fileExists st t)
            (getAllTasks st)).

(** Steps that leave every task object and every delivered notification as
    they were and at most write further snapshots. *)
Definition quiet (st st' : State) : Prop :=
  objs st' = objs st /\ delivered st' = delivered st
  /\ exists snapshots,
       written st' = written st ++ snapshots
       /\ Forall (fun snapshot => exists st0, snapshot = completedTasks st0)
                 snapshots.

Definition quietly {A : Type} (m : M A) : Prop :=
  forall st, quiet st (fst (m st)).

Definition preserves (I : State -> Prop) {A : Type} (m : M A) : Prop :=
  forall st, I st -> I (fst (m st)).


End ManagerOperations.

(** ** downloadManager.ts: what steps leave alone *)

Section ManagerRelations.
Context `{fs : NodeFs}.

(** A computation every run of which relates the state before to the
    state after, whether it returns or throws. *)
Definition keeps (R : State -> State -> Prop) {A : Type} (m : M A) : Prop :=
  forall st, R st (fst (m st)).

(** Steps that change nothing but the disk. *)
Definition onlyDisk (st st' : State) : Prop :=
  objs st' = objs st /\ tasks st' = tasks st
  /\ abortControllers st' = abortControllers st
  /\ chunkDownloaders st' = chunkDownloaders st
  /\ progressListeners st' = progressListeners st
  /\ controllers st' = controllers st /\ timeouts st' = timeouts st
  /\ downloaders st' = downloaders st /\ coroutines st' = coroutines st
  /\ delivered st' = delivered st /\ written st' = written st.

(** Steps that leave the task objects and the entry of one id in the task
    map as they are. *)
Definition keepsTask (taskId : jstring) (st st' : State) : Prop :=
  objs st' = objs st /\ assoc taskId (tasks st') = assoc taskId (tasks st).

(** Steps that leave the task objects as they are and add no entry to the
    task map. *)
Definition fewerTasks (st st' : State) : Prop :=
  objs st' = objs st /\ incl (tasks st') (tasks st).

(** A listener is registered for an id. *)
Definition registered (st : State) (taskId : jstring) (listener : nat) : Prop :=
  exists listeners,
    assoc taskId (progressListeners st) = Some listeners /\ In listener listeners.

End ManagerRelations.

Section ManagerMore.
Context `{fs : NodeFs} `{proc : Process} `{parser : UrlParser}.

(** The test of [runTimeCleanup] on a task: completed, with a file that
    exists and was last modified before the cutoff. *)
Definition expired (st : State) (now : Z) (t : DownloadTask) : bool :=
  match completedFile st t with
  | Some stat =>
      (mtimeMs stat <? now - autoCleanupDays * 24 * 60 * 60 * 1000)%Z
  | None => false
  end.

(** The block of [deleteTask] that removes the file of the task. *)
Definition removeFile (task : DownloadTask) : M unit :=
  if hasFilePath task then
    let resolved :=
      path_resolve cwd (match filePath task with Some p => p | None => [] end) in
    let packagesBase := path_resolve cwd PACKAGES_DIR in
    st <- get ;;
    if startsWith resolved (packagesBase ++ path_sep)
       && existsSync (disk st) resolved then
      onDisk (fun d => unlinkSync d resolved) ;;;
      removeEmptyParents (S (List.length resolved)) packagesBase
        (path_dirname resolved)
    else ret tt
  else ret tt.

End ManagerMore.

(** What identifies a task and says whose it is: the fields no statement
    of the module assigns to after the task is made. *)
Definition identity (t : DownloadTask)
  : jstring * Software * jstring * jstring :=
  (id t, software t, accountHash t, createdAt t).

Section ManagerIdentity.
Context `{fs : NodeFs}.

(** Every task object of [st] is still there in [st'], with its
    identity. *)
Definition sameIdentity (st st' : State) : Prop :=
  forall ref t,
    nth_error (objs st) ref = Some t ->
    exists t', nth_error (objs st') ref = Some t' /\ identity t' = identity t.

End ManagerIdentity.

(** The task that the loader makes of an element of the snapshot. *)
Definition restoredOf (p : PersistedTask) : DownloadTask :=
  {| id := p_id p;
     software := p_software p;
     accountHash := p_accountHash p;
     downloadURL := [];
     sinfs := [];
     iTunesMetadata := None;
     status := Completed;
     progress := 100;
     speed := js "0 B/s";
     filePath := p_filePath p;
     error := None;
     createdAt := p_createdAt p |}.

(** An element of a snapshot as [persistTasks] writes them: of a completed
    task with an id and a file path. *)
Definition persisted (p : PersistedTask) : Prop :=
  p_id p <> [] /\ p_status p = Completed
  /\ exists path, p_filePath p = Some path /\ path <> [].

Section ManagerRestart.
Context `{fs : NodeFs}.

Definition fileOnDisk (d : FS) (p : PersistedTask) : bool :=
  match p_filePath p with
  | Some path => existsSync d path
  | None => false
  end.

End ManagerRestart.

Section ManagerStartup.
Context `{fs : NodeFs} `{proc : Process} `{parser : UrlParser}.

(** The source's [initOnStartup] from its loader to its end, when it gets
    there: the loader on the disk [d], [cleanOrphanedPackages], which reads
    the tasks, changes nothing but the disk and leaves it as [cleaned]
    (an error it throws ends the loading of the module), and
    [runTimeCleanup] at the time [now]. *)
Definition startup (d cleaned : FS) (now : Z) : State :=
  after (CleanupTick now) (after (DiskChanges cleaned) (initOnStartup d)).

End ManagerStartup.

Section ManagerIndices.
Context `{fs : NodeFs}.

(** Nothing is registered for an id any more, and a timeout is disarmed. *)
Definition cleared (taskId : jstring) (timeout : nat) (st : State) : Prop :=
  assoc taskId (abortControllers st) = None
  /\ assoc taskId (chunkDownloaders st) = None
  /\ forall controller armed,
       nth_error (timeouts st) timeout = Some (controller, armed) ->
       armed = false.

(** Steps that leave the indices and the timeouts as they are. *)
Definition sameIndices (st st' : State) : Prop :=
  abortControllers st' = abortControllers st
  /\ chunkDownloaders st' = chunkDownloaders st
  /\ timeouts st' = timeouts st.

End ManagerIndices.

Section ManagerSpace.
Context `{fs : NodeFs} `{proc : Process}.

(** The array [fileTasks] that [runSpaceCleanup] collects, and the
    [totalBytes] it adds up. *)
Definition fileTasksOf (st : State) : list (jstring * Stats) :=
  flat_map (fun t =>
              match completedFile st t with
              | Some stat => [(id t, stat)]
              | None => []
              end) (getAllTasks st).

Definition totalBytesOf (fileTasks : list (jstring * Stats)) : Z :=
  fold_left (fun n ft => n + size (snd ft))%Z fileTasks 0%Z.

(** The elements of the sorted array that the loop of [runSpaceCleanup]
    reaches before its [break]. *)
Fixpoint victimsOf (fileTasks : list (jstring * Stats)) (totalBytes maxBytes : Z)
  : list (jstring * Stats) :=
  match fileTasks with
  | [] => []
  | ft :: rest =>
      ft :: (if (totalBytes - size (snd ft) <=? maxBytes)%Z then []
             else victimsOf rest (totalBytes - size (snd ft)) maxBytes)
  end.

Definition olderFirst (a b : jstring * Stats) : Prop :=
  (mtimeMs (snd a) <= mtimeMs (snd b))%Z.

End ManagerSpace.

Section ManagerFiles.
Context `{fs : NodeFs}.

(** There is a task object at a reference, and it has a file path. *)
Definition present (ref : nat) (st : State) : Prop :=
  exists t, nth_error (objs st) ref = Some t.

Definition filed (ref : nat) (st : State) : Prop :=
  exists t, nth_error (objs st) ref = Some t /\ hasFilePath t = true.

(** Every completed task has a file path, and so has the task of every
    call of [startDownload] that has got to its first [await]. *)
Definition completedHaveFiles (st : State) : Prop :=
  (forall ref t, nth_error (objs st) ref = Some t ->
     status t = Completed -> hasFilePath t = true)
  /\ (forall co c, nth_error (coroutines st) co = Some c ->
        filed (co_task c) st).

(** Steps that take no file path away, complete no task and suspend no
    call. *)
Definition keepsFiles (st st' : State) : Prop :=
  (forall ref t, nth_error (objs st) ref = Some t ->
     exists t', nth_error (objs st') ref = Some t'
                /\ (hasFilePath t = true -> hasFilePath t' = true))
  /\ (forall ref t', nth_error (objs st') ref = Some t' ->
        status t' = Completed ->
        exists t, nth_error (objs st) ref = Some t /\ status t = Completed)
  /\ map co_task (coroutines st') = map co_task (coroutines st).

(** An assignment to a task that neither takes its file path away nor
    completes it. *)
Definition gentle (f : DownloadTask -> DownloadTask) : Prop :=
  forall t, (hasFilePath t = true -> hasFilePath (f t) = true)
            /\ (status (f t) = Completed -> status t = Completed).

(** Facts about the state that such steps keep. *)
Definition stable (Q : State -> Prop) : Prop :=
  forall st st', keepsFiles st st' -> Q st -> Q st'.

Definition safeWith (Q : State -> Prop) (st : State) : Prop :=
  completedHaveFiles st /\ Q st.

Definition anyState (st : State) : Prop := True.

(** From a state in [P] every run ends in a state in [Q], whether it
    returns or throws. *)
Definition leads (P : State -> Prop) {A : Type} (m : M A)
    (Q : State -> Prop) : Prop :=
  forall st, P st -> Q (fst (m st)).

End ManagerFiles.

Section ManagerPlaces.
Context `{fs : NodeFs} `{proc : Process}.

(** A task that is well placed and has not failed the containment test of
    [startDownload]. *)
Definition placed (t : DownloadTask) : Prop :=
  wellPlaced t /\ error t <> Some (js "Invalid path").

Definition placedAt (ref : nat) (st : State) : Prop :=
  exists t, nth_error (objs st) ref = Some t /\ placed t.

(** Steps that add no task object, change only placed objects, into placed
    ones, and suspend calls of [startDownload] only for a task that is
    placed. *)
Definition placedStep (st st' : State) : Prop :=
  List.length (objs st') = List.length (objs st)
  /\ (forall ref t t',
        nth_error (objs st) ref = Some t ->
        nth_error (objs st') ref = Some t' ->
        t' = t \/ (placed t /\ placed t'))
  /\ (forall c, In c (coroutines st') ->
        In (co_task c) (map co_task (coroutines st))
        \/ placedAt (co_task c) st').

(** Such a step, when the object at [ref] is placed before it. *)
Definition stepAt (ref : nat) (st st' : State) : Prop :=
  placedAt ref st -> placedStep st st'.

(** The task is as the loader restored it from an item of [tasks.json]. *)
Definition restoredFrom (d : FS) (t : DownloadTask) : Prop :=
  exists item, In item (loadedItems d) /\ restorable d item = Some t.

(** Every task object is placed or as it was restored at startup, and the
    task of every suspended call of [startDownload] is placed. *)
Definition placedOrRestored (d : FS) (st : State) : Prop :=
  (forall t, In t (objs st) -> placed t \/ restoredFrom d t)
  /\ (forall c, In c (coroutines st) -> placedAt (co_task c) st).

End ManagerPlaces.

(** ** A small platform for examples

    A disk that is a set of file names (compared as they are written) and
    the content of [tasks.json]; a process with the data directory of the
    Docker image; a URL parser for URLs of the form
    [https://<host>/<path>]. *)

Record ExampleDisk := {
  files : list jstring;
  tasksJson : option (list SnapshotItem)
}.

Definition statusString (s : Status) : jstring :=
  match s with
  | Pending => js "pending"
  | Downloading => js "downloading"
  | Injecting => js "injecting"
  | Paused => js "paused"
  | Completed => js "completed"
  | Failed => js "failed"
  end.

Definition itemOf (p : PersistedTask) : SnapshotItem :=
  {| item_id := Some (p_id p);
     item_software := p_software p;
     item_accountHash := p_accountHash p;
     item_status := Some (statusString (p_status p));
     item_filePath := p_filePath p;
     item_createdAt := p_createdAt p |}.

Definition exampleFs : NodeFs :=
  {| FS := ExampleDisk;
     existsSync := fun d p => existsb (streq p) (files d);
     unlinkSync := fun d p =>
       Ok {| files := filter (fun q => negb (streq q p)) (files d);
             tasksJson := tasksJson d |};
     rmdirSync := fun d _ => Ok d;
     mkdirSync_recursive := fun d _ => Ok d;
     readdirSync := fun _ _ => Ok [];
     statSync := fun _ _ => Ok {| size := 0; mtimeMs := 0 |};
     writeFileSync_json := fun d file tasks =>
       Ok {| files := file :: filter (fun q => negb (streq q file)) (files d);
             tasksJson := Some (map itemOf tasks) |};
     readFileSync_json := fun d _ =>
       match tasksJson d with
       | Some items => Ok (Some (map Some items))
       | None => Throw (js "Unexpected end of JSON input")
       end |}.

Definition exampleProcess : Process :=
  {| dataDir := js "/data";
     autoCleanupDays := 0;
     autoCleanupMaxMB := 0;
     cwd := js "/app" |}.

(** A stand-in for the URL parser of the platform, for the examples only:
    it parses nothing but [https://] followed by a host and a path, and
    takes the host as it is written.  The properties hold for every
    parser; this one only gives them an instance to be evaluated at. *)
Definition exampleUrlParser : UrlParser :=
  {| new_URL := fun url =>
       if startsWith url (js "https://") then
         Some {| protocol := js "https:";
                 hostname := takeUntilSlash (skipn 8 url) |}
       else None |}.


(** A parser stand-in that reads the same dictionary from every buffer. *)
Definition manifestPlistLibs : PlistLibs :=
  {| bplistParser_parseBuffer := fun _ =>
       Ok [PDict [(js "SinfPaths", PArray [PString (js "SC_Info/Demo.sinf")]);
                  (js "CFBundleExecutable", PString (js "Demo"))]];
     plist_parse := fun _ => Throw (js "Invalid XML plist");
     bplistCreator := fun _ => Ok [];
     toString_utf8 := fun b => b;
     Buffer_from_base64 := fun s => s;
     String_of := fun _ => js "[object Object]" |}.



(** An archive with the [Info.plist] of a watch application before the
    one of the application. *)
Definition exampleWatchArchive : ZipFile :=
  {| zip_entries :=
       [{| filename := js "Payload/Demo.app/Watch/W.app/Info.plist";
           content := Ok [] |};
        {| filename := js "Payload/Demo.app/Info.plist"; content := Ok [] |};
        {| filename := js "Payload/Demo.app/SC_Info/Manifest.plist";
           content := Ok [] |}];
     zip_iterationError := None;
     zip_closeError := None |}.


(** A server that supports ranges and announces ten bytes, and the first
    range of a download of them. *)
Definition exampleHead : result HeadResponse :=
  Ok {| head_ok := true;
        head_status := 200;
        head_acceptRanges := Some (js "bytes");
        head_contentLength := Some (js "10") |}.

Definition exampleChunk : ChunkRange := {| index := 0; start := 0; end_ := 2 |}.

(** A platform for [addFilesToZip] on which no call fails. *)
Definition exampleZipPlatform : ZipPlatform :=
  {| os_tmpdir := js "/tmp";
     process_cwd := js "/app";
     mkdtemp := fun prefix => Ok (prefix ++ js "Ab12Cd");
     failing := fun _ _ => None |}.

Definition exampleTmpDir : jstring := js "/tmp/sinf-Ab12Cd".

Definition exampleSinfFile : InjectFile :=
  {| entryPath := js "Payload/Demo.app/SC_Info/Demo.sinf"; data := [1; 2; 3]%N |}.

(** A staged file whose entry path climbs out of the temporary directory. *)
Definition exampleTraversal : InjectFile :=
  {| entryPath := js "../../etc/cron.d/job"; data := [1; 2; 3]%N |}.

Section Examples.
#[local] Existing Instance exampleFs.
#[local] Existing Instance exampleProcess.
#[local] Existing Instance exampleUrlParser.

Definition emptyDisk : ExampleDisk := {| files := []; tasksJson := None |}.

Definition exampleAction : Action :=
  CreateTask
    {| softwareName := js "Example";
       bundleID := js "com.example.app";
       version := js "1.0";
       fileSizeBytes := None |}
    (js "0123456789abcdef")
    (js "https://iosapps.itunes.apple.com/app.ipa")
    [] None
    [0; 1; 2; 3; 4; 5; 6; 7; 8; 9; 10; 11; 12; 13; 14; 15]%N
    (js "2026-01-01T00:00:00.000Z") 0.

(** A task is created and its download is under way. *)
Definition exampleDownloading : State :=
  after exampleAction (initOnStartup emptyDisk).

Definition exampleFilePath : jstring :=
  Eval vm_compute in
    match nth_error (coroutines exampleDownloading) 0 with
    | Some co => co_filePath co
    | None => []
    end.

(** The id that [uuidv4] makes of the random bytes of [exampleAction]. *)
Definition exampleTaskId : jstring := js "00010203-0405-4607-8809-0a0b0c0d0e0f".

(** The downloader has written the file and the download has resolved. *)
Definition exampleCompleted : State :=
  after (DownloadSettles 0 None)
    (after (DiskChanges {| files := [exampleFilePath]; tasksJson := None |})
       exampleDownloading).

(** The operator pauses the download instead. *)
Definition examplePaused : State :=
  after (PauseTask exampleTaskId) exampleDownloading.

(** Somebody removes the file of the completed task from the disk. *)
Definition exampleFileGone : State :=
  after (DiskChanges {| files := [TASKS_FILE]; tasksJson := None |})
    exampleCompleted.

(** The state after [persistTasks] is called once more. *)
Definition examplePersisted : State := fst (persistTasks exampleCompleted).

(** After the file is gone, a second task is created, and its download
    resolves: [startDownload] writes the snapshot again. *)
Definition exampleSecondAction : Action :=
  CreateTask
    {| softwareName := js "Other";
       bundleID := js "com.example.other";
       version := js "2.0";
       fileSizeBytes := None |}
    (js "0123456789abcdef")
    (js "https://iosapps.itunes.apple.com/other.ipa")
    [] None
    [16; 17; 18; 19; 20; 21; 22; 23; 24; 25; 26; 27; 28; 29; 30; 31]%N
    (js "2026-01-02T00:00:00.000Z") 0.

Definition exampleSecondDownloading : State :=
  after exampleSecondAction exampleFileGone.

Definition exampleSecondCompleted : State :=
  after (DownloadSettles 1 None) exampleSecondDownloading.

(** A [tasks.json] that names a file outside the packages directory. *)
Definition foreignDisk : ExampleDisk :=
  {| files := [TASKS_FILE; js "/etc/hostname"];
     tasksJson :=
       Some [{| item_id := Some (js "x");
                item_software := {| softwareName := js "Example";
                                    bundleID := js "com.example.app";
                                    version := js "1.0";
                                    fileSizeBytes := None |};
                item_accountHash := js "0123456789abcdef";
                item_status := Some (js "completed");
                item_filePath := Some (js "/etc/hostname");
                item_createdAt := js "2026-01-01T00:00:00.000Z" |}] |}.

(** The file of the task is on the disk and its download is about to
    settle. *)
Definition exampleDownloaded : State :=
  after (DiskChanges {| files := [exampleFilePath]; tasksJson := None |})
    exampleDownloading.

(** A client listens to the progress of the task. *)
Definition exampleListening : State :=
  after (AddProgressListener exampleTaskId 7) exampleDownloading.

(** The module after startup on the disk with the foreign file. *)
Definition exampleForeign : State := initOnStartup (fs:=exampleFs) foreignDisk.

(** A task is created after that startup. *)
Definition exampleMixed : State := after exampleAction exampleForeign.

End Examples.

(** * Properties *)

(** ** Strings *)

Lemma streq_true : forall a b, streq a b = true <-> a = b.
Proof.
  intros a b; unfold streq; destruct (jstring_eq_dec a b); split; congruence.
Qed.

Lemma streq_false : forall a b, streq a b = false <-> a <> b.
Proof.
  intros a b; unfold streq; destruct (jstring_eq_dec a b); split; congruence.
Qed.

Lemma streq_refl : forall a, streq a a = true.
Proof. intro a; apply streq_true; reflexivity. Qed.

Lemma startsWith_spec : forall p s,
  startsWith s p = true <-> exists r, s = p ++ r.
Proof.
  induction p as [|c p IH]; intros s; simpl.
  - split; [intros _; exists s; reflexivity | reflexivity].
  - destruct s as [|d s]; simpl.
    + split; [discriminate | intros [r Hr]; discriminate].
    + rewrite andb_true_iff, N.eqb_eq, IH. split.
      * intros [-> [r ->]]. exists r; reflexivity.
      * intros [r Hr]. injection Hr as -> ->. split; [reflexivity | exists r; reflexivity].
Qed.

Lemma startsWith_app : forall p r, startsWith (p ++ r) p = true.
Proof. intros p r; apply startsWith_spec; exists r; reflexivity. Qed.

Lemma endsWith_spec : forall p s,
  endsWith s p = true <-> exists r, s = r ++ p.
Proof.
  intros p s; unfold endsWith; rewrite startsWith_spec; split.
  - intros [r Hr]. exists (rev r).
    rewrite <- (rev_involutive s), Hr, rev_app_distr, rev_involutive; reflexivity.
  - intros [r ->]. exists (rev r). apply rev_app_distr.
Qed.


(** ** Path segments *)

Lemma falsy_nil : forall s, falsy s = true <-> s = [].
Proof. intros [|c s]; simpl; split; congruence. Qed.

Lemma falsy_nil_false : forall s, s <> [] -> falsy s = false.
Proof. intros [|c s] Hs; [congruence | reflexivity]. Qed.

Lemma replaceUnsafe_safe : forall value,
  forallb isSafeChar (replaceUnsafe value) = true.
Proof.
  induction value as [|c value IH]; simpl; [reflexivity|].
  rewrite IH, andb_true_r.
  destruct (isSafeChar c) eqn:E; [exact E | reflexivity].
Qed.

Lemma replaceUnsafe_length : forall value,
  List.length (replaceUnsafe value) = List.length value.
Proof. intro value; unfold replaceUnsafe; apply length_map. Qed.

Lemma replaceUnsafe_nth : forall value i c,
  nth_error value i = Some c ->
  nth_error (replaceUnsafe value) i
  = Some (if isSafeChar c then c else ch_underscore).
Proof.
  intros value i c Hc. unfold replaceUnsafe.
  rewrite nth_error_map, Hc. reflexivity.
Qed.

Lemma replaceUnsafe_fixed : forall value,
  forallb isSafeChar value = true -> replaceUnsafe value = value.
Proof.
  induction value as [|c value IH]; simpl; [reflexivity|].
  rewrite andb_true_iff. intros [Hc Hv]. rewrite Hc, IH by exact Hv. reflexivity.
Qed.

Lemma refused_test : forall s,
  falsy s || streq s (js ".") || streq s (js "..") = true <-> refused s.
Proof.
  intro s. unfold refused.
  rewrite !orb_true_iff, falsy_nil, !streq_true. tauto.
Qed.

Lemma refused_test_false : forall s,
  falsy s || streq s (js ".") || streq s (js "..") = false <-> ~ refused s.
Proof.
  intro s. rewrite <- refused_test.
  destruct (falsy s || streq s (js ".") || streq s (js "..")); split; congruence.
Qed.

Lemma safePathSegment_refused : forall value label,
  refused value -> safePathSegment value label = Throw (js "Invalid " ++ label).
Proof.
  intros value label Hr. unfold safePathSegment.
  apply refused_test in Hr. rewrite Hr. reflexivity.
Qed.

Lemma safePathSegment_unchanged : forall value label,
  ~ refused value -> SAFE_SEGMENT_RE_test value = true ->
  safePathSegment value label = Ok value.
Proof.
  intros value label Hr Ht. unfold safePathSegment.
  apply refused_test_false in Hr. rewrite Hr, Ht. reflexivity.
Qed.

Lemma safePathSegment_cleaned : forall value label,
  ~ refused value -> SAFE_SEGMENT_RE_test value = false ->
  (refused (replaceUnsafe value) ->
     safePathSegment value label = Throw (js "Invalid " ++ label)) /\
  (~ refused (replaceUnsafe value) ->
     safePathSegment value label = Ok (replaceUnsafe value)).
Proof.
  intros value label Hr Ht. unfold safePathSegment.
  apply refused_test_false in Hr. rewrite Hr, Ht. cbv zeta. split; intro Hc.
  - apply refused_test in Hc. rewrite Hc. reflexivity.
  - apply refused_test_false in Hc. rewrite Hc. reflexivity.
Qed.

Lemma safePathSegment_result : forall value label segment,
  safePathSegment value label = Ok segment ->
  ~ refused segment /\ forallb isSafeChar segment = true.
Proof.
  intros value label segment. unfold safePathSegment.
  destruct (falsy value || streq value (js ".") || streq value (js ".."))
    eqn:Hr; [discriminate|].
  apply refused_test_false in Hr.
  destruct (SAFE_SEGMENT_RE_test value) eqn:Ht.
  - intro E; injection E as <-. split; [exact Hr|].
    unfold SAFE_SEGMENT_RE_test in Ht. apply andb_true_iff in Ht. apply Ht.
  - cbv zeta.
    destruct (falsy (replaceUnsafe value) || streq (replaceUnsafe value) (js ".")
              || streq (replaceUnsafe value) (js "..")) eqn:Hc; [discriminate|].
    apply refused_test_false in Hc.
    intro E; injection E as <-. split; [exact Hc | apply replaceUnsafe_safe].
Qed.

(** C6. The path segment sanitizer refuses the empty string, [.] and [..];
    returns a value that matches [^[A-Za-z0-9._-]+$] unchanged; otherwise
    returns the value with every code unit outside the class replaced by
    [_], unless that result is empty, [.] or [..], in which case it fails;
    so whatever it returns matches [[A-Za-z0-9._-]+] and is neither [.] nor
    [..]. *)
Theorem safePathSegment_spec : forall value label,
  (refused value ->
     safePathSegment value label = Throw (js "Invalid " ++ label)) /\
  (~ refused value -> SAFE_SEGMENT_RE_test value = true ->
     safePathSegment value label = Ok value) /\
  (~ refused value -> SAFE_SEGMENT_RE_test value = false ->
     (refused (replaceUnsafe value) ->
        safePathSegment value label = Throw (js "Invalid " ++ label)) /\
     (~ refused (replaceUnsafe value) ->
        safePathSegment value label = Ok (replaceUnsafe value))) /\
  (forall i c, nth_error value i = Some c ->
     nth_error (replaceUnsafe value) i
     = Some (if isSafeChar c then c else ch_underscore)) /\
  List.length (replaceUnsafe value) = List.length value /\
  (forall segment, safePathSegment value label = Ok segment ->
     segment <> [] /\ Forall (fun c => isSafeChar c = true) segment /\
     segment <> js "." /\ segment <> js "..").
Proof.
  intros value label.
  split. { apply safePathSegment_refused. }
  split. { apply safePathSegment_unchanged. }
  split. { apply safePathSegment_cleaned. }
  split. { apply replaceUnsafe_nth. }
  split. { apply replaceUnsafe_length. }
  intros segment Hs. apply safePathSegment_result in Hs as [Hr Hsafe].
  unfold refused in Hr.
  split; [tauto|]. split; [|tauto].
  apply Forall_forall. apply forallb_forall. exact Hsafe.
Qed.

(** What the sanitizer returns it accepts unchanged: [createTask] checks
    the segments that [startDownload] sanitizes again. *)
Lemma safePathSegment_idempotent : forall value label segment label',
  safePathSegment value label = Ok segment ->
  safePathSegment segment label' = Ok segment.
Proof.
  intros value label segment label' H.
  apply safePathSegment_result in H as [Hr Hsafe].
  apply safePathSegment_unchanged; [exact Hr|].
  unfold SAFE_SEGMENT_RE_test. rewrite Hsafe.
  destruct segment; [exfalso; apply Hr; left; reflexivity|reflexivity].
Qed.

(** ** Download URL allowlist *)

Lemma canonicalize_toLower : forall c d,
  (canonicalize c =? canonicalize d)%N = true
  <-> toLowerASCII c = toLowerASCII d.
Proof.
  intros c d. rewrite N.eqb_eq.
  unfold canonicalize, toLowerASCII, isLower, isUpper.
  repeat match goal with
         | |- context [(?a <=? ?b)%N] => destruct (N.leb_spec a b)
         end; cbn [andb]; lia.
Qed.

Lemma startsWith_i_spec : forall p s,
  startsWith_i s p = true
  <-> exists a r, s = a ++ r /\ map toLowerASCII a = map toLowerASCII p.
Proof.
  induction p as [|c p IH]; intros s; simpl.
  - split; [intros _; exists [], s; split; reflexivity | reflexivity].
  - destruct s as [|d s].
    + split; [discriminate|].
      intros (a & r & Hs & Ha). destruct a; [discriminate Ha | discriminate Hs].
    + rewrite andb_true_iff, canonicalize_toLower, IH. split.
      * intros [Hc (a & r & -> & Ha)]. exists (d :: a), r. simpl.
        split; [reflexivity | congruence].
      * intros (a & r & Hs & Ha). destruct a as [|d' a]; [discriminate Ha|].
        simpl in Hs, Ha. injection Hs as -> ->. injection Ha as Hc Ha.
        split; [congruence | exists a, r; split; [reflexivity | exact Ha]].
Qed.

Lemma ALLOWED_DOWNLOAD_HOSTS_RE_test_spec : forall host,
  ALLOWED_DOWNLOAD_HOSTS_RE_test host = true
  <-> endsWithIgnoringCase host (js ".apple.com").
Proof.
  intro host. unfold ALLOWED_DOWNLOAD_HOSTS_RE_test, endsWithIgnoringCase.
  rewrite startsWith_i_spec. split.
  - intros (a & r & Hs & Ha). exists (rev r), (rev a). split.
    + rewrite <- rev_app_distr, <- Hs, rev_involutive. reflexivity.
    + rewrite !map_rev, Ha, <- map_rev, rev_involutive. reflexivity.
  - intros (before & ending & -> & He). exists (rev ending), (rev before). split.
    + apply rev_app_distr.
    + rewrite !map_rev, He. reflexivity.
Qed.

Lemma skipDigits_app : forall a r,
  forallb isDigit a = true -> stops r -> skipDigits (a ++ r) = r.
Proof.
  induction a as [|c a IH]; intros r Ha Hr; simpl.
  - destruct r as [|c r]; [reflexivity|]. simpl in *. rewrite Hr. reflexivity.
  - simpl in Ha. apply andb_true_iff in Ha as [Hc Ha]. rewrite Hc. apply IH; assumption.
Qed.

Lemma skipDigits_inv : forall s,
  exists a, forallb isDigit a = true /\ s = a ++ skipDigits s.
Proof.
  induction s as [|c s (a & Ha & Hs)]; simpl.
  - exists []. split; reflexivity.
  - destruct (isDigit c) eqn:Hc.
    + exists (c :: a). simpl. rewrite Hc, Ha. split; [reflexivity | congruence].
    + exists []. split; reflexivity.
Qed.

Lemma digits1_app : forall a r,
  decimal a -> stops r -> digits1 (a ++ r) = Some r.
Proof.
  intros [|c a] r [Hne Ha] Hr; [congruence|]. simpl in *.
  apply andb_true_iff in Ha as [Hc Ha]. rewrite Hc.
  rewrite skipDigits_app by assumption. reflexivity.
Qed.

Lemma digits1_inv : forall s r,
  digits1 s = Some r -> exists a, decimal a /\ s = a ++ r.
Proof.
  intros [|c s] r; simpl; [discriminate|].
  destruct (isDigit c) eqn:Hc; [|discriminate].
  intro E; injection E as <-.
  destruct (skipDigits_inv s) as (a & Ha & Hs).
  exists (c :: a). split.
  - split; [discriminate | simpl; rewrite Hc, Ha; reflexivity].
  - simpl. congruence.
Qed.

Lemma dotThen_inv : forall k s,
  dotThen k s = true -> exists rest, s = Some (ch_dot :: rest) /\ k rest = true.
Proof.
  intros k [[|c rest]|]; simpl; try discriminate.
  rewrite andb_true_iff, N.eqb_eq. intros [-> Hk]. exists rest. split; [reflexivity | exact Hk].
Qed.

Lemma IPV4_RE_test_spec : forall host,
  IPV4_RE_test host = true <-> dottedDecimal host.
Proof.
  intro host. unfold IPV4_RE_test, dottedDecimal. split.
  - intro Ht.
    apply dotThen_inv in Ht as (r1 & H1 & Ht).
    apply dotThen_inv in Ht as (r2 & H2 & Ht).
    apply dotThen_inv in Ht as (r3 & H3 & Ht).
    destruct (digits1 r3) as [[|? ?]|] eqn:H4; try discriminate.
    apply digits1_inv in H1 as (a & Ha & ->).
    apply digits1_inv in H2 as (b & Hb & ->).
    apply digits1_inv in H3 as (c & Hc & ->).
    apply digits1_inv in H4 as (d & Hd & ->).
    exists a, b, c, d. rewrite app_nil_r. repeat split; try assumption; apply Ha || apply Hb || apply Hc || apply Hd.
  - intros (a & b & c & d & Ha & Hb & Hc & Hd & ->).
    rewrite (digits1_app (a:=a)) by (assumption || reflexivity). simpl.
    rewrite (digits1_app (a:=b)) by (assumption || reflexivity). simpl.
    rewrite (digits1_app (a:=c)) by (assumption || reflexivity). simpl.
    rewrite <- (app_nil_r d).
    rewrite (digits1_app (a:=d)) by (assumption || exact I). reflexivity.
Qed.

Section DownloadURL.
Context `{parser : UrlParser}.

(** C5. [validateDownloadURL] fails when the string does not parse, when
    the scheme is not https, when the host name does not end with
    [.apple.com] (ASCII case ignored), and when the host name is a
    dotted-decimal IPv4 literal or begins with an opening bracket; a URL it
    accepts therefore has scheme https, a host name under [.apple.com] and
    no IP literal as host name. *)
Theorem validateDownloadURL_spec : forall url,
  (new_URL url = None ->
     validateDownloadURL url = Throw (js "Invalid download URL")) /\
  (forall parsed, new_URL url = Some parsed ->
     (protocol parsed <> js "https:" ->
        validateDownloadURL url = Throw (js "Download URL must use HTTPS")) /\
     (~ endsWithIgnoringCase (hostname parsed) (js ".apple.com") ->
        exists message, validateDownloadURL url = Throw message) /\
     (dottedDecimal (hostname parsed)
      \/ startsWith (hostname parsed) (js "[") = true ->
        exists message, validateDownloadURL url = Throw message) /\
     (protocol parsed = js "https:" ->
      ~ endsWithIgnoringCase (hostname parsed) (js ".apple.com") ->
        validateDownloadURL url
        = Throw (js "Download URL must be from an Apple domain (*.apple.com)")) /\
     (protocol parsed = js "https:" ->
      endsWithIgnoringCase (hostname parsed) (js ".apple.com") ->
      dottedDecimal (hostname parsed)
      \/ startsWith (hostname parsed) (js "[") = true ->
        validateDownloadURL url
        = Throw (js "Download URL must not use IP addresses"))) /\
  (validateDownloadURL url = Ok tt ->
     exists parsed,
       new_URL url = Some parsed
       /\ protocol parsed = js "https:"
       /\ endsWithIgnoringCase (hostname parsed) (js ".apple.com")
       /\ ~ dottedDecimal (hostname parsed)
       /\ startsWith (hostname parsed) (js "[") = false).
Proof.
  intro url. unfold validateDownloadURL.
  destruct (new_URL url) as [parsed|] eqn:Hp.
  2:{ split; [reflexivity|]. split; [intros ? [=] | discriminate]. }
  split; [discriminate|].
  destruct (streq (protocol parsed) (js "https:")) eqn:Hs; cbn [negb orb].
  2:{ apply streq_false in Hs.
      split; [|discriminate].
      intros parsed' [= <-].
      split; [reflexivity|]. split; [eauto|]. split; [eauto|].
      split; intros; congruence. }
  apply streq_true in Hs.
  destruct (ALLOWED_DOWNLOAD_HOSTS_RE_test (hostname parsed)) eqn:Ha; cbn [negb orb].
  2:{ assert (Hn : ~ endsWithIgnoringCase (hostname parsed) (js ".apple.com")).
      { rewrite <- ALLOWED_DOWNLOAD_HOSTS_RE_test_spec. congruence. }
      split; [|discriminate].
      intros parsed' [= <-].
      split; [congruence|]. split; [eauto|]. split; [eauto|].
      split; [reflexivity | intros; contradiction]. }
  apply ALLOWED_DOWNLOAD_HOSTS_RE_test_spec in Ha.
  destruct (IPV4_RE_test (hostname parsed)) eqn:Hi; cbn [negb orb].
  { apply IPV4_RE_test_spec in Hi.
    split.
    - intros parsed' [= <-].
      split; [congruence|]. split; [eauto|]. split; [eauto|].
      split; [intros; contradiction | reflexivity].
    - discriminate. }
  assert (Hn : ~ dottedDecimal (hostname parsed)).
  { rewrite <- IPV4_RE_test_spec. congruence. }
  destruct (startsWith (hostname parsed) (js "[")) eqn:Hb; cbn [negb orb].
  { split.
    - intros parsed' [= <-].
      split; [congruence|]. split; [eauto|]. split; [eauto|].
      split; [intros; contradiction | reflexivity].
    - discriminate. }
  split.
  - intros parsed' [= <-].
    split; [congruence|]. split; [intros; contradiction|].
    split; [intros [?|?]; [contradiction | congruence]|].
    split; [intros; contradiction|].
    intros _ _ [?|?]; [contradiction | congruence].
  - intros _. exists parsed. repeat split; assumption.
Qed.

End DownloadURL.

(** ** Chunk ranges *)

Section SplitChunks.
Open Scope Z_scope.

Lemma ceilDiv_spec : forall a b, 0 < b ->
  b * (ceilDiv a b - 1) < a <= b * ceilDiv a b.
Proof.
  intros a b Hb. unfold ceilDiv.
  pose proof (Z.div_mod (- a) b ltac:(lia)) as Hd.
  pose proof (Z.mod_pos_bound (- a) b Hb) as Hm.
  nia.
Qed.

Variables threads totalSize chunkSize : Z.

Lemma splitChunks_loop_nth : forall fuel i j c,
  nth_error (splitChunks_loop fuel threads totalSize chunkSize i) j = Some c ->
  c = {| index := i + Z.of_nat j;
         start := (i + Z.of_nat j) * chunkSize;
         end_ := Z.min ((i + Z.of_nat j) * chunkSize + chunkSize - 1)
                       (totalSize - 1) |}
  /\ i + Z.of_nat j < threads
  /\ (i + Z.of_nat j) * chunkSize <= totalSize - 1.
Proof.
  induction fuel as [|fuel IH]; intros i j c; simpl.
  - destruct j; discriminate.
  - destruct (Z.ltb_spec i threads) as [Hi|Hi]; [|destruct j; discriminate].
    destruct (Z.gtb_spec (i * chunkSize) (totalSize - 1)) as [Hs|Hs];
      [destruct j; discriminate|].
    destruct j as [|j]; cbn [nth_error].
    + intros [= <-]. change (Z.of_nat 0) with 0. rewrite Z.add_0_r.
      repeat split; assumption.
    + intro Hn. apply IH in Hn.
      replace (i + Z.of_nat (S j)) with (i + 1 + Z.of_nat j) by lia.
      exact Hn.
Qed.

Lemma splitChunks_loop_length : forall fuel i j,
  0 <= i -> threads - i <= Z.of_nat fuel -> 0 <= chunkSize ->
  i + Z.of_nat j < threads ->
  (i + Z.of_nat j) * chunkSize <= totalSize - 1 ->
  (j < List.length (splitChunks_loop fuel threads totalSize chunkSize i))%nat.
Proof.
  induction fuel as [|fuel IH]; intros i j Hi Hf Hc Ht Hs; simpl.
  - lia.
  - destruct (Z.ltb_spec i threads) as [Hi'|Hi']; [|lia].
    destruct (Z.gtb_spec (i * chunkSize) (totalSize - 1)) as [Hs'|Hs']; [nia|].
    destruct j as [|j]; cbn [List.length]; [lia|].
    apply -> Nat.succ_lt_mono. apply IH; lia.
Qed.

End SplitChunks.

Lemma splitChunks_nth : forall threads totalSize j c,
  nth_error (splitChunks threads totalSize) j = Some c ->
  c = chunkOf totalSize (ceilDiv totalSize threads) (Z.of_nat j)
  /\ (Z.of_nat j < threads)%Z
  /\ (Z.of_nat j * ceilDiv totalSize threads <= totalSize - 1)%Z.
Proof.
  intros threads totalSize j c Hn. unfold splitChunks in Hn.
  apply splitChunks_loop_nth in Hn as (-> & Ht & Hs). simpl in *.
  repeat split; try assumption.
  unfold chunkOf. f_equal. f_equal; lia.
Qed.

Lemma splitChunks_length : forall threads totalSize j,
  (1 <= totalSize)%Z -> (1 <= threads)%Z ->
  (Z.of_nat j < threads)%Z ->
  (Z.of_nat j * ceilDiv totalSize threads <= totalSize - 1)%Z ->
  (j < List.length (splitChunks threads totalSize))%nat.
Proof.
  intros threads totalSize j Hn Ht Hj Hs. unfold splitChunks.
  pose proof (ceilDiv_spec totalSize (b:=threads) ltac:(lia)).
  apply splitChunks_loop_length; simpl; try lia; nia.
Qed.

(** C7. For a total size [N >= 1] and a thread count [T >= 1],
    [splitChunks] returns, in ascending order of index from 0, exactly the
    chunks whose start [i * ceil(N/T)] does not exceed [N - 1]; chunk [i]
    covers the bytes from [i * ceil(N/T)] to
    [min((i+1) * ceil(N/T) - 1, N - 1)], both included; the chunks follow
    each other without gap, no two overlap, and together they cover exactly
    the bytes 0 to [N - 1]. *)
Theorem splitChunks_spec : forall totalSize threads : Z,
  (1 <= totalSize)%Z -> (1 <= threads)%Z ->
  let chunkSize := ceilDiv totalSize threads in
  let chunks := splitChunks threads totalSize in
  (forall j c, nth_error chunks j = Some c ->
     c = chunkOf totalSize chunkSize (Z.of_nat j)) /\
  (forall j, (Z.of_nat j < threads)%Z ->
     (j < List.length chunks)%nat
     <-> (Z.of_nat j * chunkSize <= totalSize - 1)%Z) /\
  (Z.of_nat (List.length chunks) <= threads)%Z /\
  (forall c, In c chunks ->
     (0 <= start c <= end_ c)%Z /\ (end_ c <= totalSize - 1)%Z) /\
  (forall j c c', nth_error chunks j = Some c ->
     nth_error chunks (S j) = Some c' -> start c' = (end_ c + 1)%Z) /\
  (forall j c j' c', nth_error chunks j = Some c ->
     nth_error chunks j' = Some c' -> j <> j' ->
     forall byte, ~ (covers c byte /\ covers c' byte)) /\
  (forall byte, (exists c, In c chunks /\ covers c byte)
     <-> (0 <= byte <= totalSize - 1)%Z).
Proof.
  intros totalSize threads Hn Ht chunkSize chunks.
  pose proof (ceilDiv_spec totalSize (b:=threads) ltac:(lia)) as Hc.
  fold chunkSize in Hc.
  assert (Hcs : (1 <= chunkSize)%Z) by nia.
  assert (Hnth : forall j c, nth_error chunks j = Some c ->
            c = chunkOf totalSize chunkSize (Z.of_nat j)
            /\ (Z.of_nat j < threads)%Z
            /\ (Z.of_nat j * chunkSize <= totalSize - 1)%Z).
  { intros j c Hj. apply splitChunks_nth. exact Hj. }
  assert (Hlen : forall j, (Z.of_nat j < threads)%Z ->
            (Z.of_nat j * chunkSize <= totalSize - 1)%Z ->
            (j < List.length chunks)%nat).
  { intros j Hj Hs. apply splitChunks_length; assumption. }
  split. { intros j c Hj. apply Hnth in Hj. tauto. }
  split.
  { intros j Hj. split; [|apply Hlen; exact Hj].
    intro Hl. apply nth_error_Some in Hl.
    destruct (nth_error chunks j) as [c|] eqn:E; [|congruence].
    apply Hnth in E. tauto. }
  split.
  { destruct (List.length chunks) as [|n] eqn:El; [lia|].
    assert (Hl : (n < List.length chunks)%nat) by lia.
    apply nth_error_Some in Hl.
    destruct (nth_error chunks n) as [c|] eqn:E; [|congruence].
    apply Hnth in E. lia. }
  split.
  { intros c Hin. apply In_nth_error in Hin as [j Hj].
    apply Hnth in Hj as (-> & Hj1 & Hj2). unfold chunkOf; cbn [start end_ index]. nia. }
  split.
  { intros j c c' Hj Hj'.
    apply Hnth in Hj as (-> & _ & _). apply Hnth in Hj' as (-> & _ & Hs).
    unfold chunkOf; cbn [start end_ index].
    rewrite Nat2Z.inj_succ in *. nia. }
  split.
  { intros j c j' c' Hj Hj' Hne byte [Hb Hb'].
    apply Hnth in Hj as (-> & _ & _). apply Hnth in Hj' as (-> & _ & _).
    unfold covers, chunkOf in Hb, Hb'; cbn [start end_ index] in Hb, Hb'.
    assert (Z.of_nat j <> Z.of_nat j') by lia. nia. }
  intro byte. split.
  - intros (c & Hin & Hb). apply In_nth_error in Hin as [j Hj].
    apply Hnth in Hj as (-> & _ & _).
    unfold covers, chunkOf in Hb; cbn [start end_ index] in Hb. nia.
  - intro Hb.
    pose proof (Z.div_mod byte chunkSize ltac:(lia)) as Hd.
    pose proof (Z.mod_pos_bound byte chunkSize ltac:(lia)) as Hm.
    assert (Hq : (0 <= byte / chunkSize)%Z) by (apply Z.div_pos; lia).
    set (q := (byte / chunkSize)%Z) in *.
    assert (Hl : (Z.to_nat q < List.length chunks)%nat).
    { apply Hlen; rewrite Z2Nat.id by exact Hq; nia. }
    apply nth_error_Some in Hl.
    destruct (nth_error chunks (Z.to_nat q)) as [c|] eqn:E; [|congruence].
    exists c. split; [eapply nth_error_In; exact E|].
    apply Hnth in E as (-> & _ & _). rewrite Z2Nat.id by exact Hq.
    unfold covers, chunkOf; cbn [start end_ index]. nia.
Qed.

(** ** The number of download threads *)

(** Whatever the environment holds, between 1 and 32 threads are used: 8
    when the variable is unset or empty, and the number itself when the
    variable holds one from 1 to 32. *)
Theorem DOWNLOAD_THREADS_spec : forall env,
  (1 <= DOWNLOAD_THREADS env <= 32)%Z
  /\ DOWNLOAD_THREADS None = 8%Z
  /\ DOWNLOAD_THREADS (Some []) = 8%Z
  /\ (parseInt10 (orString env (js "8")) = None -> DOWNLOAD_THREADS env = 8%Z)
  /\ (forall n, parseInt10 (orString env (js "8")) = Some n ->
        DOWNLOAD_THREADS env
        = if (n =? 0)%Z then 8%Z
          else if (n <? 1)%Z then 1%Z
          else if (32 <? n)%Z then 32%Z else n)
  /\ Forall (fun n => DOWNLOAD_THREADS (Some (numberToString n)) = n)
            (map Z.of_nat (seq 1 32)).
Proof.
  intro env. split; [unfold DOWNLOAD_THREADS; lia|].
  split; [reflexivity|]. split; [reflexivity|].
  split; [intro E; unfold DOWNLOAD_THREADS; rewrite E; reflexivity|].
  split.
  - intros n E. unfold DOWNLOAD_THREADS. rewrite E. unfold orNumber.
    destruct (Z.eqb_spec n 0); [reflexivity|].
    destruct (Z.ltb_spec n 1); [lia|].
    destruct (Z.ltb_spec 32 n); lia.
  - apply Forall_forall. intros n Hin.
    assert (H : forallb (fun n => (DOWNLOAD_THREADS (Some (numberToString n)) =? n)%Z)
                  (map Z.of_nat (seq 1 32)) = true) by (vm_compute; reflexivity).
    rewrite forallb_forall in H. apply Z.eqb_eq. apply H. exact Hin.
Qed.

(** ** Probing and the choice of the mode *)

Lemma greaterThan_spec : forall value bound,
  greaterThan value bound = true <-> exists z, value = Some z /\ (bound < z)%Z.
Proof.
  intros [z|] bound; cbn [greaterThan].
  - rewrite Z.gtb_ltb, Z.ltb_lt. split; [eauto|intros (z' & [= <-] & H); exact H].
  - split; [discriminate|intros (z' & [=] & _)].
Qed.

(** Every byte of the file lies in exactly one chunk. *)
Lemma splitChunks_partition : forall threads totalSize byte,
  (1 <= totalSize)%Z -> (1 <= threads)%Z ->
  (0 <= byte <= totalSize - 1)%Z ->
  exists j c,
    nth_error (splitChunks threads totalSize) j = Some c /\ covers c byte
    /\ forall j' c', nth_error (splitChunks threads totalSize) j' = Some c' ->
         covers c' byte -> j' = j.
Proof.
  intros threads totalSize byte Hn Ht Hb.
  pose proof (ceilDiv_spec totalSize (b:=threads) ltac:(lia)) as Hc.
  set (chunkSize := ceilDiv totalSize threads) in *.
  assert (Hcs : (1 <= chunkSize)%Z) by nia.
  pose proof (Z.div_mod byte chunkSize ltac:(lia)) as Hd.
  pose proof (Z.mod_pos_bound byte chunkSize ltac:(lia)) as Hm.
  assert (Hq : (0 <= byte / chunkSize)%Z) by (apply Z.div_pos; lia).
  set (q := (byte / chunkSize)%Z) in *.
  assert (Hl : (Z.to_nat q < List.length (splitChunks threads totalSize))%nat).
  { apply splitChunks_length; try assumption;
      rewrite Z2Nat.id by exact Hq; fold chunkSize; nia. }
  apply nth_error_Some in Hl.
  destruct (nth_error (splitChunks threads totalSize) (Z.to_nat q)) as [c|] eqn:E;
    [|congruence].
  exists (Z.to_nat q), c. split; [exact E|].
  apply splitChunks_nth in E as (-> & _ & _). fold chunkSize.
  rewrite Z2Nat.id by exact Hq.
  split; [unfold covers, chunkOf; cbn [start end_ index]; nia|].
  intros j' c' E' Hc'. apply splitChunks_nth in E' as (-> & _ & _).
  fold chunkSize in Hc'.
  unfold covers, chunkOf in Hc'; cbn [start end_ index] in Hc'.
  assert (Z.of_nat j' = q) by nia. lia.
Qed.

Lemma splitChunks_within : forall threads totalSize c byte,
  (1 <= totalSize)%Z -> (1 <= threads)%Z ->
  In c (splitChunks threads totalSize) -> covers c byte ->
  (0 <= byte <= totalSize - 1)%Z.
Proof.
  intros threads totalSize c byte Hn Ht Hin Hb.
  pose proof (ceilDiv_spec totalSize (b:=threads) ltac:(lia)) as Hc.
  apply In_nth_error in Hin as [j Hj].
  apply splitChunks_nth in Hj as (-> & _ & _).
  unfold covers, chunkOf in Hb; cbn [start end_ index] in Hb. nia.
Qed.

Lemma splitChunks_count : forall threads totalSize,
  (1 <= threads)%Z ->
  (Z.of_nat (List.length (splitChunks threads totalSize)) <= threads)%Z.
Proof.
  intros threads totalSize Ht.
  destruct (List.length (splitChunks threads totalSize)) as [|n] eqn:El; [lia|].
  assert (Hl : (n < List.length (splitChunks threads totalSize))%nat) by lia.
  apply nth_error_Some in Hl.
  destruct (nth_error (splitChunks threads totalSize) n) as [c|] eqn:E;
    [|congruence].
  apply splitChunks_nth in E. lia.
Qed.

(** [download] requests ranges only from a server that answered the
    [HEAD] request with success, [accept-ranges: bytes] and a content
    length from 1 to [MAX_DOWNLOAD_SIZE], and only with more than one
    thread; the ranges it then requests are at most as many as there are
    threads, and every byte of the file lies in exactly one of them. *)
Theorem downloadPlan_chunked : forall threads head totalSize chunks,
  downloadPlan threads head = Chunked totalSize chunks ->
  (exists res,
     head = Ok res /\ head_ok res = true
     /\ head_acceptRanges res = Some (js "bytes")
     /\ parseInt10 (orString (head_contentLength res) (js "0"))
        = Some totalSize)
  /\ (1 <= totalSize <= MAX_DOWNLOAD_SIZE)%Z /\ (2 <= threads)%Z
  /\ chunks = splitChunks threads totalSize
  /\ (Z.of_nat (List.length chunks) <= threads)%Z
  /\ (forall byte, (0 <= byte <= totalSize - 1)%Z ->
        exists j c,
          nth_error chunks j = Some c /\ covers c byte
          /\ forall j' c', nth_error chunks j' = Some c' ->
               covers c' byte -> j' = j)
  /\ (forall c byte, In c chunks -> covers c byte ->
        (0 <= byte <= totalSize - 1)%Z).
Proof.
  intros threads head totalSize chunks. unfold downloadPlan, probe.
  destruct head as [res|e]; cbn [supportsRange contentLength greaterThan].
  2:{ cbn. discriminate. }
  destruct (head_ok res) eqn:Hok; cbn [negb].
  2:{ cbn. discriminate. }
  cbn [supportsRange contentLength].
  set (len := parseInt10 (orString (head_contentLength res) (js "0"))).
  destruct (greaterThan len MAX_DOWNLOAD_SIZE) eqn:Hmax; [discriminate|].
  destruct (head_acceptRanges res) as [v|] eqn:Hv; cbn [andb negb orb];
    [|discriminate].
  destruct (streq v (js "bytes")) eqn:Hb; cbn [andb negb orb]; [|discriminate].
  destruct (greaterThan len 0) eqn:Hpos; cbn [negb orb]; [|discriminate].
  destruct (Z.leb_spec threads 1) as [Ht|Ht]; [discriminate|].
  apply greaterThan_spec in Hpos as (n & Hn & Hn0). rewrite Hn.
  intros [= <- <-].
  assert (Hle : (n <= MAX_DOWNLOAD_SIZE)%Z).
  { rewrite Hn in Hmax. cbn [greaterThan] in Hmax.
    rewrite Z.gtb_ltb in Hmax. apply Z.ltb_ge in Hmax. exact Hmax. }
  apply streq_true in Hb. subst v.
  split; [exists res; repeat split; assumption|].
  split; [lia|]. split; [lia|]. split; [reflexivity|].
  split; [apply splitChunks_count; lia|].
  split.
  - intros byte Hbyte. apply splitChunks_partition; lia.
  - intros c byte Hin Hc. eapply splitChunks_within; try eassumption; lia.
Qed.

(** A probe that fails never fails [download]: when the [HEAD] request is
    rejected or answered without success, the file is fetched as a single
    stream, whatever the number of threads; so it is when the server does
    not announce [accept-ranges: bytes], or no content length above zero,
    unless the content length announced exceeds [MAX_DOWNLOAD_SIZE], which
    is refused before anything is fetched. *)
Theorem downloadPlan_single : forall threads head,
  (forall e, head = Throw e -> downloadPlan threads head = SingleStream)
  /\ (forall res, head = Ok res -> head_ok res = false ->
        downloadPlan threads head = SingleStream)
  /\ (forall res n, head = Ok res -> head_ok res = true ->
        parseInt10 (orString (head_contentLength res) (js "0")) = Some n ->
        (MAX_DOWNLOAD_SIZE < n)%Z ->
        downloadPlan threads head = FileTooLarge)
  /\ (forall res, head = Ok res -> head_ok res = true ->
        greaterThan (parseInt10 (orString (head_contentLength res) (js "0")))
          MAX_DOWNLOAD_SIZE = false ->
        head_acceptRanges res <> Some (js "bytes")
        \/ greaterThan (parseInt10 (orString (head_contentLength res) (js "0")))
             0 = false
        \/ (threads <= 1)%Z ->
        downloadPlan threads head = SingleStream).
Proof.
  intros threads head. split; [intros e ->; reflexivity|].
  split.
  { intros res -> Hok. unfold downloadPlan, probe. rewrite Hok. reflexivity. }
  split.
  { intros res n -> Hok Hn Hmax. unfold downloadPlan, probe. rewrite Hok.
    cbn [negb contentLength]. rewrite Hn. cbn [greaterThan].
    rewrite Z.gtb_ltb. apply Z.ltb_lt in Hmax. rewrite Hmax. reflexivity. }
  intros res -> Hok Hmax Hwhy. unfold downloadPlan, probe. rewrite Hok.
  cbn [negb contentLength supportsRange]. rewrite Hmax.
  destruct Hwhy as [Hv|[Hpos|Ht]].
  - destruct (head_acceptRanges res) as [v|]; [|reflexivity].
    destruct (streq v (js "bytes")) eqn:Hb; [|reflexivity].
    apply streq_true in Hb. subst v. contradiction.
  - rewrite Hpos, andb_false_r. reflexivity.
  - apply Z.leb_le in Ht. rewrite Ht, orb_true_r. reflexivity.
Qed.

(** ** The streams that feed the files *)

Lemma readSingleStream_from : forall values failure downloaded,
  (Z.of_N downloaded <= MAX_DOWNLOAD_SIZE)%Z ->
  let streamed := readSingleStream values failure downloaded in
  (Z.of_N (downloaded + sumBytes (pushed streamed)) <= MAX_DOWNLOAD_SIZE)%Z
  /\ (exists rest, values = pushed streamed ++ rest)
  /\ ((Z.of_N (downloaded + sumBytes values) <= MAX_DOWNLOAD_SIZE)%Z ->
        pushed streamed = values
        /\ streamEnd streamed
           = match failure with
             | None => Done
             | Some message => ReadFailed message
             end)
  /\ ((MAX_DOWNLOAD_SIZE < Z.of_N (downloaded + sumBytes values))%Z ->
        streamEnd streamed = ExceededSize).
Proof.
  induction values as [|v values IH]; intros failure downloaded Hd;
    cbn [readSingleStream].
  - cbn [pushed streamEnd sumBytes fold_right]. rewrite N.add_0_r.
    split; [exact Hd|]. split; [exists []; reflexivity|].
    split; [intros _; split; reflexivity|lia].
  - destruct (Z.gtb_spec (Z.of_N (downloaded + v)) MAX_DOWNLOAD_SIZE) as [Hx|Hx].
    + cbn [pushed streamEnd sumBytes fold_right]. rewrite N.add_0_r.
      split; [exact Hd|]. split; [exists (v :: values); reflexivity|].
      split; [intro Hs; exfalso; lia|reflexivity].
    + specialize (IH failure (downloaded + v)%N Hx).
      cbv zeta in IH. destruct IH as (IH1 & [rest IH2] & IH3 & IH4).
      cbn [pushed streamEnd sumBytes fold_right].
      fold (sumBytes (pushed (readSingleStream values failure (downloaded + v)))).
      fold (sumBytes values).
      rewrite !N.add_assoc.
      split; [exact IH1|].
      split; [exists rest; cbn [app]; f_equal; exact IH2|].
      split; [|exact IH4].
      intro Hs. destruct (IH3 Hs) as [E1 E2]. rewrite E1. split; [reflexivity|exact E2].
Qed.

Lemma sumBytes_cons : forall v values,
  sumBytes (v :: values) = (v + sumBytes values)%N.
Proof. reflexivity. Qed.

(** What is pushed is the values up to the first one that takes the count
    above the limit. *)
Lemma readSingleStream_prefix : forall values failure downloaded,
  let streamed := readSingleStream values failure downloaded in
  exists n,
    n <= List.length values
    /\ pushed streamed = firstn n values
    /\ (n < List.length values ->
          (MAX_DOWNLOAD_SIZE
           < Z.of_N (downloaded + sumBytes (firstn (S n) values)))%Z
          /\ streamEnd streamed = ExceededSize)
    /\ (n = List.length values ->
          streamEnd streamed
          = match failure with
            | None => Done
            | Some message => ReadFailed message
            end).
Proof.
  induction values as [|v values IH]; intros failure downloaded;
    cbn [readSingleStream].
  - exists 0. cbn [pushed streamEnd List.length firstn].
    split; [lia|]. split; [reflexivity|]. split; [lia|reflexivity].
  - destruct (Z.gtb_spec (Z.of_N (downloaded + v)) MAX_DOWNLOAD_SIZE) as [Hx|Hx].
    + exists 0. cbn [pushed streamEnd List.length firstn].
      split; [lia|]. split; [reflexivity|].
      split; [|discriminate]. intros _.
      rewrite sumBytes_cons. cbn [sumBytes fold_right]. rewrite N.add_0_r.
      split; [exact Hx|reflexivity].
    + destruct (IH failure (downloaded + v)%N) as (n & Hn & Hp & Hlt & Heq).
      exists (S n). cbn [pushed streamEnd List.length].
      split; [lia|]. split; [cbn [firstn]; rewrite Hp; reflexivity|].
      split.
      * intro Hl. destruct (Hlt ltac:(lia)) as [Hover Hend].
        split; [|exact Hend].
        change (firstn (S (S n)) (v :: values)) with (v :: firstn (S n) values).
        rewrite sumBytes_cons, N.add_assoc. exact Hover.
      * intro Hl. apply Heq. lia.
Qed.

(** [downloadSingleStream] never hands more than [MAX_DOWNLOAD_SIZE] bytes
    to the file, whatever content length the server announced.  Every value
    of the body is passed on in order up to the first one that takes the
    count of bytes above the limit: at that value the stream is destroyed
    with "Download exceeded maximum size" and nothing more is passed on.
    A body within the limit is passed on whole, and the stream ends as the
    body ends. *)
Theorem readSingleStream_spec : forall values failure,
  let streamed := readSingleStream values failure 0 in
  (Z.of_N (sumBytes (pushed streamed)) <= MAX_DOWNLOAD_SIZE)%Z
  /\ (exists n,
        n <= List.length values
        /\ pushed streamed = firstn n values
        /\ (n < List.length values ->
              (MAX_DOWNLOAD_SIZE < Z.of_N (sumBytes (firstn (S n) values)))%Z
              /\ streamEnd streamed = ExceededSize)
        /\ (n = List.length values ->
              streamEnd streamed
              = match failure with
                | None => Done
                | Some message => ReadFailed message
                end))
  /\ ((Z.of_N (sumBytes values) <= MAX_DOWNLOAD_SIZE)%Z ->
        pushed streamed = values
        /\ streamEnd streamed
           = match failure with
             | None => Done
             | Some message => ReadFailed message
             end)
  /\ ((MAX_DOWNLOAD_SIZE < Z.of_N (sumBytes values))%Z ->
        streamEnd streamed = ExceededSize).
Proof.
  intros values failure.
  pose proof (@readSingleStream_from values failure 0%N ltac:(cbv; discriminate)) as H.
  pose proof (readSingleStream_prefix values failure 0) as Hp.
  cbv zeta in H, Hp. rewrite !N.add_0_l in H.
  destruct H as (H1 & _ & H3 & H4).
  destruct Hp as (n & Hn & Hpre & Hlt & Heq).
  split; [exact H1|]. split; [|split; assumption].
  exists n. split; [exact Hn|]. split; [exact Hpre|]. split; [|exact Heq].
  intro Hl. destruct (Hlt Hl) as [Hover Hend]. rewrite N.add_0_l in Hover.
  split; assumption.
Qed.

Lemma readChunkStream_from : forall expected values failure downloaded stored,
  (Z.of_N downloaded <= expected * 2)%Z ->
  let streamed := readChunkStream expected values failure downloaded stored in
  (Z.of_N (downloaded + sumBytes (pushed streamed)) <= expected * 2)%Z
  /\ (exists rest, values = pushed streamed ++ rest)
  /\ (pushed streamed <> [] ->
        counted streamed = (downloaded + sumBytes (pushed streamed))%N)
  /\ (pushed streamed = [] -> counted streamed = stored)
  /\ ((Z.of_N (downloaded + sumBytes values) <= expected * 2)%Z ->
        pushed streamed = values
        /\ streamEnd streamed
           = match failure with
             | None => Done
             | Some message => ReadFailed message
             end)
  /\ ((expected * 2 < Z.of_N (downloaded + sumBytes values))%Z ->
        streamEnd streamed = ExceededSize).
Proof.
  intros expected.
  induction values as [|v values IH]; intros failure downloaded stored Hd;
    cbn [readChunkStream].
  - cbn [pushed streamEnd counted sumBytes fold_right]. rewrite N.add_0_r.
    split; [exact Hd|]. split; [exists []; reflexivity|].
    split; [intro H; contradiction|]. split; [reflexivity|].
    split; [intros _; split; reflexivity|lia].
  - destruct (Z.gtb_spec (Z.of_N (downloaded + v)) (expected * 2)) as [Hx|Hx].
    + cbn [pushed streamEnd counted sumBytes fold_right]. rewrite N.add_0_r.
      split; [exact Hd|]. split; [exists (v :: values); reflexivity|].
      split; [intro H; contradiction|]. split; [reflexivity|].
      split; [intro Hs; exfalso; lia|reflexivity].
    + specialize (IH failure (downloaded + v)%N (downloaded + v)%N Hx).
      cbv zeta in IH. destruct IH as (IH1 & [rest IH2] & IH3 & IH3' & IH4 & IH5).
      cbn [pushed streamEnd counted sumBytes fold_right].
      fold (sumBytes (pushed (readChunkStream expected values failure
                                (downloaded + v) (downloaded + v)))).
      fold (sumBytes values).
      rewrite !N.add_assoc.
      split; [exact IH1|].
      split; [exists rest; cbn [app]; f_equal; exact IH2|].
      split.
      { intros _.
        destruct (pushed (readChunkStream expected values failure
                            (downloaded + v) (downloaded + v))) as [|p ps] eqn:Ep.
        - rewrite (IH3' eq_refl). cbn [sumBytes fold_right]. lia.
        - apply IH3. discriminate. }
      split; [discriminate|].
      split; [|exact IH5].
      intro Hs. destruct (IH4 Hs) as [E1 E2]. rewrite E1. split; [reflexivity|exact E2].
Qed.

Lemma readChunkStream_prefix : forall expected values failure downloaded stored,
  let streamed := readChunkStream expected values failure downloaded stored in
  exists n,
    n <= List.length values
    /\ pushed streamed = firstn n values
    /\ (n < List.length values ->
          (expected * 2
           < Z.of_N (downloaded + sumBytes (firstn (S n) values)))%Z
          /\ streamEnd streamed = ExceededSize)
    /\ (n = List.length values ->
          streamEnd streamed
          = match failure with
            | None => Done
            | Some message => ReadFailed message
            end).
Proof.
  intro expected.
  induction values as [|v values IH]; intros failure downloaded stored;
    cbn [readChunkStream].
  - exists 0. cbn [pushed streamEnd List.length firstn].
    split; [lia|]. split; [reflexivity|]. split; [lia|reflexivity].
  - destruct (Z.gtb_spec (Z.of_N (downloaded + v)) (expected * 2)) as [Hx|Hx].
    + exists 0. cbn [pushed streamEnd List.length firstn].
      split; [lia|]. split; [reflexivity|].
      split; [|discriminate]. intros _.
      rewrite sumBytes_cons. cbn [sumBytes fold_right]. rewrite N.add_0_r.
      split; [exact Hx|reflexivity].
    + destruct (IH failure (downloaded + v)%N (downloaded + v)%N)
        as (n & Hn & Hp & Hlt & Heq).
      exists (S n). cbn [pushed streamEnd List.length].
      split; [lia|]. split; [cbn [firstn]; rewrite Hp; reflexivity|].
      split.
      * intro Hl. destruct (Hlt ltac:(lia)) as [Hover Hend].
        split; [|exact Hend].
        change (firstn (S (S n)) (v :: values)) with (v :: firstn (S n) values).
        rewrite sumBytes_cons, N.add_assoc. exact Hover.
      * intro Hl. apply Heq. lia.
Qed.

(** An attempt of [downloadChunk] never hands more than twice the length
    of its range to the part file, and accepts every body of at most that
    many bytes, shorter or longer than the range asked for.  Every value of
    the body is written in order up to the first one that takes the count
    of the attempt above twice the length: at that value the attempt fails
    with "exceeded expected size" and nothing more is written.  The count
    of the chunk reported as progress is the number of bytes the attempt
    has written once it has written a value; until then it is what it was
    before the attempt, as an earlier attempt left it. *)
Theorem readChunkStream_spec : forall chunk values failure stored,
  (0 <= expectedBytes chunk)%Z ->
  let streamed :=
    readChunkStream (expectedBytes chunk) values failure 0 stored in
  (Z.of_N (sumBytes (pushed streamed)) <= expectedBytes chunk * 2)%Z
  /\ (exists n,
        n <= List.length values
        /\ pushed streamed = firstn n values
        /\ (n < List.length values ->
              (expectedBytes chunk * 2
               < Z.of_N (sumBytes (firstn (S n) values)))%Z
              /\ streamEnd streamed = ExceededSize)
        /\ (n = List.length values ->
              streamEnd streamed
              = match failure with
                | None => Done
                | Some message => ReadFailed message
                end))
  /\ counted streamed
     = match pushed streamed with
       | [] => stored
       | _ :: _ => sumBytes (pushed streamed)
       end
  /\ ((Z.of_N (sumBytes values) <= expectedBytes chunk * 2)%Z ->
        pushed streamed = values
        /\ streamEnd streamed
           = match failure with
             | None => Done
             | Some message => ReadFailed message
             end)
  /\ ((expectedBytes chunk * 2 < Z.of_N (sumBytes values))%Z ->
        streamEnd streamed = ExceededSize).
Proof.
  intros chunk values failure stored He.
  destruct (@readChunkStream_from (expectedBytes chunk) values failure 0 stored
              ltac:(cbn; lia)) as (H1 & H2 & H3 & H3' & H4 & H5).
  destruct (readChunkStream_prefix (expectedBytes chunk) values failure 0 stored)
    as (n & Hn & Hpre & Hlt & Heq).
  cbv zeta. rewrite !N.add_0_l in *.
  split; [exact H1|]. split.
  { exists n. split; [exact Hn|]. split; [exact Hpre|]. split; [|exact Heq].
    intro Hl. destruct (Hlt Hl) as [Hover Hend]. split; assumption. }
  split.
  { destruct (pushed (readChunkStream (expectedBytes chunk) values failure 0
                        stored)) as [|p ps] eqn:Ep.
    - apply H3'. reflexivity.
    - apply H3. discriminate. }
  split; [exact H4|exact H5].
Qed.

(** ** Retries of a chunk *)

Ltac retry_cases :=
  repeat (cbn [downloadChunk_loop Nat.ltb Nat.leb Nat.sub CHUNK_RETRY_COUNT];
          match goal with
          | |- context [if abortedAtStart ?w ?k then _ else _] =>
              destruct (abortedAtStart w k) eqn:?
          | |- context [match tryAttempt ?w ?k with _ => _ end] =>
              destruct (tryAttempt w k) eqn:?
          | |- context [if ?a || ?b then _ else _] =>
              destruct (a || b) eqn:?
          end).

(** The events of a run are a beginning of [allAttempts]: at most three
    requests, and a delay of 2000 ms between two consecutive ones and
    nowhere else. *)
Lemma downloadChunk_events : forall w chunk,
  exists rest, allAttempts chunk = fst (downloadChunk w chunk) ++ rest.
Proof.
  intros w chunk. unfold downloadChunk, allAttempts.
  retry_cases; cbn; eexists; reflexivity.
Qed.

Lemma downloadChunk_at_most_three : forall w chunk,
  List.length (filter isFetch (fst (downloadChunk w chunk))) <= CHUNK_RETRY_COUNT.
Proof.
  intros w chunk. unfold downloadChunk.
  retry_cases; cbn; unfold CHUNK_RETRY_COUNT; lia.
Qed.

(** Three failures of the kind that is retried: the error of the third
    attempt reaches the caller. *)
Lemma downloadChunk_exhausted : forall w chunk e0 e1 e2,
  abortedAtStart w 0 = false -> retried w 0 e0 ->
  abortedAtStart w 1 = false -> retried w 1 e1 ->
  abortedAtStart w 2 = false -> retried w 2 e2 ->
  downloadChunk w chunk = (allAttempts chunk, Threw (toError e2)).
Proof.
  intros w chunk e0 e1 e2 Hs0 (Ht0 & Hn0 & Hc0) Hs1 (Ht1 & Hn1 & Hc1)
    Hs2 (Ht2 & Hn2 & Hc2).
  apply streq_false in Hn0, Hn1, Hn2.
  unfold downloadChunk.
  cbn [downloadChunk_loop Nat.ltb Nat.leb Nat.sub CHUNK_RETRY_COUNT].
  rewrite Hs0, Ht0, Hn0, Hc0.
  cbn [downloadChunk_loop Nat.ltb Nat.leb Nat.sub CHUNK_RETRY_COUNT orb].
  rewrite Hs1, Ht1, Hn1, Hc1.
  cbn [downloadChunk_loop Nat.ltb Nat.leb Nat.sub CHUNK_RETRY_COUNT orb].
  rewrite Hs2, Ht2, Hn2, Hc2.
  reflexivity.
Qed.

(** Once [abort()] of the downloader has run, no attempt starts. *)
Lemma downloadChunk_aborted_flag : forall w chunk k,
  abortedAtStart w k = true ->
  filter (isFetchFrom k) (fst (downloadChunk w chunk)) = [].
Proof.
  intros w chunk k Hk.
  assert (Hmono : forall j, k <= j -> abortedAtStart w j = true).
  { intros j Hj. unfold abortedAtStart, happenedBefore, attemptStart in *.
    destruct (downloaderAborts w); [|discriminate].
    apply Nat.ltb_lt in Hk. apply Nat.ltb_lt. lia. }
  unfold downloadChunk.
  destruct k as [|[|[|k]]].
  - cbn [downloadChunk_loop Nat.ltb Nat.leb CHUNK_RETRY_COUNT].
    rewrite Hk. reflexivity.
  - pose proof (Hmono 1 ltac:(lia)) as H1.
    retry_cases; cbn; congruence.
  - pose proof (Hmono 2 ltac:(lia)) as H2.
    retry_cases; cbn; congruence.
  - retry_cases; cbn; reflexivity.
Qed.

(** An attempt that ends with an [AbortError], which is how the request
    and the streams end when the signal aborts while the attempt is in
    flight, is the last one: the error reaches the caller at once. *)
Lemma downloadChunk_abortError : forall w chunk k err,
  tryAttempt w k = Some err -> name (toError err) = js "AbortError" ->
  filter (isFetchFrom (S k)) (fst (downloadChunk w chunk)) = [].
Proof.
  intros w chunk k err Ht Hn. apply streq_true in Hn.
  unfold downloadChunk.
  destruct k as [|[|k]].
  - cbn [downloadChunk_loop Nat.ltb Nat.leb CHUNK_RETRY_COUNT].
    destruct (abortedAtStart w 0); [reflexivity|].
    rewrite Ht, Hn. reflexivity.
  - cbn [downloadChunk_loop Nat.ltb Nat.leb CHUNK_RETRY_COUNT].
    destruct (abortedAtStart w 0); [reflexivity|].
    destruct (tryAttempt w 0) as [e0|]; [|reflexivity].
    destruct (streq (name (toError e0)) (js "AbortError") || abortedAtCatch w 0);
      [reflexivity|].
    cbn [downloadChunk_loop Nat.ltb Nat.leb Nat.sub CHUNK_RETRY_COUNT].
    destruct (abortedAtStart w 1); [reflexivity|].
    rewrite Ht, Hn. reflexivity.
  - retry_cases; cbn; reflexivity.
Qed.

(** C8, where the code departs from it.  Up to three attempts, a delay of
    2000 ms between two of them, the last error for the caller and the stop
    on [this.aborted] or on an [AbortError] are the lemmas above.  But a
    signal that aborts between two attempts is missed: when the signal of
    the caller aborts during the delay after the first failed attempt, as
    the global timeout of [startDownload] can make it, the loop goes on to a
    second request, which runs to its end. *)
Lemma downloadChunk_timeoutDuringDelay :
  downloadChunk timeoutDuringDelay {| index := 0; start := 0; end_ := 99 |}
  = ([EvFetch 0 0 99; EvDelay 2000; EvFetch 1 0 99], Returned).
Proof. reflexivity. Qed.

(** ** Injector *)

Section InjectorProperties.
Context `{libs : PlistLibs}.

Lemma scanLoop_ok : forall entries acc scan,
  scanLoop entries acc = Ok scan ->
  scanBundleName scan
  = fold_left (fun b e => nextBundleName b (filename e)) entries
      (scanBundleName acc)
  /\ manifestData scan
     = match manifestData acc with
       | Some d => Some d
       | None => entryBytes (find isManifestPlist entries)
       end
  /\ infoPlistData scan
     = match infoPlistData acc with
       | Some d => Some d
       | None =>
           entryBytes (find (fun e => isMainInfoPlist (filename e)) entries)
       end.
Proof.
  induction entries as [|e entries IH]; intros acc scan; cbn [scanLoop].
  - intros [= <-]. cbn [fold_left find entryBytes].
    destruct (manifestData acc), (infoPlistData acc); repeat split.
  - destruct (scanEntry acc e) as [acc'|message] eqn:Es; [|discriminate].
    intro Hl. destruct (IH _ _ Hl) as (Hb & Hm & Hi).
    unfold scanEntry, readOnce in Es. cbn [fold_left find].
    unfold isManifestPlist at 1.
    destruct (manifestData acc) as [m|] eqn:Em; cbn [isNone andb] in Es;
      destruct (infoPlistData acc) as [i|] eqn:Ei; cbn [isNone andb] in Es;
      destruct (endsWith (filename e) (js ".app/SC_Info/Manifest.plist"));
      destruct (isMainInfoPlist (filename e));
      destruct (content e) as [bytes0|message] eqn:Ec; try discriminate Es;
      injection Es as <-;
      cbn [scanBundleName manifestData infoPlistData] in Hb, Hm, Hi;
      cbn [entryBytes]; rewrite ?Ec;
      (split; [exact Hb|split; assumption]).
Qed.



(** An archive that is read without an error of the library gives what
    its entries yield. *)
Lemma readIpaMetadata_read : forall zip,
  libraryError (Ok zip) = None ->
  readIpaMetadata (Ok zip)
  = match bundleNameOf (zip_entries zip) with
    | Some name =>
        if falsy name then Throw (js "Could not read bundle name")
        else Ok {| bundleName := name;
                   manifest := yieldedManifest (zip_entries zip);
                   info := yieldedInfo (zip_entries zip) |}
    | None => Throw (js "Could not read bundle name")
    end.
Proof.
  intros zip. unfold libraryError, readIpaMetadata, scanEntries.
  destruct (zip_closeError zip); [discriminate|].
  destruct (scanLoop (zip_entries zip) _) as [scan|message] eqn:Hl;
    [|discriminate].
  destruct (zip_iterationError zip); [discriminate|]. intros _.
  apply scanLoop_ok in Hl as (Hb & Hm & Hi).
  cbn [scanBundleName manifestData infoPlistData] in Hb, Hm, Hi.
  unfold bundleNameOf, yieldedManifest, yieldedInfo.
  rewrite Hb, Hm, Hi. reflexivity.
Qed.





End InjectorProperties.

(** ** Paths *)

Lemma split_nonempty : forall c s, split c s <> [].
Proof.
  intros c s. destruct s as [|x s]; cbn [split]; [discriminate|].
  destruct (x =? c)%N; [discriminate|]. destruct (split c s); discriminate.
Qed.

Lemma split_app : forall c a b,
  split c (a ++ c :: b) = split c a ++ split c b.
Proof.
  intros c a b. induction a as [|x a IH]; cbn [app split].
  - rewrite N.eqb_refl. reflexivity.
  - destruct (x =? c)%N.
    + rewrite IH. reflexivity.
    + rewrite IH. destruct (split c a) as [|seg segs] eqn:E.
      * exfalso. exact (split_nonempty _ _ E).
      * reflexivity.
Qed.

Lemma split_noSlash : forall s,
  noSlash s = true -> split ch_slash s = [s].
Proof.
  induction s as [|x s IH]; cbn [noSlash forallb split]; [reflexivity|].
  rewrite andb_true_iff, negb_true_iff. intros [Hx Hs]. rewrite Hx.
  fold (noSlash s) in Hs. rewrite (IH Hs). reflexivity.
Qed.

Lemma split_segments_noSlash : forall s,
  Forall (fun seg => noSlash seg = true) (split ch_slash s).
Proof.
  induction s as [|x s IH]; cbn [split].
  - constructor; [reflexivity | constructor].
  - destruct (x =? ch_slash)%N eqn:Hx.
    + constructor; [reflexivity | exact IH].
    + destruct (split ch_slash s) as [|seg segs]; [repeat constructor; cbn; rewrite Hx; reflexivity|].
      inversion IH; subst. constructor; [|assumption].
      cbn [noSlash forallb]. rewrite Hx. cbn [negb andb]. assumption.
Qed.

Lemma joinSlash_snoc : forall segs seg,
  joinSlash (segs ++ [seg])
  = match segs with
    | [] => seg
    | _ => joinSlash segs ++ ch_slash :: seg
    end.
Proof.
  induction segs as [|x segs IH]; intro seg; [reflexivity|].
  cbn [app]. destruct segs as [|y segs]; [reflexivity|].
  change (joinSlash (x :: (y :: segs) ++ [seg]))
    with (x ++ ch_slash :: joinSlash ((y :: segs) ++ [seg])).
  rewrite IH.
  change (joinSlash (x :: y :: segs)) with (x ++ ch_slash :: joinSlash (y :: segs)).
  rewrite <- app_assoc. reflexivity.
Qed.

Lemma split_joinSlash : forall segs,
  Forall (fun seg => noSlash seg = true) segs -> segs <> [] ->
  split ch_slash (joinSlash segs) = segs.
Proof.
  induction segs as [|x segs IH]; intros Hf Hne; [congruence|].
  inversion Hf; subst. destruct segs as [|y segs].
  - apply split_noSlash. assumption.
  - change (joinSlash (x :: y :: segs)) with (x ++ ch_slash :: joinSlash (y :: segs)).
    rewrite split_app, IH by (assumption || discriminate).
    rewrite split_noSlash by assumption. reflexivity.
Qed.

Lemma normalizeSegments_app : forall allow stack xs ys,
  normalizeSegments allow stack (xs ++ ys)
  = normalizeSegments allow (normalizeSegments allow stack xs) ys.
Proof. intros. unfold normalizeSegments. apply fold_left_app. Qed.

Lemma normalizeStep_kept : forall allow stack seg,
  kept seg -> normalizeStep allow stack seg = seg :: stack.
Proof.
  intros allow stack seg (Hn & Hd & Hdd). unfold normalizeStep.
  apply falsy_nil_false in Hn. apply streq_false in Hd, Hdd.
  rewrite Hn, Hd, Hdd. reflexivity.
Qed.

Lemma normalizeStep_empty : forall allow stack,
  normalizeStep allow stack [] = stack.
Proof. reflexivity. Qed.

Lemma normalizeStep_cases : forall allow stack seg,
  (seg = [] \/ seg = js ".") /\ normalizeStep allow stack seg = stack
  \/ seg = js ".."
     /\ normalizeStep allow stack seg
        = match stack with
          | top :: below =>
              if streq top (js "..") then
                if allow then seg :: stack else stack
              else below
          | [] => if allow then [seg] else []
          end
  \/ kept seg /\ normalizeStep allow stack seg = seg :: stack.
Proof.
  intros allow stack seg. unfold normalizeStep.
  destruct (falsy seg) eqn:Hf; cbn [orb].
  { left. apply falsy_nil in Hf. auto. }
  destruct (streq seg (js ".")) eqn:Hd.
  { left. apply streq_true in Hd. auto. }
  destruct (streq seg (js "..")) eqn:Hdd.
  { right; left. apply streq_true in Hdd. auto. }
  right; right. split; [|reflexivity].
  apply streq_false in Hd, Hdd. repeat split; try assumption.
  intros ->. discriminate.
Qed.

Lemma normalizeStep_stackOK : forall allow stack seg,
  stackOK allow stack -> stackOK allow (normalizeStep allow stack seg).
Proof.
  intros allow stack seg Hs.
  destruct (normalizeStep_cases allow stack seg)
    as [(_ & ->)|[(-> & ->)|(Hk & ->)]].
  - exact Hs.
  - destruct stack as [|top below].
    + destruct allow; [|constructor].
      constructor; [right; auto | constructor].
    + inversion Hs; subst.
      destruct (streq top (js "..")); [|assumption].
      destruct allow; [|exact Hs].
      constructor; [right; auto | exact Hs].
  - constructor; [left; exact Hk | exact Hs].
Qed.

Lemma normalizeSegments_stackOK : forall allow segs stack,
  stackOK allow stack -> stackOK allow (normalizeSegments allow stack segs).
Proof.
  induction segs as [|seg segs IH]; intros stack Hs; [exact Hs|].
  apply IH. apply normalizeStep_stackOK. exact Hs.
Qed.

Lemma normalizeSegments_snoc : forall allow stack segs seg,
  normalizeSegments allow stack (segs ++ [seg])
  = normalizeStep allow (normalizeSegments allow stack segs) seg.
Proof. intros. rewrite normalizeSegments_app. reflexivity. Qed.

(** Pushing on the outer stack what one step made of an inner stack is
    one step on what the inner stack gives when pushed. *)
Lemma renormalize_step : forall allow outer stack seg,
  allow = true \/ outer = [] ->
  stackOK allow stack ->
  normalizeSegments false outer (rev (normalizeStep allow stack seg))
  = normalizeStep false (normalizeSegments false outer (rev stack)) seg.
Proof.
  intros allow outer stack seg Ho Hs.
  destruct (normalizeStep_cases allow stack seg)
    as [(Hseg & ->)|[(-> & ->)|(Hk & ->)]].
  - destruct Hseg as [-> | ->]; reflexivity.
  - destruct stack as [|top below].
    + destruct allow; [reflexivity|].
      destruct Ho as [Ho | ->]; [discriminate | reflexivity].
    + inversion Hs as [|? ? Htop Hbelow]; subst.
      destruct (streq top (js "..")) eqn:Ht.
      * apply streq_true in Ht. subst top.
        destruct allow.
        -- cbn [rev]. rewrite normalizeSegments_snoc. reflexivity.
        -- destruct Htop as [(_ & _ & Hdd)|[Hf _]]; [congruence | discriminate].
      * apply streq_false in Ht.
        destruct Htop as [Hk|[_ ->]]; [|congruence].
        cbn [rev]. rewrite normalizeSegments_snoc.
        rewrite (normalizeStep_kept false _ Hk).
        unfold normalizeStep. cbn [falsy orb].
        replace (streq (js "..") (js ".")) with false by reflexivity.
        replace (streq (js "..") (js "..")) with true by reflexivity.
        apply streq_false in Ht. rewrite Ht. reflexivity.
  - cbn [rev]. rewrite normalizeSegments_snoc.
    rewrite (normalizeStep_kept false _ Hk). reflexivity.
Qed.

Lemma renormalize : forall allow outer,
  allow = true \/ outer = [] ->
  forall segs stack,
    stackOK allow stack ->
    normalizeSegments false outer (rev (normalizeSegments allow stack segs))
    = normalizeSegments false (normalizeSegments false outer (rev stack)) segs.
Proof.
  intros allow outer Ho. induction segs as [|seg segs IH]; intros stack Hs.
  - reflexivity.
  - cbn [normalizeSegments fold_left].
    fold (normalizeSegments allow (normalizeStep allow stack seg) segs).
    rewrite IH by (apply normalizeStep_stackOK; exact Hs).
    rewrite renormalize_step by assumption. reflexivity.
Qed.

Lemma split_slash_end : forall a,
  split ch_slash (a ++ js "/") = split ch_slash a ++ [[]].
Proof. intro a. exact (split_app ch_slash a []). Qed.

Lemma normalizeSegments_end_empty : forall allow stack segs,
  normalizeSegments allow stack (segs ++ [[]])
  = normalizeSegments allow stack segs.
Proof. intros. rewrite normalizeSegments_snoc. reflexivity. Qed.

Lemma normalizeSegments_Forall : forall (Q : jstring -> Prop) allow segs stack,
  Forall Q stack -> Forall Q segs ->
  Forall Q (normalizeSegments allow stack segs).
Proof.
  intros Q allow. induction segs as [|seg segs IH]; intros stack Hs Hg;
    [exact Hs|].
  inversion Hg; subst. apply IH; [|assumption].
  destruct (normalizeStep_cases allow stack seg)
    as [(_ & ->)|[(-> & ->)|(_ & ->)]].
  - exact Hs.
  - destruct stack as [|top below].
    + destruct allow; [constructor; [assumption | constructor] | constructor].
    + inversion Hs; subst.
      destruct (streq top (js "..")); [|assumption].
      destruct allow; [constructor; assumption | exact Hs].
  - constructor; assumption.
Qed.

Lemma isAbsolute_app : forall a b, a <> [] -> isAbsolute (a ++ b) = isAbsolute a.
Proof. intros [|c a] b Ha; [congruence | reflexivity]. Qed.

Lemma isAbsolute_noSlash : forall s, noSlash s = true -> isAbsolute s = false.
Proof.
  intros [|c s]; [reflexivity|]. cbn [noSlash forallb isAbsolute].
  rewrite andb_true_iff, negb_true_iff. tauto.
Qed.

Lemma hasTrailingSlash_name : forall a name,
  name <> [] -> noSlash name = true -> hasTrailingSlash (a ++ name) = false.
Proof.
  intros a name Hne Hn. unfold hasTrailingSlash. rewrite rev_app_distr.
  destruct (rev name) as [|c r] eqn:E.
  - exfalso. apply Hne. rewrite <- (rev_involutive name), E. reflexivity.
  - cbn [app]. unfold noSlash in Hn. rewrite forallb_forall in Hn.
    apply negb_true_iff. apply Hn. apply (proj2 (in_rev name c)).
    rewrite E. left. reflexivity.
Qed.

Lemma joinSlash_relative : forall segs,
  Forall (fun seg => seg <> [] /\ noSlash seg = true) segs -> segs <> [] ->
  isAbsolute (joinSlash segs) = false /\ joinSlash segs <> [].
Proof.
  intros [|seg segs] Hf Hne; [congruence|].
  inversion Hf as [|? ? [Hs Hn] _]; subst.
  destruct segs as [|seg' segs].
  - split; [apply isAbsolute_noSlash; exact Hn | exact Hs].
  - change (joinSlash (seg :: seg' :: segs))
      with (seg ++ ch_slash :: joinSlash (seg' :: segs)).
    split.
    + rewrite isAbsolute_app by exact Hs. apply isAbsolute_noSlash. exact Hn.
    + destruct seg; [congruence | discriminate].
Qed.

Lemma kept_nonempty_stack : forall allow stack,
  stackOK allow stack -> Forall (fun seg => seg <> []) stack.
Proof.
  intros allow stack Hs. eapply Forall_impl; [|exact Hs].
  intros seg [(Hn & _)|(_ & ->)]; [exact Hn | discriminate].
Qed.

(** The parent of an absolute path other than the root is absolute and
    shorter. *)
Lemma dropUntilSlash_length : forall l,
  List.length (dropUntilSlash l) <= List.length l.
Proof.
  induction l as [|c l IH]; cbn [dropUntilSlash List.length]; [lia|].
  destruct (c =? ch_slash)%N; cbn [List.length]; lia.
Qed.

Lemma scanned_shorter : forall l,
  dropUntilSlash (dropTrailingSlashes_rev l) = []
  \/ List.length (dropUntilSlash (dropTrailingSlashes_rev l)) < List.length l.
Proof.
  induction l as [|c l IH]; [left; reflexivity|].
  cbn [dropTrailingSlashes_rev].
  destruct (c =? ch_slash)%N eqn:Hc.
  - destruct IH as [IH|IH]; [left; exact IH|right; cbn [List.length]; lia].
  - cbn [dropUntilSlash]. rewrite Hc. right.
    pose proof (dropUntilSlash_length l). cbn [List.length]. lia.
Qed.

Lemma path_dirname_absolute : forall dir,
  isAbsolute dir = true -> isAbsolute (path_dirname dir) = true.
Proof.
  intros [|first others] Ha; [discriminate Ha|].
  cbn [isAbsolute] in Ha. unfold path_dirname. rewrite Ha.
  destruct (dropUntilSlash (dropTrailingSlashes_rev (rev others))) as [|s before];
    [reflexivity|].
  destruct before; [reflexivity|]. cbn [isAbsolute]. exact Ha.
Qed.

Lemma path_dirname_shorter : forall dir,
  isAbsolute dir = true -> dir <> js "/" ->
  List.length (path_dirname dir) < List.length dir.
Proof.
  intros [|first others] Ha Hne; [discriminate Ha|].
  cbn [isAbsolute] in Ha. unfold path_dirname. rewrite Ha.
  pose proof (scanned_shorter (rev others)) as Hs.
  rewrite length_rev in Hs.
  destruct (dropUntilSlash (dropTrailingSlashes_rev (rev others))) as [|s before].
  - destruct others as [|o others].
    + exfalso. apply Hne. apply N.eqb_eq in Ha. subst first. reflexivity.
    + cbn. lia.
  - destruct Hs as [Hs|Hs]; [discriminate Hs|].
    destruct before as [|b before]; cbn [List.length] in *.
    + cbn. lia.
    + rewrite length_rev. cbn [List.length]. lia.
Qed.

Section Resolve.
Variable cwd : jstring.
Hypothesis cwd_absolute : isAbsolute cwd = true.

Lemma cwd_not_empty : falsy cwd = false.
Proof. destruct cwd; [discriminate cwd_absolute | reflexivity]. Qed.

Lemma path_resolve_stack : forall path,
  path_resolve cwd path = ch_slash :: joinSlash (rev (resolveStack cwd path)).
Proof.
  intro path. unfold path_resolve, resolveStack, resolveInput, normalizeString.
  destruct (falsy path) eqn:Hf.
  - cbn [orb]. rewrite cwd_not_empty, cwd_absolute. cbn [negb].
    rewrite app_nil_r. reflexivity.
  - destruct (isAbsolute path) eqn:Ha; cbn [orb negb].
    + reflexivity.
    + rewrite cwd_not_empty, cwd_absolute. reflexivity.
Qed.

Lemma resolveStack_cases : forall path,
  resolveStack cwd path
  = if falsy path then cwdStack cwd
    else if isAbsolute path
         then normalizeSegments false [] (split ch_slash path)
         else normalizeSegments false (cwdStack cwd) (split ch_slash path).
Proof.
  intro path. unfold resolveStack, resolveInput, cwdStack.
  destruct (falsy path).
  - rewrite split_slash_end, normalizeSegments_end_empty. reflexivity.
  - destruct (isAbsolute path).
    + rewrite split_slash_end, normalizeSegments_end_empty. reflexivity.
    + change (cwd ++ js "/" ++ path ++ js "/")
        with (cwd ++ ch_slash :: (path ++ js "/")).
      rewrite split_app, split_slash_end, app_assoc.
      rewrite normalizeSegments_end_empty, normalizeSegments_app. reflexivity.
Qed.

(** [path.normalize] of a directory followed by a plain name. *)
Lemma path_normalize_dir_name : forall dir name,
  dir <> [] -> plainName name ->
  let segments :=
    rev (normalizeSegments (negb (isAbsolute dir)) [] (split ch_slash dir))
    ++ [name] in
  path_normalize (dir ++ ch_slash :: name)
  = if isAbsolute dir then ch_slash :: joinSlash segments
    else joinSlash segments.
Proof.
  intros dir name Hd (Hn & Hk) segments. unfold path_normalize.
  assert (Hne : name <> []) by apply Hk.
  assert (Hf : falsy (dir ++ ch_slash :: name) = false).
  { destruct dir; [congruence | reflexivity]. }
  rewrite Hf, (isAbsolute_app _ Hd).
  change (dir ++ ch_slash :: name) with (dir ++ [ch_slash] ++ name).
  rewrite app_assoc, (hasTrailingSlash_name _ Hne Hn), <- app_assoc.
  cbv zeta. unfold normalizeString.
  change (dir ++ [ch_slash] ++ name) with (dir ++ ch_slash :: name).
  rewrite split_app, (split_noSlash _ Hn), normalizeSegments_snoc.
  rewrite (normalizeStep_kept _ _ Hk). cbn [rev]. fold segments.
  assert (Hj : falsy (joinSlash segments) = false).
  { subst segments. rewrite joinSlash_snoc.
    destruct (rev _) as [|x l]; [apply falsy_nil_false; exact Hne|].
    apply falsy_nil_false. destruct (joinSlash (x :: l)); discriminate. }
  rewrite Hj. reflexivity.
Qed.

Lemma path_join_empty_dir : forall (dir name : jstring),
  dir = [] -> plainName name -> path_join [dir; name] = name.
Proof.
  intros dir name -> (Hn & Hk). assert (Hne : name <> []) by apply Hk.
  unfold path_join. cbn [filter falsy negb].
  rewrite (falsy_nil_false Hne). cbn [negb joinSlash].
  unfold path_normalize. rewrite (falsy_nil_false Hne).
  rewrite (isAbsolute_noSlash _ Hn).
  pose proof (hasTrailingSlash_name [] Hne Hn) as Ht. cbn [app] in Ht.
  rewrite Ht. cbv zeta. cbn [negb app].
  unfold normalizeString. rewrite (split_noSlash _ Hn).
  cbn [normalizeSegments fold_left]. rewrite (normalizeStep_kept _ _ Hk).
  cbn [rev app joinSlash]. rewrite (falsy_nil_false Hne). reflexivity.
Qed.

(** Resolving the normal form of a path to which a separator and a plain
    name are appended pushes the name on what resolving the path leaves. *)
Lemma resolveStack_normalize_name : forall dir name,
  dir <> [] -> plainName name ->
  resolveStack cwd (path_normalize (dir ++ ch_slash :: name))
  = name :: resolveStack cwd dir.
Proof.
  intros dir name Hd Hp. assert (Hp' := Hp). destruct Hp' as (Hn & Hk).
  assert (Hne : name <> []) by apply Hk.
  - rewrite (path_normalize_dir_name Hd Hp). cbv zeta.
    set (inner := normalizeSegments (negb (isAbsolute dir)) []
                    (split ch_slash dir)).
    assert (Hok : stackOK (negb (isAbsolute dir)) inner).
    { apply normalizeSegments_stackOK. constructor. }
    assert (Hslash : Forall (fun seg => noSlash seg = true) inner).
    { apply normalizeSegments_Forall;
        [constructor | apply split_segments_noSlash]. }
    assert (Hsegs : Forall (fun seg => seg <> [] /\ noSlash seg = true)
                      (rev inner ++ [name])).
    { apply Forall_app. split.
      - apply Forall_rev. apply kept_nonempty_stack in Hok.
        rewrite Forall_forall in *. intros seg Hin. split; auto.
      - constructor; [split; assumption | constructor]. }
    assert (Hsegs' : Forall (fun seg => noSlash seg = true)
                       (rev inner ++ [name])).
    { eapply Forall_impl; [|exact Hsegs]. intros seg [_ H]. exact H. }
    assert (Hnn : rev inner ++ [name] <> []).
    { destruct (rev inner); discriminate. }
    rewrite (resolveStack_cases dir), (falsy_nil_false Hd).
    destruct (isAbsolute dir) eqn:Ha; cbn [negb] in *.
    + rewrite resolveStack_cases. cbn [falsy isAbsolute].
      rewrite N.eqb_refl.
      change (ch_slash :: joinSlash (rev inner ++ [name]))
        with ([] ++ ch_slash :: joinSlash (rev inner ++ [name])).
      rewrite split_app, (split_joinSlash Hsegs' Hnn).
      cbn [split app normalizeSegments fold_left].
      fold (normalizeSegments false (normalizeStep false [] [])
              (rev inner ++ [name])).
      rewrite normalizeStep_empty, normalizeSegments_snoc.
      rewrite (normalizeStep_kept _ _ Hk). f_equal.
      subst inner.
      rewrite (renormalize (allow:=false) (outer:=[]) (or_intror eq_refl))
        by constructor.
      reflexivity.
    + destruct (joinSlash_relative Hsegs Hnn) as [Hrel Hjne].
      rewrite resolveStack_cases, (falsy_nil_false Hjne), Hrel.
      rewrite (split_joinSlash Hsegs' Hnn), normalizeSegments_snoc.
      rewrite (normalizeStep_kept _ _ Hk). f_equal.
      subst inner.
      rewrite (renormalize (allow:=true) (outer:=cwdStack cwd) (or_introl eq_refl))
        by constructor.
      reflexivity.
Qed.

(** Resolving [path.join(dir, name)] pushes [name] on what resolving [dir]
    leaves. *)
Lemma resolveStack_join : forall dir name,
  plainName name ->
  resolveStack cwd (path_join [dir; name]) = name :: resolveStack cwd dir.
Proof.
  intros dir name Hp. assert (Hp' := Hp). destruct Hp' as (Hn & Hk).
  assert (Hne : name <> []) by apply Hk.
  destruct (falsy dir) eqn:Edir.
  - apply falsy_nil in Edir.
    rewrite (path_join_empty_dir Edir Hp), !resolveStack_cases. subst dir.
    rewrite (falsy_nil_false Hne), (isAbsolute_noSlash _ Hn). cbn [falsy].
    rewrite (split_noSlash _ Hn). cbn [normalizeSegments fold_left].
    apply normalizeStep_kept. exact Hk.
  - assert (Hd : dir <> []) by (intros ->; discriminate).
    clear Edir.
    assert (Hjoin : path_join [dir; name]
                    = path_normalize (dir ++ ch_slash :: name)).
    { unfold path_join. cbn [filter].
      rewrite (falsy_nil_false Hd), (falsy_nil_false Hne). reflexivity. }
    rewrite Hjoin. apply resolveStack_normalize_name; assumption.
Qed.

(** Resolving a path to which a separator and a plain name are appended
    pushes the name as well. *)
Lemma resolveStack_append : forall dir name,
  dir <> [] -> plainName name ->
  resolveStack cwd (dir ++ ch_slash :: name) = name :: resolveStack cwd dir.
Proof.
  intros dir name Hd (Hn & Hk).
  assert (Hne : dir ++ ch_slash :: name <> []) by (destruct dir; discriminate).
  rewrite !resolveStack_cases.
  rewrite (falsy_nil_false Hne), (falsy_nil_false Hd), (isAbsolute_app _ Hd).
  rewrite split_app, (split_noSlash _ Hn).
  destruct (isAbsolute dir);
    rewrite normalizeSegments_snoc, (normalizeStep_kept _ _ Hk); reflexivity.
Qed.

(** Resolving [path.join(dir, a, b, c)] pushes the three names. *)
Lemma resolveStack_join_names : forall dir a b c,
  dir <> [] -> plainName a -> plainName b -> plainName c ->
  resolveStack cwd (path_join [dir; a; b; c])
  = c :: b :: a :: resolveStack cwd dir.
Proof.
  intros dir a b c Hd Ha Hb Hc.
  assert (Hna : a <> []) by apply Ha.
  assert (Hnb : b <> []) by apply Hb.
  assert (Hnc : c <> []) by apply Hc.
  unfold path_join. cbn [filter].
  rewrite (falsy_nil_false Hd), (falsy_nil_false Hna), (falsy_nil_false Hnb),
    (falsy_nil_false Hnc).
  cbn [negb joinSlash].
  replace (dir ++ ch_slash :: a ++ ch_slash :: b ++ ch_slash :: c)
    with (((dir ++ ch_slash :: a) ++ ch_slash :: b) ++ ch_slash :: c)
    by (rewrite <- !app_assoc; reflexivity).
  assert (H1 : dir ++ ch_slash :: a <> []) by (destruct dir; discriminate).
  assert (H2 : (dir ++ ch_slash :: a) ++ ch_slash :: b <> [])
    by (destruct dir; discriminate).
  rewrite (resolveStack_normalize_name H2 Hc), (resolveStack_append H1 Hb),
    (resolveStack_append Hd Ha).
  reflexivity.
Qed.

(** Resolving [path.join(dir, name)] appends a separator and [name] to the
    resolved [dir], unless that is the root. *)
Lemma path_resolve_join : forall dir name,
  plainName name ->
  path_resolve cwd (path_join [dir; name])
  = match resolveStack cwd dir with
    | [] => ch_slash :: name
    | _ => path_resolve cwd dir ++ ch_slash :: name
    end.
Proof.
  intros dir name Hp.
  rewrite !path_resolve_stack, (resolveStack_join dir Hp).
  cbn [rev]. rewrite joinSlash_snoc.
  destruct (resolveStack cwd dir) as [|top below]; [reflexivity|].
  destruct (rev (top :: below)) as [|x l] eqn:E.
  - exfalso. apply (f_equal (@List.length jstring)) in E.
    rewrite length_rev in E. discriminate.
  - reflexivity.
Qed.

Lemma path_resolve_not_empty : forall path, path_resolve cwd path <> [].
Proof. intro path. rewrite path_resolve_stack. discriminate. Qed.

(** What lies beneath a directory that is not the root stays beneath it
    when a plain name is appended. *)
Lemma beneath_join : forall base dir name,
  base <> [] -> plainName name ->
  startsWith (path_resolve cwd dir) (base ++ path_sep) = true ->
  startsWith (path_resolve cwd (path_join [dir; name])) (base ++ path_sep)
  = true.
Proof.
  intros base dir name Hb Hp Hs.
  rewrite (path_resolve_join dir Hp).
  destruct (resolveStack cwd dir) as [|top below] eqn:E.
  - exfalso. rewrite path_resolve_stack, E in Hs. cbn [rev joinSlash] in Hs.
    apply startsWith_spec in Hs as [r Hr].
    destruct base as [|b base]; [congruence|].
    destruct base; discriminate.
  - apply startsWith_spec in Hs as [r Hr]. apply startsWith_spec.
    exists (r ++ ch_slash :: name). rewrite Hr, <- app_assoc. reflexivity.
Qed.

Lemma joinSlash_push : forall segs seg,
  segs <> [] -> joinSlash (segs ++ [seg]) = joinSlash segs ++ ch_slash :: seg.
Proof.
  intros segs seg Hs. rewrite joinSlash_snoc.
  destruct segs; [congruence|reflexivity].
Qed.

(** Three plain names appended to a directory that is not the root give a
    path beneath it. *)
Lemma beneath_join_names : forall base a b c,
  base <> [] -> resolveStack cwd base <> [] ->
  plainName a -> plainName b -> plainName c ->
  startsWith (path_resolve cwd (path_join [base; a; b; c]))
    (path_resolve cwd base ++ path_sep) = true.
Proof.
  intros base a b c Hb Hs Ha Hpb Hc.
  rewrite !path_resolve_stack, (resolveStack_join_names Hb Ha Hpb Hc).
  cbn [rev].
  assert (Hr : rev (resolveStack cwd base) <> []).
  { intro E. apply Hs. apply (f_equal (@rev jstring)) in E.
    rewrite rev_involutive in E. exact E. }
  rewrite !joinSlash_push;
    try (destruct (rev (resolveStack cwd base)); [congruence|discriminate]);
    try exact Hr.
  apply startsWith_spec.
  exists (a ++ ch_slash :: b ++ ch_slash :: c).
  unfold path_sep. cbn [app]. f_equal.
  rewrite <- !app_assoc. reflexivity.
Qed.

End Resolve.

(** ** [path.resolve] with several arguments *)

Lemma path_resolve_all_one : forall cwd path,
  path_resolve_all cwd [path] = path_resolve cwd path.
Proof.
  intros cwd path. unfold path_resolve_all, path_resolve.
  cbn [rev app resolveLoop].
  destruct (falsy path) eqn:Hp.
  - cbn [orb]. destruct (falsy cwd) eqn:Hc; [reflexivity|].
    rewrite app_nil_r. reflexivity.
  - rewrite app_nil_r. destruct (isAbsolute path) eqn:Ha; cbn [orb].
    + destruct cwd; reflexivity.
    + destruct (falsy cwd) eqn:Hc; [reflexivity|]. reflexivity.
Qed.

Lemma joinSlash_split : forall s, joinSlash (split ch_slash s) = s.
Proof.
  induction s as [|c s IH]; [reflexivity|].
  cbn [split]. destruct (c =? ch_slash)%N eqn:Hc.
  - apply N.eqb_eq in Hc. subst c.
    pose proof (split_nonempty ch_slash s) as Hne.
    destruct (split ch_slash s) as [|seg segs] eqn:Es; [contradiction|].
    cbn [joinSlash app]. cbn [joinSlash] in IH. rewrite IH. reflexivity.
  - destruct (split ch_slash s) as [|seg segs] eqn:Es.
    + exfalso. exact (split_nonempty ch_slash s Es).
    + destruct segs as [|seg' segs]; cbn [joinSlash] in *; rewrite <- IH;
        reflexivity.
Qed.

Lemma joinSlash_app : forall xs ys,
  xs <> [] -> ys <> [] ->
  joinSlash (xs ++ ys) = joinSlash xs ++ ch_slash :: joinSlash ys.
Proof.
  induction xs as [|x xs IH]; intros ys Hx Hy; [contradiction|].
  destruct xs as [|x' xs].
  - destruct ys as [|y ys]; [contradiction|]. reflexivity.
  - change ((x :: x' :: xs) ++ ys) with (x :: ((x' :: xs) ++ ys)).
    change (joinSlash (x :: (x' :: xs) ++ ys))
      with (x ++ ch_slash :: joinSlash ((x' :: xs) ++ ys)).
    rewrite IH by (assumption || discriminate).
    change (joinSlash (x :: x' :: xs))
      with (x ++ ch_slash :: joinSlash (x' :: xs)).
    rewrite <- app_assoc. reflexivity.
Qed.

Lemma normalizeSegments_kept : forall allow segs stack,
  Forall kept segs ->
  normalizeSegments allow stack segs = rev segs ++ stack.
Proof.
  induction segs as [|seg segs IH]; intros stack Hk; [reflexivity|].
  inversion Hk as [|? ? Hseg Hrest]; subst.
  unfold normalizeSegments in *. cbn [fold_left].
  rewrite normalizeStep_kept by exact Hseg.
  rewrite IH by exact Hrest. cbn [rev]. rewrite <- app_assoc. reflexivity.
Qed.

Lemma plainPath_relative : forall path,
  plainPath path -> falsy path = false /\ isAbsolute path = false.
Proof.
  intros path Hp. unfold plainPath in Hp.
  destruct path as [|c path]; cbn [split] in Hp.
  - inversion Hp as [|? ? [_ [Hne _]] _]. contradiction.
  - split; [reflexivity|]. cbn [isAbsolute].
    destruct (c =? ch_slash)%N eqn:Hc; [|reflexivity].
    inversion Hp as [|? ? [_ [Hne _]] _]. contradiction.
Qed.

(** An absolute directory and a plain path below it: [path.resolve]
    appends the path to the resolved directory. *)
Lemma path_resolve_all_plain : forall cwd dir path,
  isAbsolute dir = true -> path_resolve cwd dir <> js "/" ->
  plainPath path ->
  path_resolve_all cwd [dir; path] = path_resolve cwd dir ++ ch_slash :: path.
Proof.
  intros cwd dir path Ha Hroot Hp.
  destruct (plainPath_relative Hp) as [Hf Hrel].
  assert (Hd : falsy dir = false) by (destruct dir; [discriminate Ha|reflexivity]).
  assert (Hres : path_resolve cwd dir
                 = ch_slash :: joinSlash
                     (rev (normalizeSegments false [] (split ch_slash dir)))).
  { unfold path_resolve. rewrite Hd, Ha. cbn [orb negb].
    unfold normalizeString. rewrite split_slash_end.
    rewrite normalizeSegments_end_empty. reflexivity. }
  unfold path_resolve_all. cbn [rev app resolveLoop].
  rewrite Hf, Hrel, Hd, Ha. cbn [negb].
  rewrite Hres in *. f_equal.
  unfold normalizeString.
  replace (dir ++ js "/" ++ path ++ js "/" ++ [])
    with (dir ++ ch_slash :: (path ++ js "/")).
  2:{ rewrite app_nil_r. reflexivity. }
  rewrite split_app, split_slash_end.
  rewrite app_assoc, normalizeSegments_end_empty.
  rewrite normalizeSegments_app.
  set (stack := normalizeSegments false [] (split ch_slash dir)) in *.
  rewrite normalizeSegments_kept.
  2:{ unfold plainPath in Hp. eapply Forall_impl; [|exact Hp].
      intros seg [_ Hk]. exact Hk. }
  rewrite rev_app_distr, rev_involutive.
  assert (Hs : rev stack <> []).
  { intro E. apply Hroot. rewrite E. reflexivity. }
  rewrite joinSlash_app; [|exact Hs|apply split_nonempty].
  rewrite joinSlash_split. reflexivity.
Qed.

(** ** Adding the staged files to the archive *)

Section AddFilesToZipProperties.
Context `{platform : ZipPlatform}.

Lemma stageFiles_spec : forall tmpDir files log,
  exists added r,
    stageFiles tmpDir (path_resolve process_cwd tmpDir) files log
    = (log ++ added, r)
    /\ Forall (fun c => exists file, In file files /\ staging tmpDir file c) added
    /\ (r = Ok tt -> forallb (passes tmpDir) files = true)
    /\ (forallb (passes tmpDir) files = false -> exists e, r = Throw e).
Proof.
  intros tmpDir files. induction files as [|file files IH]; intro log.
  - exists [], (Ok tt). cbn. rewrite app_nil_r.
    split; [reflexivity|]. split; [constructor|]. split; [reflexivity|discriminate].
  - cbn [stageFiles forallb]. fold (passes tmpDir file).
    destruct (passes tmpDir file) eqn:Hp; cbn [negb andb].
    2:{ eexists [], _. rewrite app_nil_r.
        split; [reflexivity|]. split; [constructor|].
        split; [discriminate|]. intros _. eexists. reflexivity. }
    assert (Hs1 : staging tmpDir file
                    (Mkdir (path_dirname
                       (path_resolve_all process_cwd [tmpDir; entryPath file])))).
    { split; [exact Hp|left; reflexivity]. }
    assert (Hs2 : staging tmpDir file
                    (WriteFile
                       (path_resolve_all process_cwd [tmpDir; entryPath file])
                       (data file))).
    { split; [exact Hp|right; reflexivity]. }
    unfold callFs.
    destruct (failing log _) as [e|].
    { eexists [_], _. split; [reflexivity|].
      split; [constructor; [exists file; split; [left; reflexivity|exact Hs1]|constructor]|].
      split; [discriminate|]. intros _. eexists. reflexivity. }
    destruct (failing (log ++ _) _) as [e|].
    { eexists [_; _], _. rewrite <- app_assoc. split; [reflexivity|].
      split.
      - constructor; [exists file; split; [left; reflexivity|exact Hs1]|].
        constructor; [exists file; split; [left; reflexivity|exact Hs2]|constructor].
      - split; [discriminate|]. intros _. eexists. reflexivity. }
    destruct (IH ((log ++ [Mkdir (path_dirname
                 (path_resolve_all process_cwd [tmpDir; entryPath file]))])
                 ++ [WriteFile (path_resolve_all process_cwd [tmpDir; entryPath file])
                       (data file)]))
      as (added & r & E & Hall & Hok & Hbad).
    eexists (_ :: _ :: added), r. rewrite E. rewrite <- !app_assoc.
    split; [reflexivity|]. split.
    + constructor; [exists file; split; [left; reflexivity|exact Hs1]|].
      constructor; [exists file; split; [left; reflexivity|exact Hs2]|].
      eapply Forall_impl; [|exact Hall].
      intros c (f & Hf & Hc). exists f. split; [right; exact Hf|exact Hc].
    + split; [exact Hok|exact Hbad].
Qed.

(** [addFilesToZip] writes only beneath the temporary directory it made:
    every file it writes, and the directory it makes for it, belongs to a
    staged file whose resolved path begins with the resolved temporary
    directory and a separator.  [zip] is run only when every staged file
    has passed this test, in the temporary directory, on the archive and
    the entry paths; an entry path that fails the test makes the call
    throw without [zip] being run.  And whatever happens, the last call
    removes the temporary directory. *)
Theorem addFilesToZip_contained : forall ipaPath files tmpDir,
  mkdtemp (path_join [os_tmpdir; js "sinf-"]) = Ok tmpDir ->
  let log := fst (addFilesToZip ipaPath files) in
  (exists calls,
     log = Mkdtemp (path_join [os_tmpdir; js "sinf-"]) :: calls ++ [Rm tmpDir]
     /\ Forall (fun c =>
          (exists file, In file files /\ staging tmpDir file c)
          \/ c = Zip tmpDir (js "-0" :: ipaPath :: js "--" :: map entryPath files)
             /\ forallb (passes tmpDir) files = true) calls)
  /\ (forallb (passes tmpDir) files = false ->
      (exists e, snd (addFilesToZip ipaPath files) = Throw e)
      /\ forall c args, ~ In (Zip c args) log).
Proof.
  intros ipaPath files tmpDir Hm. unfold addFilesToZip. rewrite Hm.
  destruct (stageFiles_spec tmpDir files
              [Mkdtemp (path_join [os_tmpdir; js "sinf-"])])
    as (added & r1 & E & Hall & Hok & Hbad).
  rewrite E.
  assert (Hadded : Forall (fun c =>
            (exists file, In file files /\ staging tmpDir file c)
            \/ c = Zip tmpDir (js "-0" :: ipaPath :: js "--" :: map entryPath files)
               /\ forallb (passes tmpDir) files = true) added).
  { eapply Forall_impl; [|exact Hall]. intros c H. left. exact H. }
  assert (Hnozip : forall c args, ~ In (Zip c args) added).
  { intros c args Hin. rewrite Forall_forall in Hall.
    destruct (Hall _ Hin) as (f & _ & _ & [Hc|Hc]); discriminate Hc. }
  destruct r1 as [[]|e1]; unfold callFs; cbv beta iota.
  - destruct (failing _ (Zip _ _)) as [ez|]; cbv beta iota;
      destruct (failing _ (Rm tmpDir)) as [er|]; cbn [fst snd].
    all: split;
      [ exists (added ++ [Zip tmpDir (js "-0" :: ipaPath :: js "--"
                                     :: map entryPath files)]);
        split; [cbn [app]; rewrite <- !app_assoc; reflexivity|];
        apply Forall_app; split; [exact Hadded|];
        constructor; [right; split; [reflexivity|apply Hok; reflexivity]|constructor]
      | intro Hb; rewrite (Hok eq_refl) in Hb; discriminate Hb ].
  - destruct (failing _ (Rm tmpDir)) as [er|]; cbn [fst snd].
    all: split;
      [ exists added; split; [reflexivity|exact Hadded]
      | intros _; split; [eexists; reflexivity|];
        intros c args Hin; cbn [app] in Hin;
        destruct Hin as [Hin|Hin]; [discriminate Hin|];
        apply in_app_or in Hin as [Hin|Hin];
        [exact (Hnozip _ _ Hin)|];
        destruct Hin as [Hin|[]]; discriminate Hin ].
Qed.

(** When no call fails and every entry path is plain, the files are staged
    under their entry paths in the temporary directory, [zip] adds them to
    the archive, and the temporary directory is removed. *)
Theorem addFilesToZip_plain : forall ipaPath files tmpDir,
  mkdtemp (path_join [os_tmpdir; js "sinf-"]) = Ok tmpDir ->
  isAbsolute tmpDir = true ->
  path_resolve process_cwd tmpDir <> js "/" ->
  (forall log c, failing log c = None) ->
  Forall (fun file => plainPath (entryPath file)) files ->
  addFilesToZip ipaPath files
  = (Mkdtemp (path_join [os_tmpdir; js "sinf-"])
       :: flat_map (fun file =>
            let fullPath :=
              path_resolve process_cwd tmpDir ++ ch_slash :: entryPath file in
            [Mkdir (path_dirname fullPath); WriteFile fullPath (data file)])
          files
       ++ [Zip tmpDir (js "-0" :: ipaPath :: js "--" :: map entryPath files);
           Rm tmpDir],
     Ok tt).
Proof.
  intros ipaPath files tmpDir Hm Ha Hroot Hnofail Hplain.
  unfold addFilesToZip. rewrite Hm.
  assert (Hstage : forall fs log,
            Forall (fun file => plainPath (entryPath file)) fs ->
            stageFiles tmpDir (path_resolve process_cwd tmpDir) fs log
            = (log ++ flat_map (fun file =>
                 let fullPath :=
                   path_resolve process_cwd tmpDir ++ ch_slash :: entryPath file in
                 [Mkdir (path_dirname fullPath); WriteFile fullPath (data file)])
               fs, Ok tt)).
  { induction fs as [|file fs IH]; intros log Hp.
    - cbn. rewrite app_nil_r. reflexivity.
    - inversion Hp as [|? ? Hfile Hrest]; subst.
      cbn [stageFiles flat_map].
      rewrite (@path_resolve_all_plain process_cwd tmpDir (entryPath file) Ha Hroot Hfile).
      replace (startsWith (path_resolve process_cwd tmpDir ++ ch_slash :: entryPath file)
                 (path_resolve process_cwd tmpDir ++ path_sep)) with true.
      2:{ symmetry. change (ch_slash :: entryPath file)
            with (path_sep ++ entryPath file).
          rewrite app_assoc. apply startsWith_app. }
      cbn [negb]. unfold callFs. rewrite !Hnofail.
      rewrite IH by exact Hrest. cbv zeta. rewrite <- !app_assoc. reflexivity. }
  rewrite Hstage by exact Hplain.
  unfold callFs. rewrite !Hnofail. cbn [app]. rewrite <- !app_assoc. reflexivity.
Qed.

End AddFilesToZipProperties.

(** ** Watch applications in the archive *)

Lemma nextBundleName_watch : forall bundle entry,
  outsideWatch entry = false ->
  nextBundleName bundle (filename entry) = bundle.
Proof.
  intros bundle entry Hw. unfold outsideWatch in Hw. apply negb_false_iff in Hw.
  unfold nextBundleName, isMainInfoPlist. rewrite Hw. cbn [negb].
  rewrite !andb_false_r. reflexivity.
Qed.

Lemma bundleNameOf_withoutWatch : forall entries,
  bundleNameOf (filter outsideWatch entries) = bundleNameOf entries.
Proof.
  intro entries. unfold bundleNameOf. generalize (@None jstring) as bundle.
  induction entries as [|entry entries IH]; intro bundle; [reflexivity|].
  cbn [filter fold_left]. destruct (outsideWatch entry) eqn:Hw.
  - cbn [fold_left]. apply IH.
  - rewrite (nextBundleName_watch _ _ Hw). apply IH.
Qed.

Lemma find_info_withoutWatch : forall entries,
  find (fun e => isMainInfoPlist (filename e)) (filter outsideWatch entries)
  = find (fun e => isMainInfoPlist (filename e)) entries.
Proof.
  induction entries as [|entry entries IH]; [reflexivity|].
  cbn [filter find]. unfold outsideWatch at 1, isMainInfoPlist at 2.
  destruct (includes (filename entry) (js "/Watch/")) eqn:Hw; cbn [negb].
  - rewrite andb_false_r. exact IH.
  - cbn [find]. unfold isMainInfoPlist at 1. rewrite Hw. cbn [negb].
    rewrite IH. reflexivity.
Qed.

Section WatchProperties.
Context `{libs : PlistLibs}.

(** The entries of a watch application never decide the bundle name or
    the info plist: on an archive that is read without an error of the
    library, with its entries whose name contains [/Watch/] and without
    them, [readIpaMetadata] finds the same bundle name and the same
    executable, or fails for want of a bundle name in both cases. *)
Theorem readIpaMetadata_ignores_watch : forall zip,
  libraryError (Ok zip) = None ->
  libraryError (Ok (withoutWatch zip)) = None ->
  match readIpaMetadata (Ok zip), readIpaMetadata (Ok (withoutWatch zip)) with
  | Ok meta, Ok meta' => bundleName meta = bundleName meta' /\ info meta = info meta'
  | Throw e, Throw e' => e = e'
  | _, _ => False
  end.
Proof.
  intros zip Hlib Hlib'.
  rewrite (readIpaMetadata_read _ Hlib), (readIpaMetadata_read _ Hlib').
  cbn [withoutWatch zip_entries]. rewrite bundleNameOf_withoutWatch.
  unfold yieldedInfo. rewrite find_info_withoutWatch.
  destruct (bundleNameOf (zip_entries zip)) as [name|]; [|reflexivity].
  destruct (falsy name); [reflexivity|]. split; reflexivity.
Qed.

End WatchProperties.

(** ** Download manager: lifecycle operations *)

(** The percentage of a download is rounded as the doubles have it. *)
Example roundPercent_doubles :
  roundPercent 23 40 = 57%Z /\ roundPercent 1 2 = 50%Z
  /\ roundPercent 0 40 = 0%Z /\ roundPercent 40 40 = 100%Z.
Proof. vm_compute. repeat split. Qed.

Section ManagerProperties.
Context `{fs : NodeFs} `{proc : Process} `{parser : UrlParser}.

Lemma Status_eqb_eq : forall a b, Status_eqb a b = true <-> a = b.
Proof. intros [] []; simpl; split; congruence. Qed.

Lemma Status_eqb_neq : forall a b, Status_eqb a b = false <-> a <> b.
Proof. intros [] []; simpl; split; congruence. Qed.

Lemma pauseTask_noop : forall st taskId,
  (forall t, getTask st taskId = Some t -> status t <> Downloading) ->
  pauseTask taskId st = (st, Ok false).
Proof.
  intros st taskId Hn. unfold pauseTask, bind, get.
  unfold getTask in Hn.
  destruct (findTask st taskId) as [[ref task]|]; [|reflexivity].
  specialize (Hn task eq_refl). apply Status_eqb_neq in Hn. rewrite Hn.
  reflexivity.
Qed.

Lemma resumeTask_noop : forall st taskId now,
  (forall t, getTask st taskId = Some t -> status t <> Paused) ->
  resumeTask taskId now st = (st, Ok false).
Proof.
  intros st taskId now Hn. unfold resumeTask, bind, get.
  unfold getTask in Hn.
  destruct (findTask st taskId) as [[ref task]|]; [|reflexivity].
  specialize (Hn task eq_refl). apply Status_eqb_neq in Hn. rewrite Hn.
  reflexivity.
Qed.

Lemma deleteTask_noop : forall st taskId,
  getTask st taskId = None -> deleteTask taskId st = (st, Ok false).
Proof.
  intros st taskId Hn. unfold deleteTask, bind, get.
  unfold getTask in Hn.
  destruct (findTask st taskId) as [[ref task]|]; [discriminate | reflexivity].
Qed.

(** C10. A lifecycle operation whose precondition fails returns [false]
    and leaves the whole state of the module (tasks, indices, disk) as it
    was: [pauseTask] unless a task with that id exists with status
    downloading, [resumeTask] unless one exists with status paused,
    [deleteTask] when no task has that id. *)
Theorem lifecycle_noop : forall st taskId now,
  (~ (exists t, getTask st taskId = Some t /\ status t = Downloading) ->
     pauseTask taskId st = (st, Ok false)) /\
  (~ (exists t, getTask st taskId = Some t /\ status t = Paused) ->
     resumeTask taskId now st = (st, Ok false)) /\
  (getTask st taskId = None -> deleteTask taskId st = (st, Ok false)).
Proof.
  intros st taskId now. split; [|split].
  - intro Hn. apply pauseTask_noop. intros t Ht Hs. apply Hn. eauto.
  - intro Hn. apply resumeTask_noop. intros t Ht Hs. apply Hn. eauto.
  - apply deleteTask_noop.
Qed.

(** *** The loop over the parent directories

    For an absolute [dir] the loop of [deleteTask] ends of itself within
    as many rounds as [dir] has code units: more fuel changes nothing. *)

Lemma loop_ends_at_root : forall base : jstring,
  base <> [] ->
  negb (streq (js "/") base) && startsWith (js "/") base = false.
Proof.
  intros base Hb. unfold streq.
  destruct (jstring_eq_dec (js "/") base) as [He|He]; [reflexivity|].
  cbn [negb andb].
  destruct base as [|c [|c' base]]; [contradiction| |].
  - cbn [startsWith js]. cbn. destruct (c =? 47)%N eqn:Hc; [|reflexivity].
    exfalso. apply He. apply N.eqb_eq in Hc. subst c. reflexivity.
  - cbn. destruct (c =? 47)%N; reflexivity.
Qed.

Lemma removeEmptyParents_fuel : forall fuel base dir st,
  base <> [] -> isAbsolute dir = true -> List.length dir <= fuel ->
  removeEmptyParents (S fuel) base dir st = removeEmptyParents fuel base dir st.
Proof.
  induction fuel as [|fuel IH]; intros base dir st Hb Ha Hl.
  - destruct dir; [discriminate Ha|cbn in Hl; lia].
  - destruct (jstring_eq_dec dir (js "/")) as [->|Hroot].
    + cbn [removeEmptyParents]. rewrite (loop_ends_at_root Hb). reflexivity.
    + change (removeEmptyParents (S (S fuel)) base dir st)
        with ((if negb (streq dir base) && startsWith dir base then
                 st <- get ;;
                 contents <- lift (readdirSync (disk st) dir) ;;
                 match contents with
                 | [] => onDisk (fun d => rmdirSync d dir) ;;;
                         removeEmptyParents (S fuel) base (path_dirname dir)
                 | _ => ret tt
                 end
               else ret tt) st).
      change (removeEmptyParents (S fuel) base dir st)
        with ((if negb (streq dir base) && startsWith dir base then
                 st <- get ;;
                 contents <- lift (readdirSync (disk st) dir) ;;
                 match contents with
                 | [] => onDisk (fun d => rmdirSync d dir) ;;;
                         removeEmptyParents fuel base (path_dirname dir)
                 | _ => ret tt
                 end
               else ret tt) st).
      destruct (negb (streq dir base) && startsWith dir base); [|reflexivity].
      unfold bind, get, lift.
      destruct (readdirSync (disk st) dir) as [[|e es]|msg]; try reflexivity.
      destruct (onDisk (fun d => rmdirSync d dir) st) as [st' [[]|msg]];
        [|reflexivity].
      apply IH; [exact Hb|apply path_dirname_absolute; exact Ha|].
      pose proof (path_dirname_shorter Ha Hroot). lia.
Qed.

(** *** Steps that touch no task *)

Lemma quiet_refl : forall st, quiet st st.
Proof.
  intro st. split; [reflexivity|]. split; [reflexivity|].
  exists []. split; [symmetry; apply app_nil_r | constructor].
Qed.

Lemma quiet_trans : forall st1 st2 st3,
  quiet st1 st2 -> quiet st2 st3 -> quiet st1 st3.
Proof.
  intros st1 st2 st3 (Ho & Hd & w & Hw & Hf) (Ho' & Hd' & w' & Hw' & Hf').
  split; [congruence|]. split; [congruence|].
  exists (w ++ w'). split.
  - rewrite Hw', Hw, app_assoc. reflexivity.
  - apply Forall_app. split; assumption.
Qed.

Lemma quiet_same : forall st st',
  objs st' = objs st -> delivered st' = delivered st ->
  written st' = written st -> quiet st st'.
Proof.
  intros st st' Ho Hd Hw. split; [exact Ho|]. split; [exact Hd|].
  exists []. split; [rewrite app_nil_r; exact Hw | constructor].
Qed.

Lemma quietly_ret : forall (A : Type) (a : A), quietly (ret a).
Proof. intros A a st. apply quiet_refl. Qed.

Lemma quietly_throw : forall (A : Type) e, quietly (throw (A:=A) e).
Proof. intros A e st. apply quiet_refl. Qed.

Lemma quietly_lift : forall (A : Type) (r : result A), quietly (lift r).
Proof. intros A r st. apply quiet_refl. Qed.

Lemma quietly_get : quietly get.
Proof. intro st. apply quiet_refl. Qed.

Lemma quietly_readTask : forall ref, quietly (readTask ref).
Proof.
  intros ref st. unfold readTask.
  destruct (nth_error (objs st) ref); apply quiet_refl.
Qed.

Lemma quietly_bind : forall (A B : Type) (m : M A) (k : A -> M B),
  quietly m -> (forall a, quietly (k a)) -> quietly (bind m k).
Proof.
  intros A B m k Hm Hk st. unfold bind. specialize (Hm st).
  destruct (m st) as [st' [a|e]]; cbn [fst] in *.
  - eapply quiet_trans; [exact Hm | apply Hk].
  - exact Hm.
Qed.

Lemma quietly_tryCatch : forall (A : Type) (m : M A) handler,
  quietly m -> (forall e, quietly (handler e)) -> quietly (tryCatch m handler).
Proof.
  intros A m handler Hm Hh st. unfold tryCatch. specialize (Hm st).
  destruct (m st) as [st' [a|e]]; cbn [fst] in *.
  - exact Hm.
  - eapply quiet_trans; [exact Hm | apply Hh].
Qed.

Lemma quietly_forEach : forall (A : Type) (xs : list A) body,
  (forall x, quietly (body x)) -> quietly (forEach xs body).
Proof.
  intros A xs body Hb. induction xs as [|x xs IH]; cbn [forEach].
  - apply quietly_ret.
  - apply quietly_bind; [apply Hb | intros _; exact IH].
Qed.

Lemma quietly_modify : forall f : State -> State,
  (forall st, objs (f st) = objs st /\ delivered (f st) = delivered st
              /\ written (f st) = written st) ->
  quietly (modify f).
Proof.
  intros f Hf st. destruct (Hf st) as (Ho & Hd & Hw).
  apply quiet_same; assumption.
Qed.

Lemma quietly_onDisk : forall f, quietly (onDisk f).
Proof.
  intros f st. unfold onDisk. destruct (f (disk st)); cbn [fst].
  - apply quiet_same; reflexivity.
  - apply quiet_refl.
Qed.

Ltac untouched :=
  let st := fresh "st" in
  intro st; repeat split;
  repeat match goal with
         | |- context [match ?x with _ => _ end] => destruct x
         end; reflexivity.

Ltac quiet_step :=
  first
    [ apply quietly_ret | apply quietly_throw | apply quietly_lift
    | apply quietly_get | apply quietly_readTask | apply quietly_onDisk
    | apply quietly_bind; [|intro]
    | apply quietly_tryCatch; [|intro]
    | apply quietly_forEach; intro
    | apply quietly_modify; untouched ].

Lemma quietly_persistTasks : quietly persistTasks.
Proof.
  intro st. unfold persistTasks, bind, get, onDisk, modify.
  destruct (writeFileSync_json (disk st) TASKS_FILE (completedTasks st));
    cbn [fst].
  - split; [reflexivity|]. split; [reflexivity|].
    exists [completedTasks st]. split; [reflexivity|].
    constructor; [exists st; reflexivity | constructor].
  - apply quiet_refl.
Qed.

Lemma quietly_Downloader_abort : forall d, quietly (Downloader_abort d).
Proof. intro d. unfold Downloader_abort. repeat quiet_step. Qed.

Lemma quietly_AbortController_abort : forall c, quietly (AbortController_abort c).
Proof. intro c. unfold AbortController_abort. repeat quiet_step. Qed.

Lemma quietly_abortIfDownloading : forall taskId,
  quietly (abortIfDownloading taskId).
Proof.
  intro taskId. unfold abortIfDownloading.
  apply quietly_bind; [apply quietly_get | intro st0].
  apply quietly_bind.
  - destruct (assoc taskId (abortControllers st0)).
    + apply quietly_bind; [apply quietly_AbortController_abort | intro].
      repeat quiet_step.
    + apply quietly_ret.
  - intros _. apply quietly_bind; [apply quietly_get | intro st1].
    destruct (assoc taskId (chunkDownloaders st1)).
    + apply quietly_bind; [apply quietly_Downloader_abort | intro].
      repeat quiet_step.
    + apply quietly_ret.
Qed.

Lemma quietly_removeEmptyParents : forall fuel packagesBase dir,
  quietly (removeEmptyParents fuel packagesBase dir).
Proof.
  induction fuel as [|fuel IH]; intros packagesBase dir;
    cbn [removeEmptyParents].
  - apply quietly_ret.
  - destruct (negb (streq dir packagesBase) && startsWith dir packagesBase);
      [|apply quietly_ret].
    apply quietly_bind; [apply quietly_get | intro st0].
    apply quietly_bind; [apply quietly_lift | intros [|entry contents]].
    + apply quietly_bind; [apply quietly_onDisk | intros _; apply IH].
    + apply quietly_ret.
Qed.

Lemma quietly_deleteTask : forall taskId, quietly (deleteTask taskId).
Proof.
  intro taskId. unfold deleteTask.
  apply quietly_bind; [apply quietly_get | intro st0].
  destruct (findTask st0 taskId) as [[ref task]|]; [|apply quietly_ret].
  apply quietly_bind; [apply quietly_abortIfDownloading | intros _].
  apply quietly_bind.
  - destruct (hasFilePath task); [|apply quietly_ret].
    apply quietly_bind; [apply quietly_get | intro st1].
    match goal with |- quietly (if ?b then _ else _) => destruct b end;
      [|apply quietly_ret].
    apply quietly_bind; [apply quietly_onDisk | intros _].
    apply quietly_removeEmptyParents.
  - intros _.
    apply quietly_bind; [apply quietly_modify; untouched | intros _].
    apply quietly_bind; [apply quietly_modify; untouched | intros _].
    apply quietly_bind; [apply quietly_persistTasks | intros _].
    apply quietly_ret.
Qed.

Lemma quietly_runTimeCleanup : forall now, quietly (runTimeCleanup now).
Proof.
  intro now. unfold runTimeCleanup.
  destruct (autoCleanupDays <=? 0)%Z; [apply quietly_ret|].
  apply quietly_bind; [apply quietly_get | intro st0].
  apply quietly_forEach. intro taskId.
  apply quietly_bind; [apply quietly_deleteTask | intros _; apply quietly_ret].
Qed.

Lemma quietly_evict : forall fileTasks totalBytes maxBytes,
  quietly (evict fileTasks totalBytes maxBytes).
Proof.
  induction fileTasks as [|ft rest IH]; intros totalBytes maxBytes;
    cbn [evict].
  - apply quietly_ret.
  - apply quietly_bind; [apply quietly_deleteTask | intros _].
    destruct (totalBytes - size (snd ft) <=? maxBytes)%Z;
      [apply quietly_ret | apply IH].
Qed.

Lemma quietly_runSpaceCleanup : quietly runSpaceCleanup.
Proof.
  unfold runSpaceCleanup.
  destruct (autoCleanupMaxMB <=? 0)%Z; [apply quietly_ret|].
  apply quietly_bind; [apply quietly_get | intro st0].
  match goal with |- quietly (if ?b then _ else _) => destruct b end;
    [apply quietly_ret | apply quietly_evict].
Qed.

Lemma quietly_clearTimeout : forall timeout, quietly (clearTimeout timeout).
Proof. intro timeout. unfold clearTimeout. repeat quiet_step. Qed.

Lemma quietly_setStage : forall co stage, quietly (setStage co stage).
Proof. intros co stage. unfold setStage. repeat quiet_step. Qed.

Lemma quietly_newAbortController : quietly newAbortController.
Proof. intro st. apply quiet_same; reflexivity. Qed.

Lemma quietly_setTimeout_abort : forall c, quietly (setTimeout_abort c).
Proof. intros c st. apply quiet_same; reflexivity. Qed.

Lemma quietly_newChunkedDownloader : forall url destPath,
  quietly (newChunkedDownloader url destPath).
Proof. intros url destPath st. apply quiet_same; reflexivity. Qed.

Lemma quietly_suspend : forall co, quietly (suspend co).
Proof. intro co. unfold suspend. repeat quiet_step. Qed.

Lemma quietly_timeoutFires : forall timeout, quietly (timeoutFires timeout).
Proof.
  intro timeout. unfold timeoutFires.
  apply quietly_bind; [apply quietly_get | intro st0].
  destruct (nth_error (timeouts st0) timeout) as [[controller [|]]|];
    try apply quietly_ret.
  apply quietly_bind;
    [apply quietly_AbortController_abort | intros _; apply quietly_clearTimeout].
Qed.

Lemma quietly_addProgressListener : forall taskId listener,
  quietly (addProgressListener taskId listener).
Proof. intros taskId listener. unfold addProgressListener. repeat quiet_step. Qed.

Lemma quietly_removeProgressListener : forall taskId listener,
  quietly (removeProgressListener taskId listener).
Proof.
  intros taskId listener. unfold removeProgressListener. repeat quiet_step.
Qed.

(** *** Invariants of the tasks *)

Lemma preserves_bind : forall (I : State -> Prop) (A B : Type)
    (m : M A) (k : A -> M B),
  preserves I m -> (forall a, preserves I (k a)) -> preserves I (bind m k).
Proof.
  intros I A B m k Hm Hk st HI. unfold bind. specialize (Hm st HI).
  destruct (m st) as [st' [a|e]]; cbn [fst] in *.
  - apply Hk. exact Hm.
  - exact Hm.
Qed.

Lemma preserves_tryCatch : forall (I : State -> Prop) (A : Type)
    (m : M A) handler,
  preserves I m -> (forall e, preserves I (handler e)) ->
  preserves I (tryCatch m handler).
Proof.
  intros I A m handler Hm Hh st HI. unfold tryCatch. specialize (Hm st HI).
  destruct (m st) as [st' [a|e]]; cbn [fst] in *.
  - exact Hm.
  - apply Hh. exact Hm.
Qed.


Lemma nth_error_updateNth_eq : forall (A : Type) (f : A -> A) n l x,
  nth_error l n = Some x -> nth_error (updateNth n f l) n = Some (f x).
Proof.
  intros A f n l. revert n.
  induction l as [|y l IH]; intros [|n] x; cbn; try discriminate.
  - congruence.
  - apply IH.
Qed.

Lemma nth_error_updateNth_is : forall (A : Type) (f : A -> A) n l x y,
  nth_error l n = Some x -> y = f x ->
  nth_error (updateNth n f l) n = Some y.
Proof. intros; subst; apply nth_error_updateNth_eq; assumption. Qed.

Lemma nth_error_updateNth_neq : forall (A : Type) (f : A -> A) n m l,
  n <> m -> nth_error (updateNth n f l) m = nth_error l m.
Proof.
  intros A f n m l. revert n m.
  induction l as [|y l IH]; intros [|n] [|m] Hne; cbn; try reflexivity.
  - congruence.
  - apply IH. congruence.
Qed.

Section TaskInvariant.
Variable P : DownloadTask -> Prop.







Hypothesis P_failed : forall message t,
  P t -> P (set_error (Some message) (set_status Failed t)).
Hypothesis P_downloading : forall t,
  P t ->
  P (set_error None
       (set_speed (js "0 B/s") (set_progress 0 (set_status Downloading t)))).
Hypothesis P_filePath : forall task dir t,
  P task ->
  startsWith (path_resolve cwd dir) (path_resolve cwd PACKAGES_DIR ++ path_sep)
  = true ->
  P t -> P (set_filePath (Some (path_join [dir; id task ++ js ".ipa"])) t).
Hypothesis P_progress : forall info t,
  P t ->
  P (let t := set_speed (info_speed info) t in
     if (total info >? 0)%Z
     then set_progress (roundPercent (downloaded info) (total info)) t
     else t).
Hypothesis P_injecting : forall t,
  P t -> P (set_progress 100 (set_status Injecting t)).
Hypothesis P_completed : forall t,
  P t ->
  P (set_iTunesMetadata None
       (set_sinfs []
          (set_downloadURL [] (set_progress 100 (set_status Completed t))))).
Hypothesis P_paused : forall t, P t -> P (set_status Paused t).
Hypothesis P_created : forall software accountHash downloadURL sinfs
    iTunesMetadata rnds nowISO,
  P {| id := uuidv4 rnds;
       software := software;
       accountHash := accountHash;
       downloadURL := downloadURL;
       sinfs := sinfs;
       iTunesMetadata := iTunesMetadata;
       status := Pending;
       progress := 0;
       speed := js "0 B/s";
       filePath := None;
       error := None;
       createdAt := nowISO |}.














End TaskInvariant.

(** *** The [catch] block *)

Lemma notifyProgress_objs : forall ref st,
  objs (fst (notifyProgress ref st)) = objs st.
Proof.
  intros ref st. unfold notifyProgress, bind, readTask, modify.
  destruct (nth_error (objs st) ref) as [task|]; cbn [fst]; [|reflexivity].
  destruct (assoc (id task) (progressListeners st)); reflexivity.
Qed.





(** *** No secret outlives success *)


Lemma getAllTasks_objs : forall st t, In t (getAllTasks st) -> In t (objs st).
Proof.
  intros st t Hin. unfold getAllTasks in Hin.
  apply in_flat_map in Hin as (entry & _ & Hin).
  destruct (nth_error (objs st) (snd entry)) as [t'|] eqn:E; [|contradiction].
  destruct Hin as [<-|[]]. eapply nth_error_In. exact E.
Qed.



(** *** The snapshot *)

Lemma persistTasks_written : forall st st',
  persistTasks st = (st', Ok tt) ->
  written st' = written st ++ [completedTasks st].
Proof.
  intros st st'. unfold persistTasks, bind, get, onDisk, modify.
  destruct (writeFileSync_json (disk st) TASKS_FILE (completedTasks st));
    [|discriminate].
  intros [= <-]. reflexivity.
Qed.

Lemma completedTasks_In : forall st e,
  In e (completedTasks st) <->
  exists t, In t (getAllTasks st) /\ status t = Completed
            /\ (exists p, filePath t = Some p /\ p <> [])
            /\ e = projection t.
Proof.
  intros st e. unfold completedTasks. rewrite in_map_iff. split.
  - intros (t & <- & Ht). apply filter_In in Ht as [Hin Ht].
    apply andb_true_iff in Ht as [Hs Hp]. apply Status_eqb_eq in Hs.
    exists t. repeat split; try assumption.
    unfold hasFilePath in Hp. destruct (filePath t) as [p|]; [|discriminate].
    exists p. split; [reflexivity|]. intros ->. discriminate.
  - intros (t & Hin & Hs & (p & Hp & Hne) & ->).
    exists t. split; [reflexivity|]. apply filter_In. split; [exact Hin|].
    apply andb_true_iff. split; [apply Status_eqb_eq; exact Hs|].
    unfold hasFilePath. rewrite Hp. destruct p; [congruence | reflexivity].
Qed.

(** C3, as the code has it.  Whenever [persistTasks] writes the snapshot,
    the array it writes holds, in the order of the task map, exactly the
    projections of the tasks whose status in memory is completed and whose
    [filePath] is set to a non-empty string; whether the file exists is not
    looked at when writing (the loader looks at it at startup). *)
Theorem persistTasks_spec : forall st st',
  persistTasks st = (st', Ok tt) ->
  exists snapshot,
    written st' = written st ++ [snapshot]
    /\ snapshot
       = map projection
           (filter (fun t => Status_eqb (status t) Completed && hasFilePath t)
                   (getAllTasks st))
    /\ (forall e, In e snapshot <->
         exists t, In t (getAllTasks st) /\ status t = Completed
                   /\ (exists p, filePath t = Some p /\ p <> [])
                   /\ e = projection t)
    /\ objs st' = objs st /\ tasks st' = tasks st.
Proof.
  intros st st' Hp. exists (completedTasks st).
  split; [apply persistTasks_written; exact Hp|].
  split; [reflexivity|]. split; [apply completedTasks_In|].
  revert Hp. unfold persistTasks, bind, get, onDisk, modify.
  destruct (writeFileSync_json (disk st) TASKS_FILE (completedTasks st));
    [|discriminate].
  intros [= <-]. split; reflexivity.
Qed.

(** *** Files stay beneath the packages directory *)

Lemma hexDigit_noSlash : forall n, negb (hexDigit n =? ch_slash)%N = true.
Proof.
  intro n. unfold hexDigit. generalize (N.to_nat n) as k. intro k.
  do 16 (destruct k as [|k]; [reflexivity|]). destruct k; reflexivity.
Qed.

Lemma uuidv4_noSlash : forall rnds, noSlash (uuidv4 rnds) = true.
Proof.
  intro rnds. unfold uuidv4, noSlash. cbv zeta.
  rewrite !forallb_app.
  cbn [hexBytes flat_map hexByte app forallb].
  rewrite !hexDigit_noSlash. reflexivity.
Qed.

Lemma plainName_ipa : forall taskId,
  noSlash taskId = true -> plainName (taskId ++ js ".ipa").
Proof.
  intros taskId Hn. split.
  - unfold noSlash. rewrite forallb_app. apply andb_true_iff.
    split; [exact Hn | reflexivity].
  - repeat split; intro E; apply (f_equal (@List.length char)) in E;
      rewrite length_app in E; cbn in E; lia.
Qed.

Section Beneath.
Hypothesis cwd_absolute : isAbsolute cwd = true.

Lemma beneathPackages_ipa : forall dir taskId,
  beneathPackages dir = true -> noSlash taskId = true ->
  beneathPackages (path_join [dir; taskId ++ js ".ipa"]) = true.
Proof.
  intros dir taskId Hd Hn. unfold beneathPackages in *.
  apply beneath_join; try assumption.
  - apply path_resolve_not_empty. exact cwd_absolute.
  - apply plainName_ipa. exact Hn.
Qed.

End Beneath.

Lemma bind_ok : forall (A B : Type) (m : M A) (k : A -> M B) st st' a,
  m st = (st', Ok a) -> bind m k st = k a st'.
Proof. intros A B m k st st' a E. unfold bind. rewrite E. reflexivity. Qed.

Lemma bind_assoc : forall (A B C : Type) (m : M A) (k : A -> M B)
    (k' : B -> M C) st,
  bind m (fun a => bind (k a) k') st = bind (bind m k) k' st.
Proof.
  intros. unfold bind. destruct (m st) as [st' [a|e]]; reflexivity.
Qed.

Lemma readTask_ok : forall st ref t,
  nth_error (objs st) ref = Some t -> readTask ref st = (st, Ok t).
Proof. intros st ref t Ht. unfold readTask. rewrite Ht. reflexivity. Qed.

Lemma notifyProgress_ok : forall st ref t,
  nth_error (objs st) ref = Some t ->
  exists st', notifyProgress ref st = (st', Ok tt) /\ objs st' = objs st.
Proof.
  intros st ref t Ht. unfold notifyProgress.
  erewrite bind_ok by (apply readTask_ok; exact Ht). unfold modify.
  eexists. split; [reflexivity|].
  destruct (assoc (id t) (progressListeners st)); reflexivity.
Qed.

Lemma quietly_objs : forall (A : Type) (m : M A) st st' r,
  quietly m -> m st = (st', r) -> objs st' = objs st.
Proof.
  intros A m st st' r Hq E. specialize (Hq st). rewrite E in Hq. apply Hq.
Qed.

(** *** Pausing and resuming *)

Lemma assoc_map_delete : forall (A : Type) key (m : list (jstring * A)),
  assoc key (map_delete key m) = None.
Proof.
  intros A key m. unfold map_delete.
  induction m as [|[k v] m IH]; [reflexivity|].
  cbn [filter fst]. destruct (streq k key) eqn:E; cbn [negb]; [exact IH|].
  cbn [assoc]. rewrite E. exact IH.
Qed.

Lemma abortIfDownloading_ok : forall taskId st,
  exists st',
    abortIfDownloading taskId st = (st', Ok tt)
    /\ objs st' = objs st /\ tasks st' = tasks st
    /\ progressListeners st' = progressListeners st
    /\ delivered st' = delivered st
    /\ assoc taskId (abortControllers st') = None
    /\ assoc taskId (chunkDownloaders st') = None
    /\ (forall controller,
          assoc taskId (abortControllers st) = Some controller ->
          controllers st'
          = updateNth controller (fun _ => true) (controllers st))
    /\ (forall downloader dl,
          assoc taskId (chunkDownloaders st) = Some downloader ->
          nth_error (downloaders st) downloader = Some dl ->
          nth_error (downloaders st') downloader
          = Some {| dl_url := dl_url dl; dl_destPath := dl_destPath dl;
                    dl_aborted := true |}).
Proof.
  intros taskId st.
  unfold abortIfDownloading, bind, get, AbortController_abort,
    Downloader_abort, modify, ret.
  destruct (assoc taskId (abortControllers st)) as [c|] eqn:Ec;
    cbn [chunkDownloaders with_abortControllers with_controllers];
    destruct (assoc taskId (chunkDownloaders st)) as [d|] eqn:Ed.
  all: try (destruct (nth_error (downloaders st) d) as [dl0|] eqn:Edl).
  all: cbn [downloaders with_abortControllers with_controllers] in *;
    try rewrite Edl.
  all: eexists; split; [reflexivity|].
  all: cbn [objs tasks progressListeners delivered abortControllers
            chunkDownloaders controllers downloaders
            with_abortControllers with_controllers with_chunkDownloaders
            with_disk with_downloaders].
  all: repeat split; try reflexivity; try apply assoc_map_delete;
    try exact Ec; try exact Ed; try discriminate.
  all: try (intros controller Hc; injection Hc as <-; reflexivity).
  all: try (intros downloader dl Hd Hdl; injection Hd as <-).
  all: try congruence.
  all: rewrite Edl in Hdl; injection Hdl as <-;
    eapply nth_error_updateNth_is; [exact Edl|reflexivity].
Qed.

Lemma findTask_Some : forall st taskId ref t,
  findTask st taskId = Some (ref, t) ->
  assoc taskId (tasks st) = Some ref /\ nth_error (objs st) ref = Some t.
Proof.
  intros st taskId ref t H. unfold findTask in H.
  destruct (assoc taskId (tasks st)) as [r|]; [|discriminate H].
  destruct (nth_error (objs st) r) as [t0|] eqn:E; [|discriminate H].
  injection H as <- <-. split; [reflexivity|exact E].
Qed.

Lemma notifyProgress_only_delivers : forall st ref t,
  nth_error (objs st) ref = Some t ->
  exists st', notifyProgress ref st = (st', Ok tt)
    /\ objs st' = objs st /\ tasks st' = tasks st
    /\ abortControllers st' = abortControllers st
    /\ chunkDownloaders st' = chunkDownloaders st
    /\ controllers st' = controllers st
    /\ downloaders st' = downloaders st
    /\ disk st' = disk st.
Proof.
  intros st ref t Ht. unfold notifyProgress.
  erewrite bind_ok by (apply readTask_ok; exact Ht). unfold modify.
  eexists. split; [reflexivity|].
  destruct (assoc (id t) (progressListeners st)); repeat split; reflexivity.
Qed.

(** On a task that is downloading, [pauseTask] returns [true]: the task is
    paused, its controller is aborted and its downloader has [abort()]
    called, and both leave the indices. *)
Theorem pauseTask_pauses : forall st taskId ref t,
  findTask st taskId = Some (ref, t) -> status t = Downloading ->
  exists st',
    pauseTask taskId st = (st', Ok true)
    /\ nth_error (objs st') ref = Some (set_status Paused t)
    /\ tasks st' = tasks st
    /\ assoc taskId (abortControllers st') = None
    /\ assoc taskId (chunkDownloaders st') = None
    /\ (forall controller,
          assoc taskId (abortControllers st) = Some controller ->
          controllers st'
          = updateNth controller (fun _ => true) (controllers st))
    /\ (forall downloader dl,
          assoc taskId (chunkDownloaders st) = Some downloader ->
          nth_error (downloaders st) downloader = Some dl ->
          nth_error (downloaders st') downloader
          = Some {| dl_url := dl_url dl; dl_destPath := dl_destPath dl;
                    dl_aborted := true |}).
Proof.
  intros st taskId ref t Hfind Hs.
  destruct (findTask_Some _ _ Hfind) as [_ Ht].
  destruct (abortIfDownloading_ok taskId st)
    as (st1 & E1 & Ho1 & Ht1 & _ & _ & Ha1 & Hc1 & Hk1 & Hd1).
  set (st2 := with_objs (updateNth ref (set_status Paused) (objs st1)) st1).
  assert (Ht2 : nth_error (objs st2) ref = Some (set_status Paused t)).
  { unfold st2. cbn [objs with_objs]. rewrite Ho1.
    apply nth_error_updateNth_eq. exact Ht. }
  destruct (notifyProgress_only_delivers _ _ Ht2)
    as (st3 & E3 & Ho3 & Ht3 & Ha3 & Hc3 & Hk3 & Hd3 & _).
  exists st3. split.
  { unfold pauseTask. unfold bind at 1, get. rewrite Hfind, Hs.
    cbn [Status_eqb negb].
    erewrite bind_ok by exact E1.
    unfold bind at 1, updateTask, modify. fold st2.
    erewrite bind_ok by exact E3. reflexivity. }
  split; [rewrite Ho3; exact Ht2|].
  split; [rewrite Ht3; exact Ht1|].
  split; [rewrite Ha3; exact Ha1|].
  split; [rewrite Hc3; exact Hc1|].
  split; [intros c Hc; rewrite Hk3; apply Hk1; exact Hc|].
  intros d dl Hd Hdl. rewrite Hd3. exact (Hd1 _ _ Hd Hdl).
Qed.

(** On a task that is paused, [resumeTask] starts the download again and
    returns [true], whatever becomes of the download. *)
Theorem resumeTask_resumes : forall st taskId now ref t,
  findTask st taskId = Some (ref, t) -> status t = Paused ->
  resumeTask taskId now st = (fst (startDownload ref now st), Ok true).
Proof.
  intros st taskId now ref t Hfind Hs.
  unfold resumeTask. unfold bind at 1, get. rewrite Hfind, Hs.
  cbn [Status_eqb negb]. unfold bind, startDownload_detached, tryCatch, ret.
  destruct (startDownload ref now st) as [st' [[]|e]]; reflexivity.
Qed.

(** *** Listeners *)

Lemma assoc_map_set : forall (A : Type) key (v : A) (m : list (jstring * A)),
  assoc key (map_set key v m) = Some v.
Proof.
  intros A key v m. induction m as [|[k x] m IH]; cbn [map_set assoc].
  - rewrite streq_refl. reflexivity.
  - destruct (streq k key) eqn:E; cbn [assoc]; rewrite E; [reflexivity|exact IH].
Qed.

Lemma map_set_again : forall (A : Type) key (v : A) (m : list (jstring * A)),
  map_set key v (map_set key v m) = map_set key v m.
Proof.
  intros A key v m. induction m as [|[k x] m IH]; cbn [map_set].
  - rewrite streq_refl. reflexivity.
  - destruct (streq k key) eqn:E; cbn [map_set]; rewrite E; [reflexivity|].
    rewrite IH. reflexivity.
Qed.

Lemma existsb_eqb_In : forall (l : nat) ls,
  existsb (Nat.eqb l) ls = true <-> In l ls.
Proof.
  intros l ls. rewrite existsb_exists. split.
  - intros (x & Hin & E). apply Nat.eqb_eq in E. subst x. exact Hin.
  - intro Hin. exists l. split; [exact Hin|apply Nat.eqb_refl].
Qed.

(** A listener added for an id is called with the task at the next
    notification of a task with that id, after the listeners added before
    it; adding it once more changes nothing, so that it is called once per
    notification when it was not registered twice before. *)
Theorem addProgressListener_notifies : forall st taskId listener ref t,
  nth_error (objs st) ref = Some t -> id t = taskId ->
  let st1 := fst (addProgressListener taskId listener st) in
  (exists listeners,
     assoc taskId (progressListeners st1) = Some listeners
     /\ In listener listeners
     /\ (~ registered st taskId listener ->
         exists before,
           assoc taskId (progressListeners st) = Some before /\ listeners = before ++ [listener]
           \/ assoc taskId (progressListeners st) = None /\ listeners = [listener])
     /\ delivered (fst (notifyProgress ref st1))
        = delivered st ++ map (fun l => (l, t)) listeners)
  /\ fst (addProgressListener taskId listener st1) = st1.
Proof.
  intros st taskId listener ref t Ht Hid st1.
  unfold addProgressListener, modify in st1. cbn [fst] in st1.
  set (old := match assoc taskId (progressListeners st) with
              | Some ls => ls
              | None => []
              end) in *.
  set (new := if existsb (Nat.eqb listener) old then old else old ++ [listener]) in *.
  assert (Hin : In listener new).
  { unfold new. destruct (existsb (Nat.eqb listener) old) eqn:E.
    - apply existsb_eqb_In. exact E.
    - apply in_or_app. right. left. reflexivity. }
  assert (Ha : assoc taskId (progressListeners st1) = Some new).
  { unfold st1. cbn [progressListeners with_progressListeners].
    apply assoc_map_set. }
  split.
  - exists new. split; [exact Ha|]. split; [exact Hin|]. split.
    + intro Hn. unfold new, old.
      destruct (assoc taskId (progressListeners st)) as [ls|] eqn:E.
      * exists ls. left. split; [reflexivity|].
        destruct (existsb (Nat.eqb listener) ls) eqn:Ex; [|reflexivity].
        exfalso. apply Hn. exists ls. split; [exact E|].
        apply existsb_eqb_In. exact Ex.
      * exists []. right. split; reflexivity.
    + unfold notifyProgress.
      assert (Ht1 : nth_error (objs st1) ref = Some t) by exact Ht.
      erewrite bind_ok by (apply readTask_ok; exact Ht1).
      unfold modify. cbn [fst]. rewrite Hid, Ha. reflexivity.
  - unfold addProgressListener, modify. cbn [fst]. rewrite Ha.
    assert (Hex : existsb (Nat.eqb listener) new = true)
      by (apply existsb_eqb_In; exact Hin).
    rewrite Hex. unfold st1. cbn [progressListeners with_progressListeners].
    rewrite map_set_again. reflexivity.
Qed.

Lemma assoc_map_delete_other : forall (A : Type) key key' (m : list (jstring * A)),
  key' <> key -> assoc key' (map_delete key m) = assoc key' m.
Proof.
  intros A key key' m Hne. unfold map_delete.
  induction m as [|[k v] m IH]; [reflexivity|].
  cbn [filter fst assoc]. destruct (streq k key) eqn:E; cbn [negb assoc].
  - apply streq_true in E. subst k.
    destruct (streq key key') eqn:E'; [|exact IH].
    apply streq_true in E'. congruence.
  - rewrite IH. reflexivity.
Qed.

(** A listener removed for an id is no longer called at the
    notifications of a task with that id, the other listeners of the id
    still are, in their order; and no empty set of listeners is left in the
    map. *)
Theorem removeProgressListener_silences : forall st taskId listener ref t,
  nth_error (objs st) ref = Some t -> id t = taskId ->
  let st1 := fst (removeProgressListener taskId listener st) in
  (exists calls,
     delivered (fst (notifyProgress ref st1)) = delivered st ++ calls
     /\ (forall t', ~ In (listener, t') calls)
     /\ forall other, other <> listener ->
          (In (other, t) calls <-> registered st taskId other))
  /\ ~ registered st1 taskId listener
  /\ assoc taskId (progressListeners st1) <> Some [].
Proof.
  intros st taskId listener ref t Ht Hid st1.
  unfold removeProgressListener, modify in st1. cbn [fst] in st1.
  assert (Hnotify : forall st2, objs st2 = objs st -> delivered st2 = delivered st ->
            delivered (fst (notifyProgress ref st2))
            = delivered st
              ++ match assoc taskId (progressListeners st2) with
                 | Some ls => map (fun l => (l, t)) ls
                 | None => []
                 end).
  { intros st2 Ho Hd. unfold notifyProgress.
    assert (Ht2 : nth_error (objs st2) ref = Some t) by (rewrite Ho; exact Ht).
    erewrite bind_ok by (apply readTask_ok; exact Ht2).
    unfold modify. cbn [fst]. rewrite Hid.
    destruct (assoc taskId (progressListeners st2)) as [ls|];
      [cbn [delivered with_delivered]; rewrite Hd; reflexivity|].
    rewrite Hd, app_nil_r. reflexivity. }
  destruct (assoc taskId (progressListeners st)) as [ls|] eqn:E.
  2:{ subst st1. split; [|split].
      - exists []. rewrite (Hnotify st eq_refl eq_refl), E.
        split; [reflexivity|]. split; [intros t' []|].
        intros other _. split; [intros []|].
        intros (ls & Hls & _). congruence.
      - intros (ls & Hls & _). congruence.
      - congruence. }
  set (kept := filter (fun l => negb (Nat.eqb listener l)) ls) in *.
  assert (Hkept : forall l, In l kept <-> In l ls /\ l <> listener).
  { intro l. unfold kept. rewrite filter_In, negb_true_iff, Nat.eqb_neq.
    split; intros [H1 H2]; split; congruence. }
  assert (Ha : assoc taskId (progressListeners st1)
               = match kept with [] => None | _ => Some kept end).
  { unfold st1. destruct kept as [|k ks];
      cbn [progressListeners with_progressListeners];
      [apply assoc_map_delete|apply assoc_map_set]. }
  assert (Ho : objs st1 = objs st) by (unfold st1; destruct kept; reflexivity).
  assert (Hd : delivered st1 = delivered st) by (unfold st1; destruct kept; reflexivity).
  split; [|split].
  - exists (map (fun l => (l, t)) kept). rewrite (Hnotify st1 Ho Hd), Ha.
    split; [destruct kept; reflexivity|]. split.
    + intros t' Hin. apply in_map_iff in Hin as (l & [= -> _] & Hl).
      apply Hkept in Hl as [_ Hl]. congruence.
    + intros other Hne. rewrite in_map_iff. split.
      * intros (l & [= ->] & Hl). apply Hkept in Hl as [Hl _].
        exists ls. split; assumption.
      * intros (ls' & Hls' & Hin). assert (ls' = ls) by congruence. subst ls'.
        exists other. split; [reflexivity|]. apply Hkept. split; assumption.
  - intros (ls' & Hls' & Hin). rewrite Ha in Hls'.
    destruct kept as [|k ks]; [discriminate Hls'|].
    injection Hls' as <-. apply Hkept in Hin as [_ Hin].
    congruence.
  - rewrite Ha. destruct kept; discriminate.
Qed.

(** *** What steps leave alone *)

Section Keeps.
Variable R : State -> State -> Prop.
Hypothesis R_refl : forall st, R st st.
Hypothesis R_trans : forall a b c, R a b -> R b c -> R a c.

Lemma keeps_ret : forall (A : Type) (a : A), keeps R (ret a).
Proof. intros A a st. apply R_refl. Qed.

Lemma keeps_lift : forall (A : Type) (r : result A), keeps R (lift r).
Proof. intros A r st. apply R_refl. Qed.

Lemma keeps_get : keeps R get.
Proof. intro st. apply R_refl. Qed.

Lemma keeps_bind : forall (A B : Type) (m : M A) (k : A -> M B),
  keeps R m -> (forall a, keeps R (k a)) -> keeps R (bind m k).
Proof.
  intros A B m k Hm Hk st. unfold bind. specialize (Hm st).
  destruct (m st) as [st' [a|e]]; cbn [fst] in *.
  - eapply R_trans; [exact Hm | apply Hk].
  - exact Hm.
Qed.

Lemma keeps_tryCatch : forall (A : Type) (m : M A) handler,
  keeps R m -> (forall e, keeps R (handler e)) -> keeps R (tryCatch m handler).
Proof.
  intros A m handler Hm Hh st. unfold tryCatch. specialize (Hm st).
  destruct (m st) as [st' [a|e]]; cbn [fst] in *.
  - exact Hm.
  - eapply R_trans; [exact Hm | apply Hh].
Qed.

Lemma keeps_readTask : forall ref, keeps R (readTask ref).
Proof.
  intros ref st. unfold readTask.
  destruct (nth_error (objs st) ref); apply R_refl.
Qed.

Lemma keeps_forEach : forall (A : Type) (xs : list A) body,
  (forall x, In x xs -> keeps R (body x)) -> keeps R (forEach xs body).
Proof.
  induction xs as [|x xs IH]; intros body Hb; cbn [forEach].
  - apply keeps_ret.
  - apply keeps_bind; [apply Hb; left; reflexivity|].
    intros _. apply IH. intros y Hy. apply Hb. right. exact Hy.
Qed.

Lemma keeps_modify : forall f : State -> State,
  (forall st, R st (f st)) -> keeps R (modify f).
Proof. intros f Hf st. apply Hf. Qed.

Hypothesis R_disk : forall st d, R st (with_disk d st).

Lemma keeps_onDisk : forall f, keeps R (onDisk f).
Proof.
  intros f st. unfold onDisk.
  destruct (f (disk st)); cbn [fst]; [apply R_disk|apply R_refl].
Qed.

Lemma keeps_removeEmptyParents : forall fuel packagesBase dir,
  keeps R (removeEmptyParents fuel packagesBase dir).
Proof.
  induction fuel as [|fuel IH]; intros packagesBase dir;
    cbn [removeEmptyParents]; [apply keeps_ret|].
  destruct (negb (streq dir packagesBase) && startsWith dir packagesBase);
    [|apply keeps_ret].
  apply keeps_bind; [apply keeps_get|intro st0].
  apply keeps_bind; [apply keeps_lift|intros [|entry entries]];
    [|apply keeps_ret].
  apply keeps_bind; [apply keeps_onDisk|intros _; apply IH].
Qed.

Lemma keeps_removeFile : forall task : DownloadTask, keeps R (removeFile task).
Proof.
  intro task. unfold removeFile.
  destruct (hasFilePath task); [|apply keeps_ret]. cbv zeta.
  apply keeps_bind; [apply keeps_get|intro st0].
  match goal with |- keeps R (if ?b then _ else _) => destruct b end;
    [|apply keeps_ret].
  apply keeps_bind; [apply keeps_onDisk|intros _; apply keeps_removeEmptyParents].
Qed.

Hypothesis R_written : forall st w, R st (with_written w st).

Lemma keeps_persistTasks : keeps R persistTasks.
Proof.
  unfold persistTasks. apply keeps_bind; [apply keeps_get|intro st0].
  apply keeps_bind; [apply keeps_onDisk|intros _].
  apply keeps_modify. intro st. apply R_written.
Qed.

Hypothesis R_controllers : forall st v, R st (with_controllers v st).
Hypothesis R_abortControllers : forall st v, R st (with_abortControllers v st).
Hypothesis R_chunkDownloaders : forall st v, R st (with_chunkDownloaders v st).
Hypothesis R_downloaders : forall st v, R st (with_downloaders v st).
Hypothesis R_progressListeners : forall st v, R st (with_progressListeners v st).

Lemma keeps_abortIfDownloading : forall taskId,
  keeps R (abortIfDownloading taskId).
Proof.
  intro taskId. unfold abortIfDownloading.
  apply keeps_bind; [apply keeps_get|intro st0].
  apply keeps_bind.
  - destruct (assoc taskId (abortControllers st0)); [|apply keeps_ret].
    apply keeps_bind.
    + apply keeps_modify. intro st. apply R_controllers.
    + intros _. apply keeps_modify. intro st. apply R_abortControllers.
  - intros _. apply keeps_bind; [apply keeps_get|intro st1].
    destruct (assoc taskId (chunkDownloaders st1)); [|apply keeps_ret].
    apply keeps_bind.
    + apply keeps_modify. intro st. unfold Downloader_abort.
      destruct (nth_error (downloaders st) n); [|apply R_refl].
      eapply R_trans; [apply R_downloaders|apply R_disk].
    + intros _. apply keeps_modify. intro st. apply R_chunkDownloaders.
Qed.

(** [deleteTask] of one id, for a relation that the removal of that id
    from the task map respects. *)
Lemma keeps_deleteTask : forall taskId,
  (forall st, R st (with_tasks (map_delete taskId (tasks st)) st)) ->
  keeps R (deleteTask taskId).
Proof.
  intros taskId Hdel. unfold deleteTask.
  apply keeps_bind; [apply keeps_get|intro st0].
  destruct (findTask st0 taskId) as [[ref task]|]; [|apply keeps_ret].
  apply keeps_bind; [apply keeps_abortIfDownloading|intros _].
  apply keeps_bind; [exact (keeps_removeFile task)|intros _].
  apply keeps_bind; [apply keeps_modify; exact Hdel|intros _].
  apply keeps_bind;
    [apply keeps_modify; intro st; apply R_progressListeners|intros _].
  apply keeps_bind; [apply keeps_persistTasks|intros _; apply keeps_ret].
Qed.

Hypothesis R_timeouts : forall st v, R st (with_timeouts v st).
Hypothesis R_delivered : forall st v, R st (with_delivered v st).

Lemma keeps_notifyProgress : forall ref, keeps R (notifyProgress ref).
Proof.
  intro ref. unfold notifyProgress.
  apply keeps_bind; [apply keeps_readTask|intro task].
  apply keeps_modify. intro st.
  destruct (assoc (id task) (progressListeners st));
    [apply R_delivered|apply R_refl].
Qed.

Lemma keeps_clearTimeout : forall timeout, keeps R (clearTimeout timeout).
Proof. intro timeout. apply keeps_modify. intro st. apply R_timeouts. Qed.

Lemma keeps_newAbortController : keeps R newAbortController.
Proof. intro st. apply R_controllers. Qed.

Lemma keeps_setTimeout_abort : forall controller,
  keeps R (setTimeout_abort controller).
Proof. intros controller st. apply R_timeouts. Qed.

Lemma keeps_newChunkedDownloader : forall url destPath,
  keeps R (newChunkedDownloader url destPath).
Proof. intros url destPath st. apply R_downloaders. Qed.

Lemma keeps_timeoutFires : forall timeout, keeps R (timeoutFires timeout).
Proof.
  intro timeout. unfold timeoutFires.
  apply keeps_bind; [apply keeps_get|intro st0].
  destruct (nth_error (timeouts st0) timeout) as [[controller []]|];
    try apply keeps_ret.
  apply keeps_bind; [|intros _; apply keeps_clearTimeout].
  apply keeps_modify. intro st. apply R_controllers.
Qed.

Lemma keeps_addProgressListener : forall taskId listener,
  keeps R (addProgressListener taskId listener).
Proof.
  intros taskId listener. apply keeps_modify. intro st. apply R_progressListeners.
Qed.

Lemma keeps_removeProgressListener : forall taskId listener,
  keeps R (removeProgressListener taskId listener).
Proof.
  intros taskId listener. apply keeps_modify. intro st.
  destruct (assoc taskId (progressListeners st)) as [ls|]; [|apply R_refl].
  destruct (filter (fun l => negb (Nat.eqb listener l)) ls);
    apply R_progressListeners.
Qed.

Hypothesis R_tasks : forall st v, R st (with_tasks v st).

Lemma keeps_runTimeCleanup : forall now, keeps R (runTimeCleanup now).
Proof.
  intro now. unfold runTimeCleanup.
  destruct (autoCleanupDays <=? 0)%Z; [apply keeps_ret|].
  apply keeps_bind; [apply keeps_get|intro st0].
  apply keeps_forEach. intros taskId _.
  apply keeps_bind; [|intros _; apply keeps_ret].
  apply keeps_deleteTask. intro st. apply R_tasks.
Qed.

Lemma keeps_evict : forall fileTasks totalBytes maxBytes,
  keeps R (evict fileTasks totalBytes maxBytes).
Proof.
  induction fileTasks as [|ft rest IH]; intros totalBytes maxBytes;
    cbn [evict]; [apply keeps_ret|].
  apply keeps_bind; [apply keeps_deleteTask; intro st; apply R_tasks|intros _].
  destruct (totalBytes - size (snd ft) <=? maxBytes)%Z; [apply keeps_ret|apply IH].
Qed.

Lemma keeps_runSpaceCleanup : keeps R runSpaceCleanup.
Proof.
  unfold runSpaceCleanup.
  destruct (autoCleanupMaxMB <=? 0)%Z; [apply keeps_ret|].
  apply keeps_bind; [apply keeps_get|intro st0]. cbv zeta.
  match goal with |- keeps R (if ?b then _ else _) => destruct b end;
    [apply keeps_ret|apply keeps_evict].
Qed.

End Keeps.

(** *** Deleting *)

Lemma onlyDisk_refl : forall st, onlyDisk st st.
Proof. intro st. repeat split. Qed.

Lemma onlyDisk_trans : forall a b c, onlyDisk a b -> onlyDisk b c -> onlyDisk a c.
Proof.
  intros a b c H1 H2. unfold onlyDisk in *.
  repeat match goal with H : _ /\ _ |- _ => destruct H end.
  repeat split; congruence.
Qed.

Lemma keepsTask_refl : forall taskId st, keepsTask taskId st st.
Proof. intros taskId st. split; reflexivity. Qed.

Lemma keepsTask_trans : forall taskId a b c,
  keepsTask taskId a b -> keepsTask taskId b c -> keepsTask taskId a c.
Proof. intros taskId a b c [H1 H2] [H3 H4]. split; congruence. Qed.

Lemma deleteTask_unfold : forall st taskId ref task,
  findTask st taskId = Some (ref, task) ->
  deleteTask taskId st
  = (abortIfDownloading taskId ;;;
     removeFile task ;;;
     modify (fun st => with_tasks (map_delete taskId (tasks st)) st) ;;;
     modify (fun st =>
       with_progressListeners (map_delete taskId (progressListeners st)) st) ;;;
     persistTasks ;;;
     ret true) st.
Proof.
  intros st taskId ref task Hf. unfold deleteTask. unfold bind at 1, get.
  rewrite Hf. reflexivity.
Qed.

Lemma keeps_deleteTask_other : forall taskId other,
  other <> taskId -> keeps (keepsTask other) (deleteTask taskId).
Proof.
  intros taskId other Hne.
  apply keeps_deleteTask;
    try (intros; split; reflexivity);
    try apply keepsTask_refl; try apply keepsTask_trans.
  intro st. split; [reflexivity|].
  cbn [tasks with_tasks]. apply assoc_map_delete_other. exact Hne.
Qed.

(** [runTimeCleanup] removes from the task map only ids of completed tasks
    whose file exists and was last modified before the cutoff, and changes
    no task object: the entry of every other id is left as it is, whether
    the cleanup runs to its end or throws on the way; with a number of days
    that is not above zero it does nothing at all. *)
Theorem runTimeCleanup_selective : forall now st taskId,
  ((autoCleanupDays <= 0)%Z -> runTimeCleanup now st = (st, Ok tt))
  /\ ((forall t, In t (getAllTasks st) -> expired st now t = true ->
         id t <> taskId) ->
      keepsTask taskId st (fst (runTimeCleanup now st))).
Proof.
  intros now st taskId. unfold runTimeCleanup. split.
  - intro Hd. apply Z.leb_le in Hd. rewrite Hd. reflexivity.
  - intro Hother. destruct (autoCleanupDays <=? 0)%Z; [apply keepsTask_refl|].
    unfold bind at 1, get.
    apply keeps_forEach; try apply keepsTask_refl; try apply keepsTask_trans.
    intros other Hin. apply in_flat_map in Hin as (t & Ht & Hin).
    apply keeps_bind; try apply keepsTask_refl; try apply keepsTask_trans.
    + apply keeps_deleteTask_other. intros ->.
      destruct (completedFile st t) as [stat|] eqn:Hc; [|contradiction].
      destruct (mtimeMs stat <? now - autoCleanupDays * 24 * 60 * 60 * 1000)%Z
        eqn:Hm; [|contradiction].
      destruct Hin as [<-|[]].
      apply (Hother t Ht); [|reflexivity].
      unfold expired. rewrite Hc. exact Hm.
    + intros _ st0. apply keepsTask_refl.
Qed.

(** When [deleteTask] of a task returns, it returns [true]: the task is
    gone from the task map and its listeners from theirs, no controller
    and no downloader is registered for it, the other tasks are where they
    were, no task object has changed, no listener was called, and the
    snapshot written last is the one of the tasks that are left. *)
Theorem deleteTask_deletes : forall st taskId st' b,
  getTask st taskId <> None ->
  deleteTask taskId st = (st', Ok b) ->
  b = true
  /\ objs st' = objs st
  /\ tasks st' = map_delete taskId (tasks st)
  /\ getTask st' taskId = None
  /\ (forall other, other <> taskId -> getTask st' other = getTask st other)
  /\ progressListeners st' = map_delete taskId (progressListeners st)
  /\ assoc taskId (abortControllers st') = None
  /\ assoc taskId (chunkDownloaders st') = None
  /\ delivered st' = delivered st
  /\ written st' = written st ++ [completedTasks st'].
Proof.
  intros st taskId st' b Hg Hd.
  destruct (findTask st taskId) as [[ref task]|] eqn:Hf.
  2:{ unfold getTask in Hg. rewrite Hf in Hg. contradiction. }
  rewrite (deleteTask_unfold _ _ Hf) in Hd.
  destruct (abortIfDownloading_ok taskId st)
    as (st1 & E1 & Ho1 & Ht1 & Hl1 & Hd1 & Ha1 & Hc1 & _).
  assert (Hw1 : written st1 = written st).
  { assert (H : keeps (fun a b => written b = written a)
                  (abortIfDownloading taskId))
      by (apply keeps_abortIfDownloading; intros; cbn; congruence).
    specialize (H st). rewrite E1 in H. exact H. }
  erewrite bind_ok in Hd by exact E1.
  assert (H2 : keeps onlyDisk (removeFile task))
    by (apply keeps_removeFile;
        [apply onlyDisk_refl|apply onlyDisk_trans|intros; repeat split]).
  specialize (H2 st1).
  unfold bind at 1 in Hd.
  destruct (removeFile task st1) as [st2 [[]|e]]; [|discriminate Hd].
  cbn [fst] in H2.
  destruct H2 as (Ho2 & Ht2 & Ha2 & Hc2 & Hl2 & _ & _ & _ & _ & Hd2 & Hw2).
  unfold bind at 1, modify at 1 in Hd. unfold bind at 1, modify at 1 in Hd.
  unfold bind at 1, persistTasks in Hd. unfold bind at 1, get in Hd.
  unfold bind at 1, onDisk in Hd.
  match type of Hd with
  | context [writeFileSync_json ?d ?f ?c] =>
      destruct (writeFileSync_json d f c) as [d3|e3] eqn:Ew
  end; [|discriminate Hd].
  unfold modify, ret in Hd. cbn [fst snd] in Hd.
  injection Hd as <- <-.
  cbn [objs tasks progressListeners abortControllers chunkDownloaders delivered
       written with_written with_disk with_progressListeners with_tasks].
  assert (Hget : forall k st0, objs st0 = objs st ->
            getTask st0 k
            = match assoc k (tasks st0) with
              | Some r => nth_error (objs st) r
              | None => None
              end).
  { intros k st0 Ho. unfold getTask, findTask. rewrite Ho.
    destruct (assoc k (tasks st0)) as [r|]; [|reflexivity].
    destruct (nth_error (objs st) r); reflexivity. }
  split; [reflexivity|].
  split; [congruence|].
  split; [congruence|].
  split.
  { rewrite Hget by (cbn [objs with_written with_disk with_progressListeners with_tasks]; congruence).
    cbn [tasks with_written with_disk with_progressListeners with_tasks].
    rewrite assoc_map_delete. reflexivity. }
  split.
  { intros other Hne. rewrite !Hget by (cbn [objs with_written with_disk with_progressListeners with_tasks]; congruence).
    cbn [tasks with_written with_disk with_progressListeners with_tasks].
    rewrite assoc_map_delete_other by exact Hne.
    rewrite Ht2, Ht1. reflexivity. }
  split; [congruence|].
  split; [rewrite Ha2; exact Ha1|].
  split; [rewrite Hc2; exact Hc1|].
  split; [congruence|].
  rewrite Hw2, Hw1. reflexivity.
Qed.

(** A task whose file does not lie beneath the packages directory is
    deleted without its file being touched: between the abort of its
    download and the write of the snapshot the disk stays as it is. *)
Theorem deleteTask_spares_outside : forall st taskId ref task p,
  findTask st taskId = Some (ref, task) ->
  filePath task = Some p -> beneathPackages p = false ->
  exists st1,
    abortIfDownloading taskId st = (st1, Ok tt)
    /\ match writeFileSync_json (disk st1) TASKS_FILE
               (completedTasks (with_tasks (map_delete taskId (tasks st)) st)) with
       | Ok d => snd (deleteTask taskId st) = Ok true
                 /\ disk (fst (deleteTask taskId st)) = d
       | Throw e => snd (deleteTask taskId st) = Throw e
                    /\ disk (fst (deleteTask taskId st)) = disk st1
       end.
Proof.
  intros st taskId ref task p Hf Hp Hb.
  destruct (abortIfDownloading_ok taskId st)
    as (st1 & E1 & Ho1 & Ht1 & _).
  exists st1. split; [exact E1|].
  rewrite (deleteTask_unfold _ _ Hf).
  erewrite bind_ok by exact E1.
  assert (Hrm : removeFile task st1 = (st1, Ok tt)).
  { unfold removeFile. rewrite Hp. unfold beneathPackages in Hb.
    destruct (hasFilePath task); [|reflexivity].
    cbv zeta. unfold bind, get. rewrite Hb. reflexivity. }
  erewrite bind_ok by exact Hrm.
  assert (Hc : forall l,
            completedTasks
              (with_progressListeners l
                 (with_tasks (map_delete taskId (tasks st1)) st1))
            = completedTasks (with_tasks (map_delete taskId (tasks st)) st)).
  { intro l. unfold completedTasks, getAllTasks.
    cbn [objs tasks with_progressListeners with_tasks].
    rewrite Ho1, Ht1. reflexivity. }
  cbv beta iota zeta delta [bind modify persistTasks get onDisk ret].
  rewrite !Hc.
  change (disk (with_progressListeners
                  (map_delete taskId
                     (progressListeners
                        (with_tasks (map_delete taskId (tasks st1)) st1)))
                  (with_tasks (map_delete taskId (tasks st1)) st1)))
    with (disk st1).
  destruct (writeFileSync_json (disk st1) TASKS_FILE _) as [d|e];
    split; reflexivity.
Qed.

(** *** The identity of a task *)

Lemma sameIdentity_refl : forall st, sameIdentity st st.
Proof. intros st ref t Ht. exists t. split; [exact Ht|reflexivity]. Qed.

Lemma sameIdentity_trans : forall a b c,
  sameIdentity a b -> sameIdentity b c -> sameIdentity a c.
Proof.
  intros a b c H1 H2 ref t Ht.
  destruct (H1 _ _ Ht) as (t1 & Ht1 & E1).
  destruct (H2 _ _ Ht1) as (t2 & Ht2 & E2).
  exists t2. split; [exact Ht2|congruence].
Qed.

Lemma sameIdentity_objs : forall st st',
  objs st' = objs st -> sameIdentity st st'.
Proof.
  intros st st' Ho ref t Ht. exists t. rewrite Ho. split; [exact Ht|reflexivity].
Qed.

Lemma identity_quietly : forall (A : Type) (m : M A),
  quietly m -> keeps sameIdentity m.
Proof. intros A m Hq st. apply sameIdentity_objs. apply (Hq st). Qed.

Lemma identity_updateTask : forall ref f,
  (forall t, identity (f t) = identity t) ->
  keeps sameIdentity (updateTask ref f).
Proof.
  intros ref f Hf st r t Ht. unfold updateTask, modify. cbn [fst objs with_objs].
  destruct (Nat.eq_dec r ref) as [->|Hne].
  - exists (f t). split; [apply nth_error_updateNth_eq; exact Ht|apply Hf].
  - exists t. split; [|reflexivity].
    rewrite nth_error_updateNth_neq by congruence. exact Ht.
Qed.

Lemma identity_notifyProgress : forall ref,
  keeps sameIdentity (notifyProgress ref).
Proof. intros ref st. apply sameIdentity_objs. apply notifyProgress_objs. Qed.

Ltac identity_bind :=
  apply keeps_bind; [exact @sameIdentity_trans| |].

Ltac identity_try :=
  apply keeps_tryCatch; [exact @sameIdentity_trans| |].

Ltac identity_quiet := apply identity_quietly; repeat quiet_step.

Ltac identity_update :=
  apply identity_updateTask; intro; reflexivity.

Lemma identity_catchBlock : forall ref timeout err,
  keeps sameIdentity (catchBlock ref timeout err).
Proof.
  intros ref timeout err. unfold catchBlock.
  identity_bind; [apply identity_quietly, quietly_readTask|intro task].
  identity_bind; [identity_quiet|intros _].
  identity_bind; [identity_quiet|intros _].
  identity_bind; [apply identity_quietly, quietly_clearTimeout|intros _].
  destruct (isAbortError err).
  - identity_bind; [apply identity_quietly, quietly_readTask|intro task'].
    destruct (Status_eqb (status task') Paused);
      [apply identity_quietly, quietly_ret|].
    identity_bind; [identity_update|intros _; apply identity_notifyProgress].
  - identity_bind; [identity_update|intros _; apply identity_notifyProgress].
Qed.

Lemma identity_complete : forall ref timeout,
  keeps sameIdentity (complete ref timeout).
Proof.
  intros ref timeout. unfold complete.
  identity_try; [|intro; apply identity_catchBlock].
  identity_bind; [identity_update|intros _].
  identity_bind;
    [apply identity_quietly, quietly_persistTasks
    |intros _; apply identity_notifyProgress].
Qed.

Lemma identity_startDownload : forall ref now,
  keeps sameIdentity (startDownload ref now).
Proof.
  intros ref now. unfold startDownload.
  identity_bind; [apply identity_quietly, quietly_runTimeCleanup|intros _].
  identity_bind; [apply identity_quietly, quietly_runSpaceCleanup|intros _].
  identity_bind; [apply identity_quietly, quietly_newAbortController|intro c].
  identity_bind; [apply identity_quietly, quietly_readTask|intro task0].
  identity_bind; [identity_quiet|intros _].
  identity_bind; [apply identity_quietly, quietly_setTimeout_abort|intro timeout].
  identity_bind; [identity_update|intros _].
  identity_bind; [apply identity_notifyProgress|intros _].
  identity_bind; [apply identity_quietly, quietly_readTask|intro task].
  identity_bind; [apply identity_quietly, quietly_lift|intro a].
  identity_bind; [apply identity_quietly, quietly_lift|intro b].
  identity_bind; [apply identity_quietly, quietly_lift|intro v].
  cbv zeta.
  match goal with |- keeps _ (if ?c then _ else _) => destruct c end.
  - identity_bind; [identity_update|intros _].
    identity_bind;
      [apply identity_quietly, quietly_clearTimeout
      |intros _; apply identity_notifyProgress].
  - identity_bind; [apply identity_quietly, quietly_onDisk|intros _].
    identity_bind; [identity_update|intros _].
    identity_try; [|intro; apply identity_catchBlock].
    identity_bind; [apply identity_quietly, quietly_readTask|intro task1].
    identity_quiet.
Qed.

Lemma identity_startDownload_detached : forall ref now,
  keeps sameIdentity (startDownload_detached ref now).
Proof.
  intros ref now. unfold startDownload_detached.
  identity_try;
    [apply identity_startDownload
    |intros _; apply identity_quietly, quietly_ret].
Qed.

Lemma identity_addTask : forall task, keeps sameIdentity (addTask task).
Proof.
  intros task st ref t Ht. unfold addTask. cbn [fst objs with_tasks with_objs].
  exists t. split; [|reflexivity].
  rewrite nth_error_app1; [exact Ht|].
  apply nth_error_Some. congruence.
Qed.

Lemma identity_perform : forall a, keeps sameIdentity (perform a).
Proof.
  intros [software accountHash downloadURL sinfs iTunesMetadata rnds nowISO now
         |taskId|taskId|taskId now|co settled|co settled|co info|timeout|now
         |taskId listener|taskId listener|d]; cbn [perform].
  - identity_bind; [|intros _; apply identity_quietly, quietly_ret].
    unfold createTask.
    identity_bind; [apply identity_quietly, quietly_lift|intros _].
    identity_bind; [apply identity_quietly, quietly_lift|intros _].
    identity_bind; [apply identity_quietly, quietly_lift|intros _].
    identity_bind; [apply identity_quietly, quietly_lift|intros _].
    identity_bind; [apply identity_addTask|intro ref].
    identity_bind;
      [apply identity_startDownload_detached
      |intros _; apply identity_quietly, quietly_ret].
  - identity_bind;
      [apply identity_quietly, quietly_deleteTask
      |intros _; apply identity_quietly, quietly_ret].
  - identity_bind; [|intros _; apply identity_quietly, quietly_ret].
    unfold pauseTask.
    identity_bind; [apply identity_quietly, quietly_get|intro st0].
    destruct (findTask st0 taskId) as [[ref task]|];
      [|apply identity_quietly, quietly_ret].
    destruct (negb (Status_eqb (status task) Downloading));
      [apply identity_quietly, quietly_ret|].
    identity_bind; [apply identity_quietly, quietly_abortIfDownloading|intros _].
    identity_bind; [identity_update|intros _].
    identity_bind;
      [apply identity_notifyProgress|intros _; apply identity_quietly, quietly_ret].
  - identity_bind; [|intros _; apply identity_quietly, quietly_ret].
    unfold resumeTask.
    identity_bind; [apply identity_quietly, quietly_get|intro st0].
    destruct (findTask st0 taskId) as [[ref task]|];
      [|apply identity_quietly, quietly_ret].
    destruct (negb (Status_eqb (status task) Paused));
      [apply identity_quietly, quietly_ret|].
    identity_bind;
      [apply identity_startDownload_detached
      |intros _; apply identity_quietly, quietly_ret].
  - unfold afterDownload.
    identity_bind; [apply identity_quietly, quietly_get|intro st0].
    destruct (nth_error (coroutines st0) co) as [[ref timeout fp []]|];
      try (apply identity_quietly, quietly_ret).
    destruct settled as [err|].
    + identity_bind;
        [apply identity_quietly, quietly_setStage
        |intros _; apply identity_catchBlock].
    + identity_bind; [apply identity_quietly, quietly_readTask|intro task].
      identity_bind; [identity_quiet|intros _].
      identity_bind; [identity_quiet|intros _].
      identity_bind; [apply identity_quietly, quietly_clearTimeout|intros _].
      destruct (0 <? List.length (sinfs task)).
      * identity_bind; [identity_update|intros _].
        identity_bind;
          [apply identity_notifyProgress
          |intros _; apply identity_quietly, quietly_setStage].
      * identity_bind;
          [apply identity_quietly, quietly_setStage
          |intros _; apply identity_complete].
  - unfold afterInject.
    identity_bind; [apply identity_quietly, quietly_get|intro st0].
    destruct (nth_error (coroutines st0) co) as [[ref timeout fp []]|];
      try (apply identity_quietly, quietly_ret).
    identity_bind; [apply identity_quietly, quietly_setStage|intros _].
    destruct settled as [err|];
      [apply identity_catchBlock|apply identity_complete].
  - unfold onProgress.
    identity_bind; [apply identity_quietly, quietly_get|intro st0].
    destruct (nth_error (coroutines st0) co) as [[ref timeout fp []]|];
      try (apply identity_quietly, quietly_ret).
    identity_bind; [|intros _; apply identity_notifyProgress].
    apply identity_updateTask. intro t.
    destruct (total info >? 0)%Z; reflexivity.
  - apply identity_quietly, quietly_timeoutFires.
  - apply identity_quietly, quietly_runTimeCleanup.
  - apply identity_quietly, quietly_addProgressListener.
  - apply identity_quietly, quietly_removeProgressListener.
  - apply identity_quietly. apply quietly_modify. untouched.
Qed.

(** No task object is ever dropped or rebound, and the id, the software,
    the account hash and the creation time of a task never change: what
    a task is and whose it is stays as [createTask] or the loader set
    it, through every call, continuation, timer and change of the disk. *)
Theorem identity_never_changes : forall start st,
  reachableFrom start st -> sameIdentity start st.
Proof.
  intros start st Hr. induction Hr as [|st a Hr IH].
  - apply sameIdentity_refl.
  - eapply sameIdentity_trans; [exact IH|]. apply identity_perform.
Qed.

(** *** Creating *)

Lemma startDownload_detached_returns : forall ref now st,
  snd (startDownload_detached ref now st) = Ok tt.
Proof.
  intros ref now st. unfold startDownload_detached, tryCatch, ret.
  destruct (startDownload ref now st) as [st' [[]|e]]; reflexivity.
Qed.

(** [createTask] makes a task only of a download URL that
    [validateDownloadURL] accepts and of an account hash, a bundle id and a
    version that the sanitizer accepts: otherwise it throws the error of
    the first check that fails and leaves the state of the module as it
    is.  When the checks pass it returns a new task object, whatever
    becomes of the download it starts, with the id made of the random
    bytes and the software, account hash and creation time given. *)
Theorem createTask_spec : forall software accountHash downloadURL sinfs
    iTunesMetadata rnds nowISO now st,
  let run :=
    createTask software accountHash downloadURL sinfs iTunesMetadata
      rnds nowISO now st in
  match validateDownloadURL downloadURL with
  | Throw e => run = (st, Throw e)
  | Ok _ =>
  match safePathSegment accountHash (js "accountHash") with
  | Throw e => run = (st, Throw e)
  | Ok _ =>
  match safePathSegment (bundleID software) (js "bundleID") with
  | Throw e => run = (st, Throw e)
  | Ok _ =>
  match safePathSegment (version software) (js "version") with
  | Throw e => run = (st, Throw e)
  | Ok _ =>
      snd run = Ok (List.length (objs st))
      /\ exists t,
           nth_error (objs (fst run)) (List.length (objs st)) = Some t
           /\ identity t = (uuidv4 rnds, software, accountHash, nowISO)
  end end end end.
Proof.
  intros software accountHash downloadURL sinfs iTunesMetadata rnds nowISO
    now st run. subst run.
  cbv beta iota delta [createTask bind lift].
  destruct (validateDownloadURL downloadURL) as [[]|e]; [|reflexivity].
  destruct (safePathSegment accountHash (js "accountHash")) as [a|e];
    [|reflexivity].
  destruct (safePathSegment (bundleID software) (js "bundleID")) as [b|e];
    [|reflexivity].
  destruct (safePathSegment (version software) (js "version")) as [v|e];
    [|reflexivity].
  cbv beta iota delta [addTask ret].
  set (task := {| id := uuidv4 rnds; software := software;
                  accountHash := accountHash; downloadURL := downloadURL;
                  sinfs := sinfs; iTunesMetadata := iTunesMetadata;
                  status := Pending; progress := 0; speed := js "0 B/s";
                  filePath := None; error := None; createdAt := nowISO |}).
  set (st1 := with_tasks (map_set (id task) (List.length (objs st)) (tasks st))
                (with_objs (objs st ++ [task]) st)).
  assert (Ht : nth_error (objs st1) (List.length (objs st)) = Some task).
  { unfold st1. cbn [objs with_tasks with_objs].
    rewrite nth_error_app2, Nat.sub_diag by apply Nat.le_refl. reflexivity. }
  pose proof (identity_startDownload_detached (List.length (objs st)) now st1)
    as Hsame.
  destruct (Hsame _ _ Ht) as (t & Ht' & Hid). clear Hsame.
  pose proof (startDownload_detached_returns (List.length (objs st)) now st1) as Hr.
  change (snd (let (st', r) := startDownload_detached (List.length (objs st)) now st1 in
               match r with
               | Ok _ => (st', Ok (List.length (objs st)))
               | Throw e => (st', Throw e)
               end) = Ok (List.length (objs st))
          /\ exists t0,
               nth_error
                 (objs (fst (let (st', r) :=
                               startDownload_detached (List.length (objs st)) now st1 in
                             match r with
                             | Ok _ => (st', Ok (List.length (objs st)))
                             | Throw e => (st', Throw e)
                             end))) (List.length (objs st)) = Some t0
               /\ identity t0 = (uuidv4 rnds, software, accountHash, nowISO)).
  destruct (startDownload_detached (List.length (objs st)) now st1) as [st2 r].
  cbn [fst snd] in *. subst r. cbn [fst snd].
  split; [reflexivity|]. exists t. split; [exact Ht'|exact Hid].
Qed.

(** *** Restart *)

Lemma map_set_fresh : forall (A : Type) key (v : A) (m : list (jstring * A)),
  ~ In key (map fst m) -> map_set key v m = m ++ [(key, v)].
Proof.
  intros A key v m. induction m as [|[k x] m IH]; intro Hn; [reflexivity|].
  cbn [map_set]. destruct (streq k key) eqn:E.
  - apply streq_true in E. subst k. exfalso. apply Hn. left. reflexivity.
  - cbn [app]. f_equal. apply IH. intro Hin. apply Hn. right. exact Hin.
Qed.

Lemma combine_append : forall (A B : Type) (a a' : list A) (b b' : list B),
  List.length a = List.length b ->
  combine (a ++ a') (b ++ b') = combine a b ++ combine a' b'.
Proof.
  induction a as [|x a IH]; intros a' [|y b] b' Hl; try discriminate Hl;
    [reflexivity|].
  cbn [app combine]. f_equal. apply IH. injection Hl as Hl. exact Hl.
Qed.

Lemma map_fst_combine : forall (A B : Type) (a : list A) (b : list B),
  List.length a = List.length b -> map fst (combine a b) = a.
Proof.
  induction a as [|x a IH]; intros [|y b] Hl; try discriminate Hl;
    [reflexivity|].
  cbn [combine map fst]. f_equal. apply IH. injection Hl as Hl. exact Hl.
Qed.

Lemma getAllTasks_aligned : forall (st : State) base (front tasksList : list DownloadTask),
  objs st = front ++ tasksList -> base = List.length front ->
  flat_map (fun entry : jstring * nat =>
              match nth_error (objs st) (snd entry) with
              | Some t => [t]
              | None => []
              end)
    (combine (map id tasksList) (seq base (List.length tasksList)))
  = tasksList.
Proof.
  intros st base front tasksList. revert base front.
  induction tasksList as [|t ts IH]; intros base front Ho Hb; [reflexivity|].
  cbn [map List.length seq combine flat_map snd].
  rewrite Ho, Hb, nth_error_app2, Nat.sub_diag by apply Nat.le_refl.
  cbn [nth_error app]. f_equal.
  rewrite <- Ho.
  apply (IH (S (List.length front)) (front ++ [t])).
  - rewrite Ho, <- app_assoc. reflexivity.
  - rewrite length_app. cbn [List.length]. lia.
Qed.

(** The loader on a snapshot of completed tasks with distinct ids. *)
Lemma loader_restores : forall d snapshot,
  existsSync d TASKS_FILE = true ->
  readFileSync_json d TASKS_FILE
  = Ok (Some (map (fun p => Some (itemOf p)) snapshot)) ->
  NoDup (map p_id snapshot) ->
  Forall persisted snapshot ->
  getAllTasks (initOnStartup d)
  = map restoredOf (filter (fileOnDisk d) snapshot)
  /\ forall p, In p snapshot -> fileOnDisk d p = true ->
       getTask (initOnStartup d) (p_id p) = Some (restoredOf p).
Proof.
  intros d snapshot He Hr Hnd Hall.
  assert (Hitems : loadedItems d = map itemOf snapshot).
  { unfold loadedItems. rewrite He, Hr. clear.
    induction snapshot as [|p ps IH]; [reflexivity|].
    cbn [map untilNull]. rewrite IH. reflexivity. }
  assert (Hrest : forall p, persisted p ->
            restorable d (itemOf p)
            = if fileOnDisk d p then Some (restoredOf p) else None).
  { intros p (Hid & Hs & path & Hp & Hne). unfold restorable, itemOf, fileOnDisk.
    cbn [item_id item_status item_filePath item_software item_accountHash
         item_createdAt]. rewrite Hs, Hp. cbn [statusString].
    rewrite streq_refl.
    destruct (p_id p) as [|c i] eqn:Ei; [contradiction|].
    destruct path as [|c' path']; [contradiction|]. cbn [falsy negb andb].
    destruct (existsSync d (c' :: path')); [|reflexivity].
    unfold restoredOf. rewrite Hp, Ei. reflexivity. }
  unfold initOnStartup. rewrite Hitems.
  assert (Hfold : forall ps restored st,
            NoDup (map p_id (restored ++ ps)) -> Forall persisted ps ->
            objs st = map restoredOf (filter (fileOnDisk d) restored) ->
            tasks st
            = combine (map id (objs st)) (seq 0 (List.length (objs st))) ->
            let st' :=
              fold_left
                (fun st item =>
                   match restorable d item with
                   | Some task => fst (addTask task st)
                   | None => st
                   end) (map itemOf ps) st in
            objs st' = map restoredOf (filter (fileOnDisk d) (restored ++ ps))
            /\ tasks st'
               = combine (map id (objs st')) (seq 0 (List.length (objs st')))).
  { induction ps as [|p ps IH]; intros restored st Hn Hp Ho Ht.
    - cbn [map fold_left]. rewrite app_nil_r. split; assumption.
    - inversion Hp as [|? ? Hpp Hps]; subst.
      cbn [map fold_left]. rewrite (Hrest p Hpp).
      replace (restored ++ p :: ps) with ((restored ++ [p]) ++ ps) in *
        by (rewrite <- app_assoc; reflexivity).
      destruct (fileOnDisk d p) eqn:Hf.
      + apply IH; [exact Hn|exact Hps| |].
        * unfold addTask. cbn [fst objs with_tasks with_objs].
          rewrite Ho, filter_app, map_app. cbn [filter]. rewrite Hf. reflexivity.
        * unfold addTask. cbn [fst objs tasks with_tasks with_objs].
          rewrite map_set_fresh.
          -- rewrite Ht, map_app, length_app, seq_app. cbn [List.length seq map].
             rewrite Nat.add_0_l.
             rewrite combine_append by (rewrite length_map, length_seq; reflexivity).
             reflexivity.
          -- rewrite Ht, map_fst_combine
               by (rewrite length_map, length_seq; reflexivity).
             rewrite Ho, map_map. cbn [restoredOf id].
             intro Hin. apply in_map_iff in Hin as (q & Hq & Hin).
             apply filter_In in Hin as [Hin _].
             rewrite map_app in Hn. apply NoDup_app_remove_r in Hn.
             rewrite map_app in Hn. cbn [map] in Hn.
             apply NoDup_remove_2 in Hn. rewrite app_nil_r in Hn.
             apply Hn. apply in_map_iff. exists q. split; assumption.
      + apply IH; [exact Hn|exact Hps| |exact Ht].
        rewrite Ho, filter_app. cbn [filter]. rewrite Hf, app_nil_r. reflexivity. }
  destruct (Hfold snapshot [] (emptyState d) Hnd Hall eq_refl eq_refl)
    as [Ho Ht].
  cbn [app] in Ho.
  set (st' := fold_left _ (map itemOf snapshot) (emptyState d)) in *.
  assert (Hget : getAllTasks st' = objs st').
  { unfold getAllTasks. rewrite Ht.
    apply (@getAllTasks_aligned st' 0 [] (objs st')); reflexivity. }
  split; [rewrite Hget; exact Ho|].
  intros p Hin Hf.
  assert (Hin' : In (restoredOf p) (objs st')).
  { rewrite Ho. apply in_map. apply filter_In. split; assumption. }
  apply In_nth_error in Hin' as [i Hi].
  unfold getTask, findTask. rewrite Ht.
  assert (Hassoc : forall (l : list DownloadTask) base i t,
            NoDup (map id l) -> nth_error l i = Some t ->
            assoc (id t) (combine (map id l) (seq base (List.length l)))
            = Some (base + i)).
  { clear. induction l as [|x l IH]; intros base i t Hn Hi;
      [destruct i; discriminate Hi|].
    cbn [map List.length seq combine assoc].
    destruct i as [|i]; cbn [nth_error] in Hi.
    - injection Hi as ->. rewrite streq_refl, Nat.add_0_r. reflexivity.
    - inversion Hn as [|? ? Hx Hl]; subst.
      destruct (streq (id x) (id t)) eqn:E.
      + apply streq_true in E. exfalso. apply Hx. rewrite E.
        apply in_map. eapply nth_error_In. exact Hi.
      + rewrite (IH (S base) i t Hl Hi). f_equal. lia. }
  assert (Hnd' : NoDup (map id (objs st'))).
  { rewrite Ho, map_map. cbn [restoredOf id].
    clear - Hnd. induction snapshot as [|q qs IH]; [constructor|].
    inversion Hnd as [|? ? Hq Hqs]; subst. cbn [filter].
    destruct (fileOnDisk d q); [|apply IH; exact Hqs].
    cbn [map]. constructor; [|apply IH; exact Hqs].
    intro Hin. apply Hq. apply in_map_iff in Hin as (r & Hr & Hin).
    apply filter_In in Hin as [Hin _]. apply in_map_iff. exists r.
    split; assumption. }
  change (p_id p) with (id (restoredOf p)).
  rewrite (Hassoc _ 0 i _ Hnd' Hi). cbn [Nat.add]. rewrite Hi. reflexivity.
Qed.

Lemma NoDup_map_inj : forall (A B : Type) (f : A -> B) (l : list A) x y,
  NoDup (map f l) -> In x l -> In y l -> f x = f y -> x = y.
Proof.
  intros A B f l x y. induction l as [|z l IH]; intros Hn Hx Hy E; [destruct Hx|].
  cbn [map] in Hn. inversion Hn as [|? ? Hz Hl]; subst.
  destruct Hx as [->|Hx], Hy as [->|Hy].
  - reflexivity.
  - exfalso. apply Hz. rewrite E. apply in_map. exact Hy.
  - exfalso. apply Hz. rewrite <- E. apply in_map. exact Hx.
  - apply IH; assumption.
Qed.

(** [runTimeCleanup] leaves the entry of an id that no expired task has. *)
Lemma runTimeCleanup_spares : forall now st taskId,
  (forall t, In t (getAllTasks st) -> expired st now t = true ->
     id t <> taskId) ->
  keepsTask taskId st (fst (runTimeCleanup now st)).
Proof.
  intros now st taskId Hother. unfold runTimeCleanup.
  destruct (autoCleanupDays <=? 0)%Z; [apply keepsTask_refl|].
  unfold bind at 1, get.
  apply keeps_forEach; try apply keepsTask_refl; try apply keepsTask_trans.
  intros other Hin. apply in_flat_map in Hin as (t & Ht & Hin).
  apply keeps_bind; try apply keepsTask_refl; try apply keepsTask_trans.
  - apply keeps_deleteTask_other. intros ->.
    destruct (completedFile st t) as [stat|] eqn:Hc; [|contradiction].
    destruct (mtimeMs stat <? now - autoCleanupDays * 24 * 60 * 60 * 1000)%Z
      eqn:Hm; [|contradiction].
    destruct Hin as [<-|[]].
    apply (Hother t Ht); [|reflexivity].
    unfold expired. rewrite Hc. exact Hm.
  - intros _ st0. apply keepsTask_refl.
Qed.

Lemma fewerTasks_refl : forall st, fewerTasks st st.
Proof. intro st. split; [reflexivity|apply incl_refl]. Qed.

Lemma fewerTasks_trans : forall a b c,
  fewerTasks a b -> fewerTasks b c -> fewerTasks a c.
Proof.
  intros a b c [H1 H2] [H3 H4]. split; [congruence|].
  eapply incl_tran; eassumption.
Qed.

Lemma fewerTasks_same : forall st st',
  objs st' = objs st -> tasks st' = tasks st -> fewerTasks st st'.
Proof.
  intros st st' Ho Ht. split; [exact Ho|]. rewrite Ht. apply incl_refl.
Qed.

Lemma fewerTasks_runTimeCleanup : forall now,
  keeps fewerTasks (runTimeCleanup now).
Proof.
  intro now. unfold runTimeCleanup.
  destruct (autoCleanupDays <=? 0)%Z;
    [apply keeps_ret; exact fewerTasks_refl|].
  apply keeps_bind;
    [exact fewerTasks_trans|apply keeps_get; exact fewerTasks_refl|intro st0].
  apply keeps_forEach; [exact fewerTasks_refl|exact fewerTasks_trans|].
  intros taskId _.
  apply keeps_bind;
    [exact fewerTasks_trans| |intros _; apply keeps_ret; exact fewerTasks_refl].
  apply keeps_deleteTask;
    try exact fewerTasks_refl; try exact fewerTasks_trans;
    try (intros; apply fewerTasks_same; reflexivity).
  intro st. split; [reflexivity|]. cbn [tasks with_tasks].
  unfold map_delete. intros entry Hin. apply filter_In in Hin as [Hin _].
  exact Hin.
Qed.

Lemma fewerTasks_getAllTasks : forall st st' t,
  fewerTasks st st' -> In t (getAllTasks st') -> In t (getAllTasks st).
Proof.
  intros st st' t [Ho Hi] Hin. unfold getAllTasks in *.
  apply in_flat_map in Hin as (entry & He & Hin).
  apply in_flat_map. exists entry. split; [apply Hi; exact He|].
  rewrite <- Ho. exact Hin.
Qed.

(** What [persistTasks] has written is what startup restores.  When
    [tasks.json] holds a snapshot of completed tasks with distinct ids, the
    loader of [initOnStartup] restores those whose file exists on disk, in
    the order of the snapshot, each completed, with the id, software,
    account hash, file path and creation time it was written with, progress
    100 and speed "0 B/s".  Of these, whatever [cleanOrphanedPackages]
    leaves on the disk, the [runTimeCleanup] that ends [initOnStartup]
    removes none when [autoCleanupDays] is not above zero; otherwise every
    task that is not expired then is still there, unchanged, and no other
    task has appeared. *)
Theorem restart_restores : forall d cleaned now snapshot,
  existsSync d TASKS_FILE = true ->
  readFileSync_json d TASKS_FILE
  = Ok (Some (map (fun p => Some (itemOf p)) snapshot)) ->
  NoDup (map p_id snapshot) ->
  Forall persisted snapshot ->
  let loaded := initOnStartup d in
  let st := startup d cleaned now in
  getAllTasks loaded = map restoredOf (filter (fileOnDisk d) snapshot)
  /\ (forall p, In p snapshot -> fileOnDisk d p = true ->
        getTask loaded (p_id p) = Some (restoredOf p))
  /\ ((autoCleanupDays <= 0)%Z -> getAllTasks st = getAllTasks loaded)
  /\ (forall p, In p snapshot -> fileOnDisk d p = true ->
        expired (after (DiskChanges cleaned) loaded) now (restoredOf p) = false ->
        getTask st (p_id p) = Some (restoredOf p))
  /\ (forall t, In t (getAllTasks st) -> In t (getAllTasks loaded)).
Proof.
  intros d cleaned now snapshot He Hr Hnd Hall loaded st.
  destruct (loader_restores d He Hr Hnd Hall) as [Hl Hg].
  fold loaded in Hl, Hg.
  set (st0 := after (DiskChanges cleaned) loaded).
  assert (Ho0 : objs st0 = objs loaded) by reflexivity.
  assert (Ht0 : tasks st0 = tasks loaded) by reflexivity.
  assert (Hall0 : getAllTasks st0 = getAllTasks loaded)
    by (unfold getAllTasks; rewrite Ho0, Ht0; reflexivity).
  assert (Hst : st = fst (runTimeCleanup now st0)) by reflexivity.
  split; [exact Hl|]. split; [exact Hg|]. split; [|split].
  - intro Hd. rewrite Hst. unfold runTimeCleanup.
    apply Z.leb_le in Hd. rewrite Hd. exact Hall0.
  - intros p Hin Hf Hx.
    assert (Hk : keepsTask (p_id p) st0 st).
    { rewrite Hst. apply runTimeCleanup_spares. intros t Ht Hx' Hid.
      rewrite Hall0, Hl in Ht. apply in_map_iff in Ht as (q & <- & Hq).
      apply filter_In in Hq as [Hq _].
      cbn [restoredOf id] in Hid.
      assert (q = p) by (eapply NoDup_map_inj; eassumption). subst q.
      fold st0 in Hx. congruence. }
    destruct Hk as [Ho Ha]. rewrite <- (Hg p Hin Hf).
    unfold getTask, findTask. rewrite Ha, Ho, Ht0, Ho0. reflexivity.
  - intros t Hin. rewrite <- Hall0.
    eapply fewerTasks_getAllTasks; [|exact Hin].
    rewrite Hst. apply fewerTasks_runTimeCleanup.
Qed.

(** *** When a download settles *)

Lemma assoc_map_delete_none : forall (A : Type) key key' (m : list (jstring * A)),
  assoc key m = None -> assoc key (map_delete key' m) = None.
Proof.
  intros A key key' m. unfold map_delete.
  induction m as [|[k v] m IH]; intro Hn; [reflexivity|].
  cbn [assoc] in Hn. destruct (streq k key) eqn:E; [discriminate Hn|].
  cbn [filter fst]. destruct (negb (streq k key')); [|apply IH; exact Hn].
  cbn [assoc]. rewrite E. apply IH. exact Hn.
Qed.

Lemma sameIndices_refl : forall st, sameIndices st st.
Proof. intro st. repeat split. Qed.

Lemma sameIndices_trans : forall a b c,
  sameIndices a b -> sameIndices b c -> sameIndices a c.
Proof.
  intros a b c (H1 & H2 & H3) (H4 & H5 & H6). repeat split; congruence.
Qed.

Lemma cleared_sameIndices : forall taskId timeout (A : Type) (m : M A),
  keeps sameIndices m -> preserves (cleared taskId timeout) m.
Proof.
  intros taskId timeout A m Hk st (H1 & H2 & H3).
  destruct (Hk st) as (E1 & E2 & E3). unfold cleared.
  rewrite E1, E2, E3. repeat split; assumption.
Qed.

Lemma cleared_clearTimeout : forall taskId timeout timeout',
  preserves (cleared taskId timeout) (clearTimeout timeout').
Proof.
  intros taskId timeout timeout' st (H1 & H2 & H3).
  unfold clearTimeout, modify. cbn [fst]. split; [exact H1|]. split; [exact H2|].
  cbn [timeouts with_timeouts]. intros c armed Hn.
  destruct (Nat.eq_dec timeout timeout') as [->|Hne].
  - destruct (nth_error (timeouts st) timeout') as [[c0 a0]|] eqn:E.
    + rewrite (nth_error_updateNth_eq _ _ _ E) in Hn. cbn [fst] in Hn.
      congruence.
    + assert (Hlen : nth_error (updateNth timeout' (fun t => (fst t, false))
                                  (timeouts st)) timeout' = None).
      { clear - E. revert E. generalize (timeouts st) as l.
        induction timeout' as [|n IH]; intros [|x l] E; try discriminate E;
          try reflexivity.
        cbn [updateNth nth_error] in *. apply IH. exact E. }
      congruence.
  - rewrite nth_error_updateNth_neq in Hn by congruence. eapply H3. exact Hn.
Qed.

Lemma cleared_delete_chunkDownloader : forall taskId timeout key,
  preserves (cleared taskId timeout)
    (modify (fun st =>
       with_chunkDownloaders (map_delete key (chunkDownloaders st)) st)).
Proof.
  intros taskId timeout key st (H1 & H2 & H3). unfold modify. cbn [fst].
  split; [exact H1|]. split; [|exact H3].
  cbn [chunkDownloaders with_chunkDownloaders].
  apply assoc_map_delete_none. exact H2.
Qed.

Lemma cleared_delete_abortController : forall taskId timeout key,
  preserves (cleared taskId timeout)
    (modify (fun st =>
       with_abortControllers (map_delete key (abortControllers st)) st)).
Proof.
  intros taskId timeout key st (H1 & H2 & H3). unfold modify. cbn [fst].
  split; [|split; [exact H2|exact H3]].
  cbn [abortControllers with_abortControllers].
  apply assoc_map_delete_none. exact H1.
Qed.

Ltac indices_bind := apply keeps_bind; [exact @sameIndices_trans| |].

Lemma indices_updateTask : forall ref f, keeps sameIndices (updateTask ref f).
Proof. intros ref f st. repeat split. Qed.

Lemma indices_notifyProgress : forall ref, keeps sameIndices (notifyProgress ref).
Proof.
  intros ref st. unfold notifyProgress, bind, readTask, modify.
  destruct (nth_error (objs st) ref) as [task|]; cbn [fst];
    [|apply sameIndices_refl].
  destruct (assoc (id task) (progressListeners st)); repeat split.
Qed.

Lemma indices_persistTasks : keeps sameIndices persistTasks.
Proof.
  apply keeps_persistTasks;
    [exact @sameIndices_refl|exact @sameIndices_trans| |];
    intros; repeat split.
Qed.

Lemma indices_setStage : forall co stage, keeps sameIndices (setStage co stage).
Proof. intros co stage st. repeat split. Qed.

Lemma cleared_catchBlock : forall taskId timeout ref timeout' err,
  preserves (cleared taskId timeout) (catchBlock ref timeout' err).
Proof.
  intros taskId timeout ref timeout' err. unfold catchBlock.
  apply preserves_bind.
  { apply cleared_sameIndices. apply keeps_readTask. exact @sameIndices_refl. }
  intro task.
  apply preserves_bind; [apply cleared_delete_chunkDownloader|intros _].
  apply preserves_bind; [apply cleared_delete_abortController|intros _].
  apply preserves_bind; [apply cleared_clearTimeout|intros _].
  apply cleared_sameIndices.
  destruct (isAbortError err).
  - indices_bind; [apply keeps_readTask; exact @sameIndices_refl|intro task'].
    destruct (Status_eqb (status task') Paused);
      [apply keeps_ret; exact @sameIndices_refl|].
    indices_bind; [apply indices_updateTask|intros _; apply indices_notifyProgress].
  - indices_bind; [apply indices_updateTask|intros _; apply indices_notifyProgress].
Qed.

Lemma cleared_complete : forall taskId timeout ref timeout',
  preserves (cleared taskId timeout) (complete ref timeout').
Proof.
  intros taskId timeout ref timeout'. unfold complete.
  apply preserves_tryCatch; [|intro; apply cleared_catchBlock].
  apply cleared_sameIndices.
  indices_bind; [apply indices_updateTask|intros _].
  indices_bind; [apply indices_persistTasks|intros _; apply indices_notifyProgress].
Qed.

(** The three statements that the [try] and the [catch] block of
    [startDownload] both begin with after the download has settled. *)
Lemma clearing_clears : forall st ref timeout t (A : Type) (k : M A),
  nth_error (objs st) ref = Some t ->
  preserves (cleared (id t) timeout) k ->
  cleared (id t) timeout
    (fst ((modify (fun st =>
             with_chunkDownloaders (map_delete (id t) (chunkDownloaders st)) st) ;;;
           modify (fun st =>
             with_abortControllers (map_delete (id t) (abortControllers st)) st) ;;;
           clearTimeout timeout ;;; k) st)).
Proof.
  intros st ref timeout t A k Ht Hk.
  cbv beta iota delta [bind modify clearTimeout].
  apply Hk. split; [|split].
  - cbn [abortControllers with_timeouts with_abortControllers].
    apply assoc_map_delete.
  - cbn [chunkDownloaders with_timeouts with_abortControllers
         with_chunkDownloaders].
    apply assoc_map_delete.
  - cbn [timeouts with_timeouts with_abortControllers with_chunkDownloaders].
    intros c armed Hn.
    destruct (nth_error (timeouts st) timeout) as [[c0 a0]|] eqn:E.
    + rewrite (nth_error_updateNth_eq _ _ _ E) in Hn. cbn [fst] in Hn.
      congruence.
    + exfalso. revert Hn E. generalize (timeouts st) as l. clear.
      induction timeout as [|n IH]; intros [|x l] Hn E; try discriminate E;
        try discriminate Hn.
      cbn [updateNth nth_error] in *. eapply IH; eassumption.
Qed.

(** When the awaited download of [startDownload] settles, with success or
    with any error, no abort controller and no downloader stays registered
    for the id of the task, whichever download registered them, and the
    timeout of the download is disarmed. *)
Theorem settled_download_cleared : forall st co ref timeout fp settled t,
  nth_error (coroutines st) co
  = Some {| co_task := ref; co_timeout := timeout; co_filePath := fp;
            co_stage := AwaitingDownload |} ->
  nth_error (objs st) ref = Some t ->
  cleared (id t) timeout (after (DownloadSettles co settled) st).
Proof.
  intros st co ref timeout fp settled t Hco Ht.
  unfold after. cbn [perform]. unfold afterDownload.
  unfold bind at 1, get. rewrite Hco.
  destruct settled as [err|].
  - unfold bind at 1, setStage, modify.
    set (st1 := with_coroutines _ st).
    assert (Ht1 : nth_error (objs st1) ref = Some t) by exact Ht.
    unfold catchBlock. erewrite bind_ok by (apply readTask_ok; exact Ht1).
    apply (@clearing_clears st1 ref timeout t _ _ Ht1).
    apply cleared_sameIndices.
    destruct (isAbortError err).
    + indices_bind; [apply keeps_readTask; exact @sameIndices_refl|intro task'].
      destruct (Status_eqb (status task') Paused);
        [apply keeps_ret; exact @sameIndices_refl|].
      indices_bind;
        [apply indices_updateTask|intros _; apply indices_notifyProgress].
    + indices_bind;
        [apply indices_updateTask|intros _; apply indices_notifyProgress].
  - erewrite bind_ok by (apply readTask_ok; exact Ht).
    apply (@clearing_clears st ref timeout t _ _ Ht).
    destruct (0 <? List.length (sinfs t)).
    + apply cleared_sameIndices.
      indices_bind; [apply indices_updateTask|intros _].
      indices_bind; [apply indices_notifyProgress|intros _; apply indices_setStage].
    + apply preserves_bind;
        [apply cleared_sameIndices, indices_setStage
        |intros _; apply cleared_complete].
Qed.

(** *** The cleanup by space *)

Lemma insertByMtime_perm : forall x l,
  Permutation (x :: l) (insertByMtime x l).
Proof.
  intros x l. induction l as [|y l IH]; cbn [insertByMtime].
  - apply Permutation_refl.
  - destruct (mtimeMs (snd x) <=? mtimeMs (snd y))%Z.
    + apply Permutation_refl.
    + eapply Permutation_trans; [apply perm_swap|].
      apply perm_skip. exact IH.
Qed.

Lemma sortByMtime_perm : forall l, Permutation l (sortByMtime l).
Proof.
  induction l as [|x l IH]; [apply Permutation_refl|].
  unfold sortByMtime. cbn [fold_right]. fold (sortByMtime l).
  eapply Permutation_trans; [apply perm_skip; exact IH|].
  apply insertByMtime_perm.
Qed.

Lemma insertByMtime_sorted : forall x l,
  StronglySorted olderFirst l -> StronglySorted olderFirst (insertByMtime x l).
Proof.
  intros x l. induction l as [|y l IH]; intro Hs; cbn [insertByMtime].
  - constructor; constructor.
  - apply StronglySorted_inv in Hs as [Hl Hy].
    destruct (mtimeMs (snd x) <=? mtimeMs (snd y))%Z eqn:E.
    + apply Z.leb_le in E. constructor; [constructor; assumption|].
      constructor; [exact E|].
      eapply Forall_impl; [|exact Hy]. unfold olderFirst. intros a Ha. lia.
    + apply Z.leb_gt in E. constructor; [apply IH; exact Hl|].
      eapply Permutation_Forall; [apply insertByMtime_perm|].
      constructor; [unfold olderFirst; lia|exact Hy].
Qed.

Lemma sortByMtime_sorted : forall l, StronglySorted olderFirst (sortByMtime l).
Proof.
  induction l as [|x l IH]; [constructor|].
  unfold sortByMtime. cbn [fold_right]. apply insertByMtime_sorted. exact IH.
Qed.

Lemma sorted_app : forall (front back : list (jstring * Stats)),
  StronglySorted olderFirst (front ++ back) ->
  forall a b, In a front -> In b back -> olderFirst a b.
Proof.
  induction front as [|x front IH]; intros back Hs a b Ha Hb; [destruct Ha|].
  cbn [app] in Hs. apply StronglySorted_inv in Hs as [Hrest Hx].
  destruct Ha as [->|Ha].
  - rewrite Forall_forall in Hx. apply Hx. apply in_or_app. right. exact Hb.
  - eapply IH; eassumption.
Qed.

Lemma totalBytesOf_from : forall l n,
  fold_left (fun n ft => n + size (snd ft))%Z l n
  = (n + totalBytesOf l)%Z.
Proof.
  unfold totalBytesOf. induction l as [|x l IH]; intro n; cbn [fold_left].
  - lia.
  - rewrite IH, (IH (0 + _)%Z). lia.
Qed.

Lemma totalBytesOf_cons : forall x l,
  totalBytesOf (x :: l) = (size (snd x) + totalBytesOf l)%Z.
Proof.
  intros x l. unfold totalBytesOf at 1. cbn [fold_left].
  rewrite totalBytesOf_from. lia.
Qed.

Lemma victimsOf_prefix : forall l total maxBytes,
  exists spared, l = victimsOf l total maxBytes ++ spared.
Proof.
  induction l as [|x l IH]; intros total maxBytes; [exists []; reflexivity|].
  cbn [victimsOf].
  destruct (total - size (snd x) <=? maxBytes)%Z.
  - exists l. reflexivity.
  - destruct (IH (total - size (snd x))%Z maxBytes) as [spared E].
    exists spared. cbn [app]. rewrite <- E. reflexivity.
Qed.

Lemma evict_victims : forall l total maxBytes st,
  evict l total maxBytes st
  = forEach (map fst (victimsOf l total maxBytes))
      (fun taskId => deleteTask taskId ;;; ret tt) st.
Proof.
  induction l as [|x l IH]; intros total maxBytes st; [reflexivity|].
  cbn [evict victimsOf map forEach].
  rewrite <- bind_assoc.
  assert (Hext : forall k k' : bool -> M unit,
            (forall b s, k b s = k' b s) ->
            bind (deleteTask (fst x)) k st = bind (deleteTask (fst x)) k' st).
  { intros k k' H. unfold bind.
    destruct (deleteTask (fst x) st) as [s [b|e]]; [apply H|reflexivity]. }
  apply Hext. intros _ s.
  destruct (total - size (snd x) <=? maxBytes)%Z; [reflexivity|].
  rewrite IH. reflexivity.
Qed.

(** The loop goes on while the total is above the limit, and ends within
    the array only when the total is within it. *)
Lemma victimsOf_minimal : forall l total maxBytes n,
  (maxBytes < total)%Z ->
  n < List.length (victimsOf l total maxBytes) ->
  (maxBytes < total - totalBytesOf (firstn n (victimsOf l total maxBytes)))%Z.
Proof.
  induction l as [|x l IH]; intros total maxBytes n Ht Hn;
    [destruct n; cbn in *; lia|].
  cbn [victimsOf] in *. destruct n as [|n].
  - cbn [firstn]. unfold totalBytesOf. cbn [fold_left]. lia.
  - cbn [firstn]. rewrite totalBytesOf_cons.
    destruct (total - size (snd x) <=? maxBytes)%Z eqn:E.
    + cbn [List.length] in Hn. lia.
    + apply Z.leb_gt in E. cbn [List.length] in Hn.
      specialize (IH (total - size (snd x))%Z maxBytes n E ltac:(lia)). lia.
Qed.

Lemma victimsOf_enough : forall l total maxBytes spared,
  l = victimsOf l total maxBytes ++ spared ->
  spared <> [] ->
  (total - totalBytesOf (victimsOf l total maxBytes) <= maxBytes)%Z.
Proof.
  induction l as [|x l IH]; intros total maxBytes spared E Hs.
  - cbn [victimsOf app] in E. congruence.
  - cbn [victimsOf] in *. rewrite totalBytesOf_cons.
    destruct (total - size (snd x) <=? maxBytes)%Z eqn:El.
    + apply Z.leb_le in El. unfold totalBytesOf. cbn [fold_left]. lia.
    + cbn [app] in E. injection E as E.
      specialize (IH _ _ _ E Hs). lia.
Qed.

(** [runSpaceCleanup] does nothing when the limit is not above zero or the
    files of the completed tasks are within it.  Otherwise it calls
    [deleteTask] for a beginning of those files in the order of their
    modification times, oldest first: no file it spares is older than one
    it deletes, it stops as soon as the bytes that are left are within the
    limit, and not before. *)
Theorem runSpaceCleanup_evicts_oldest : forall st,
  let fileTasks := fileTasksOf st in
  let maxBytes := (autoCleanupMaxMB * 1024 * 1024)%Z in
  ((autoCleanupMaxMB <= 0 \/ totalBytesOf fileTasks <= maxBytes)%Z ->
   runSpaceCleanup st = (st, Ok tt))
  /\ ((0 < autoCleanupMaxMB)%Z -> (maxBytes < totalBytesOf fileTasks)%Z ->
      exists victims spared,
        Permutation fileTasks (victims ++ spared)
        /\ runSpaceCleanup st
           = forEach (map fst victims)
               (fun taskId => deleteTask taskId ;;; ret tt) st
        /\ (forall v s, In v victims -> In s spared -> olderFirst v s)
        /\ (forall n, n < List.length victims ->
              (maxBytes < totalBytesOf fileTasks
                          - totalBytesOf (firstn n victims))%Z)
        /\ (spared <> [] ->
            (totalBytesOf fileTasks - totalBytesOf victims <= maxBytes)%Z)).
Proof.
  intros st fileTasks maxBytes. unfold runSpaceCleanup. split.
  - intros [Hd|Ht].
    + apply Z.leb_le in Hd. rewrite Hd. reflexivity.
    + destruct (autoCleanupMaxMB <=? 0)%Z; [reflexivity|].
      unfold bind, get. cbv zeta. fold (fileTasksOf st). fold fileTasks.
      fold (totalBytesOf fileTasks). fold maxBytes.
      apply Z.leb_le in Ht. rewrite Ht. reflexivity.
  - intros Hd Ht.
    destruct (victimsOf_prefix (sortByMtime fileTasks)
                (totalBytesOf fileTasks) maxBytes) as [spared E].
    exists (victimsOf (sortByMtime fileTasks) (totalBytesOf fileTasks) maxBytes),
      spared.
    split; [rewrite <- E; apply sortByMtime_perm|].
    split; [|split; [|split]].
    + apply Z.leb_gt in Hd. rewrite Hd.
      unfold bind, get. cbv zeta. fold (fileTasksOf st). fold fileTasks.
      fold (totalBytesOf fileTasks). fold maxBytes.
      apply Z.leb_gt in Ht. rewrite Ht. apply evict_victims.
    + apply sorted_app. rewrite <- E. apply sortByMtime_sorted.
    + intros n Hn. apply victimsOf_minimal; assumption.
    + intro Hs. eapply victimsOf_enough; eassumption.
Qed.

(** *** Completed tasks have their file *)

Lemma path_normalize_truthy : forall path, falsy (path_normalize path) = false.
Proof.
  intro path. unfold path_normalize.
  destruct (falsy path); [reflexivity|]. cbv zeta.
  destruct (falsy (normalizeString path (negb (isAbsolute path)))) eqn:En.
  - destruct (isAbsolute path); [reflexivity|].
    destruct (hasTrailingSlash path); reflexivity.
  - destruct (isAbsolute path); [reflexivity|].
    destruct (hasTrailingSlash path); [|exact En].
    destruct (normalizeString path (negb false)); reflexivity.
Qed.

Lemma path_join_truthy : forall args, falsy (path_join args) = false.
Proof.
  intro args. unfold path_join.
  destruct (filter (fun arg => negb (falsy arg)) args); [reflexivity|].
  apply path_normalize_truthy.
Qed.

Lemma nth_error_updateNth_inv : forall (A : Type) (f : A -> A) n m l y,
  nth_error (updateNth n f l) m = Some y ->
  exists x, nth_error l m = Some x /\ (y = x \/ (m = n /\ y = f x)).
Proof.
  intros A f n m l y Hy. destruct (Nat.eq_dec n m) as [<-|Hne].
  - destruct (nth_error l n) as [x|] eqn:E.
    + rewrite (nth_error_updateNth_eq _ _ _ E) in Hy. injection Hy as <-.
      exists x. split; [reflexivity|right; split; reflexivity].
    + exfalso. revert n E Hy. clear.
      induction l as [|z l IH]; intros [|n] E Hy; cbn in *; try discriminate.
      eapply IH; eassumption.
  - rewrite nth_error_updateNth_neq in Hy by exact Hne.
    exists y. split; [exact Hy|left; reflexivity].
Qed.

Lemma map_updateNth : forall (A B : Type) (g : A -> B) (f : A -> A) n l,
  (forall x, g (f x) = g x) -> map g (updateNth n f l) = map g l.
Proof.
  intros A B g f n l Hg. revert n.
  induction l as [|x l IH]; intros [|n]; cbn [updateNth map]; try reflexivity.
  - rewrite Hg. reflexivity.
  - rewrite IH. reflexivity.
Qed.

Lemma keepsFiles_same : forall st st',
  objs st' = objs st -> coroutines st' = coroutines st -> keepsFiles st st'.
Proof.
  intros st st' Ho Hc. unfold keepsFiles. rewrite Ho, Hc.
  split; [|split; [|reflexivity]].
  - intros ref t Ht. exists t. split; [exact Ht|intro H; exact H].
  - intros ref t Ht Hs. exists t. split; [exact Ht|exact Hs].
Qed.

Lemma keepsFiles_refl : forall st, keepsFiles st st.
Proof. intro st. apply keepsFiles_same; reflexivity. Qed.

Lemma keepsFiles_trans : forall a b c,
  keepsFiles a b -> keepsFiles b c -> keepsFiles a c.
Proof.
  intros a b c (H1 & H2 & H3) (H4 & H5 & H6). split; [|split].
  - intros ref t Ht. destruct (H1 _ _ Ht) as (t1 & Ht1 & Hf1).
    destruct (H4 _ _ Ht1) as (t2 & Ht2 & Hf2).
    exists t2. split; [exact Ht2|]. intro H. apply Hf2, Hf1, H.
  - intros ref t Ht Hs. destruct (H5 _ _ Ht Hs) as (t1 & Ht1 & Hs1).
    apply (H2 _ _ Ht1 Hs1).
  - congruence.
Qed.

Ltac files_side :=
  first [ exact keepsFiles_refl | exact keepsFiles_trans
        | intros; apply keepsFiles_same; reflexivity ].

Ltac files_bind := apply keeps_bind; [exact keepsFiles_trans| |].

Lemma files_updateTask : forall ref f,
  gentle f -> keeps keepsFiles (updateTask ref f).
Proof.
  intros ref f Hf st. unfold updateTask, modify. cbn [fst].
  split; [|split; [|reflexivity]]; cbn [objs with_objs].
  - intros r t Ht. destruct (Nat.eq_dec ref r) as [<-|Hne].
    + exists (f t). split; [apply nth_error_updateNth_eq; exact Ht|apply Hf].
    + exists t. rewrite nth_error_updateNth_neq by exact Hne.
      split; [exact Ht|intro H; exact H].
  - intros r t' Ht' Hs.
    destruct (nth_error_updateNth_inv _ _ _ _ Ht') as (t & Ht & [->|[_ ->]]).
    + exists t. split; [exact Ht|exact Hs].
    + exists t. split; [exact Ht|apply Hf; exact Hs].
Qed.

Lemma files_addTask : forall task,
  status task <> Completed -> keeps keepsFiles (addTask task).
Proof.
  intros task Hs st. unfold addTask. cbn [fst].
  split; [|split; [|reflexivity]]; cbn [objs with_tasks with_objs].
  - intros r t Ht. exists t. split; [|intro H; exact H].
    rewrite nth_error_app1; [exact Ht|]. apply nth_error_Some. congruence.
  - intros r t' Ht' Hc.
    destruct (Nat.lt_ge_cases r (List.length (objs st))) as [Hlt|Hge].
    + rewrite nth_error_app1 in Ht' by exact Hlt.
      exists t'. split; [exact Ht'|exact Hc].
    + rewrite nth_error_app2 in Ht' by exact Hge.
      destruct (r - List.length (objs st)) as [|k]; cbn in Ht'.
      * injection Ht' as <-. contradiction.
      * destruct k; discriminate Ht'.
Qed.

Lemma files_setStage : forall co stage, keeps keepsFiles (setStage co stage).
Proof.
  intros co stage st. unfold setStage, modify. cbn [fst].
  split; [|split]; cbn [objs coroutines with_coroutines].
  - intros r t Ht. exists t. split; [exact Ht|intro H; exact H].
  - intros r t Ht Hs. exists t. split; [exact Ht|exact Hs].
  - apply map_updateNth. intro c. reflexivity.
Qed.

Lemma files_readTask : forall ref, keeps keepsFiles (readTask ref).
Proof. intro ref. apply keeps_readTask. exact keepsFiles_refl. Qed.

Lemma files_notifyProgress : forall ref, keeps keepsFiles (notifyProgress ref).
Proof. intro ref. apply keeps_notifyProgress; files_side. Qed.

Lemma files_clearTimeout : forall timeout,
  keeps keepsFiles (clearTimeout timeout).
Proof. intro timeout. apply keeps_clearTimeout; files_side. Qed.

Lemma files_persistTasks : keeps keepsFiles persistTasks.
Proof. apply keeps_persistTasks; files_side. Qed.

Lemma files_abortIfDownloading : forall taskId,
  keeps keepsFiles (abortIfDownloading taskId).
Proof. intro taskId. apply keeps_abortIfDownloading; files_side. Qed.

Lemma files_deleteTask : forall taskId, keeps keepsFiles (deleteTask taskId).
Proof. intro taskId. apply keeps_deleteTask; files_side. Qed.

Lemma files_modify : forall f : State -> State,
  (forall st, objs (f st) = objs st) ->
  (forall st, coroutines (f st) = coroutines st) ->
  keeps keepsFiles (modify f).
Proof. intros f Ho Hc st. apply keepsFiles_same; [apply Ho|apply Hc]. Qed.

Lemma files_catchBlock : forall ref timeout err,
  keeps keepsFiles (catchBlock ref timeout err).
Proof.
  intros ref timeout err. unfold catchBlock.
  files_bind; [apply files_readTask|intro task].
  files_bind; [apply files_modify; reflexivity|intros _].
  files_bind; [apply files_modify; reflexivity|intros _].
  files_bind; [apply files_clearTimeout|intros _].
  assert (Hfail : forall message,
            gentle (fun t => set_error (Some message) (set_status Failed t))).
  { intros message t. split; [intro H; exact H|intro H; discriminate H]. }
  destruct (isAbortError err).
  - files_bind; [apply files_readTask|intro task'].
    destruct (Status_eqb (status task') Paused);
      [apply keeps_ret; exact keepsFiles_refl|].
    files_bind;
      [apply files_updateTask, Hfail|intros _; apply files_notifyProgress].
  - files_bind;
      [apply files_updateTask, Hfail|intros _; apply files_notifyProgress].
Qed.

(** From one set of states to another. *)

Lemma leads_bind : forall (P Q S : State -> Prop) (A B : Type)
    (m : M A) (k : A -> M B),
  leads P m Q -> (forall a, leads Q (k a) S) -> (forall st, Q st -> S st) ->
  leads P (bind m k) S.
Proof.
  intros P Q S A B m k Hm Hk Hw st HP. unfold bind. specialize (Hm st HP).
  destruct (m st) as [st' [a|e]]; cbn [fst] in *.
  - apply Hk. exact Hm.
  - apply Hw. exact Hm.
Qed.

Lemma leads_tryCatch : forall (P Q S : State -> Prop) (A : Type)
    (m : M A) handler,
  leads P m Q -> (forall e, leads Q (handler e) S) -> (forall st, Q st -> S st) ->
  leads P (tryCatch m handler) S.
Proof.
  intros P Q S A m handler Hm Hh Hw st HP. unfold tryCatch.
  specialize (Hm st HP).
  destruct (m st) as [st' [a|e]]; cbn [fst] in *.
  - apply Hw. exact Hm.
  - apply Hh. exact Hm.
Qed.

Lemma completedHaveFiles_keepsFiles : stable completedHaveFiles.
Proof.
  intros st st' (G1 & G2 & G3) (Ja & Jb). split.
  - intros ref t' Ht' Hs. destruct (G2 _ _ Ht' Hs) as (t & Ht & Hc).
    destruct (G1 _ _ Ht) as (t'' & Ht'' & Hf).
    assert (t'' = t') by congruence. subst t''.
    apply Hf. apply (Ja _ _ Ht Hc).
  - intros co c' Hc'.
    assert (Hm : nth_error (map co_task (coroutines st')) co = Some (co_task c'))
      by (rewrite nth_error_map, Hc'; reflexivity).
    rewrite G3, nth_error_map in Hm.
    destruct (nth_error (coroutines st) co) as [c|] eqn:Hc; [|discriminate Hm].
    injection Hm as Hm. rewrite <- Hm.
    destruct (Jb _ _ Hc) as (t & Ht & Hf).
    destruct (G1 _ _ Ht) as (t' & Ht' & Hf').
    exists t'. split; [exact Ht'|apply Hf', Hf].
Qed.

Lemma stable_anyState : stable anyState.
Proof. intros st st' _ _. exact I. Qed.

Lemma stable_present : forall ref, stable (present ref).
Proof.
  intros ref st st' (G1 & _) (t & Ht).
  destruct (G1 _ _ Ht) as (t' & Ht' & _). exists t'. exact Ht'.
Qed.

Lemma stable_filed : forall ref, stable (filed ref).
Proof.
  intros ref st st' (G1 & _) (t & Ht & Hf).
  destruct (G1 _ _ Ht) as (t' & Ht' & Hf'). exists t'.
  split; [exact Ht'|apply Hf', Hf].
Qed.

Lemma leads_keeps : forall (Q : State -> Prop) (A : Type) (m : M A),
  stable Q -> keeps keepsFiles m -> leads (safeWith Q) m (safeWith Q).
Proof.
  intros Q A m HQ Hm st [HJ Hq]. specialize (Hm st). split.
  - eapply completedHaveFiles_keepsFiles; eassumption.
  - eapply HQ; eassumption.
Qed.

Lemma safeWith_any : forall (Q : State -> Prop) st,
  safeWith Q st -> safeWith anyState st.
Proof. intros Q st [HJ _]. split; [exact HJ|exact I]. Qed.

Lemma safeWith_same : forall (Q : State -> Prop) st, safeWith Q st -> safeWith Q st.
Proof. intros Q st H. exact H. Qed.

(** A task that has been read is there. *)
Lemma leads_readTask : forall (S : State -> Prop) (A : Type) ref
    (k : DownloadTask -> M A),
  (forall task, leads (safeWith (present ref)) (k task) S) ->
  (forall st, safeWith anyState st -> S st) ->
  leads (safeWith anyState) (bind (readTask ref) k) S.
Proof.
  intros S A ref k Hk Hw st HJ. unfold bind, readTask.
  destruct (nth_error (objs st) ref) as [t|] eqn:Ht.
  - apply Hk. split; [apply HJ|]. exists t. exact Ht.
  - apply Hw. exact HJ.
Qed.

(** The assignment of the file path in [startDownload]. *)
Lemma leads_set_filePath : forall ref path,
  falsy path = false ->
  leads (safeWith (present ref)) (updateTask ref (set_filePath (Some path)))
    (safeWith (filed ref)).
Proof.
  intros ref path Hp st [HJ (t & Ht)].
  assert (Hg : gentle (set_filePath (Some path))).
  { intro t0. split; [|intro H; exact H].
    intros _. unfold hasFilePath. cbn [filePath set_filePath]. rewrite Hp.
    reflexivity. }
  split.
  - eapply completedHaveFiles_keepsFiles; [apply files_updateTask, Hg|exact HJ].
  - exists (set_filePath (Some path) t). unfold updateTask, modify.
    cbn [fst objs with_objs].
    split; [apply nth_error_updateNth_eq; exact Ht|].
    unfold hasFilePath. cbn [filePath set_filePath]. rewrite Hp. reflexivity.
Qed.

(** The call is suspended with its task filed. *)
Lemma leads_suspend : forall c,
  leads (safeWith (filed (co_task c))) (suspend c)
    (safeWith (filed (co_task c))).
Proof.
  intros c st [[Ja Jb] Hf]. unfold suspend, modify. cbn [fst].
  split; [split|exact Hf].
  - exact Ja.
  - cbn [coroutines with_coroutines]. intros co c' Hc'.
    destruct (Nat.lt_ge_cases co (List.length (coroutines st))) as [Hlt|Hge].
    + rewrite nth_error_app1 in Hc' by exact Hlt. apply (Jb _ _ Hc').
    + rewrite nth_error_app2 in Hc' by exact Hge.
      destruct (co - List.length (coroutines st)) as [|k]; cbn in Hc'.
      * injection Hc' as <-. exact Hf.
      * destruct k; discriminate Hc'.
Qed.

(** The assignments that complete a task whose file path is set. *)
Lemma leads_completing : forall ref f,
  (forall t, filePath (f t) = filePath t) ->
  leads (safeWith (filed ref)) (updateTask ref f) (safeWith (filed ref)).
Proof.
  intros ref f Hf st [[Ja Jb] (t & Ht & Hfile)].
  assert (Hkeep : forall t0, hasFilePath (f t0) = hasFilePath t0)
    by (intro t0; unfold hasFilePath; rewrite Hf; reflexivity).
  assert (Hfiled : forall r, filed r st ->
            filed r (fst (updateTask ref f st))).
  { intros r (t0 & Ht0 & Hf0). unfold updateTask, modify.
    cbn [fst]. unfold filed. cbn [objs with_objs].
    destruct (Nat.eq_dec ref r) as [<-|Hne].
    - exists (f t0). split; [apply nth_error_updateNth_eq; exact Ht0|].
      rewrite Hkeep. exact Hf0.
    - exists t0. rewrite nth_error_updateNth_neq by exact Hne.
      split; [exact Ht0|exact Hf0]. }
  split; [split|].
  - unfold updateTask, modify. cbn [fst objs with_objs]. intros r t' Ht' Hs.
    destruct (nth_error_updateNth_inv _ _ _ _ Ht') as (t0 & Ht0 & [->|[-> ->]]).
    + apply (Ja _ _ Ht0 Hs).
    + rewrite Hkeep. assert (t0 = t) by congruence. subst t0. exact Hfile.
  - intros co c Hc. apply Hfiled. apply (Jb co c). exact Hc.
  - apply Hfiled. exists t. split; [exact Ht|exact Hfile].
Qed.

Lemma leads_keeps_any : forall (Q : State -> Prop) (A : Type) (m : M A),
  stable Q -> keeps keepsFiles m -> leads (safeWith Q) m (safeWith anyState).
Proof.
  intros Q A m HQ Hm st H. eapply safeWith_any. apply (leads_keeps HQ Hm). exact H.
Qed.

Lemma leads_get : forall (P S : State -> Prop) (A : Type) (k : State -> M A),
  (forall st0, leads (fun st => P st /\ st = st0) (k st0) S) ->
  leads P (bind get k) S.
Proof.
  intros P S A k Hk st HP. unfold bind, get. apply (Hk st). split; [exact HP|reflexivity].
Qed.

Lemma leads_weaken : forall (P P' S : State -> Prop) (A : Type) (m : M A),
  (forall st, P' st -> P st) -> leads P m S -> leads P' m S.
Proof. intros P P' S A m Hw Hm st HP. apply Hm, Hw, HP. Qed.

Ltac stable_side :=
  first [exact stable_anyState | apply stable_present | apply stable_filed].

(** A step that keeps the files, under [safeWith Q], on the way to [S]. *)
Ltac keep_step Q S :=
  apply (@leads_bind (safeWith Q) (safeWith Q) S);
    [ apply leads_keeps; [stable_side|]
    |
    | first [exact (@safeWith_same Q) | exact (@safeWith_any Q)] ].

Ltac keep_last Q :=
  first [ apply leads_keeps; [stable_side|]
        | apply leads_keeps_any; [stable_side|] ].

Lemma gentle_failed : forall message,
  gentle (fun t => set_error message (set_status Failed t)).
Proof. intros message t. split; [intro H; exact H|intro H; discriminate H]. Qed.

Lemma files_runTimeCleanup : forall now, keeps keepsFiles (runTimeCleanup now).
Proof. intro now. apply keeps_runTimeCleanup; files_side. Qed.

Lemma files_runSpaceCleanup : keeps keepsFiles runSpaceCleanup.
Proof. apply keeps_runSpaceCleanup; files_side. Qed.

Lemma leads_complete : forall ref timeout,
  leads (safeWith (filed ref)) (complete ref timeout) (safeWith (filed ref)).
Proof.
  intros ref timeout. unfold complete.
  apply (@leads_tryCatch (safeWith (filed ref)) (safeWith (filed ref))
           (safeWith (filed ref)));
    [|intro e; keep_last (filed ref); apply files_catchBlock
     |exact (@safeWith_same (filed ref))].
  apply (@leads_bind (safeWith (filed ref)) (safeWith (filed ref))
           (safeWith (filed ref)));
    [apply leads_completing; intro t; reflexivity|intros _
    |exact (@safeWith_same (filed ref))].
  keep_step (filed ref) (safeWith (filed ref));
    [apply files_persistTasks|intros _].
  keep_last (filed ref). apply files_notifyProgress.
Qed.

Lemma leads_startDownload : forall ref now,
  leads (safeWith anyState) (startDownload ref now) (safeWith anyState).
Proof.
  intros ref now. unfold startDownload.
  keep_step anyState (safeWith anyState); [apply files_runTimeCleanup|intros _].
  keep_step anyState (safeWith anyState); [apply files_runSpaceCleanup|intros _].
  keep_step anyState (safeWith anyState);
    [apply keeps_newAbortController; files_side|intro controller].
  apply leads_readTask; [intro task0|exact (@safeWith_same anyState)].
  keep_step (present ref) (safeWith anyState);
    [apply files_modify; reflexivity|intros _].
  keep_step (present ref) (safeWith anyState);
    [apply keeps_setTimeout_abort; files_side|intro timeout].
  keep_step (present ref) (safeWith anyState);
    [apply files_updateTask; intro t; split;
       [intro H; exact H|intro H; discriminate H]
    |intros _].
  keep_step (present ref) (safeWith anyState);
    [apply files_notifyProgress|intros _].
  keep_step (present ref) (safeWith anyState); [apply files_readTask|intro task].
  keep_step (present ref) (safeWith anyState);
    [apply keeps_lift; exact keepsFiles_refl|intro a].
  keep_step (present ref) (safeWith anyState);
    [apply keeps_lift; exact keepsFiles_refl|intro b].
  keep_step (present ref) (safeWith anyState);
    [apply keeps_lift; exact keepsFiles_refl|intro v].
  cbv zeta.
  match goal with |- leads _ (if ?c then _ else _) _ => destruct c end.
  - keep_step (present ref) (safeWith anyState);
      [apply files_updateTask, gentle_failed|intros _].
    keep_step (present ref) (safeWith anyState);
      [apply files_clearTimeout|intros _].
    keep_last (present ref). apply files_notifyProgress.
  - keep_step (present ref) (safeWith anyState);
      [apply keeps_onDisk; files_side|intros _].
    apply (@leads_bind (safeWith (present ref)) (safeWith (filed ref))
             (safeWith anyState));
      [apply leads_set_filePath, path_join_truthy|intros _
      |exact (@safeWith_any (filed ref))].
    apply (@leads_tryCatch (safeWith (filed ref)) (safeWith (filed ref))
             (safeWith anyState));
      [|intro e; keep_last (filed ref); apply files_catchBlock
       |exact (@safeWith_any (filed ref))].
    keep_step (filed ref) (safeWith (filed ref)); [apply files_readTask|intro task1].
    keep_step (filed ref) (safeWith (filed ref));
      [apply keeps_lift; exact keepsFiles_refl|intros _].
    keep_step (filed ref) (safeWith (filed ref));
      [apply keeps_newChunkedDownloader; files_side|intro downloader].
    keep_step (filed ref) (safeWith (filed ref));
      [apply files_modify; reflexivity|intros _].
    exact (leads_suspend
             {| co_task := ref; co_timeout := timeout;
                co_filePath :=
                  path_join
                    [path_join [PACKAGES_DIR; a; b; v]; id task ++ js ".ipa"];
                co_stage := AwaitingDownload |}).
Qed.

Lemma leads_startDownload_detached : forall ref now,
  leads (safeWith anyState) (startDownload_detached ref now)
    (safeWith anyState).
Proof.
  intros ref now. unfold startDownload_detached.
  apply (@leads_tryCatch (safeWith anyState) (safeWith anyState)
           (safeWith anyState));
    [apply leads_startDownload
    |intro e; keep_last anyState; apply keeps_ret; exact keepsFiles_refl
    |exact (@safeWith_same anyState)].
Qed.

(** From the coroutine that goes on, its task is filed. *)
Lemma filed_of_coroutine : forall st0 co c st,
  nth_error (coroutines st0) co = Some c ->
  safeWith anyState st /\ st = st0 -> safeWith (filed (co_task c)) st.
Proof.
  intros st0 co c st Hc [[HJ _] ->]. split; [exact HJ|].
  apply (proj2 HJ co c Hc).
Qed.

Lemma leads_perform : forall a,
  leads (safeWith anyState) (perform a) (safeWith anyState).
Proof.
  intros [software accountHash downloadURL sinfs iTunesMetadata rnds nowISO now
         |taskId|taskId|taskId now|co settled|co settled|co info|timeout|now
         |taskId listener|taskId listener|d]; cbn [perform].
  - apply (@leads_bind (safeWith anyState) (safeWith anyState)
             (safeWith anyState));
      [|intros _; keep_last anyState; apply keeps_ret; exact keepsFiles_refl
       |exact (@safeWith_same anyState)].
    unfold createTask.
    keep_step anyState (safeWith anyState);
      [apply keeps_lift; exact keepsFiles_refl|intros _].
    keep_step anyState (safeWith anyState);
      [apply keeps_lift; exact keepsFiles_refl|intros _].
    keep_step anyState (safeWith anyState);
      [apply keeps_lift; exact keepsFiles_refl|intros _].
    keep_step anyState (safeWith anyState);
      [apply keeps_lift; exact keepsFiles_refl|intros _].
    keep_step anyState (safeWith anyState);
      [apply files_addTask; discriminate|intro ref].
    apply (@leads_bind (safeWith anyState) (safeWith anyState)
             (safeWith anyState));
      [apply leads_startDownload_detached
      |intros _; keep_last anyState; apply keeps_ret; exact keepsFiles_refl
      |exact (@safeWith_same anyState)].
  - keep_step anyState (safeWith anyState); [apply files_deleteTask|intros _].
    keep_last anyState. apply keeps_ret. exact keepsFiles_refl.
  - keep_step anyState (safeWith anyState);
      [|intros _; keep_last anyState; apply keeps_ret; exact keepsFiles_refl].
    unfold pauseTask.
    files_bind; [apply keeps_get; exact keepsFiles_refl|intro st0].
    destruct (findTask st0 taskId) as [[ref task]|];
      [|apply keeps_ret; exact keepsFiles_refl].
    destruct (negb (Status_eqb (status task) Downloading));
      [apply keeps_ret; exact keepsFiles_refl|].
    files_bind; [apply files_abortIfDownloading|intros _].
    files_bind;
      [apply files_updateTask; intro t; split;
         [intro H; exact H|intro H; discriminate H]
      |intros _].
    files_bind;
      [apply files_notifyProgress|intros _; apply keeps_ret; exact keepsFiles_refl].
  - apply (@leads_bind (safeWith anyState) (safeWith anyState)
             (safeWith anyState));
      [|intros _; keep_last anyState; apply keeps_ret; exact keepsFiles_refl
       |exact (@safeWith_same anyState)].
    unfold resumeTask.
    keep_step anyState (safeWith anyState);
      [apply keeps_get; exact keepsFiles_refl|intro st0].
    destruct (findTask st0 taskId) as [[ref task]|];
      [|keep_last anyState; apply keeps_ret; exact keepsFiles_refl].
    destruct (negb (Status_eqb (status task) Paused));
      [keep_last anyState; apply keeps_ret; exact keepsFiles_refl|].
    apply (@leads_bind (safeWith anyState) (safeWith anyState)
             (safeWith anyState));
      [apply leads_startDownload_detached
      |intros _; keep_last anyState; apply keeps_ret; exact keepsFiles_refl
      |exact (@safeWith_same anyState)].
  - unfold afterDownload. apply leads_get. intro st0.
    destruct (nth_error (coroutines st0) co) as [[ref timeout fp stage]|] eqn:Hc.
    2:{ intros st [H _]. exact H. }
    destruct stage; try (intros st [H _]; exact H).
    apply (@leads_weaken (safeWith (filed ref)));
      [intros st H; exact (@filed_of_coroutine _ _ _ _ Hc H)|].
    destruct settled as [err|].
    + keep_step (filed ref) (safeWith anyState);
        [apply files_setStage|intros _].
      keep_last (filed ref). apply files_catchBlock.
    + keep_step (filed ref) (safeWith anyState); [apply files_readTask|intro task].
      keep_step (filed ref) (safeWith anyState);
        [apply files_modify; reflexivity|intros _].
      keep_step (filed ref) (safeWith anyState);
        [apply files_modify; reflexivity|intros _].
      keep_step (filed ref) (safeWith anyState);
        [apply files_clearTimeout|intros _].
      destruct (0 <? List.length (sinfs task)).
      * keep_step (filed ref) (safeWith anyState);
          [apply files_updateTask; intro t; split;
             [intro H; exact H|intro H; discriminate H]
          |intros _].
        keep_step (filed ref) (safeWith anyState);
          [apply files_notifyProgress|intros _].
        keep_last (filed ref). apply files_setStage.
      * keep_step (filed ref) (safeWith anyState);
          [apply files_setStage|intros _].
        intros st H. eapply safeWith_any. apply leads_complete. exact H.
  - unfold afterInject. apply leads_get. intro st0.
    destruct (nth_error (coroutines st0) co) as [[ref timeout fp stage]|] eqn:Hc.
    2:{ intros st [H _]. exact H. }
    destruct stage; try (intros st [H _]; exact H).
    apply (@leads_weaken (safeWith (filed ref)));
      [intros st H; exact (@filed_of_coroutine _ _ _ _ Hc H)|].
    keep_step (filed ref) (safeWith anyState); [apply files_setStage|intros _].
    destruct settled as [err|].
    + keep_last (filed ref). apply files_catchBlock.
    + intros st H. eapply safeWith_any. apply leads_complete. exact H.
  - keep_last anyState. unfold onProgress.
    files_bind; [apply keeps_get; exact keepsFiles_refl|intro st0].
    destruct (nth_error (coroutines st0) co) as [[ref timeout fp []]|];
      try (apply keeps_ret; exact keepsFiles_refl).
    files_bind; [|intros _; apply files_notifyProgress].
    apply files_updateTask. intro t.
    destruct (total info >? 0)%Z; split;
      solve [intro H; exact H].
  - keep_last anyState. apply keeps_timeoutFires; files_side.
  - keep_last anyState. apply files_runTimeCleanup.
  - keep_last anyState. apply keeps_addProgressListener; files_side.
  - keep_last anyState. apply keeps_removeProgressListener; files_side.
  - keep_last anyState. apply files_modify; reflexivity.
Qed.

Lemma restorable_filed : forall d item task,
  restorable d item = Some task -> hasFilePath task = true.
Proof.
  intros d item task. unfold restorable.
  destruct (item_id item) as [itemId|]; [|discriminate].
  destruct (item_status item) as [itemStatus|]; [|discriminate].
  destruct (item_filePath item) as [itemPath|]; [|discriminate].
  destruct (negb (falsy itemId) && streq itemStatus (js "completed")
            && negb (falsy itemPath) && existsSync d itemPath) eqn:E;
    [|discriminate].
  intros [= <-]. unfold hasFilePath. cbn [filePath].
  apply andb_prop in E as [E _]. apply andb_prop in E as [_ E]. exact E.
Qed.

Lemma completedHaveFiles_initOnStartup : forall d,
  completedHaveFiles (initOnStartup d).
Proof.
  intro d. unfold initOnStartup.
  assert (Hgen : forall items st,
            Forall (fun t => hasFilePath t = true) (objs st) ->
            coroutines st = [] ->
            let st' := fold_left
                         (fun st item =>
                            match restorable d item with
                            | Some task => fst (addTask task st)
                            | None => st
                            end) items st in
            Forall (fun t => hasFilePath t = true) (objs st')
            /\ coroutines st' = []).
  { induction items as [|item items IH]; intros st Ho Hc; cbn [fold_left];
      [split; assumption|].
    apply IH.
    - destruct (restorable d item) as [task|] eqn:E; [|exact Ho].
      cbn. apply Forall_app. split; [exact Ho|].
      constructor; [eapply restorable_filed; exact E|constructor].
    - destruct (restorable d item); [|exact Hc]. exact Hc. }
  destruct (Hgen (loadedItems d) (emptyState d)) as [Ho Hc];
    [constructor|reflexivity|].
  split.
  - intros ref t Ht _. rewrite Forall_forall in Ho. apply Ho.
    eapply nth_error_In. exact Ht.
  - intros co c Hco. rewrite Hc in Hco. destruct co; discriminate Hco.
Qed.

(** A completed task always has a file path: [startDownload] assigns it
    before its first [await] and nothing takes it away, and the loader
    restores only tasks that have one.  So the test of the file path in
    [persistTasks] never leaves a completed task out: the snapshot holds
    every completed task of the task map. *)
Theorem completed_tasks_have_files : forall st,
  reachable st ->
  (forall t, In t (objs st) -> status t = Completed ->
     exists path, filePath t = Some path /\ path <> [])
  /\ completedTasks st
     = map projection
         (filter (fun t => Status_eqb (status t) Completed) (getAllTasks st)).
Proof.
  intros st [d Hr].
  assert (HJ : completedHaveFiles st).
  { induction Hr as [|st a Hr IH].
    - apply completedHaveFiles_initOnStartup.
    - apply (leads_perform a (st := st)). split; [exact IH|exact I]. }
  assert (Hfile : forall t, In t (objs st) -> status t = Completed ->
                    hasFilePath t = true).
  { intros t Hin Hs. apply In_nth_error in Hin as [ref Ht].
    apply (proj1 HJ ref t Ht Hs). }
  split.
  - intros t Hin Hs. specialize (Hfile t Hin Hs). unfold hasFilePath in Hfile.
    destruct (filePath t) as [path|]; [|discriminate Hfile].
    exists path. split; [reflexivity|]. intros ->. discriminate Hfile.
  - unfold completedTasks. f_equal. apply filter_ext_in. intros t Hin.
    destruct (Status_eqb (status t) Completed) eqn:Hs; [|reflexivity].
    cbn [andb]. apply Hfile; [apply getAllTasks_objs; exact Hin|].
    apply Status_eqb_eq. exact Hs.
Qed.

(** *** Where the files of the tasks are *)

Lemma isSafeChar_noSlash : forall c,
  isSafeChar c = true -> negb (c =? ch_slash)%N = true.
Proof.
  intros c H. destruct (c =? ch_slash)%N eqn:E; [|reflexivity].
  apply N.eqb_eq in E. subst c. vm_compute in H. discriminate H.
Qed.

(** What the sanitizer returns is a plain name. *)
Lemma plainName_safe : forall value label segment,
  safePathSegment value label = Ok segment -> plainName segment.
Proof.
  intros value label segment H.
  destruct (safePathSegment_result _ _ H) as [Hr Hs]. split.
  - unfold noSlash. apply forallb_forall. intros c Hin.
    apply isSafeChar_noSlash.
    rewrite forallb_forall in Hs. apply Hs, Hin.
  - unfold refused in Hr. repeat split; intro E; apply Hr; auto.
Qed.

Lemma placedStep_same : forall st st',
  objs st' = objs st -> coroutines st' = coroutines st -> placedStep st st'.
Proof.
  intros st st' Ho Hc. split; [rewrite Ho; reflexivity|split].
  - intros ref t t' Ht Ht'. left. rewrite Ho in Ht'. congruence.
  - intros c Hin. left. rewrite Hc in Hin. apply in_map. exact Hin.
Qed.

Lemma placedStep_refl : forall st, placedStep st st.
Proof. intro st. apply placedStep_same; reflexivity. Qed.

Lemma placedStep_there : forall st st' ref t,
  List.length (objs st') = List.length (objs st) ->
  nth_error (objs st) ref = Some t ->
  exists t', nth_error (objs st') ref = Some t'.
Proof.
  intros st st' ref t Hl Ht.
  destruct (nth_error (objs st') ref) as [t'|] eqn:E; [exists t'; reflexivity|].
  exfalso. apply nth_error_None in E.
  assert (Hlt : (ref < List.length (objs st))%nat)
    by (apply nth_error_Some; congruence).
  rewrite Hl in E. exact (proj1 (Nat.lt_nge _ _) Hlt E).
Qed.

Lemma placedAt_step : forall ref st st',
  placedStep st st' -> placedAt ref st -> placedAt ref st'.
Proof.
  intros ref st st' (Hl & Ho & _) (t & Ht & Hw).
  destruct (placedStep_there st st' ref Hl Ht) as [t' Ht'].
  exists t'. split; [exact Ht'|].
  destruct (Ho _ _ _ Ht Ht') as [->|[_ H]]; assumption.
Qed.

Lemma placedStep_trans : forall a b c,
  placedStep a b -> placedStep b c -> placedStep a c.
Proof.
  intros a b c H1 H2.
  pose proof H1 as (L1 & O1 & C1). pose proof H2 as (L2 & O2 & C2).
  split; [congruence|split].
  - intros ref t t2 Ht Ht2.
    destruct (placedStep_there a b ref L1 Ht) as [t1 Ht1].
    destruct (O1 _ _ _ Ht Ht1) as [->|[Hw Hw1]];
      destruct (O2 _ _ _ Ht1 Ht2) as [->|[Hv Hv2]].
    + left. reflexivity.
    + right. split; assumption.
    + right. split; assumption.
    + right. split; assumption.
  - intros c0 Hin. destruct (C2 _ Hin) as [Hm|Hp]; [|right; exact Hp].
    apply in_map_iff in Hm as (c1 & Heq & Hin1).
    destruct (C1 _ Hin1) as [Hm1|Hp1].
    + left. rewrite <- Heq. exact Hm1.
    + right. rewrite <- Heq. eapply placedAt_step; [exact H2|exact Hp1].
Qed.

Lemma stepAt_refl : forall ref st, stepAt ref st st.
Proof. intros ref st _. apply placedStep_refl. Qed.

Lemma stepAt_trans : forall ref a b c,
  stepAt ref a b -> stepAt ref b c -> stepAt ref a c.
Proof.
  intros ref a b c H1 H2 Hp. eapply placedStep_trans; [apply H1, Hp|].
  apply H2. eapply placedAt_step; [apply H1, Hp|exact Hp].
Qed.

Lemma stepAt_same : forall ref st st',
  objs st' = objs st -> coroutines st' = coroutines st -> stepAt ref st st'.
Proof. intros ref st st' Ho Hc _. apply placedStep_same; assumption. Qed.

Ltac place_side :=
  first [ exact placedStep_refl | exact placedStep_trans
        | intros; apply placedStep_same; reflexivity ].

Ltac at_side :=
  first [ exact (@stepAt_refl _) | exact (@stepAt_trans _)
        | intros; apply stepAt_same; reflexivity ].

Ltac at_bind := apply keeps_bind; [exact (@stepAt_trans _)| |].

Ltac at_try := apply keeps_tryCatch; [exact (@stepAt_trans _)| |].

Lemma length_updateNth : forall (A : Type) (f : A -> A) n l,
  List.length (updateNth n f l) = List.length l.
Proof.
  intros A f n l. revert n.
  induction l as [|x l IH]; intros [|n]; cbn [updateNth List.length];
    try reflexivity.
  rewrite IH. reflexivity.
Qed.

(** An assignment to the task at [ref] that leaves it placed. *)
Lemma at_updateTask : forall ref f,
  (forall t, placed t -> placed (f t)) -> keeps (stepAt ref) (updateTask ref f).
Proof.
  intros ref f Hf st (t & Ht & Hw). unfold updateTask, modify. cbn [fst].
  split; [|split]; cbn [objs coroutines with_objs].
  - apply length_updateNth.
  - intros r t0 t' Ht0 Ht'.
    destruct (nth_error_updateNth_inv _ _ _ _ Ht') as (x & Hx & [->|[-> ->]]).
    + left. congruence.
    + right. assert (x = t) by congruence. subst x.
      assert (t0 = t) by congruence. subst t0.
      split; [exact Hw|apply Hf, Hw].
  - intros c Hin. left. apply in_map. exact Hin.
Qed.

(** The task read at [ref] is placed. *)
Lemma at_read : forall (B : Type) ref (k : DownloadTask -> M B),
  (forall t, placed t -> keeps (stepAt ref) (k t)) ->
  keeps (stepAt ref) (bind (readTask ref) k).
Proof.
  intros B ref k Hk st Hp. pose proof Hp as (t & Ht & Hw).
  unfold bind, readTask. rewrite Ht. exact (Hk t Hw st Hp).
Qed.

(** What goes on after a value was returned. *)
Lemma at_lift : forall (A B : Type) ref (r : result A) (k : A -> M B),
  (forall a, r = Ok a -> keeps (stepAt ref) (k a)) ->
  keeps (stepAt ref) (bind (lift r) k).
Proof.
  intros A B ref r k Hk st Hp. unfold bind, lift.
  destruct r as [a|e]; [exact (Hk a eq_refl st Hp)|apply placedStep_refl].
Qed.

Lemma at_notifyProgress : forall ref r, keeps (stepAt ref) (notifyProgress r).
Proof. intros ref r. apply keeps_notifyProgress; at_side. Qed.

Lemma place_setStage : forall co stage, keeps placedStep (setStage co stage).
Proof.
  intros co stage st. unfold setStage, modify. cbn [fst].
  split; [reflexivity|split]; cbn [objs coroutines with_coroutines].
  - intros ref t t' Ht Ht'. left. congruence.
  - intros c Hin. left.
    rewrite <- (map_updateNth co_task
                  (fun c0 => {| co_task := co_task c0;
                                co_timeout := co_timeout c0;
                                co_filePath := co_filePath c0;
                                co_stage := stage |}) co (coroutines st))
      by reflexivity.
    apply in_map. exact Hin.
Qed.

Lemma at_setStage : forall ref co stage, keeps (stepAt ref) (setStage co stage).
Proof. intros ref co stage st _. apply place_setStage. Qed.

(** The call is suspended with its task placed. *)
Lemma at_suspend : forall ref timeout path stage,
  keeps (stepAt ref)
    (suspend {| co_task := ref; co_timeout := timeout; co_filePath := path;
                co_stage := stage |}).
Proof.
  intros ref timeout path stage st Hp. unfold suspend, modify. cbn [fst].
  split; [reflexivity|split]; cbn [objs coroutines with_coroutines].
  - intros r t t' Ht Ht'. left. congruence.
  - intros c Hin. apply in_app_or in Hin as [Hin|[<-|[]]].
    + left. apply in_map. exact Hin.
    + right. exact Hp.
Qed.

Lemma placed_failed : forall message t,
  message <> js "Invalid path" ->
  placed t -> placed (set_error (Some message) (set_status Failed t)).
Proof.
  intros message t Hm [Hw He]. split; [exact Hw|].
  cbn [error set_error]. intros [= E]. exact (Hm E).
Qed.

Lemma at_catchBlock : forall ref timeout err,
  keeps (stepAt ref) (catchBlock ref timeout err).
Proof.
  intros ref timeout err. unfold catchBlock.
  at_bind; [apply keeps_readTask; at_side|intro task].
  at_bind; [apply keeps_modify; at_side|intros _].
  at_bind; [apply keeps_modify; at_side|intros _].
  at_bind; [apply keeps_clearTimeout; at_side|intros _].
  destruct (isAbortError err).
  - at_bind; [apply keeps_readTask; at_side|intro task'].
    destruct (Status_eqb (status task') Paused); [apply keeps_ret; at_side|].
    at_bind; [|intros _; apply at_notifyProgress].
    apply at_updateTask. intro t. apply placed_failed. discriminate.
  - at_bind; [|intros _; apply at_notifyProgress].
    apply at_updateTask. intro t. apply placed_failed. discriminate.
Qed.

Lemma at_complete : forall ref timeout,
  keeps (stepAt ref) (complete ref timeout).
Proof.
  intros ref timeout. unfold complete.
  at_try; [|intro e; apply at_catchBlock].
  at_bind; [apply at_updateTask; intros t H; exact H|intros _].
  at_bind; [apply keeps_persistTasks; at_side|intros _; apply at_notifyProgress].
Qed.

Section Places.
Hypothesis cwd_absolute : isAbsolute cwd = true.

(** The destination [startDownload] computes passes its containment
    test. *)
Lemma destination_beneath : forall a b v,
  plainName a -> plainName b -> plainName v ->
  beneathPackages (path_join [PACKAGES_DIR; a; b; v]) = true.
Proof.
  intros a b v Ha Hb Hv. unfold beneathPackages.
  apply beneath_join_names; try assumption.
  - intro E. pose proof (path_join_truthy [dataDir; js "packages"]) as H.
    unfold PACKAGES_DIR in E. rewrite E in H. discriminate H.
  - unfold PACKAGES_DIR. rewrite resolveStack_join; [discriminate|].
    split; [reflexivity|repeat split; discriminate].
Qed.

Lemma destinationDir_beneath : forall t dir,
  destinationDir t = Ok dir -> beneathPackages dir = true.
Proof.
  intros t dir. unfold destinationDir.
  destruct (safePathSegment (accountHash t) (js "accountHash")) as [a|] eqn:Ea;
    [|discriminate].
  destruct (safePathSegment (bundleID (software t)) (js "bundleID"))
    as [b|] eqn:Eb; [|discriminate].
  destruct (safePathSegment (version (software t)) (js "version"))
    as [v|] eqn:Ev; [|discriminate].
  intros [= <-].
  apply destination_beneath; eapply plainName_safe; eassumption.
Qed.

Lemma at_startDownload : forall ref now,
  keeps (stepAt ref) (startDownload ref now).
Proof.
  intros ref now. unfold startDownload.
  at_bind; [apply keeps_runTimeCleanup; at_side|intros _].
  at_bind; [apply keeps_runSpaceCleanup; at_side|intros _].
  at_bind; [apply keeps_newAbortController; at_side|intro controller].
  at_bind; [apply keeps_readTask; at_side|intro task0].
  at_bind; [apply keeps_modify; at_side|intros _].
  at_bind; [apply keeps_setTimeout_abort; at_side|intro timeout].
  at_bind;
    [apply at_updateTask; intros t [Hw He]; split;
       [exact Hw|cbn [error set_error]; discriminate]
    |intros _].
  at_bind; [apply at_notifyProgress|intros _].
  apply at_read. intros task [[Hid _] _].
  apply at_lift. intros a Ea.
  apply at_lift. intros b Eb.
  apply at_lift. intros v Ev.
  cbv zeta.
  assert (Hdir : beneathPackages (path_join [PACKAGES_DIR; a; b; v]) = true)
    by (apply destination_beneath; eapply plainName_safe; eassumption).
  unfold beneathPackages in Hdir. rewrite Hdir. cbn [negb].
  at_bind; [apply keeps_onDisk; at_side|intros _].
  at_bind.
  { apply at_updateTask. intros t [[Hn _] He]. split; [split|exact He].
    - exact Hn.
    - intros p [= <-]. apply beneathPackages_ipa; assumption. }
  intros _.
  at_try; [|intro e; apply at_catchBlock].
  at_bind; [apply keeps_readTask; at_side|intro task1].
  at_bind; [apply keeps_lift; at_side|intros _].
  at_bind; [apply keeps_newChunkedDownloader; at_side|intro downloader].
  at_bind; [apply keeps_modify; at_side|intros _].
  apply at_suspend.
Qed.

Lemma at_startDownload_detached : forall ref now,
  keeps (stepAt ref) (startDownload_detached ref now).
Proof.
  intros ref now. unfold startDownload_detached.
  at_try; [apply at_startDownload|intro e; apply keeps_ret; at_side].
Qed.

Lemma restoredFrom_fields : forall d t,
  restoredFrom d t ->
  status t = Completed /\ error t = None
  /\ exists item, In item (loadedItems d) /\ restorable d item = Some t
                  /\ item_filePath item = filePath t.
Proof.
  intros d t (item & Hin & Hr). pose proof Hr as Hr'.
  unfold restorable in Hr.
  destruct (item_id item) as [itemId|]; [|discriminate].
  destruct (item_status item) as [itemStatus|]; [|discriminate].
  destruct (item_filePath item) as [itemPath|] eqn:Ep; [|discriminate].
  destruct (negb (falsy itemId) && streq itemStatus (js "completed")
            && negb (falsy itemPath) && existsSync d itemPath);
    [|discriminate].
  injection Hr as <-. split; [reflexivity|split; [reflexivity|]].
  exists item. split; [exact Hin|]. split; [exact Hr'|]. exact Ep.
Qed.

Lemma placedOrRestored_step : forall d st st',
  placedStep st st' -> placedOrRestored d st -> placedOrRestored d st'.
Proof.
  intros d st st' Hs (Ja & Jb). pose proof Hs as (Hl & Ho & Hc). split.
  - intros t' Hin. apply In_nth_error in Hin as [ref Ht'].
    destruct (placedStep_there st' st ref (eq_sym Hl) Ht') as [t Ht].
    destruct (Ho _ _ _ Ht Ht') as [->|[_ Hw]]; [|left; exact Hw].
    apply Ja. eapply nth_error_In. exact Ht.
  - intros c Hin. destruct (Hc _ Hin) as [Hm|Hp]; [|exact Hp].
    apply in_map_iff in Hm as (c0 & Heq & Hin0). rewrite <- Heq.
    eapply placedAt_step; [exact Hs|apply Jb, Hin0].
Qed.

(** A task that is not completed is none of the restored ones. *)
Lemma placed_unless_completed : forall d st ref t,
  placedOrRestored d st -> nth_error (objs st) ref = Some t ->
  status t <> Completed -> placedAt ref st.
Proof.
  intros d st ref t (Ja & _) Ht Hs. exists t. split; [exact Ht|].
  destruct (Ja t (nth_error_In _ _ Ht)) as [Hw|Hr]; [exact Hw|].
  exfalso. apply Hs. apply (restoredFrom_fields Hr).
Qed.

Lemma placed_of_step : forall d ref (A : Type) (m : M A) st,
  keeps (stepAt ref) m -> placedAt ref st ->
  placedOrRestored d st -> placedOrRestored d (fst (m st)).
Proof.
  intros d ref A m st Hm Hp HJ.
  eapply placedOrRestored_step; [exact (Hm st Hp)|exact HJ].
Qed.

Lemma placed_of_keeps : forall d (A : Type) (m : M A),
  keeps placedStep m -> preserves (placedOrRestored d) m.
Proof.
  intros d A m Hm st HJ. eapply placedOrRestored_step; [apply Hm|exact HJ].
Qed.

Lemma placed_get : forall d (A : Type) (k : State -> M A),
  (forall st, placedOrRestored d st -> placedOrRestored d (fst (k st st))) ->
  preserves (placedOrRestored d) (bind get k).
Proof. intros d A k Hk st HJ. unfold bind, get. apply Hk, HJ. Qed.

(** A new task that is placed, and what goes on with it. *)
Lemma placed_addTask : forall d (A : Type) task (k : nat -> M A),
  placed task -> (forall ref, keeps (stepAt ref) (k ref)) ->
  preserves (placedOrRestored d) (bind (addTask task) k).
Proof.
  intros d A task k Hw Hk st (Ja & Jb). unfold bind, addTask. cbv zeta.
  match goal with |- placedOrRestored d (fst (k ?r ?s)) =>
    set (ref := r); set (st1 := s) end.
  assert (Hp : placedAt ref st1).
  { exists task. split; [|exact Hw]. subst st1 ref.
    cbn [objs with_tasks with_objs].
    rewrite nth_error_app2 by apply Nat.le_refl.
    rewrite Nat.sub_diag. reflexivity. }
  apply (placed_of_step (ref:=ref)); [apply Hk|exact Hp|].
  split.
  - intros t Hin. subst st1. cbn [objs with_tasks with_objs] in Hin.
    apply in_app_or in Hin as [Hin|[<-|[]]]; [apply Ja, Hin|left; exact Hw].
  - intros c Hin. subst st1. cbn [coroutines with_tasks with_objs] in Hin.
    destruct (Jb c Hin) as (t & Ht & Hwt). exists t. split; [|exact Hwt].
    cbn [objs with_tasks with_objs].
    rewrite nth_error_app1; [exact Ht|]. apply nth_error_Some. congruence.
Qed.

Lemma placed_perform : forall d a,
  preserves (placedOrRestored d) (perform a).
Proof.
  intros d
    [software accountHash downloadURL sinfs iTunesMetadata rnds nowISO now
    |taskId|taskId|taskId now|co settled|co settled|co info|timeout|now
    |taskId listener|taskId listener|d']; cbn [perform].
  - apply preserves_bind; [|intros _ st H; exact H].
    unfold createTask.
    do 4 (apply preserves_bind; [intros st H; exact H|intros _]).
    apply placed_addTask.
    + split; [split; [apply uuidv4_noSlash|discriminate]|discriminate].
    + intro ref.
      at_bind; [apply at_startDownload_detached|intros _; apply keeps_ret; at_side].
  - apply placed_of_keeps.
    apply keeps_bind;
      [exact placedStep_trans|apply keeps_deleteTask; place_side
      |intros _; apply keeps_ret; place_side].
  - apply preserves_bind; [|intros _ st H; exact H].
    unfold pauseTask. apply placed_get. intros st HJ.
    destruct (findTask st taskId) as [[ref task]|] eqn:Hf; [|exact HJ].
    destruct (negb (Status_eqb (status task) Downloading)) eqn:Hs; [exact HJ|].
    apply findTask_Some in Hf as [_ Ht].
    apply negb_false_iff, Status_eqb_eq in Hs.
    apply (placed_of_step (ref:=ref)); [| |exact HJ].
    + at_bind; [apply keeps_abortIfDownloading; at_side|intros _].
      at_bind; [apply at_updateTask; intros t H; exact H|intros _].
      at_bind; [apply at_notifyProgress|intros _; apply keeps_ret; at_side].
    + eapply placed_unless_completed; [exact HJ|exact Ht|].
      rewrite Hs. discriminate.
  - apply preserves_bind; [|intros _ st H; exact H].
    unfold resumeTask. apply placed_get. intros st HJ.
    destruct (findTask st taskId) as [[ref task]|] eqn:Hf; [|exact HJ].
    destruct (negb (Status_eqb (status task) Paused)) eqn:Hs; [exact HJ|].
    apply findTask_Some in Hf as [_ Ht].
    apply negb_false_iff, Status_eqb_eq in Hs.
    apply (placed_of_step (ref:=ref)); [| |exact HJ].
    + at_bind;
        [apply at_startDownload_detached|intros _; apply keeps_ret; at_side].
    + eapply placed_unless_completed; [exact HJ|exact Ht|].
      rewrite Hs. discriminate.
  - unfold afterDownload. apply placed_get. intros st HJ.
    destruct (nth_error (coroutines st) co) as [[ref timeout fp stage]|] eqn:Hc;
      [|exact HJ].
    assert (Hp : placedAt ref st)
      by (apply (proj2 HJ _ (nth_error_In _ _ Hc))).
    destruct stage; try exact HJ.
    apply (placed_of_step (ref:=ref)); [|exact Hp|exact HJ].
    destruct settled as [err|].
    + at_bind; [apply at_setStage|intros _; apply at_catchBlock].
    + at_bind; [apply keeps_readTask; at_side|intro task].
      at_bind; [apply keeps_modify; at_side|intros _].
      at_bind; [apply keeps_modify; at_side|intros _].
      at_bind; [apply keeps_clearTimeout; at_side|intros _].
      destruct (0 <? List.length (sinfs task))%nat.
      * at_bind; [apply at_updateTask; intros t H; exact H|intros _].
        at_bind; [apply at_notifyProgress|intros _; apply at_setStage].
      * at_bind; [apply at_setStage|intros _; apply at_complete].
  - unfold afterInject. apply placed_get. intros st HJ.
    destruct (nth_error (coroutines st) co) as [[ref timeout fp stage]|] eqn:Hc;
      [|exact HJ].
    assert (Hp : placedAt ref st)
      by (apply (proj2 HJ _ (nth_error_In _ _ Hc))).
    destruct stage; try exact HJ.
    apply (placed_of_step (ref:=ref)); [|exact Hp|exact HJ].
    at_bind; [apply at_setStage|intros _].
    destruct settled as [err|]; [apply at_catchBlock|apply at_complete].
  - unfold onProgress. apply placed_get. intros st HJ.
    destruct (nth_error (coroutines st) co) as [[ref timeout fp stage]|] eqn:Hc;
      [|exact HJ].
    assert (Hp : placedAt ref st)
      by (apply (proj2 HJ _ (nth_error_In _ _ Hc))).
    destruct stage; try exact HJ.
    apply (placed_of_step (ref:=ref)); [|exact Hp|exact HJ].
    at_bind; [|intros _; apply at_notifyProgress].
    apply at_updateTask. intros t H. cbv zeta.
    destruct (total info >? 0)%Z; exact H.
  - apply placed_of_keeps. apply keeps_timeoutFires; place_side.
  - apply placed_of_keeps. apply keeps_runTimeCleanup; place_side.
  - apply placed_of_keeps. apply keeps_addProgressListener; place_side.
  - apply placed_of_keeps. apply keeps_removeProgressListener; place_side.
  - apply placed_of_keeps. apply keeps_modify; place_side.
Qed.

Lemma placedOrRestored_initOnStartup : forall d,
  placedOrRestored d (initOnStartup d).
Proof.
  intro d. unfold initOnStartup.
  assert (Hgen : forall items st,
            (forall item, In item items -> In item (loadedItems d)) ->
            (forall t, In t (objs st) -> restoredFrom d t) ->
            coroutines st = [] ->
            let st' := fold_left
                         (fun st item =>
                            match restorable d item with
                            | Some task => fst (addTask task st)
                            | None => st
                            end) items st in
            (forall t, In t (objs st') -> restoredFrom d t)
            /\ coroutines st' = []).
  { induction items as [|item items IH]; intros st Hi Ho Hc; cbn [fold_left];
      [split; assumption|].
    apply IH.
    - intros item' Hin. apply Hi. right. exact Hin.
    - destruct (restorable d item) as [task|] eqn:E; [|exact Ho].
      cbn [fst addTask objs with_tasks with_objs]. intros t Hin.
      apply in_app_or in Hin as [Hin|[<-|[]]]; [apply Ho, Hin|].
      exists item. split; [apply Hi; left; reflexivity|exact E].
    - destruct (restorable d item); exact Hc. }
  destruct (Hgen (loadedItems d) (emptyState d)) as [Ho Hc].
  - intros item Hin. exact Hin.
  - intros t [].
  - reflexivity.
  - split.
    + intros t Hin. right. apply Ho, Hin.
    + intros c Hin. rewrite Hc in Hin. destruct Hin.
Qed.

Lemma placedOrRestored_reachableFrom : forall d st,
  reachableFrom (initOnStartup d) st -> placedOrRestored d st.
Proof.
  intros d st Hr. induction Hr as [|st a Hr IH].
  - apply placedOrRestored_initOnStartup.
  - apply placed_perform. exact IH.
Qed.

End Places.

(** C2, as the code has it.  When the working directory is absolute (as
    [process.cwd()] is), the destination directory that [startDownload]
    computes from the sanitized segments always passes its containment
    test: resolved, it begins with the resolved packages directory and the
    separator.  So in every state reached, a task whose [filePath] is set
    has it beneath the packages directory, or is a task that the loader
    restored from [tasks.json] and that has not changed since, whose
    [filePath] is the one of its item in the file, taken as it is; and no
    task has the error "Invalid path": the branch of [startDownload] that
    assigns it is never taken. *)
Theorem filePath_beneath_packages :
  isAbsolute cwd = true ->
  (forall t dir,
     destinationDir t = Ok dir ->
     startsWith (path_resolve cwd dir)
       (path_resolve cwd PACKAGES_DIR ++ path_sep) = true)
  /\ (forall d st,
        reachableFrom (initOnStartup d) st ->
        forall t p, In t (objs st) -> filePath t = Some p ->
          startsWith (path_resolve cwd p)
            (path_resolve cwd PACKAGES_DIR ++ path_sep) = true
          \/ exists item,
               In item (loadedItems d) /\ restorable d item = Some t
               /\ item_filePath item = Some p)
  /\ (forall st, reachable st ->
        forall t, In t (objs st) -> error t <> Some (js "Invalid path")).
Proof.
  intro Hcwd. split; [|split].
  - intros t dir Hd. exact (@destinationDir_beneath Hcwd t dir Hd).
  - intros d st Hr t p Hin Hp.
    destruct (@placedOrRestored_reachableFrom Hcwd d st Hr) as [Ja _].
    destruct (Ja t Hin) as [[[_ Hb] _]|Hrest].
    + left. exact (Hb p Hp).
    + right.
      destruct (restoredFrom_fields Hrest) as (_ & _ & item & Hi & Hre & Hf).
      exists item. split; [exact Hi|]. split; [exact Hre|]. congruence.
  - intros st [d Hr] t Hin.
    destruct (@placedOrRestored_reachableFrom Hcwd d st Hr) as [Ja _].
    destruct (Ja t Hin) as [[_ He]|Hrest]; [exact He|].
    destruct (restoredFrom_fields Hrest) as (_ & He & _).
    rewrite He. discriminate.
Qed.

End ManagerProperties.

(** * Examples *)

(** Ten bytes over four threads: chunks of three bytes and a last one of
    one byte. *)
Lemma splitChunks_spec_witness :
  splitChunks 4 10
  = [{| index := 0; start := 0; end_ := 2 |};
     {| index := 1; start := 3; end_ := 5 |};
     {| index := 2; start := 6; end_ := 8 |};
     {| index := 3; start := 9; end_ := 9 |}]
  /\ (forall byte,
        (exists c, In c (splitChunks 4 10) /\ covers c byte)
        <-> (0 <= byte <= 10 - 1)%Z).
Proof.
  split; [reflexivity|].
  pose proof (@splitChunks_spec 10 4 ltac:(lia) ltac:(lia)) as Hspec.
  cbv zeta in Hspec. apply Hspec.
Defined.

Lemma downloadChunk_exhausted_witness :
  downloadChunk alwaysFailing {| index := 0; start := 0; end_ := 99 |}
  = (allAttempts {| index := 0; start := 0; end_ := 99 |},
     Threw (newError (js "Chunk 0: HTTP 500"))).
Proof.
  apply (@downloadChunk_exhausted alwaysFailing _
           (newError (js "Chunk 0: HTTP 500"))
           (newError (js "Chunk 0: HTTP 500"))
           (newError (js "Chunk 0: HTTP 500")));
    try reflexivity; repeat split; try reflexivity; discriminate.
Defined.

Lemma downloadChunk_aborted_flag_witness :
  abortedAtStart pausedDuringDelay 1 = true
  /\ filter (isFetchFrom 1)
       (fst (downloadChunk pausedDuringDelay
               {| index := 0; start := 0; end_ := 99 |})) = [].
Proof.
  split; [reflexivity|].
  apply (@downloadChunk_aborted_flag pausedDuringDelay). reflexivity.
Defined.


Lemma safePathSegment_spec_witness :
  safePathSegment (js "com.example/app") (js "bundleID")
  = Ok (js "com.example_app")
  /\ safePathSegment (js "..") (js "version") = Throw (js "Invalid version").
Proof.
  split.
  - destruct (safePathSegment_spec (js "com.example/app") (js "bundleID"))
      as (_ & _ & H & _).
    apply H; [intros [E|[E|E]]; discriminate E | reflexivity
             | intros [E|[E|E]]; discriminate E].
  - destruct (safePathSegment_spec (js "..") (js "version")) as (H & _).
    apply H. right. right. reflexivity.
Defined.

Lemma safePathSegment_idempotent_witness :
  safePathSegment (js "com.example/app") (js "bundleID")
  = Ok (js "com.example_app")
  /\ safePathSegment (js "com.example_app") (js "bundleID")
     = Ok (js "com.example_app").
Proof.
  assert (H : safePathSegment (js "com.example/app") (js "bundleID")
              = Ok (js "com.example_app")) by reflexivity.
  split; [exact H|].
  exact (safePathSegment_idempotent _ _ (js "bundleID") H).
Defined.

Lemma validateDownloadURL_spec_witness :
  validateDownloadURL (parser:=exampleUrlParser)
    (js "https://iosapps.itunes.apple.com/app.ipa") = Ok tt
  /\ (exists parsed,
        new_URL (UrlParser:=exampleUrlParser)
          (js "https://iosapps.itunes.apple.com/app.ipa") = Some parsed
        /\ protocol parsed = js "https:"
        /\ endsWithIgnoringCase (hostname parsed) (js ".apple.com")
        /\ ~ dottedDecimal (hostname parsed)
        /\ startsWith (hostname parsed) (js "[") = false)
  /\ validateDownloadURL (parser:=exampleUrlParser)
       (js "https://17.253.144.10/app.ipa")
     = Throw (js "Download URL must be from an Apple domain (*.apple.com)").
Proof.
  assert (Hok : validateDownloadURL (parser:=exampleUrlParser)
                  (js "https://iosapps.itunes.apple.com/app.ipa") = Ok tt)
    by reflexivity.
  split; [exact Hok|]. split.
  - exact (proj2 (proj2 (validateDownloadURL_spec (parser:=exampleUrlParser) _))
             Hok).
  - reflexivity.
Defined.


Lemma readIpaMetadata_ignores_watch_witness :
  match readIpaMetadata (libs:=manifestPlistLibs) (Ok exampleWatchArchive),
        readIpaMetadata (libs:=manifestPlistLibs)
          (Ok (withoutWatch exampleWatchArchive)) with
  | Ok meta, Ok meta' =>
      bundleName meta = js "Demo"
      /\ bundleName meta = bundleName meta' /\ info meta = info meta'
  | _, _ => False
  end.
Proof.
  assert (H1 : libraryError (Ok exampleWatchArchive)
               = None) by reflexivity.
  assert (H2 : libraryError (Ok (withoutWatch exampleWatchArchive)) = None)
    by reflexivity.
  pose proof (readIpaMetadata_ignores_watch (libs:=manifestPlistLibs) _ H1 H2)
    as H.
  destruct (readIpaMetadata (libs:=manifestPlistLibs) (Ok exampleWatchArchive))
    as [meta|e] eqn:E1;
    [|vm_compute in E1; discriminate E1].
  destruct (readIpaMetadata (libs:=manifestPlistLibs)
              (Ok (withoutWatch exampleWatchArchive))) as [meta'|e'];
    [|exact H].
  split; [|exact H].
  vm_compute in E1. injection E1 as <-. reflexivity.
Defined.

Lemma downloadPlan_chunked_witness :
  downloadPlan 4 exampleHead = Chunked 10 (splitChunks 4 10)
  /\ (Z.of_nat (List.length (splitChunks 4 10)) <= 4)%Z
  /\ exists j c,
       nth_error (splitChunks 4 10) j = Some c /\ covers c 7
       /\ forall j' c', nth_error (splitChunks 4 10) j' = Some c' ->
            covers c' 7 -> j' = j.
Proof.
  assert (H : downloadPlan 4 exampleHead = Chunked 10 (splitChunks 4 10))
    by reflexivity.
  split; [exact H|].
  destruct (downloadPlan_chunked _ _ H) as (_ & _ & _ & _ & Hc & Hb & _).
  split; [exact Hc|]. apply Hb. lia.
Defined.

(** A second attempt on a range of three bytes, after a first one that
    got two bytes: a body of two, three and four bytes, and a body whose
    first value has seven. *)
Lemma readChunkStream_spec_witness :
  let streamed :=
    readChunkStream (expectedBytes exampleChunk) [2; 3; 4]%N None 0 2 in
  let refused :=
    readChunkStream (expectedBytes exampleChunk) [7; 1]%N None 0 2 in
  pushed streamed = [2; 3]%N /\ counted streamed = 5%N
  /\ streamEnd streamed = ExceededSize
  /\ pushed refused = [] /\ counted refused = 2%N.
Proof.
  assert (He : (0 <= expectedBytes exampleChunk)%Z) by (vm_compute; discriminate).
  destruct (readChunkStream_spec exampleChunk [2; 3; 4]%N None 2%N He)
    as (_ & _ & Hc & _ & Hx).
  destruct (readChunkStream_spec exampleChunk [7; 1]%N None 2%N He)
    as (_ & _ & Hc' & _).
  cbv zeta. split; [reflexivity|]. split; [rewrite Hc; reflexivity|].
  split; [apply Hx; vm_compute; reflexivity|].
  split; [reflexivity|]. rewrite Hc'. reflexivity.
Defined.

Section ExampleZip.
#[local] Existing Instance exampleZipPlatform.

Lemma addFilesToZip_contained_witness :
  (exists e,
     snd (addFilesToZip (js "/data/app.ipa")
            [exampleSinfFile; exampleTraversal]) = Throw e)
  /\ forall c args,
       ~ In (Zip c args)
            (fst (addFilesToZip
                    (js "/data/app.ipa") [exampleSinfFile; exampleTraversal])).
Proof.
  assert (Hm : mkdtemp
                 (path_join [os_tmpdir; js "sinf-"]) = Ok exampleTmpDir)
    by (vm_compute; reflexivity).
  destruct (addFilesToZip_contained
              (js "/data/app.ipa") [exampleSinfFile; exampleTraversal] Hm)
    as [_ Hbad].
  apply Hbad. vm_compute. reflexivity.
Defined.

Lemma addFilesToZip_plain_witness :
  addFilesToZip (js "/data/app.ipa")
    [exampleSinfFile]
  = ([Mkdtemp (js "/tmp/sinf-");
      Mkdir (js "/tmp/sinf-Ab12Cd/Payload/Demo.app/SC_Info");
      WriteFile (js "/tmp/sinf-Ab12Cd/Payload/Demo.app/SC_Info/Demo.sinf")
        [1; 2; 3]%N;
      Zip exampleTmpDir
        [js "-0"; js "/data/app.ipa"; js "--";
         js "Payload/Demo.app/SC_Info/Demo.sinf"];
      Rm exampleTmpDir],
     Ok tt).
Proof.
  assert (Hm : mkdtemp
                 (path_join [os_tmpdir; js "sinf-"]) = Ok exampleTmpDir)
    by (vm_compute; reflexivity).
  assert (Ha : isAbsolute exampleTmpDir = true) by reflexivity.
  assert (Hroot : path_resolve process_cwd
                    exampleTmpDir <> js "/")
    by (vm_compute; discriminate).
  assert (Hnofail : forall log c,
            failing log c = None)
    by reflexivity.
  assert (Hplain : Forall (fun file => plainPath (entryPath file))
                     [exampleSinfFile]).
  { constructor; [|constructor]. unfold plainPath. vm_compute.
    repeat constructor; discriminate. }
  rewrite (addFilesToZip_plain
             (js "/data/app.ipa") Hm Ha Hroot Hnofail Hplain).
  vm_compute. reflexivity.
Defined.

End ExampleZip.

Section ExampleStates.
#[local] Existing Instance exampleFs.
#[local] Existing Instance exampleProcess.
#[local] Existing Instance exampleUrlParser.

Lemma exampleCompleted_reachable : reachable exampleCompleted.
Proof. exists emptyDisk. unfold exampleCompleted, exampleDownloading. repeat constructor. Qed.



Lemma persistTasks_spec_witness :
  persistTasks exampleCompleted = (examplePersisted, Ok tt)
  /\ exists snapshot,
       written examplePersisted = written exampleCompleted ++ [snapshot]
       /\ List.length snapshot = 1
       /\ forall e, In e snapshot <->
            exists t, In t (getAllTasks exampleCompleted)
                      /\ status t = Completed
                      /\ (exists p, filePath t = Some p /\ p <> [])
                      /\ e = projection t.
Proof.
  assert (Hp : persistTasks exampleCompleted = (examplePersisted, Ok tt))
    by (vm_compute; reflexivity).
  split; [exact Hp|].
  destruct (persistTasks_spec _ Hp) as (snapshot & Hw & Hs & Hin & _).
  exists snapshot. split; [exact Hw|]. split; [|exact Hin].
  rewrite Hs. vm_compute. reflexivity.
Defined.

(** The file of a completed task has been removed from the disk, and the
    snapshot still holds the task: the array that [persistTasks] writes is
    not the one of the completed tasks whose file exists.  So it is when
    the download of a second task completes and [startDownload] writes the
    snapshot. *)
Lemma persistTasks_keeps_missing_file :
  reachable exampleFileGone
  /\ (exists t, In t (getAllTasks exampleFileGone)
                /\ status t = Completed
                /\ filePath t = Some exampleFilePath
                /\ existsSync (disk exampleFileGone) exampleFilePath = false
                /\ In (projection t) (completedTasks exampleFileGone))
  /\ written (fst (persistTasks exampleFileGone))
     = written exampleFileGone ++ [completedTasks exampleFileGone]
  /\ completedTasks exampleFileGone <> completedTasks_spec exampleFileGone
  /\ reachable exampleSecondCompleted
  /\ existsSync (disk exampleSecondDownloading) exampleFilePath = false
  /\ (exists t snapshot,
        In t (getAllTasks exampleSecondDownloading)
        /\ filePath t = Some exampleFilePath
        /\ written exampleSecondCompleted
           = written exampleSecondDownloading ++ [snapshot]
        /\ In (projection t) snapshot).
Proof.
  assert (Hgone : reachable exampleFileGone).
  { destruct exampleCompleted_reachable as [d Hr]. exists d.
    unfold exampleFileGone. constructor. exact Hr. }
  split; [exact Hgone|].
  cut ((exists t, In t (getAllTasks exampleFileGone)
                /\ status t = Completed
                /\ filePath t = Some exampleFilePath
                /\ existsSync (disk exampleFileGone) exampleFilePath = false
                /\ In (projection t) (completedTasks exampleFileGone))
       /\ written (fst (persistTasks exampleFileGone))
          = written exampleFileGone ++ [completedTasks exampleFileGone]
       /\ completedTasks exampleFileGone <> completedTasks_spec exampleFileGone).
  { intros (H1 & H2 & H3). split; [exact H1|]. split; [exact H2|].
    split; [exact H3|]. split.
    { destruct Hgone as [d Hr]. exists d.
      unfold exampleSecondCompleted, exampleSecondDownloading.
      constructor. constructor. exact Hr. }
    split; [vm_compute; reflexivity|].
    destruct (getAllTasks exampleSecondDownloading) as [|t l] eqn:Hg;
      [vm_compute in Hg; discriminate Hg|].
    exists t, (last (written exampleSecondCompleted) []).
    split; [left; reflexivity|].
    vm_compute in Hg. injection Hg as <- _.
    split; [reflexivity|]. split; [vm_compute; reflexivity|].
    vm_compute. left. reflexivity. }
  split.
  { destruct (getAllTasks exampleFileGone) as [|t l] eqn:Hg;
      [vm_compute in Hg; discriminate Hg|].
    exists t. split; [left; reflexivity|].
    assert (Ht : status t = Completed /\ filePath t = Some exampleFilePath
                 /\ In (projection t) (completedTasks exampleFileGone)).
    { vm_compute in Hg. injection Hg as <- _. repeat split.
      vm_compute. left. reflexivity. }
    destruct Ht as (H1 & H2 & H3).
    split; [exact H1|]. split; [exact H2|]. split; [|exact H3].
    vm_compute. reflexivity. }
  split; [vm_compute; reflexivity|].
  vm_compute. discriminate.
Qed.

(** A snapshot that names an existing file outside the packages directory:
    the restored task has that file as its [filePath]. *)
Lemma restored_filePath_outside_packages :
  reachable (initOnStartup (fs:=exampleFs) foreignDisk)
  /\ exists t,
       In t (objs (initOnStartup (fs:=exampleFs) foreignDisk))
       /\ filePath t = Some (js "/etc/hostname")
       /\ startsWith (path_resolve cwd (js "/etc/hostname"))
            (path_resolve cwd PACKAGES_DIR ++ path_sep) = false.
Proof.
  split; [eexists; constructor|].
  destruct (objs (initOnStartup (fs:=exampleFs) foreignDisk)) as [|t l] eqn:Ho;
    [vm_compute in Ho; discriminate Ho|].
  exists t. split; [left; reflexivity|].
  vm_compute in Ho. injection Ho as <- _. split; vm_compute; reflexivity.
Qed.

Lemma filePath_beneath_packages_witness :
  isAbsolute cwd = true
  /\ reachable exampleMixed
  /\ (exists t dir,
        In t (objs exampleMixed)
        /\ filePath t = Some exampleFilePath
        /\ startsWith (path_resolve cwd exampleFilePath)
             (path_resolve cwd PACKAGES_DIR ++ path_sep) = true
        /\ destinationDir t = Ok dir
        /\ startsWith (path_resolve cwd dir)
             (path_resolve cwd PACKAGES_DIR ++ path_sep) = true)
  /\ (forall t, In t (objs exampleMixed) ->
        error t <> Some (js "Invalid path")).
Proof.
  assert (Hcwd : isAbsolute cwd = true) by reflexivity.
  destruct (filePath_beneath_packages (fs:=exampleFs) Hcwd)
    as (Hdest & Hfile & Herr).
  assert (Hr : reachableFrom (initOnStartup (fs:=exampleFs) foreignDisk)
                 exampleMixed)
    by (apply reachable_step; apply reachable_start).
  split; [exact Hcwd|].
  split; [exists foreignDisk; exact Hr|].
  split.
  - destruct (nth_error (objs exampleMixed) 1) as [t|] eqn:Ht;
      [|vm_compute in Ht; discriminate Ht].
    assert (Hin : In t (objs exampleMixed))
      by (eapply nth_error_In; exact Ht).
    assert (Hp : filePath t = Some exampleFilePath).
    { vm_compute in Ht. injection Ht as <-. reflexivity. }
    destruct (destinationDir t) as [dir|e] eqn:Hd.
    2:{ exfalso. vm_compute in Ht. injection Ht as <-.
        vm_compute in Hd. discriminate Hd. }
    exists t, dir. split; [exact Hin|]. split; [exact Hp|].
    split; [|split; [exact Hd|exact (Hdest t dir Hd)]].
    destruct (Hfile _ _ Hr t _ Hin Hp) as [H|(item & Hi & _ & Hf)];
      [exact H|].
    exfalso. vm_compute in Hi. destruct Hi as [<-|[]].
    vm_compute in Hf. discriminate Hf.
  - intros t Hin. exact (Herr exampleMixed (ex_intro _ foreignDisk Hr) t Hin).
Defined.

(** A completed task can be neither paused nor resumed, and a task that
    does not exist cannot be deleted. *)
Lemma lifecycle_noop_witness :
  (exists t, getTask exampleCompleted exampleTaskId = Some t
             /\ status t = Completed)
  /\ pauseTask exampleTaskId exampleCompleted = (exampleCompleted, Ok false)
  /\ resumeTask exampleTaskId 0 exampleCompleted = (exampleCompleted, Ok false)
  /\ deleteTask (js "unknown") exampleCompleted = (exampleCompleted, Ok false).
Proof.
  destruct (getTask exampleCompleted exampleTaskId) as [t|] eqn:Hg;
    [|vm_compute in Hg; discriminate Hg].
  assert (Hs : status t = Completed).
  { vm_compute in Hg. injection Hg as <-. reflexivity. }
  destruct (lifecycle_noop exampleCompleted exampleTaskId 0) as (Hp & Hr & _).
  destruct (lifecycle_noop exampleCompleted (js "unknown") 0) as (_ & _ & Hd).
  split; [exists t; split; [reflexivity|exact Hs]|].
  split; [|split].
  - apply Hp. intros (t' & Ht' & Hs'). rewrite Hg in Ht'.
    injection Ht' as <-. rewrite Hs in Hs'. discriminate Hs'.
  - apply Hr. intros (t' & Ht' & Hs'). rewrite Hg in Ht'.
    injection Ht' as <-. rewrite Hs in Hs'. discriminate Hs'.
  - apply Hd. vm_compute. reflexivity.
Defined.

Lemma pauseTask_pauses_witness :
  exists t st',
    findTask exampleDownloading exampleTaskId = Some (0, t)
    /\ status t = Downloading
    /\ pauseTask exampleTaskId exampleDownloading = (st', Ok true)
    /\ nth_error (objs st') 0 = Some (set_status Paused t)
    /\ controllers st' = [true].
Proof.
  destruct (findTask exampleDownloading exampleTaskId) as [[ref t]|] eqn:Hf;
    [|vm_compute in Hf; discriminate Hf].
  assert (Hr : ref = 0 /\ status t = Downloading).
  { vm_compute in Hf. injection Hf as <- <-. split; reflexivity. }
  destruct Hr as [-> Hs].
  destruct (pauseTask_pauses _ _ Hf Hs) as (st' & E & Ho & _ & _ & _ & Hc & _).
  exists t, st'. split; [reflexivity|]. split; [exact Hs|].
  split; [exact E|]. split; [exact Ho|].
  apply (Hc 0). vm_compute. reflexivity.
Defined.

Lemma resumeTask_resumes_witness :
  exists t,
    findTask examplePaused exampleTaskId = Some (0, t)
    /\ status t = Paused
    /\ resumeTask exampleTaskId 0 examplePaused
       = (fst (startDownload 0 0 examplePaused), Ok true)
    /\ option_map status (nth_error (objs (fst (startDownload 0 0 examplePaused))) 0)
       = Some Downloading.
Proof.
  destruct (findTask examplePaused exampleTaskId) as [[ref t]|] eqn:Hf;
    [|vm_compute in Hf; discriminate Hf].
  assert (Hr : ref = 0 /\ status t = Paused).
  { vm_compute in Hf. injection Hf as <- <-. split; reflexivity. }
  destruct Hr as [-> Hs].
  exists t. split; [reflexivity|]. split; [exact Hs|].
  split; [exact (resumeTask_resumes _ _ 0 Hf Hs)|].
  vm_compute. reflexivity.
Defined.

Lemma addProgressListener_notifies_witness :
  exists t,
    nth_error (objs exampleDownloading) 0 = Some t
    /\ delivered (fst (notifyProgress 0 exampleListening))
       = delivered exampleDownloading ++ [(7, t)]
    /\ after (AddProgressListener exampleTaskId 7) exampleListening
       = exampleListening.
Proof.
  destruct (nth_error (objs exampleDownloading) 0) as [t|] eqn:Ht;
    [|vm_compute in Ht; discriminate Ht].
  assert (Hid : id t = exampleTaskId).
  { vm_compute in Ht. injection Ht as <-. reflexivity. }
  destruct (addProgressListener_notifies exampleDownloading 7 0 Ht Hid)
    as [(listeners & Ha & _ & Hfresh & Hd) Hagain].
  exists t. split; [reflexivity|]. split; [|exact Hagain].
  assert (Hl : listeners = [7]).
  { vm_compute in Ha. injection Ha as <-. reflexivity. }
  rewrite Hl in Hd. exact Hd.
Defined.

Lemma removeProgressListener_silences_witness :
  exists t,
    nth_error (objs exampleListening) 0 = Some t
    /\ ~ registered (after (RemoveProgressListener exampleTaskId 7)
                       exampleListening) exampleTaskId 7
    /\ assoc exampleTaskId
         (progressListeners (after (RemoveProgressListener exampleTaskId 7)
                               exampleListening)) <> Some [].
Proof.
  destruct (nth_error (objs exampleListening) 0) as [t|] eqn:Ht;
    [|vm_compute in Ht; discriminate Ht].
  assert (Hid : id t = exampleTaskId).
  { vm_compute in Ht. injection Ht as <-. reflexivity. }
  destruct (removeProgressListener_silences exampleListening 7 0 Ht Hid)
    as (_ & Hgone & Hne).
  exists t. split; [reflexivity|]. split; [exact Hgone|exact Hne].
Defined.

Lemma deleteTask_deletes_witness :
  exists st',
    deleteTask exampleTaskId exampleCompleted = (st', Ok true)
    /\ getTask st' exampleTaskId = None
    /\ objs st' = objs exampleCompleted
    /\ written st' = written exampleCompleted ++ [completedTasks st'].
Proof.
  assert (Hg : getTask exampleCompleted exampleTaskId <> None)
    by (vm_compute; discriminate).
  destruct (deleteTask exampleTaskId exampleCompleted) as [st' [b|e]] eqn:Hd;
    [|vm_compute in Hd; discriminate Hd].
  destruct (deleteTask_deletes _ _ Hg Hd) as (-> & Ho & _ & Hgone & _ & _ & _ & _ & _ & Hw).
  exists st'. split; [reflexivity|]. split; [exact Hgone|].
  split; [exact Ho|exact Hw].
Defined.

Lemma deleteTask_spares_outside_witness :
  snd (deleteTask (js "x") exampleForeign) = Ok true
  /\ existsSync (disk (fst (deleteTask (js "x") exampleForeign)))
       (js "/etc/hostname") = true.
Proof.
  destruct (findTask exampleForeign (js "x")) as [[ref task]|] eqn:Hf;
    [|vm_compute in Hf; discriminate Hf].
  assert (Hp : filePath task = Some (js "/etc/hostname")).
  { vm_compute in Hf. injection Hf as _ <-. reflexivity. }
  assert (Hb : beneathPackages (js "/etc/hostname") = false)
    by (vm_compute; reflexivity).
  destruct (deleteTask_spares_outside _ _ Hf Hp Hb) as (st1 & E1 & Hw).
  assert (Hs : st1 = exampleForeign).
  { vm_compute in E1. injection E1 as <-. vm_compute. reflexivity. }
  subst st1.
  destruct (writeFileSync_json (disk exampleForeign) TASKS_FILE
              (completedTasks
                 (with_tasks (map_delete (js "x")
                                (tasks exampleForeign))
                    exampleForeign))) as [d|e] eqn:Ew;
    [|vm_compute in Ew; discriminate Ew].
  destruct Hw as [Hr Hdisk]. split; [exact Hr|].
  rewrite Hdisk. vm_compute in Ew. injection Ew as <-. reflexivity.
Defined.

Lemma identity_never_changes_witness :
  exists t t',
    nth_error (objs exampleDownloading) 0 = Some t
    /\ nth_error (objs exampleSecondCompleted) 0 = Some t'
    /\ identity t' = identity t.
Proof.
  assert (Hr : reachableFrom exampleDownloading exampleSecondCompleted).
  { unfold exampleSecondCompleted, exampleSecondDownloading, exampleFileGone,
      exampleCompleted.
    repeat constructor. }
  destruct (nth_error (objs exampleDownloading) 0) as [t|] eqn:Ht;
    [|vm_compute in Ht; discriminate Ht].
  destruct (identity_never_changes Hr _ Ht) as (t' & Ht' & Hid).
  exists t, t'. split; [reflexivity|]. split; [exact Ht'|exact Hid].
Defined.

Lemma restart_restores_witness :
  getAllTasks (startup (disk exampleCompleted) (disk exampleCompleted) 0)
  = map restoredOf (completedTasks exampleCompleted)
  /\ List.length (completedTasks exampleCompleted) = 1.
Proof.
  assert (He : existsSync (disk exampleCompleted) TASKS_FILE = true)
    by (vm_compute; reflexivity).
  assert (Hr : readFileSync_json (disk exampleCompleted) TASKS_FILE
               = Ok (Some (map (fun p => Some (itemOf p))
                             (completedTasks exampleCompleted))))
    by (vm_compute; reflexivity).
  assert (Hnd : NoDup (map p_id (completedTasks exampleCompleted))).
  { vm_compute. constructor; [intros []|constructor]. }
  assert (Hall : Forall persisted (completedTasks exampleCompleted)).
  { vm_compute. constructor; [|constructor].
    split; [discriminate|]. split; [reflexivity|].
    eexists. split; [reflexivity|discriminate]. }
  destruct (restart_restores (disk exampleCompleted) (disk exampleCompleted)
              0%Z He Hr Hnd Hall)
    as (Hall' & _ & Hsame & _).
  split; [|vm_compute; reflexivity].
  rewrite Hsame by (vm_compute; discriminate).
  rewrite Hall'. vm_compute. reflexivity.
Defined.

Lemma settled_download_cleared_witness :
  exists t,
    nth_error (objs exampleDownloaded) 0 = Some t
    /\ assoc (id t) (abortControllers exampleDownloaded) = Some 0
    /\ cleared (id t) 0 exampleCompleted.
Proof.
  assert (Hco : nth_error (coroutines exampleDownloaded) 0
                = Some {| co_task := 0; co_timeout := 0;
                          co_filePath := exampleFilePath;
                          co_stage := AwaitingDownload |})
    by (vm_compute; reflexivity).
  destruct (nth_error (objs exampleDownloaded) 0) as [t|] eqn:Ht;
    [|vm_compute in Ht; discriminate Ht].
  exists t. split; [reflexivity|].
  split; [vm_compute in Ht; injection Ht as <-; vm_compute; reflexivity|].
  exact (settled_download_cleared _ _ None Hco Ht).
Defined.

Lemma completed_tasks_have_files_witness :
  exists t path,
    nth_error (objs exampleCompleted) 0 = Some t
    /\ status t = Completed
    /\ filePath t = Some path /\ path <> [].
Proof.
  destruct (completed_tasks_have_files exampleCompleted_reachable) as [Hf _].
  destruct (nth_error (objs exampleCompleted) 0) as [t|] eqn:Ht;
    [|vm_compute in Ht; discriminate Ht].
  assert (Hs : status t = Completed).
  { vm_compute in Ht. injection Ht as <-. reflexivity. }
  destruct (Hf t (nth_error_In _ _ Ht) Hs) as (path & Hp & Hne).
  exists t, path. split; [reflexivity|]. split; [exact Hs|].
  split; [exact Hp|exact Hne].
Defined.

End ExampleStates.
